(** * LeanDoc: line lexer, recursive-descent parser and Typst generator

    A shallow embedding of the LeanDoc tool chain (LeanDocLexer2.cpp,
    LeanDocParser2.cpp, LeanDocAst2.h, LeanDocTypstGen.cpp) and the
    properties of its specification that can be stated over it.

    Conventions of the embedding:
    - a [QString] is a list of 8-bit code units (the Latin-1 range of
      [QChar]); indices and lengths are [Z], as the C++ [int]s they are,
      so that [indexOf] keeps its [-1] for "not found";
    - the token vector of the lexer is kept as the list of tokens that
      are still to be read, the synthetic EOF token being rebuilt from
      its line number whenever the parser peeks past the last line;
    - the exception thrown by [Parser::error] is the [Err] result;
    - loops that the C++ code does not bound by the input are given a
      fuel argument, which also bounds the nesting of the calls of
      [parseBlock]; [OutOfFuel] is the result of a run that did not
      finish within the fuel;
    - the stack and the heap of the program are not modelled: a result
      that needs deep nesting is one the program reaches only with a
      stack for it, and a run that has no result with any fuel is a
      program that gives neither a tree nor the ParseError of a call of
      [error] (it loops until an allocation fails). *)

From Stdlib Require Import String Ascii List ZArith Lia Bool Arith.
From Stdlib Require Import DecimalString.
Import ListNotations.
Local Open Scope Z_scope.

Set Implicit Arguments.

(* ===================================================================== *)
(** * QString *)
(* ===================================================================== *)

Module QStr.

Definition QChar := ascii.
Definition QString := list QChar.

(** String literals of the source. *)
Definition qs (s : string) : QString := list_ascii_of_string s.

Definition newline : QChar := "010"%char.
Definition dquote : QChar := "034"%char.
Definition backslash : QChar := "092"%char.

Definition code (c : QChar) : Z := Z.of_N (N_of_ascii c).

Definition ceq (a b : QChar) : bool := Ascii.eqb a b.

Fixpoint qeq (a b : QString) : bool :=
  match a, b with
  | [], [] => true
  | x :: a', y :: b' => ceq x y && qeq a' b'
  | _, _ => false
  end.

(** [QChar::isSpace]: U+0009..U+000D, U+0020, U+0085, U+00A0. *)
Definition isSpace (c : QChar) : bool :=
  let n := code c in
  ((9 <=? n) && (n <=? 13)) || (n =? 32) || (n =? 133) || (n =? 160).

(** [QChar::isLetterOrNumber] on the Latin-1 range. *)
Definition isLetterOrNumber (c : QChar) : bool :=
  let n := code c in
  ((65 <=? n) && (n <=? 90)) || ((97 <=? n) && (n <=? 122)) ||
  ((48 <=? n) && (n <=? 57)) ||
  (n =? 170) || (n =? 181) || (n =? 186) ||
  (n =? 178) || (n =? 179) || (n =? 185) ||
  ((188 <=? n) && (n <=? 190)) ||
  ((192 <=? n) && (n <=? 214)) || ((216 <=? n) && (n <=? 246)) ||
  ((248 <=? n) && (n <=? 255)).

(** [size()] of a string or a list. *)
Definition size {A : Type} (s : list A) : Z := Z.of_nat (length s).

(** [isEmpty()] of a string or a list. *)
Definition isEmpty {A : Type} (s : list A) : bool :=
  match s with [] => true | _ => false end.

(** [s[i]]; the source only indexes inside the string. *)
Definition at_ (s : QString) (i : Z) : QChar :=
  nth (Z.to_nat i) s zero.

(** [QString::mid(pos)]. *)
Definition mid (s : QString) (pos : Z) : QString :=
  if pos >? size s then [] else skipn (Z.to_nat pos) s.

(** [QString::mid(pos, n)], with Qt's clipping of the range. *)
Definition midn (s : QString) (pos n : Z) : QString :=
  if pos >? size s then []
  else if pos <? 0 then
    if (n <? 0) || (n + pos >=? size s) then s
    else if n + pos <=? 0 then []
    else firstn (Z.to_nat (n + pos)) s
  else if (n <? 0) || (n >? size s - pos) then skipn (Z.to_nat pos) s
  else firstn (Z.to_nat n) (skipn (Z.to_nat pos) s).

(** [QString::left(n)]. *)
Definition left (s : QString) (n : Z) : QString :=
  if (n >=? size s) || (n <? 0) then s else firstn (Z.to_nat n) s.

(** [QString::chop(n)]. *)
Definition chop (s : QString) (n : Z) : QString :=
  if n >=? size s then [] else
  if n <=? 0 then s else firstn (Z.to_nat (size s - n)) s.

Fixpoint dropSpaces (s : QString) : QString :=
  match s with
  | c :: r => if isSpace c then dropSpaces r else s
  | [] => []
  end.

(** [QString::trimmed]. *)
Definition trimmed (s : QString) : QString :=
  rev (dropSpaces (rev (dropSpaces s))).

Fixpoint startsWith (s p : QString) : bool :=
  match p, s with
  | [], _ => true
  | _ :: _, [] => false
  | a :: p', b :: s' => ceq a b && startsWith s' p'
  end.

Definition endsWith (s p : QString) : bool :=
  startsWith (rev s) (rev p).

(** First position [>= off] (counted from [off]) at which [p] starts. *)
Fixpoint findFrom (p s : QString) (off : Z) : Z :=
  match s with
  | [] => if startsWith [] p then off else -1
  | _ :: s' => if startsWith s p then off else findFrom p s' (off + 1)
  end.

(** [QString::indexOf(str, from)]. *)
Definition indexOf (s p : QString) (from : Z) : Z :=
  let from' := if from <? 0 then Z.max 0 (from + size s) else from in
  if from' >? size s then -1
  else findFrom p (skipn (Z.to_nat from') s) from'.

(** [QString::indexOf(ch, from)]. *)
Definition indexOfC (s : QString) (c : QChar) (from : Z) : Z :=
  indexOf s [c] from.

(** [QString::lastIndexOf(ch)]. *)
Definition lastIndexOfC (s : QString) (c : QChar) : Z :=
  let k := findFrom [c] (rev s) 0 in
  if k <? 0 then -1 else size s - 1 - k.

Definition contains (s : QString) (c : QChar) : bool :=
  0 <=? indexOfC s c 0.

(** [QString::split(sep)], empty parts kept. *)
Fixpoint splitAcc (sep : QChar) (s cur : QString) : list QString :=
  match s with
  | [] => [cur]
  | c :: r => if ceq c sep then cur :: splitAcc sep r []
              else splitAcc sep r (cur ++ [c])
  end.

Definition split (s : QString) (sep : QChar) : list QString :=
  splitAcc sep s [].

(** [QString::split(sep, QString::SkipEmptyParts)]. *)
Definition splitSkipEmpty (s : QString) (sep : QChar) : list QString :=
  filter (fun p => negb (isEmpty p)) (split s sep).

(** [QStringList::join(sep)]. *)
Fixpoint join (l : list QString) (sep : QString) : QString :=
  match l with
  | [] => []
  | [x] => x
  | x :: r => x ++ sep ++ join r sep
  end.

(** [QString::number(int)]. *)
Definition number (n : Z) : QString :=
  qs (NilZero.string_of_int (Z.to_int n)).

(** [QString(n, ch)]. *)
Definition fill (n : Z) (c : QChar) : QString := repeat c (Z.to_nat n).

End QStr.
Import QStr.

(* ===================================================================== *)
(** * Line lexer (LeanDocLexer2.h, LeanDocLexer2.cpp) *)
(* ===================================================================== *)

Module Lexer.

(** [LineTok::Kind], in the order of LeanDocLexer2.h.  The last two
    kinds are the ones the parser tests for that the header does not
    list; [classify] returns neither. *)
Inductive Kind : Type :=
| T_EOF | T_BLANK
| T_BLOCK_ANCHOR | T_BLOCK_ATTRS | T_BLOCK_TITLE
| T_SECTION | T_ADMONITION | T_LINE_COMMENT
| T_THEMATIC | T_PAGEBREAK
| T_UL_ITEM | T_OL_ITEM | T_DESC_TERM | T_LIST_CONT
| T_DELIM_LISTING | T_DELIM_LITERAL | T_DELIM_QUOTE | T_DELIM_EXAMPLE
| T_DELIM_SIDEBAR | T_DELIM_OPEN | T_DELIM_COMMENT
| T_TABLE_DELIM | T_TABLE_LINE
| T_BLOCK_MACRO | T_DIRECTIVE
| T_TEXT
| T_DELIM_PASSTHROUGH | T_STEM_ATTR_LINE.

(** The integer value of the enumerator, [(int)k]. *)
Definition kindCode (k : Kind) : Z :=
  match k with
  | T_EOF => 0 | T_BLANK => 1
  | T_BLOCK_ANCHOR => 2 | T_BLOCK_ATTRS => 3 | T_BLOCK_TITLE => 4
  | T_SECTION => 5 | T_ADMONITION => 6 | T_LINE_COMMENT => 7
  | T_THEMATIC => 8 | T_PAGEBREAK => 9
  | T_UL_ITEM => 10 | T_OL_ITEM => 11 | T_DESC_TERM => 12 | T_LIST_CONT => 13
  | T_DELIM_LISTING => 14 | T_DELIM_LITERAL => 15 | T_DELIM_QUOTE => 16
  | T_DELIM_EXAMPLE => 17 | T_DELIM_SIDEBAR => 18 | T_DELIM_OPEN => 19
  | T_DELIM_COMMENT => 20
  | T_TABLE_DELIM => 21 | T_TABLE_LINE => 22
  | T_BLOCK_MACRO => 23 | T_DIRECTIVE => 24
  | T_TEXT => 25
  | T_DELIM_PASSTHROUGH => 26 | T_STEM_ATTR_LINE => 27
  end.

Definition keq (a b : Kind) : bool := kindCode a =? kindCode b.

Record LineTok : Type := mkTok {
  kind   : Kind;
  lineNo : Z;
  raw    : QString;   (* line without trailing newline *)
  level  : Z;         (* for section/list markers (1..6) *)
  head   : QString;   (* directive keyword, macro name, admonition label *)
  rest   : QString    (* remainder *)
}.

(** [static bool isPrefix(s, p)]. *)
Definition isPrefix (s p : QString) : bool := startsWith s p.

(** [Lexer::startsWithRun]: the length of the run of [ch] at the start
    of [s], counted up to [maxN], when it is at least [minN]. *)
Fixpoint runLength (s : QString) (ch : QChar) (maxN : nat) : Z :=
  match maxN, s with
  | S m, c :: r => if ceq c ch then 1 + runLength r ch m else 0
  | _, _ => 0
  end.

Definition startsWithRun (s : QString) (ch : QChar) (minN maxN : Z)
  : option Z :=
  let n := runLength s ch (Z.to_nat maxN) in
  if n >=? minN then Some n else None.

(** Number of [ch] at the end of [s]. *)
Definition trailingRun (s : QString) (ch : QChar) : Z :=
  runLength (rev s) ch (length s).

(** A marker run [ch..ch] of 1 to 6 characters followed by a space. *)
Definition markerRun (s : QString) (ch : QChar) : option Z :=
  match startsWithRun s ch 1 6 with
  | Some n => if (size s >? n) && isSpace (at_ s n) then Some n else None
  | None => None
  end.

(** [Lexer::classify]. *)
Definition classify (line : QString) (lineNo : Z) : LineTok :=
  let t := fun k lv hd rs => mkTok k lineNo line lv hd rs in
  let s := trimmed line in
  if isEmpty s then t T_BLANK 0 [] [] else
  (* metadata lines *)
  if startsWith s (qs "[[") && endsWith s (qs "]]") then
    t T_BLOCK_ANCHOR 0 [] s else
  if (size s >=? 2) && ceq (at_ s 0) "."%char && negb (isSpace (at_ s 1)) then
    t T_BLOCK_TITLE 0 [] (mid s 1) else
  (* directives (preprocessor) *)
  if isPrefix s (qs "ifdef::") || isPrefix s (qs "ifndef::")
     || isPrefix s (qs "endif::") then
    let p := indexOf s (qs "::") 0 in
    t T_DIRECTIVE 0 (left s p) (mid s (p + 2)) else
  (* block macros *)
  if isPrefix s (qs "include::") then
    let p := indexOf s (qs "::") 0 in
    t T_BLOCK_MACRO 0 (left s p) (mid s (p + 2)) else
  (* custom block macro: IDENT::target[...] *)
  let p := indexOf s (qs "::") 0 in
  if (p >? 0) && (indexOfC s "["%char 0 >? p) then
    t T_BLOCK_MACRO 0 (left s p) (mid s (p + 2)) else
  (* comments & breaks *)
  if isPrefix s (qs "//") then t T_LINE_COMMENT 0 [] (mid s 2) else
  if qeq s (qs "'''") || qeq s (qs "---") || qeq s (qs "***") then
    t T_THEMATIC 0 [] [] else
  if isPrefix s (qs "<<<") then t T_PAGEBREAK 0 [] (trimmed (mid s 3)) else
  (* section title =..====== (1..6) then space+ *)
  match markerRun s "="%char with
  | Some eqN => t T_SECTION eqN [] (trimmed (mid s eqN))
  | None =>
  (* lists *)
  match markerRun s "*"%char with
  | Some starN => t T_UL_ITEM starN [] (trimmed (mid s starN))
  | None =>
  match markerRun s "."%char with
  | Some dotN => t T_OL_ITEM dotN [] (trimmed (mid s dotN))
  | None =>
  if qeq s (qs "+") then t T_LIST_CONT 0 [] [] else
  (* description list term: TEXT_RUN then "::" (2+) at end *)
  let desc :=
    let p := lastIndexOfC s ":"%char in
    if (p >=? 1) && endsWith s (qs "::") then
      let c := trailingRun s ":"%char in
      if c >=? 2 then Some c else None
    else None in
  match desc with
  | Some c => t T_DESC_TERM c [] (trimmed (left s (size s - c)))
  | None =>
  (* tables *)
  if qeq s (qs "|===") then t T_TABLE_DELIM 0 [] [] else
  if startsWith s (qs "|") then t T_TABLE_LINE 0 [] line else
  (* delimited blocks *)
  if qeq s (qs "----") then t T_DELIM_LISTING 0 [] [] else
  if qeq s (qs "....") then t T_DELIM_LITERAL 0 [] [] else
  if qeq s (qs "____") then t T_DELIM_QUOTE 0 [] [] else
  if qeq s (qs "====") then t T_DELIM_EXAMPLE 0 [] [] else
  if qeq s (qs "****") then t T_DELIM_SIDEBAR 0 [] [] else
  if qeq s (qs "--") then t T_DELIM_OPEN 0 [] [] else
  if qeq s (qs "////") then t T_DELIM_COMMENT 0 [] [] else
  (* admonition paragraph NOTE:/TIP:/... *)
  if startsWith s (qs "NOTE:") || startsWith s (qs "TIP:")
     || startsWith s (qs "IMPORTANT:") || startsWith s (qs "CAUTION:")
     || startsWith s (qs "WARNING:") then
    let c := indexOfC s ":"%char 0 in
    t T_ADMONITION 0 (left s c) (trimmed (mid s (c + 1)))
  else
  t T_TEXT 0 [] line
  end end end end.

(** The synthetic end-of-file token, [LineTok()] with its line number. *)
Definition eofTok (lineNo : Z) : LineTok := mkTok T_EOF lineNo [] 0 [] [].

Fixpoint classifyLines (lines : list QString) (i : Z) : list LineTok :=
  match lines with
  | [] => []
  | l :: r => classify l (i + 1) :: classifyLines r (i + 1)
  end.

(** The lexer between two reads: the tokens not yet taken, and the line
    number of the EOF token that ends [dtoks]. *)
Record State : Type := mkState {
  toks    : list LineTok;
  eofLine : Z
}.

(** [Lexer::setInput]. *)
Definition setInput (text : QString) : State :=
  let lines := split text newline in
  mkState (classifyLines lines 0) (Z.of_nat (length lines) + 1).

(** [Lexer::peek(k)]: past the last line it is the EOF token. *)
Definition peek (st : State) (k : nat) : LineTok :=
  nth k (toks st) (eofTok (eofLine st)).

(** [Lexer::take]. *)
Definition take (st : State) : LineTok * State :=
  (peek st 0, mkState (tl (toks st)) (eofLine st)).

(** [Lexer::atEnd]. *)
Definition atEnd (st : State) : bool := keq (kind (peek st 0)) T_EOF.

End Lexer.
Import Lexer.

(* ===================================================================== *)
(** * Document tree (LeanDocAst2.h) *)
(* ===================================================================== *)

Module Ast.

Record SourcePos : Type := mkPos { line : Z; column : Z }.

(** [QMap<QString, QString>]: the entries in increasing key order, which
    is the order the source iterates a map in. *)
Definition QMap := list (QString * QString).

Fixpoint qlt (a b : QString) : bool :=
  match a, b with
  | _, [] => false
  | [], _ :: _ => true
  | x :: a', y :: b' =>
      if code x <? code y then true
      else if code y <? code x then false
      else qlt a' b'
  end.

(** [QMap::insert]: a new key goes to its place, a known key gets the
    new value. *)
Fixpoint insert (m : QMap) (k v : QString) : QMap :=
  match m with
  | [] => [(k, v)]
  | (k', v') :: r =>
      if qeq k k' then (k, v) :: r
      else if qlt k k' then (k, v) :: m
      else (k', v') :: insert r k v
  end.

(** [QMap::value(key)], the empty string for a missing key. *)
Fixpoint value (m : QMap) (k : QString) : QString :=
  match m with
  | [] => []
  | (k', v') :: r => if qeq k k' then v' else value r k
  end.

Record BlockMeta : Type := mkMeta {
  anchorId   : QString;
  anchorText : QString;          (* optional *)
  title      : QString;          (* block title line (.Title) *)
  attrs      : QMap;             (* parsed from [a=b,c=d] *)
  roles      : list QString      (* derived: ".role" keys of attrs *)
}.

Definition emptyMeta : BlockMeta := mkMeta [] [] [] [] [].

Inductive Kind : Type :=
| K_Document
| K_Section | K_Paragraph | K_LiteralParagraph | K_AdmonitionParagraph
| K_DelimitedBlock | K_List | K_ListItem | K_Table | K_TableRow | K_TableCell
| K_BlockMacro | K_Directive | K_ThematicBreak | K_PageBreak | K_LineComment
| K_Text | K_Space | K_LineBreak | K_Emph | K_Superscript | K_Subscript
| K_Link | K_ImageInline | K_AnchorInline | K_Xref | K_AttrRef
| K_InlineMacro | K_PassthroughInline.

#[warnings="-register-all"]
Inductive Node : Type := mkNode {
  kind     : Kind;
  pos      : SourcePos;
  meta     : option BlockMeta;   (* null when not applicable *)
  text     : QString;
  name     : QString;
  target   : QString;
  kv       : QMap;
  children : list Node
}.

(** [Node::Node(Kind k)]. *)
Definition newNode (k : Kind) : Node :=
  mkNode k (mkPos 0 0) None [] [] [] [] [].

Definition setPos (n : Node) (p : SourcePos) : Node :=
  mkNode (kind n) p (meta n) (text n) (name n) (target n) (kv n) (children n).
Definition setMeta (n : Node) (m : option BlockMeta) : Node :=
  mkNode (kind n) (pos n) m (text n) (name n) (target n) (kv n) (children n).
Definition setText (n : Node) (s : QString) : Node :=
  mkNode (kind n) (pos n) (meta n) s (name n) (target n) (kv n) (children n).
Definition setName (n : Node) (s : QString) : Node :=
  mkNode (kind n) (pos n) (meta n) (text n) s (target n) (kv n) (children n).
Definition setTarget (n : Node) (s : QString) : Node :=
  mkNode (kind n) (pos n) (meta n) (text n) (name n) s (kv n) (children n).
Definition kvInsert (n : Node) (k v : QString) : Node :=
  mkNode (kind n) (pos n) (meta n) (text n) (name n) (target n)
         (insert (kv n) k v) (children n).
Definition setChildren (n : Node) (c : list Node) : Node :=
  mkNode (kind n) (pos n) (meta n) (text n) (name n) (target n) (kv n) c.

(** [Node::add]. *)
Definition add (n b : Node) : Node := setChildren n (children n ++ [b]).

Definition kindEq (a b : Kind) : bool :=
  match a, b with
  | K_Document, K_Document | K_Section, K_Section
  | K_Paragraph, K_Paragraph | K_LiteralParagraph, K_LiteralParagraph
  | K_AdmonitionParagraph, K_AdmonitionParagraph
  | K_DelimitedBlock, K_DelimitedBlock | K_List, K_List
  | K_ListItem, K_ListItem | K_Table, K_Table | K_TableRow, K_TableRow
  | K_TableCell, K_TableCell | K_BlockMacro, K_BlockMacro
  | K_Directive, K_Directive | K_ThematicBreak, K_ThematicBreak
  | K_PageBreak, K_PageBreak | K_LineComment, K_LineComment
  | K_Text, K_Text | K_Space, K_Space | K_LineBreak, K_LineBreak
  | K_Emph, K_Emph | K_Superscript, K_Superscript
  | K_Subscript, K_Subscript | K_Link, K_Link
  | K_ImageInline, K_ImageInline | K_AnchorInline, K_AnchorInline
  | K_Xref, K_Xref | K_AttrRef, K_AttrRef | K_InlineMacro, K_InlineMacro
  | K_PassthroughInline, K_PassthroughInline => true
  | _, _ => false
  end.

End Ast.
Import Ast.

(* ===================================================================== *)
(** * Inline scanner (LeanDocParser2.cpp, parseInlineContentRec) *)
(* ===================================================================== *)

Module Inline.

(** [static bool isUrlSchemeStart(s, i)]. *)
Definition isUrlSchemeStart (s : QString) (i : Z) : bool :=
  startsWith (mid s i) (qs "http:") || startsWith (mid s i) (qs "https:") ||
  startsWith (mid s i) (qs "ftp:")  || startsWith (mid s i) (qs "irc:") ||
  startsWith (mid s i) (qs "mailto:").

(** [Parser::pushText]. *)
Definition pushText (out : list Node) (t : QString) (lineNo : Z) : list Node :=
  if isEmpty t then out
  else out ++ [setText (setPos (newNode K_Text) (mkPos lineNo 1)) t].

(** One recognised inline element: the node made for it (its children
    still to come), the inner text that is scanned again for the
    children, if any, and the index at which the scan goes on. *)
Record Hit : Type := mkHit {
  hitNode  : Node;
  hitInner : option QString;
  hitNext  : Z
}.

Definition nodeAt (k : Ast.Kind) (lineNo : Z) : Node :=
  setPos (newNode k) (mkPos lineNo 1).

Section Rules.
Variable s : QString.
Variable i : Z.
Variable lineNo : Z.

(** Attribute reference: {name} *)
Definition attrRef : option Hit :=
  if ceq (at_ s i) "{"%char then
    let j := indexOfC s "}"%char (i + 1) in
    if j >? i + 1 then
      Some (mkHit (setName (nodeAt K_AttrRef lineNo)
                           (trimmed (midn s (i + 1) (j - i - 1))))
                  None (j + 1))
    else None
  else None.

(** The shape shared by [<<id,text>>] and [[[id,text]]]: two opening
    characters, the earliest closing pair, the id before the first comma
    and the text after it scanned again. *)
Definition bracketed (o : QChar) (close : QString) (k : Ast.Kind)
    (setId : Node -> QString -> Node) : option Hit :=
  if (i + 1 <? size s) && ceq (at_ s i) o && ceq (at_ s (i + 1)) o then
    let j := indexOf s close (i + 2) in
    if j >? i + 2 then
      let inner := midn s (i + 2) (j - (i + 2)) in
      let comma := indexOfC inner ","%char 0 in
      if comma <? 0 then
        Some (mkHit (setId (nodeAt k lineNo) (trimmed inner)) None (j + 2))
      else
        Some (mkHit (setId (nodeAt k lineNo) (trimmed (left inner comma)))
                    (Some (trimmed (mid inner (comma + 1)))) (j + 2))
    else None
  else None.

(** Cross reference: <<id,text>> *)
Definition xref : option Hit := bracketed "<"%char (qs ">>") K_Xref setTarget.

(** Inline anchor: [[id,...]] *)
Definition anchor : option Hit :=
  bracketed "["%char (qs "]]") K_AnchorInline setName.

(** The end of a URL: the first whitespace, '[' or ']' from [j] on. *)
Fixpoint urlEnd (l : QString) (j : Z) : Z :=
  match l with
  | [] => j
  | c :: r =>
      if negb (isSpace c) && negb (ceq c "["%char) && negb (ceq c "]"%char)
      then urlEnd r (j + 1) else j
  end.

(** URL auto link (scheme + path) *)
Definition autoLink : option Hit :=
  if isUrlSchemeStart s i then
    let j := urlEnd (mid s i) i in
    if j >? i + 5 then
      Some (mkHit (setTarget (nodeAt K_Link lineNo) (midn s i (j - i)))
                  None j)
    else None
  else None.

(** Inline macro: name:...[...] (best-effort) *)
Definition inlineMacro : option Hit :=
  let colon := indexOfC s ":"%char i in
  if colon >? i then
    let ok := forallb (fun ch => isLetterOrNumber ch || ceq ch "_"%char
                                 || ceq ch "-"%char)
                      (midn s i (colon - i)) in
    if ok && (colon + 1 <? size s) then
      let lb := indexOfC s "["%char (colon + 1) in
      let rb := indexOfC s "]"%char (lb + 1) in
      if (lb >? colon) && (rb >? lb) then
        Some (mkHit (setTarget (setName (nodeAt K_InlineMacro lineNo)
                                        (midn s i (colon - i)))
                               (midn s (colon + 1) (lb - (colon + 1))))
                    (Some (midn s (lb + 1) (rb - (lb + 1)))) (rb + 1))
      else None
    else None
  else None.

(** A pair of equal marks [mark ... mark] around a non-empty inner text,
    closed by the earliest later [mark]. *)
Definition paired (mark : QString) (mk : QString -> Node * option QString)
  : option Hit :=
  let w := size mark in
  if qeq (midn s i w) mark then
    let j := indexOf s mark (i + w) in
    if j >? i + w then
      let inner := midn s (i + w) (j - (i + w)) in
      Some (mkHit (fst (mk inner)) (snd (mk inner)) (j + w))
    else None
  else None.

Definition emph (nm : string) (inner : QString) : Node * option QString :=
  (setName (nodeAt K_Emph lineNo) (qs nm), Some inner).

(** `mono`, ^sup^ and ~sub~ keep the inner text as a raw text run. *)
Definition rawRun (n : Node) (inner : QString) : Node * option QString :=
  (setText n inner, None).

(** passthrough: +...+ / ++...++ / +++...+++ *)
Definition passthrough : option Hit :=
  if ceq (at_ s i) "+"%char then
    let plusN := runLength (mid s i) "+"%char (length s) in
    if (plusN >=? 1) && (plusN <=? 3) then
      let fence := fill plusN "+"%char in
      let j := indexOf s fence (i + plusN) in
      if j >? i + plusN then
        Some (mkHit (kvInsert (nodeAt K_PassthroughInline lineNo)
                              (qs "plusN") (number plusN))
                    (Some (midn s (i + plusN) (j - (i + plusN))))
                    (j + plusN))
      else None
    else None
  else None.

Definition orElse (a b : option Hit) : option Hit :=
  match a with Some h => Some h | None => b end.

(** The recognisers in the order the scanner tries them at index [i];
    the first one that matches decides. *)
Definition firstHit : option Hit :=
  orElse attrRef (
  orElse xref (
  orElse anchor (
  orElse autoLink (
  orElse inlineMacro (
  orElse (paired (qs "**") (emph "bold")) (
  orElse (paired (qs "*") (emph "bold")) (
  orElse (paired (qs "__") (emph "italic")) (
  orElse (paired (qs "_") (emph "italic")) (
  orElse (paired (qs "``") (emph "mono")) (
  orElse (paired (qs "`")
            (rawRun (setName (nodeAt K_Emph lineNo) (qs "mono")))) (
  orElse (paired (qs "#") (emph "highlight")) (
  orElse (paired (qs "^") (rawRun (nodeAt K_Superscript lineNo))) (
  orElse (paired (qs "~") (rawRun (nodeAt K_Subscript lineNo)))
         passthrough))))))))))))).

End Rules.

(** The [while (i < s.size())] loop of [parseInlineContentRec]; [rec] is
    the recursive call on an inner text, [gas] counts the iterations
    that are left. *)
Fixpoint scan (rec : QString -> Z -> option (list Node))
    (lineNo depth : Z) (gas : nat) (s : QString) (i : Z)
    (out : list Node) (acc : QString) : option (list Node) :=
  match gas with
  | O => None
  | S g =>
      if i <? size s then
        match firstHit s i lineNo with
        | Some h =>
            let kids :=
              match hitInner h with
              | Some inner => rec inner (depth + 1)
              | None => Some []
              end in
            match kids with
            | Some c =>
                scan rec lineNo depth g s (hitNext h)
                     (pushText out acc lineNo
                        ++ [setChildren (hitNode h) c])
                     []
            | None => None
            end
        | None => (* default char *)
            scan rec lineNo depth g s (i + 1) out (acc ++ [at_ s i])
        end
      else Some (pushText out acc lineNo)
  end.

(** [Parser::parseInlineContentRec]; [fuel] is the number of nested
    calls that may still be entered. *)
Fixpoint parseInlineContentRec (fuel : nat) (s : QString) (lineNo depth : Z)
  : option (list Node) :=
  match fuel with
  | O => None
  | S f =>
      scan (fun inner d => parseInlineContentRec f inner lineNo d)
           lineNo depth (S (length s)) s 0 [] []
  end.

(** [Parser::parseInlineContent]: an inner text is shorter than the text
    it is cut from, so [length s] nested calls are never used up. *)
Definition parseInlineContent (s : QString) (lineNo : Z)
  : option (list Node) :=
  parseInlineContentRec (S (length s)) s lineNo 0.

End Inline.
Import Inline.

(* ===================================================================== *)
(** * Block parser (LeanDocParser2.h, LeanDocParser2.cpp) *)
(* ===================================================================== *)

Module Parser.

Record ParseError : Type := mkErr {
  line    : Z;
  column  : Z;
  message : QString
}.

(** The outcome of a parse routine: its result, the [ParseError] it
    threw, or no outcome within the fuel. *)
Inductive Res (A : Type) : Type :=
| Ok (a : A)
| Err (e : ParseError)
| OutOfFuel.
Arguments Ok {A} a.
Arguments Err {A} e.
Arguments OutOfFuel {A}.

Definition bind {A B : Type} (m : Res A) (k : A -> Res B) : Res B :=
  match m with
  | Ok a => k a
  | Err e => Err e
  | OutOfFuel => OutOfFuel
  end.

Notation "x <- m ;; k" := (bind m (fun x => k))
  (at level 61, m at next level, right associativity).
Notation "' p <- m ;; k" := (bind m (fun p => k))
  (at level 61, p pattern, m at next level, right associativity).

(** An inline scan that ran out of its nesting budget has no outcome. *)
Definition inlineContent (s : QString) (lineNo : Z) : Res (list Node) :=
  match parseInlineContent s lineNo with
  | Some l => Ok l
  | None => OutOfFuel
  end.

(** [la(k)] and [take()]. *)
Definition la (st : State) (k : nat) : LineTok := peek st k.
Definition laKind (st : State) (k : nat) : Lexer.Kind := Lexer.kind (la st k).

(** [Parser::error]: it sets [derr] and throws. *)
Definition error {A : Type} (msg : QString) (row col : Z) : Res A :=
  Err (mkErr row col msg).

(** [Parser::accept]. *)
Definition accept (st : State) (k : Lexer.Kind) : bool * State :=
  if keq (laKind st 0) k then (true, snd (take st)) else (false, st).

(** [Parser::expect]. *)
Definition expect (st : State) (k : Lexer.Kind) (what : QString) : Res State :=
  let (ok, st') := accept st k in
  if ok then Ok st'
  else error (qs "Expected " ++ what) (lineNo (la st' 0)) 1.

Fixpoint skipToks (l : list LineTok) : list LineTok :=
  match l with
  | t :: r =>
      if keq (Lexer.kind t) T_BLANK || keq (Lexer.kind t) T_LINE_COMMENT
      then skipToks r else l
  | [] => []
  end.

(** [Parser::skipBlankAndLineComments]. *)
Definition skipBlankAndLineComments (st : State) : State :=
  mkState (skipToks (toks st)) (eofLine st).

(** The loop of [splitUnescapedPipe]. *)
Fixpoint splitPipeLoop (line : QString) (parts : list QString)
    (cur : QString) (backslashRun : Z) : list QString :=
  match line with
  | [] => parts ++ [cur]
  | c :: r =>
      if ceq c "|"%char then
        if backslashRun mod 2 =? 0 then
          (* true separator *)
          splitPipeLoop r (parts ++ [cur]) [] 0
        else
          (* escaped pipe: replace "\|" with "|" *)
          splitPipeLoop r parts
            ((if isEmpty cur then cur else chop cur 1) ++ ["|"%char]) 0
      else
        splitPipeLoop r parts (cur ++ [c])
          (if ceq c backslash then backslashRun + 1 else 0)
  end.

(** [static QStringList splitUnescapedPipe(line)]. *)
Definition splitUnescapedPipe (line : QString) : list QString :=
  splitPipeLoop line [] [] 0.

Fixpoint cellsOf (parts : list QString) (lineNo : Z) : Res (list Node) :=
  match parts with
  | [] => Ok []
  | cell :: r =>
      c <- inlineContent (trimmed cell) lineNo ;;
      cs <- cellsOf r lineNo ;;
      Ok (setChildren (setPos (newNode K_TableCell) (mkPos lineNo 1)) c :: cs)
  end.

(** [Parser::readCells]: the cells are the parts after each '|'. *)
Definition readCells (rowTok : LineTok) : Res (list Node) :=
  cellsOf (tl (splitUnescapedPipe (raw rowTok))) (lineNo rowTok).

(** [Parser::stripOuter]. *)
Definition stripOuter (s : QString) (a b : QChar) : QString :=
  let t := trimmed s in
  if (size t >=? 2) && ceq (at_ t 0) a && ceq (at_ t (size t - 1)) b
  then midn t 1 (size t - 2) else t.

Fixpoint attrEntries (parts : list QString) (m : QMap) : QMap :=
  match parts with
  | [] => m
  | part :: r =>
      let p := trimmed part in
      if isEmpty p then attrEntries r m else
      let eq := indexOfC p "="%char 0 in
      if eq <? 0 then attrEntries r (insert m p [])   (* boolean attr *)
      else
        let k := trimmed (left p eq) in
        let v := stripOuter (trimmed (mid p (eq + 1))) dquote dquote in
        attrEntries r (insert m k v)
  end.

(** [Parser::parseAttrList]. *)
Definition parseAttrList (bracketed : QString) : QMap :=
  let inner := stripOuter (trimmed bracketed) "["%char "]"%char in
  attrEntries (splitSkipEmpty inner ","%char) [].

(** The attribute entries [:name: value] of the document header. *)
Fixpoint headerAttrs (l : list LineTok) (kv : QMap) : QMap * list LineTok :=
  match l with
  | [] => (kv, [])
  | t :: r =>
      if keq (Lexer.kind t) T_TEXT then
        let s := trimmed (raw t) in
        if negb (startsWith s (qs ":")) then (kv, l) else
        let second := indexOfC s ":"%char 1 in
        if second <=? 1 then (kv, l) else
        let name := trimmed (midn s 1 (second - 1)) in
        let val := trimmed (mid s (second + 1)) in
        headerAttrs r (insert kv (qs "attr:" ++ name) val)
      else (kv, l)
  end.

(** [Parser::parseDocumentHeader]: the header fields go to [doc->kv]. *)
Definition parseDocumentHeader (kv : QMap) (st : State) : QMap * State :=
  let '(kv, st) :=
    if keq (laKind st 0) T_SECTION && (level (la st 0) =? 1) then
      let (t, st) := take st in
      (insert (insert kv (qs "title") (rest t))
              (qs "titleLine") (number (lineNo t)),
       skipBlankAndLineComments st)
    else (kv, st) in
  (* minimal author line *)
  let '(kv, st) :=
    if keq (laKind st 0) T_TEXT then
      let s := trimmed (raw (la st 0)) in
      if contains s "<"%char && contains s ">"%char then
        (insert (insert kv (qs "authorLine") s)
                (qs "authorLineNo") (number (lineNo (la st 0))),
         skipBlankAndLineComments (snd (take st)))
      else (kv, st)
    else (kv, st) in
  (* minimal revision line: starts with 'v' *)
  let '(kv, st) :=
    if keq (laKind st 0) T_TEXT then
      let s := trimmed (raw (la st 0)) in
      if startsWith s (qs "v") then
        (insert (insert kv (qs "revisionLine") s)
                (qs "revisionLineNo") (number (lineNo (la st 0))),
         skipBlankAndLineComments (snd (take st)))
      else (kv, st)
    else (kv, st) in
  (* document attributes *)
  let (kv, l) := headerAttrs (toks st) kv in
  (kv, mkState l (eofLine st)).

(** The roles derived from the attribute keys that start with a dot. *)
Definition rolesOf (attrs : QMap) : list QString :=
  map (fun e => mid (fst e) 1)
      (filter (fun e => startsWith (fst e) (qs ".")) attrs).

(** [Parser::parseBlockMetaOpt]. *)
Definition parseBlockMetaOpt (st : State) : option BlockMeta * State :=
  if negb (keq (laKind st 0) T_BLOCK_ANCHOR) &&
     negb (keq (laKind st 0) T_BLOCK_ATTRS) &&
     negb (keq (laKind st 0) T_BLOCK_TITLE) then (None, st)
  else
  let m := emptyMeta in
  let '(m, st) :=
    if keq (laKind st 0) T_BLOCK_ANCHOR then
      let (t, st) := take st in
      let s := rest t in
      let inner := stripOuter (stripOuter s "["%char "]"%char) "["%char "]"%char in
      let comma := indexOfC inner ","%char 0 in
      if comma <? 0 then
        (mkMeta (trimmed inner) (anchorText m) (title m) (attrs m) (roles m), st)
      else
        (mkMeta (trimmed (left inner comma)) (trimmed (mid inner (comma + 1)))
                (title m) (attrs m) (roles m), st)
    else (m, st) in
  let '(m, st) :=
    if keq (laKind st 0) T_BLOCK_ATTRS then
      let (t, st) := take st in
      let a := parseAttrList (rest t) in
      let attrs' := fold_left (fun acc e => insert acc (fst e) (snd e)) a (attrs m) in
      (mkMeta (anchorId m) (anchorText m) (title m) attrs'
              (roles m ++ rolesOf attrs'), st)
    else (m, st) in
  let '(m, st) :=
    if keq (laKind st 0) T_BLOCK_TITLE then
      let (t, st) := take st in
      (mkMeta (anchorId m) (anchorText m) (trimmed (rest t)) (attrs m) (roles m), st)
    else (m, st) in
  (Some m, st).

Definition isDelim (k : Lexer.Kind) : bool :=
  keq k T_DELIM_LISTING || keq k T_DELIM_LITERAL ||
  keq k T_DELIM_QUOTE || keq k T_DELIM_EXAMPLE ||
  keq k T_DELIM_SIDEBAR || keq k T_DELIM_OPEN ||
  keq k T_DELIM_PASSTHROUGH || keq k T_DELIM_COMMENT ||
  keq k T_STEM_ATTR_LINE.

Definition blockAt (k : Ast.Kind) (lineNo : Z) (m : option BlockMeta) : Node :=
  setMeta (setPos (newNode k) (mkPos lineNo 1)) m.

(** [Parser::parseAdmonitionParagraph]. *)
Definition parseAdmonitionParagraph (m : option BlockMeta) (st : State)
  : Res (option Node * State) :=
  let (t, st) := take st in
  let a := setName (blockAt K_AdmonitionParagraph (lineNo t) m) (head t) in
  c <- inlineContent (rest t) (lineNo t) ;;
  Ok (Some (setChildren a c), st).

Definition kindOfFirst (l : list LineTok) : Lexer.Kind :=
  match l with t :: _ => Lexer.kind t | [] => T_EOF end.

(** The [while (la(0).kind == T_TEXT)] loop of [parseParagraphOrLiteral]. *)
Fixpoint paragraphLines (literal : bool) (l : list LineTok)
    (lines : list QString) : list QString * list LineTok :=
  match l with
  | [] => (lines, [])
  | t :: r =>
      if keq (Lexer.kind t) T_TEXT then
        let line :=
          if literal then
            if isEmpty (raw t) || negb (isSpace (at_ (raw t) 0)) then None
            else Some (mid (raw t) 1)   (* verbatim minus the leading space *)
          else
            let s := trimmed (raw t) in
            if isEmpty s then None else Some s in
        match line with
        | None => (lines, l)
        | Some x =>
            (* take() *)
            let k := kindOfFirst r in
            if keq k T_BLANK then (lines ++ [x], r)
            else if negb literal &&
              (keq k T_SECTION || keq k T_UL_ITEM || keq k T_OL_ITEM ||
               keq k T_DESC_TERM || keq k T_TABLE_DELIM ||
               keq k T_DELIM_LISTING || keq k T_DELIM_LITERAL ||
               keq k T_ADMONITION || keq k T_BLOCK_MACRO ||
               keq k T_DIRECTIVE)
            then (lines ++ [x], r)
            else paragraphLines literal r (lines ++ [x])
        end
      else (lines, l)
  end.

(** [Parser::parseParagraphOrLiteral]. *)
Definition parseParagraphOrLiteral (m : option BlockMeta) (st : State)
  : Res (option Node * State) :=
  let literal := keq (laKind st 0) T_TEXT && negb (isEmpty (raw (la st 0)))
                 && isSpace (at_ (raw (la st 0)) 0) in
  let p := blockAt (if literal then K_LiteralParagraph else K_Paragraph)
                   (lineNo (la st 0)) m in
  let (lines, l) := paragraphLines literal (toks st) [] in
  let st := mkState l (eofLine st) in
  if literal then Ok (Some (setText p (join lines [newline])), st)
  else
    c <- inlineContent (join lines (qs " ")) (Ast.line (pos p)) ;;
    Ok (Some (setChildren p c), st).

(** The body of a raw delimited block, up to its closing fence. *)
Fixpoint rawLines (k : Lexer.Kind) (l : list LineTok) (lines : list QString)
  : list QString * list LineTok :=
  match l with
  | [] => (lines, [])
  | t :: r =>
      if negb (keq (Lexer.kind t) T_EOF) && negb (keq (Lexer.kind t) k)
      then rawLines k r (lines ++ [raw t])
      else (lines, l)
  end.

(** [Parser::parseBlockMacro]. *)
Definition parseBlockMacro (m : option BlockMeta) (st : State)
  : Res (option Node * State) :=
  let (t, st) := take st in
  Ok (Some (setTarget (setName (blockAt K_BlockMacro (lineNo t) m) (head t))
                      (rest t)), st).

(** [Parser::parseBreakOrComment]. *)
Definition parseBreakOrComment (m : option BlockMeta) (st : State)
  : Res (option Node * State) :=
  if keq (laKind st 0) T_LINE_COMMENT then
    let (t, st) := take st in
    Ok (Some (setText (blockAt K_LineComment (lineNo t) m) (rest t)), st)
  else if keq (laKind st 0) T_THEMATIC then
    let (t, st) := take st in
    Ok (Some (setText (blockAt K_ThematicBreak (lineNo t) m) (trimmed (raw t))), st)
  else if keq (laKind st 0) T_PAGEBREAK then
    let (t, st) := take st in
    Ok (Some (setText (blockAt K_PageBreak (lineNo t) m) (rest t)), st)
  else Ok (None, st).   (* fallback *)

(** The rows of a table from its cells: [rows] rows of [w] cells each. *)
Fixpoint reflow (rows w : nat) (cells : list Node) : list Node :=
  match rows with
  | O => []
  | S r =>
      let row := setPos (newNode K_TableRow)
                        (pos (hd (newNode K_TableCell) cells)) in
      setChildren row (firstn w cells) :: reflow r w (skipn w cells)
  end.

(** The [while (!dlex.atEnd())] loop of [parseTable]. *)
Fixpoint tableLines (l : list LineTok) (parts : list (list Node))
  : Res (list (list Node) * list LineTok) :=
  match l with
  | [] => Ok (parts, [])
  | t :: r =>
      if keq (Lexer.kind t) T_EOF then Ok (parts, l)
      else if keq (Lexer.kind t) T_TABLE_DELIM then Ok (parts, r)
      else if keq (Lexer.kind t) T_BLANK then tableLines r parts
      else if negb (keq (Lexer.kind t) T_TABLE_LINE) then tableLines r parts
      else
        cells <- readCells t ;;
        tableLines r (parts ++ [cells])
  end.

(** The rows of [parseTable], from the cells read line by line. *)
Definition tableRows (parts : list (list Node)) : Res (list Node) :=
  match parts with
  | [] => Ok []
  | firstRow :: others =>
      match firstRow with
      | [] => Ok []
      | c0 :: _ =>
          let row := setChildren (setPos (newNode K_TableRow) (pos c0)) firstRow in
          let cells := concat others in
          let w := size firstRow in
          if negb (Z.rem (size cells) w =? 0) then
            error (qs "the number of cells is not compatible with the table size")
                  (Ast.line (pos c0)) (Ast.column (pos c0))
          else
            Ok (row :: reflow (Z.to_nat (Z.quot (size cells) w))
                              (length firstRow) cells)
      end
  end.

(** [Parser::parseTable]. *)
Definition parseTable (m : option BlockMeta) (st : State)
  : Res (option Node * State) :=
  let open := la st 0 in
  st <- expect st T_TABLE_DELIM (qs "table delimiter |===") ;;
  let t := blockAt K_Table (lineNo open) m in
  '(parts, l) <- tableLines (toks st) [] ;;
  rows <- tableRows parts ;;
  Ok (Some (setChildren t rows), mkState l (eofLine st)).

Section Blocks.

(** [parseBlock], as the routines below call it. *)
Variable parseBlock : State -> Res (option Node * State).

(** The body loop of [parseSection]: consume until the next section of
    the same or a higher level. *)
Fixpoint sectionBody (tlevel : Z) (n : nat) (st : State) (acc : list Node)
  : Res (list Node * State) :=
  match n with
  | O => OutOfFuel
  | S n' =>
      if atEnd st then Ok (acc, st) else
      let st := skipBlankAndLineComments st in
      if atEnd st then Ok (acc, st) else
      let cur := la st 0 in
      if keq (Lexer.kind cur) T_SECTION && (level cur <=? tlevel) then Ok (acc, st)
      else if keq (Lexer.kind cur) T_TABLE_LINE then
        error (qs "unexpected table line") (lineNo cur) 1
      else
      let next := la st 1 in
      if (keq (Lexer.kind cur) T_BLOCK_ANCHOR || keq (Lexer.kind cur) T_BLOCK_ATTRS)
         && keq (Lexer.kind next) T_SECTION && (level next <=? tlevel)
      then Ok (acc, st)
      else
        '(b, st) <- parseBlock st ;;
        match b with
        | None => Ok (acc, st)
        | Some b => sectionBody tlevel n' st (acc ++ [b])
        end
  end.

(** [Parser::parseSection]. *)
Definition parseSection (n : nat) (m : option BlockMeta) (st : State)
  : Res (option Node * State) :=
  let (t, st) := take st in   (* T_SECTION *)
  let s := setName (kvInsert (blockAt K_Section (lineNo t) m)
                             (qs "level") (number (level t)))
                   (rest t) in
  '(body, st) <- sectionBody (level t) n st [] ;;
  Ok (Some (setChildren s body), st).

(** The body loop of a container block in [parseDelimited]. *)
Fixpoint containerBody (k : Lexer.Kind) (n : nat) (st : State) (acc : list Node)
  : Res (list Node * State) :=
  match n with
  | O => OutOfFuel
  | S n' =>
      if negb (atEnd st) && negb (keq (laKind st 0) k) then
        let st := skipBlankAndLineComments st in
        if keq (laKind st 0) k then Ok (acc, st)
        else
          '(inner, st) <- parseBlock st ;;
          match inner with
          | None => Ok (acc, st)
          | Some inner => containerBody k n' st (acc ++ [inner])
          end
      else Ok (acc, st)
  end.

(** [Parser::parseDelimited]. *)
Definition parseDelimited (n : nat) (m : option BlockMeta) (st : State)
  : Res (option Node * State) :=
  let '(isStem, st) :=
    if keq (laKind st 0) T_STEM_ATTR_LINE then (true, snd (take st))
    else (false, st) in
  let k := laKind st 0 in
  let (open, st) := take st in
  let b := kvInsert (kvInsert (blockAt K_DelimitedBlock (lineNo open) m)
                              (qs "delim") (number (kindCode k)))
                    (qs "stem") (if isStem then qs "1" else qs "0") in
  let rawOnly := keq k T_DELIM_LISTING || keq k T_DELIM_LITERAL ||
                 keq k T_DELIM_PASSTHROUGH || keq k T_DELIM_COMMENT || isStem in
  if rawOnly then
    let (lines, l) := rawLines k (toks st) [] in
    st <- expect (mkState l (eofLine st)) k (qs "closing delimiter") ;;
    Ok (Some (setText b (join lines [newline])), st)
  else
    '(body, st) <- containerBody k n st [] ;;
    st <- expect st k (qs "closing delimiter") ;;
    Ok (Some (setChildren b body), st).

(** The items of a description list in [parseList]. *)
Fixpoint descItems (n : nat) (st : State) (items : list Node)
  : Res (list Node * State) :=
  match n with
  | O => OutOfFuel
  | S n' =>
      if negb (keq (laKind st 0) T_DESC_TERM) then Ok (items, st) else
      let (termTok, st) := take st in
      let item :=
        setName (kvInsert (kvInsert (setPos (newNode K_ListItem)
                                            (mkPos (lineNo termTok) 1))
                                    (qs "kind") (qs "definition"))
                          (qs "termLevel") (number (level termTok)))
                (rest termTok) in
      (* optional definition line *)
      '(item, st) <-
        (if keq (laKind st 0) T_TEXT && negb (isEmpty (trimmed (raw (la st 0))))
         then
           let defLine := trimmed (raw (la st 0)) in
           let st := snd (take st) in
           c <- inlineContent defLine (lineNo termTok) ;;
           Ok (add item (setChildren (setPos (newNode K_Paragraph)
                                             (mkPos (lineNo termTok) 1)) c), st)
         else Ok (item, st)) ;;
      (* list item continuation *)
      let st := skipBlankAndLineComments st in
      '(item, st) <-
        (if keq (laKind st 0) T_LIST_CONT then
           let st := skipBlankAndLineComments (snd (take st)) in
           '(cont, st) <- (if isDelim (laKind st 0) then parseDelimited n' None st
                           else parseParagraphOrLiteral None st) ;;
           match cont with
           | Some c => Ok (add item c, st)
           | None => Ok (item, st)
           end
         else Ok (item, st)) ;;
      descItems n' (skipBlankAndLineComments st) (items ++ [item])
  end.

(** The continuations of a list item. *)
Fixpoint continuations (n : nat) (st : State) (item : Node)
  : Res (Node * State) :=
  match n with
  | O => OutOfFuel
  | S n' =>
      if keq (laKind st 0) T_LIST_CONT then
        let st := skipBlankAndLineComments (snd (take st)) in
        '(cont, st) <- parseBlock st ;;
        let item := match cont with Some c => add item c | None => item end in
        continuations n' (skipBlankAndLineComments st) item
      else Ok (item, st)
  end.

(** The items of an ordered or unordered list in [parseList]. *)
Fixpoint listItems (ordered : bool) (n : nat) (st : State) (items : list Node)
  : Res (list Node * State) :=
  match n with
  | O => OutOfFuel
  | S n' =>
      if ordered && negb (keq (laKind st 0) T_OL_ITEM) then Ok (items, st)
      else if negb ordered && negb (keq (laKind st 0) T_UL_ITEM) then Ok (items, st)
      else
      let (itTok, st) := take st in
      let item := kvInsert (setPos (newNode K_ListItem) (mkPos (lineNo itTok) 1))
                           (qs "markerLevel") (number (level itTok)) in
      (* checklist detection *)
      let payload := rest itTok in
      let '(item, payload) :=
        if startsWith payload (qs "[*]") || startsWith payload (qs "[x]")
           || startsWith payload (qs "[ ]")
        then (kvInsert item (qs "check") (midn payload 1 1),
              trimmed (mid payload 3))
        else (item, payload) in
      c <- inlineContent payload (lineNo itTok) ;;
      let headPara := setChildren (setPos (newNode K_Paragraph)
                                          (mkPos (lineNo itTok) 1)) c in
      let item := add item headPara in
      '(item, st) <- continuations n' (skipBlankAndLineComments st) item ;;
      listItems ordered n' (skipBlankAndLineComments st) (items ++ [item])
  end.

(** [Parser::parseList]. *)
Definition parseList (n : nat) (m : option BlockMeta) (st : State)
  : Res (option Node * State) :=
  let lst := blockAt K_List (lineNo (la st 0)) m in
  let type := if keq (laKind st 0) T_DESC_TERM then qs "description"
              else if keq (laKind st 0) T_OL_ITEM then qs "ordered"
              else qs "unordered" in
  let lst := kvInsert lst (qs "type") type in
  '(items, st) <-
    (if qeq (value (kv lst) (qs "type")) (qs "description")
     then descItems n st []
     else listItems (qeq (value (kv lst) (qs "type")) (qs "ordered")) n st []) ;;
  Ok (Some (setChildren lst items), st).

(** The body loop of [parseDirective]. *)
Fixpoint directiveBody (n : nat) (st : State) (acc : list Node)
  : Res (list Node * State) :=
  match n with
  | O => OutOfFuel
  | S n' =>
      if atEnd st then Ok (acc, st) else
      let st := skipBlankAndLineComments st in
      if keq (laKind st 0) T_DIRECTIVE
         && startsWith (trimmed (raw (la st 0))) (qs "endif::") then
        let (e, st) := take st in
        let endNode := setText (setName (setPos (newNode K_Directive)
                                                (mkPos (lineNo e) 1))
                                        (qs "endif")) (rest e) in
        Ok (acc ++ [endNode], st)
      else if atEnd st then Ok (acc, st)
      else
        '(b, st) <- parseBlock st ;;
        match b with
        | None => Ok (acc, st)
        | Some b => directiveBody n' st (acc ++ [b])
        end
  end.

(** [Parser::parseDirective]. *)
Definition parseDirective (n : nat) (m : option BlockMeta) (st : State)
  : Res (option Node * State) :=
  let (t, st) := take st in
  let d := setText (setName (blockAt K_Directive (lineNo t) m) (head t)) (rest t) in
  if qeq (name d) (qs "ifdef") || qeq (name d) (qs "ifndef")
     || qeq (name d) (qs "ifeval") then
    '(body, st) <- directiveBody n st [] ;;
    Ok (Some (setChildren d body), st)
  else Ok (Some d, st).

(** [Parser::parseBlock], one level unfolded. *)
Definition parseBlockBody (n : nat) (st : State) : Res (option Node * State) :=
  let (meta, st) := parseBlockMetaOpt st in
  let k := laKind st 0 in
  if keq k T_SECTION then parseSection n meta st
  else if keq k T_ADMONITION then parseAdmonitionParagraph meta st
  else if keq k T_UL_ITEM || keq k T_OL_ITEM || keq k T_DESC_TERM then
    parseList n meta st
  else if keq k T_TABLE_DELIM then parseTable meta st
  else if isDelim k then parseDelimited n meta st
  else if keq k T_BLOCK_MACRO then parseBlockMacro meta st
  else if keq k T_DIRECTIVE then parseDirective n meta st
  else if keq k T_THEMATIC || keq k T_PAGEBREAK || keq k T_LINE_COMMENT then
    parseBreakOrComment meta st
  else parseParagraphOrLiteral meta st.

(** The block loop of [parseDocument]. *)
Fixpoint documentBody (n : nat) (st : State) (acc : list Node)
  : Res (list Node) :=
  match n with
  | O => OutOfFuel
  | S n' =>
      if atEnd st then Ok acc else
      let st := skipBlankAndLineComments st in
      if atEnd st then Ok acc else
      '(b, st) <- parseBlock st ;;
      match b with
      | Some b => documentBody n' st (acc ++ [b])
      | None => Ok acc
      end
  end.

End Blocks.

(** [Parser::parseBlock]: [fuel] bounds the nesting of blocks and the
    number of rounds of every loop inside. *)
Fixpoint parseBlock (fuel : nat) (st : State) : Res (option Node * State) :=
  match fuel with
  | O => OutOfFuel
  | S f => parseBlockBody (parseBlock f) f st
  end.

(** [Parser::parseDocument]. *)
Definition parseDocument (fuel : nat) (st : State) : Res Node :=
  let doc := setPos (newNode K_Document) (mkPos 1 1) in
  let st := skipBlankAndLineComments st in
  let (kv, st) := parseDocumentHeader (kv doc) st in
  body <- documentBody (parseBlock fuel) fuel st [] ;;
  Ok (mkNode (kind doc) (pos doc) (meta doc) (text doc) (name doc)
             (target doc) kv body).

(** [Parser::parse]: [Ok root] is the tree returned with an untouched
    [*outErr]; [Err e] is the null pointer returned with [*outErr = e]. *)
Definition parse (fuel : nat) (input : QString) : Res Node :=
  parseDocument fuel (setInput input).

End Parser.
Import Parser.

(* ===================================================================== *)
(** * Typst generator (LeanDocTypstGen.h, LeanDocTypstGen.cpp) *)
(* ===================================================================== *)

Module Typst.

Record TypstGenError : Type := mkGenErr {
  line    : Z;
  message : QString
}.

Record Options : Type := mkOptions {
  templateName        : QString;   (* "plain", "report" *)
  templateFile        : QString;   (* optional: import external typst file *)
  allowRawPassthrough : bool
}.

(** [Options()]. *)
Definition defaultOptions : Options := mkOptions (qs "plain") [] true.

(** What an emitter wrote to [out] when it returned [true], or the
    error it left in [*err] when it returned [false]. *)
Inductive Gen : Type :=
| Out (s : QString)
| Failed (e : TypstGenError).

(** Two emissions in a row: the second one only if the first went well. *)
Definition andThen (a : Gen) (b : Gen) : Gen :=
  match a with
  | Out x => match b with Out y => Out (x ++ y) | Failed e => Failed e end
  | Failed e => Failed e
  end.
Infix ">>" := andThen (at level 62, left associativity).

(** [static bool failAt(err, n, msg)]. *)
Definition failAt (n : option Node) (msg : QString) : Gen :=
  Failed (mkGenErr (match n with Some n => Ast.line (pos n) | None => 0 end) msg).

(** [TypstGenerator::escString]. *)
Fixpoint escString (s : QString) : QString :=
  match s with
  | [] => []
  | c :: r =>
      (if ceq c backslash then [backslash; backslash]
       else if ceq c dquote then [backslash; dquote]
       else if ceq c newline then [backslash; "n"%char]
       else if ceq c "013"%char then []   (* drop *)
       else [c]) ++ escString r
  end.

(** [TypstGenerator::escText]. *)
Fixpoint escText (s : QString) : QString :=
  match s with
  | [] => []
  | c :: r =>
      (if ceq c backslash || ceq c "*"%char || ceq c "_"%char ||
          ceq c "`"%char || ceq c "#"%char || ceq c "["%char ||
          ceq c "]"%char || ceq c "<"%char || ceq c ">"%char
       then [backslash; c] else [c]) ++ escText r
  end.

(** [TypstGenerator::labelSuffix]. *)
Definition labelSuffix (m : option BlockMeta) : QString :=
  match m with
  | None => []
  | Some m => if isEmpty (anchorId m) then []
              else qs " <" ++ anchorId m ++ qs ">"
  end.

(** [TypstGenerator::headingMarks]. *)
Definition headingMarks (level : Z) : QString :=
  let level := if level <? 1 then 1 else level in
  let level := if level >? 6 then 6 else level in
  fill level "="%char.

Fixpoint digits (s : QString) (acc : Z) : option Z :=
  match s with
  | [] => Some acc
  | c :: r => if (48 <=? code c) && (code c <=? 57)
              then digits r (10 * acc + (code c - 48)) else None
  end.

(** [QString::toInt]: 0 when the string is not a decimal [int]. *)
Definition toInt (s : QString) : Z :=
  let t := trimmed s in
  let v := match t with
           | [] => None
           | c :: r =>
               if ceq c "-"%char then
                 match r with [] => None | _ => option_map Z.opp (digits r 0) end
               else if ceq c "+"%char then
                 match r with [] => None | _ => digits r 0 end
               else digits t 0
           end in
  match v with
  | Some n => if (-2147483648 <=? n) && (n <=? 2147483647) then n else 0
  | None => 0
  end.

(** [QString::toUpper], on the letters that stay in the Latin-1 range. *)
Definition toUpper (s : QString) : QString :=
  map (fun c =>
         let n := code c in
         if ((97 <=? n) && (n <=? 122)) ||
            ((224 <=? n) && (n <=? 254) && negb (n =? 247))
         then ascii_of_N (Z.to_N (n - 32)) else c) s.

Section Generator.
Variable dopt : Options.

(** [TypstGenerator::emitInline], with [emitInlineSeq] over the children
    of the node inside. *)
Fixpoint emitInline (n : Node) : Gen :=
  let seq := (fix seq (l : list Node) : Gen :=
                match l with
                | [] => Out []
                | x :: r => emitInline x >> seq r
                end) (children n) in
  match kind n with
  | K_Text => Out (escText (text n))
  | K_Emph =>
      if qeq (name n) (qs "bold") then Out (qs "*") >> seq >> Out (qs "*")
      else if qeq (name n) (qs "italic") then Out (qs "_") >> seq >> Out (qs "_")
      else if qeq (name n) (qs "mono") then
        if negb (isEmpty (text n)) then
          Out (qs "`" ++ escText (text n) ++ qs "`")
        else Out (qs "`") >> seq >> Out (qs "`")
      else if qeq (name n) (qs "highlight") then
        Out (qs "#highlight([") >> seq >> Out (qs "])")
      else failAt (Some n) (qs "Unknown inline emphasis kind: " ++ name n)
  | K_Superscript => Out (qs "#super[" ++ escText (text n) ++ qs "]")
  | K_Subscript => Out (qs "#sub[" ++ escText (text n) ++ qs "]")
  | K_Link =>
      if isEmpty (children n) then
        Out (qs "#link(" ++ [dquote] ++ escString (target n) ++ [dquote]
             ++ qs ")[" ++ escText (target n) ++ qs "]")
      else
        Out (qs "#link(" ++ [dquote] ++ escString (target n) ++ [dquote]
             ++ qs ")[") >> seq >> Out (qs "]")
  | K_Xref =>
      if isEmpty (children n) then Out (qs "@" ++ escText (target n))
      else Out (qs "#link(<" ++ escText (target n) ++ qs ">)[")
           >> seq >> Out (qs "]")
  | K_AnchorInline => Out (qs "<" ++ escText (name n) ++ qs ">")
  | K_AttrRef => Out (qs "{" ++ escText (name n) ++ qs "}")
  | K_InlineMacro =>
      if qeq (name n) (qs "footnote") then
        Out (qs "#footnote[") >> seq >> Out (qs "]")
      else if qeq (name n) (qs "kbd") || qeq (name n) (qs "btn")
              || qeq (name n) (qs "menu") then
        Out (qs "#smallcaps[") >> seq >> Out (qs "]")
      else if qeq (name n) (qs "stem") then
        if negb (allowRawPassthrough dopt) then
          failAt (Some n)
            (qs "stem: inline macro requires raw passthrough or math conversion phase")
        else Out (qs "$" ++ escText (target n) ++ qs "$")
      else failAt (Some n)
             (qs "Unsupported inline macro in Typst generator: " ++ name n)
  | K_PassthroughInline =>
      if negb (allowRawPassthrough dopt) then
        failAt (Some n) (qs "Inline passthrough disabled")
      else seq
  | _ => failAt (Some n) (qs "Unsupported inline node kind in generator")
  end.

(** [TypstGenerator::emitInlineSeq]. *)
Fixpoint emitInlineSeq (inl : list Node) : Gen :=
  match inl with
  | [] => Out []
  | x :: r => emitInline x >> emitInlineSeq r
  end.

(** [TypstGenerator::emitParagraph]. *)
Definition emitParagraph (n : Node) : Gen :=
  emitInlineSeq (children n) >> Out [newline].

(** [TypstGenerator::emitLiteral]. *)
Definition emitLiteral (n : Node) : Gen :=
  Out (qs "#raw(" ++ [dquote] ++ escString (text n) ++ [dquote]
       ++ qs ", block: true)" ++ [newline]).

(** [TypstGenerator::emitAdmonition]. *)
Definition emitAdmonition (n : Node) : Gen :=
  Out (qs "#admon(" ++ [dquote] ++ escString (name n) ++ [dquote] ++ qs ", [")
  >> emitInlineSeq (children n)
  >> Out (qs "])" ++ [newline]).

(** [TypstGenerator::emitTable]. *)
Definition emitTable (n : Node) : Gen :=
  let rows := filter (fun r => kindEq (kind r) K_TableRow) (children n) in
  let cols := match rows with r :: _ => size (children r) | [] => 0 end in
  if cols <=? 0 then Out [] else
  Out (qs "#table(columns: " ++ number cols ++ qs "," ++ [newline])
  >> fold_left (fun acc row =>
       acc >>
       (if negb (size (children row) =? cols) then
          failAt (Some row) (qs "Table row has inconsistent number of cells")
        else
          fold_left (fun acc cell =>
            acc >> Out (qs "  [") >> emitInlineSeq (children cell)
                >> Out (qs "]," ++ [newline]))
            (children row) (Out [])))
       rows (Out [])
  >> Out (qs ")" ++ [newline]).

(** [TypstGenerator::emitBlockMacro]. *)
Definition emitBlockMacro (n : Node) : Gen :=
  if qeq (name n) (qs "include") then
    failAt (Some n)
      (qs "include:: requires semantic include expansion before Typst generation")
  else if qeq (name n) (qs "image") then
    let t := trimmed (target n) in
    let lb := indexOfC t "["%char 0 in
    let path := if lb <? 0 then t else trimmed (left t lb) in
    Out (qs "#image(" ++ [dquote] ++ escString path ++ [dquote]
         ++ qs ")" ++ [newline])
  else if qeq (name n) (qs "video") || qeq (name n) (qs "audio") then
    Out (qs "#link(" ++ [dquote]
         ++ escString (name n ++ qs "::" ++ trimmed (target n)) ++ [dquote]
         ++ qs ")["
         ++ escText (toUpper (name n) ++ qs ": " ++ trimmed (target n))
         ++ qs "]" ++ [newline])
  else failAt (Some n)
         (qs "Unsupported block macro in Typst generator: " ++ name n).

(** [TypstGenerator::emitDirective]. *)
Definition emitDirective (n : Node) : Gen :=
  failAt (Some n)
    (qs "Directives must be resolved before Typst generation (" ++ name n
     ++ qs ")").

(** [TypstGenerator::emitNode], with [emitSection], [emitDelimited] and
    [emitList], which call it on the children, inside. *)
Fixpoint emitNode (n : Node) (headingShift : Z) : Gen :=
  let each := fun (shift : Z) (sep : bool) =>
    (fix each (l : list Node) : Gen :=
       match l with
       | [] => Out []
       | x :: r =>
           emitNode x shift
           >> (if sep || negb (isEmpty r) then Out [newline] else Out [])
           >> each r
       end) in
  match kind n with
  | K_Section =>
      let level := toInt (value (kv n) (qs "level")) + headingShift in
      let level := if level <? 1 then 1 else level in
      Out (headingMarks level ++ qs " " ++ escText (name n)
           ++ labelSuffix (meta n) ++ [newline; newline])
      >> each headingShift true (children n)
  | K_Paragraph => emitParagraph n
  | K_LiteralParagraph => emitLiteral n
  | K_AdmonitionParagraph => emitAdmonition n
  | K_DelimitedBlock =>
      if negb (isEmpty (children n)) then
        Out (qs "#block([") >> each 0 true (children n)
        >> Out (qs "])" ++ [newline])
      else if qeq (value (kv n) (qs "stem")) (qs "1") then
        if negb (allowRawPassthrough dopt) then
          failAt (Some n)
            (qs "Stem block requires raw passthrough or math conversion phase")
        else Out (text n ++ [newline])
      else
        Out (qs "#raw(" ++ [dquote] ++ escString (text n) ++ [dquote]
             ++ qs ", block: true)" ++ [newline])
  | K_List =>
      let type := value (kv n) (qs "type") in
      if qeq type (qs "description") then
        Out (qs "#table(columns: 2," ++ [newline])
        >> (fix items (l : list Node) : Gen :=
              match l with
              | [] => Out []
              | it :: r =>
                  (if negb (kindEq (kind it) K_ListItem) then Out []
                   else
                     Out (qs "  [" ++ escText (name it) ++ qs "], " ++ qs "[")
                     >> match children it with
                        | [] => Out []
                        | d :: _ => emitNode d 0
                        end
                     >> Out (qs "]," ++ [newline]))
                  >> items r
              end) (children n)
        >> Out (qs ")" ++ [newline])
      else
        Out ((if qeq type (qs "ordered") then qs "#enum(" else qs "#list(")
             ++ [newline])
        >> (fix items (l : list Node) : Gen :=
              match l with
              | [] => Out []
              | it :: r =>
                  (if negb (kindEq (kind it) K_ListItem) then Out []
                   else
                     Out (qs "  [") >> each 0 false (children it)
                     >> Out (qs "]," ++ [newline]))
                  >> items r
              end) (children n)
        >> Out (qs ")" ++ [newline])
  | K_Table => emitTable n
  | K_BlockMacro => emitBlockMacro n
  | K_Directive => emitDirective n
  | K_ThematicBreak => Out (qs "---" ++ [newline])
  | K_PageBreak => Out (qs "#pagebreak()" ++ [newline])
  | K_LineComment => Out (qs "// " ++ escText (text n) ++ [newline])
  | _ => failAt (Some n) (qs "Unsupported block node kind in generator")
  end.

(** A string literal of the Typst prelude, in its quotes. *)
Definition quoted (x : string) : QString := [dquote] ++ qs x ++ [dquote].

(** [TypstGenerator::emitPreamble]. *)
Definition emitPreamble : Gen :=
  let nl := [newline] in
  if negb (isEmpty (templateFile dopt)) then
    Out (qs "#import " ++ [dquote] ++ escString (templateFile dopt) ++ [dquote]
         ++ qs ": *" ++ nl ++ nl)
  else if qeq (templateName dopt) (qs "plain") then
    Out (qs "// LeanDoc -> Typst (plain)" ++ nl
         ++ qs "#set page(margin: 2cm)" ++ nl
         ++ qs "#set text(font: " ++ quoted "Linux Libertine" ++ qs ", size: 11pt)"
         ++ nl ++ nl
         ++ qs "#let admon(kind, body) = block(" ++ nl
         ++ qs "  inset: (x: 10pt, y: 8pt)," ++ nl
         ++ qs "  radius: 4pt," ++ nl
         ++ qs "  fill: luma(240)," ++ nl
         ++ qs "  stroke: luma(200)," ++ nl
         ++ qs "  [*#kind:* ] + body," ++ nl
         ++ qs ")" ++ nl ++ nl)
  else if qeq (templateName dopt) (qs "report") then
    Out (qs "// LeanDoc -> Typst (report)" ++ nl
         ++ qs "#set page(margin: (top: 2cm, bottom: 2.2cm, x: 2.2cm))" ++ nl
         ++ qs "#set text(font: " ++ quoted "Libertinus Serif"
         ++ qs ", size: 11pt, leading: 1.25em)" ++ nl
         ++ qs "#set heading(numbering: " ++ quoted "1." ++ qs ")" ++ nl ++ nl
         ++ qs "#let admon(kind, body) = block(" ++ nl
         ++ qs "  inset: (x: 12pt, y: 10pt)," ++ nl
         ++ qs "  radius: 6pt," ++ nl
         ++ qs "  fill: rgb(" ++ quoted "f6f7fb" ++ qs ")," ++ nl
         ++ qs "  stroke: rgb(" ++ quoted "cfd6e6" ++ qs ")," ++ nl
         ++ qs "  [#text(weight: " ++ quoted "bold" ++ qs ")[#kind] ] + body," ++ nl
         ++ qs ")" ++ nl ++ nl)
  else failAt None (qs "Unknown templateName: " ++ templateName dopt).

(** [TypstGenerator::generate]. *)
Definition generate (doc : Node) : Gen :=
  if negb (kindEq (kind doc) K_Document) then
    failAt (Some doc) (qs "Root node is not a Document")
  else
    emitPreamble
    >> (let title := value (kv doc) (qs "title") in
        if negb (isEmpty title) then
          Out (qs "= " ++ escText title ++ [newline; newline])
        else Out [])
    >> fold_left (fun acc c => acc >> emitNode c 0 >> Out [newline])
                 (children doc) (Out []).

End Generator.

End Typst.
Import Typst.

(** The text made of the given lines, joined by newlines. *)
Definition lines (l : list string) : QString := join (map qs l) [newline].

(* ===================================================================== *)
(** * Notions used in the statements *)
(* ===================================================================== *)

Module Props.

(** [p] occurs in [s] as a piece of consecutive characters. *)
Definition Infix (p s : QString) : Prop := exists a b, s = a ++ p ++ b.

(** The closing marks of the constructs whose inner text is scanned
    again. *)
Definition closers : list QString :=
  map qs [">>"; "]]"; "]"; "**"; "*"; "__"; "_"; "``"; "#"; "+++"; "++"; "+"]%string.

(** [p] is found in [s] by [indexOf]. *)
Definition occurs (p s : QString) : bool := 0 <=? indexOf s p 0.

(** The number of closing marks that occur in a text. *)
Definition rank (s : QString) : nat :=
  length (filter (fun p => occurs p s) closers).

(** A text in which every construct of the scanner holds the next one:
    twelve nested constructs. *)
Definition deepInline : QString :=
  qs "<<x,[[y,m:[**a*b__c_d``e#f+++g++h+i+h++g+++f#e``d_c__b*a**] ]]>>".

(** What the scanner relies on in a recognised element: the scan moves
    on, and an inner text that is scanned again is a shorter piece of
    the text, without the closing mark that ended it. *)
Definition hitOk (s : QString) (i : Z) (h : Hit) : Prop :=
  i < hitNext h /\
  forall inner, hitInner h = Some inner ->
    Infix inner s /\ (length inner < length s)%nat /\
    exists p, In p closers /\ Infix p s /\ ~ Infix p inner.

(** [r'] is what [r] becomes with more fuel: the same outcome, or an
    outcome where [r] had none. *)
Definition le_res {A : Type} (r r' : Res A) : Prop := r = OutOfFuel \/ r = r'.

(** The fence lines and the kinds the header gives them. *)
Definition fences : list (QString * Lexer.Kind) :=
  [ (qs "----", T_DELIM_LISTING); (qs "....", T_DELIM_LITERAL);
    (qs "____", T_DELIM_QUOTE);   (qs "====", T_DELIM_EXAMPLE);
    (qs "****", T_DELIM_SIDEBAR); (qs "--", T_DELIM_OPEN);
    (qs "////", T_DELIM_COMMENT) ].

(** The state of [splitUnescapedPipe] after the characters of [line]:
    the finished parts, the part in progress and the backslash run. *)
Fixpoint pipeState (line : QString) (parts : list QString) (cur : QString)
    (backslashRun : Z) : list QString * QString * Z :=
  match line with
  | [] => (parts, cur, backslashRun)
  | c :: r =>
      if ceq c "|"%char then
        if backslashRun mod 2 =? 0 then pipeState r (parts ++ [cur]) [] 0
        else pipeState r parts
               ((if isEmpty cur then cur else chop cur 1) ++ ["|"%char]) 0
      else
        pipeState r parts (cur ++ [c])
          (if ceq c backslash then backslashRun + 1 else 0)
  end.

(** What [parseInlineContent] returns; it always returns. *)
Definition inlineNodes (s : QString) (lineNo : Z) : list Node :=
  match parseInlineContent s lineNo with
  | Some r => r
  | None => []
  end.

(** The cell made from one part of a row. *)
Definition cellNode (lineNo : Z) (cell : QString) : Node :=
  setChildren (setPos (newNode K_TableCell) (mkPos lineNo 1))
              (inlineNodes (trimmed cell) lineNo).

(** The cells of one table line. *)
Definition rowCells (t : LineTok) : list Node :=
  map (cellNode (lineNo t)) (tl (splitUnescapedPipe (raw t))).

(** A TableCell node. *)
Definition isCell (n : Node) : Prop := Ast.kind n = K_TableCell.

(** A token of kind TABLE_LINE. *)
Definition isTableLine (t : LineTok) : bool := keq (Lexer.kind t) T_TABLE_LINE.

(** A token that does not end the row loop of [parseTable]. *)
Definition inBody (t : LineTok) : bool :=
  negb (keq (Lexer.kind t) T_EOF) && negb (keq (Lexer.kind t) T_TABLE_DELIM).

(** The row loop, read off the token list: the cells of the table lines
    up to the closing delimiter, and the tokens after it. *)
Fixpoint tableParts (l : list LineTok) : list (list Node) :=
  match l with
  | [] => []
  | t :: r => if inBody t
              then (if isTableLine t then [rowCells t] else []) ++ tableParts r
              else []
  end.

(** The tokens that are left when the row loop has ended and the
    closing delimiter, if there is one, has been accepted. *)
Fixpoint tableRest (l : list LineTok) : list LineTok :=
  match l with
  | [] => []
  | t :: r => if inBody t then tableRest r
              else if keq (Lexer.kind t) T_EOF then l else r
  end.

(** A TableRow node of [w] cells. *)
Definition isRow (w : nat) (r : Node) : Prop :=
  Ast.kind r = K_TableRow /\ length (children r) = w /\
  Forall isCell (children r).

(** The error of [parseTable] for cells that do not fill the rows; its
    position is the position of the first cell. *)
Definition widthError (c0 : Node) : ParseError :=
  mkErr (Ast.line (pos c0)) (Ast.column (pos c0))
        (qs "the number of cells is not compatible with the table size").

(** The paragraph [parseParagraphOrLiteral] returns when the next token
    is no text line: no lines, no children. *)
Definition emptyParagraph (lineNo : Z) (m : option BlockMeta) : Node :=
  blockAt K_Paragraph lineNo m.

(** Every node of a tree satisfies [P]. *)
#[warnings="-register-all"]
Inductive AllNodes (P : Node -> Prop) : Node -> Prop :=
| AllNodes_intro n : P n -> Forall (AllNodes P) (children n) -> AllNodes P n.

(** What holds of the outcome of a routine, when it has one that is no
    error. *)
Definition resAll {A : Type} (Q : A -> Prop) (r : Res A) : Prop :=
  match r with Ok a => Q a | _ => True end.

Definition optAll {A : Type} (Q : A -> Prop) (r : option A) : Prop :=
  match r with Some a => Q a | None => True end.

(** The node a block routine returns, the nodes a loop has collected. *)
Definition nodeOk (P : Node -> Prop) (x : option Node * State) : Prop :=
  optAll (AllNodes P) (fst x).

Definition nodesOk (P : Node -> Prop) {S : Type} (x : list Node * S) : Prop :=
  Forall (AllNodes P) (fst x).

(** A node that is no table, above trees that satisfy [P]. *)
Definition plainOk (P : Node -> Prop) (n : Node) : Prop :=
  Ast.kind n <> K_Table /\ Forall (AllNodes P) (children n).

Definition itemOk (P : Node -> Prop) {S : Type} (x : Node * S) : Prop :=
  plainOk P (fst x).

(** A Table node has rows, each with as many cells as its first row. *)
Definition tableOk (n : Node) : Prop :=
  Ast.kind n = K_Table ->
  Forall (isRow (length (children (hd n (children n))))) (children n).

(** The state [parseDelimited] reads the opening fence in: behind the
    stem attribute line, when there is one. *)
Definition fenceState (st : State) : State :=
  if keq (laKind st 0) T_STEM_ATTR_LINE then snd (take st) else st.

(** The kinds of fence whose body is kept as raw lines. *)
Definition rawFence (k : Lexer.Kind) : bool :=
  keq k T_DELIM_LISTING || keq k T_DELIM_LITERAL ||
  keq k T_DELIM_PASSTHROUGH || keq k T_DELIM_COMMENT.

End Props.
Import Props.

(* ===================================================================== *)
(** * Trees of the examples *)
(* ===================================================================== *)

Module Trees.

Definition docOf (kids : list Node) : Node :=
  mkNode K_Document (mkPos 1 1) None [] [] [] [] kids.

Definition sectionOf (lineNo lvl : Z) (ttl : string) (m : option BlockMeta)
    (kids : list Node) : Node :=
  mkNode K_Section (mkPos lineNo 1) m [] (qs ttl) []
         [(qs "level", number lvl)] kids.

Definition paragraphOf (lineNo : Z) (kids : list Node) : Node :=
  mkNode K_Paragraph (mkPos lineNo 1) None [] [] [] [] kids.

Definition textOf (lineNo : Z) (s : string) : Node :=
  mkNode K_Text (mkPos lineNo 1) None (qs s) [] [] [] [].

Definition admonitionOf (lineNo : Z) (label : string) (kids : list Node) : Node :=
  mkNode K_AdmonitionParagraph (mkPos lineNo 1) None [] (qs label) [] [] kids.

Definition tableOf (lineNo : Z) (rows : list Node) : Node :=
  mkNode K_Table (mkPos lineNo 1) None [] [] [] [] rows.

Definition rowOf (lineNo : Z) (cells : list Node) : Node :=
  mkNode K_TableRow (mkPos lineNo 1) None [] [] [] [] cells.

Definition cellOf (lineNo : Z) (kids : list Node) : Node :=
  mkNode K_TableCell (mkPos lineNo 1) None [] [] [] [] kids.

Definition emphOf (lineNo : Z) (nm : string) (kids : list Node) : Node :=
  mkNode K_Emph (mkPos lineNo 1) None [] (qs nm) [] [] kids.

(** The metadata of a lone [[[id]]] line, and of a lone [.Title] line. *)
Definition anchorMeta (id : string) : BlockMeta := mkMeta (qs id) [] [] [] [].
Definition titleMeta (ttl : string) : BlockMeta := mkMeta [] [] (qs ttl) [] [].

(** The level a section node carries. *)
Definition sectionLevel (n : Node) : Z := toInt (value (kv n) (qs "level")).

(** The nesting invariant of sections, checked on a tree: every section
    that is a child of a section has a greater level. *)
Fixpoint nestingOk (n : Node) : bool :=
  (fix all (l : list Node) : bool :=
     match l with
     | [] => true
     | c :: r =>
         (if kindEq (kind n) K_Section && kindEq (kind c) K_Section
          then sectionLevel n <? sectionLevel c else true)
         && nestingOk c && all r
     end) (children n).

End Trees.
Import Trees.

(* ===================================================================== *)
(** * Further routines of the sources *)
(* ===================================================================== *)

Module Routines.

(** [Lexer::isBlank]. *)
Fixpoint isBlank (s : QString) : bool :=
  match s with
  | [] => true
  | c :: r => if negb (isSpace c) then false else isBlank r
  end.

(** The loop of [splitOnUnescapedPipe0]. *)
Fixpoint splitPipeLoop0 (s : QString) (r : list QString) (cur : QString)
    (bs : Z) : list QString :=
  match s with
  | [] => r ++ [cur]
  | c :: s' =>
      if ceq c "|"%char then
        if negb (Z.land bs 1 =? 0) then
          splitPipeLoop0 s' r (chop cur 1 ++ ["|"%char]) 0   (* "\|" -> "|" *)
        else splitPipeLoop0 s' (r ++ [cur]) [] 0
      else
        splitPipeLoop0 s' r (cur ++ [c]) (if ceq c backslash then bs + 1 else 0)
  end.

(** [static QStringList splitOnUnescapedPipe0(s)]. *)
Definition splitOnUnescapedPipe0 (s : QString) : list QString :=
  splitPipeLoop0 s [] [] 0.

(** The loops inside [emitNode], by name: the children of a section, of
    a container block and of a list item; the items of a description
    list; the items of an ordered or unordered list. *)
Section EmitLoops.
Variable opts : Options.

Definition emitEach (shift : Z) (sep : bool) : list Node -> Gen :=
  fix each (l : list Node) : Gen :=
    match l with
    | [] => Out []
    | x :: r =>
        emitNode opts x shift
        >> (if sep || negb (isEmpty r) then Out [newline] else Out [])
        >> each r
    end.

Fixpoint emitTerms (l : list Node) : Gen :=
  match l with
  | [] => Out []
  | it :: r =>
      (if negb (kindEq (Ast.kind it) K_ListItem) then Out []
       else
         Out (qs "  [" ++ escText (name it) ++ qs "], " ++ qs "[")
         >> match children it with
            | [] => Out []
            | d :: _ => emitNode opts d 0
            end
         >> Out (qs "]," ++ [newline]))
      >> emitTerms r
  end.

Fixpoint emitItems (l : list Node) : Gen :=
  match l with
  | [] => Out []
  | it :: r =>
      (if negb (kindEq (Ast.kind it) K_ListItem) then Out []
       else
         Out (qs "  [") >> emitEach 0 false (children it)
         >> Out (qs "]," ++ [newline]))
      >> emitItems r
  end.

End EmitLoops.

End Routines.
Import Routines.

(* ===================================================================== *)
(** * Notions used in the further properties *)
(* ===================================================================== *)

Module Notions.

(** The tokens [skipBlankAndLineComments] takes. *)
Definition blankOrComment (t : LineTok) : bool :=
  keq (Lexer.kind t) T_BLANK || keq (Lexer.kind t) T_LINE_COMMENT.

(** A text line that starts with a white space character. *)
Definition literalLine (t : LineTok) : Prop :=
  Lexer.kind t = T_TEXT /\ exists c x, raw t = c :: x /\ isSpace c = true.

(** The kinds of the metadata lines. *)
Definition metaKind (k : Lexer.Kind) : bool :=
  keq k T_BLOCK_ANCHOR || keq k T_BLOCK_ATTRS || keq k T_BLOCK_TITLE.

(** The characters [escText] puts a backslash in front of. *)
Definition escaped (c : QChar) : bool :=
  ceq c backslash || ceq c "*"%char || ceq c "_"%char ||
  ceq c "`"%char || ceq c "#"%char || ceq c "["%char ||
  ceq c "]"%char || ceq c "<"%char || ceq c ">"%char.

(** The carriage return. *)
Definition cr : QChar := "013"%char.

(** The outputs of the nodes of a list, each followed by a newline. *)
Definition linesOf (outs : list QString) : QString :=
  concat (map (fun o => o ++ [newline]) outs).

(** What [escString] writes for one character. *)
Definition escOne (c : QChar) : QString :=
  if ceq c backslash then [backslash; backslash]
  else if ceq c dquote then [backslash; dquote]
  else if ceq c newline then [backslash; "n"%char]
  else if ceq c cr then []
  else [c].

(** The title line of [generate]. *)
Definition titleLine (doc : Node) : QString :=
  if negb (isEmpty (value (kv doc) (qs "title")))
  then qs "= " ++ escText (value (kv doc) (qs "title")) ++ [newline; newline]
  else [].

(** The characters that can start an inline element. *)
Definition markupChars : QString := qs "{<[:*_`#^~+".

(** A text without any of them. *)
Definition plainText (s : QString) : Prop :=
  forall c, In c markupChars -> ~ In c s.

(** The lexer after [k] calls of [take]. *)
Definition taken (k : nat) (st : State) : State :=
  Nat.iter k (fun s => snd (take s)) st.

(** A list item with its kind, and a list item that starts with a
    paragraph. *)
Definition isItem (n : Node) : Prop := Ast.kind n = K_ListItem.
Definition headed (n : Node) : Prop :=
  exists p r, children n = p :: r /\ Ast.kind p = K_Paragraph.

(** The kinds of the nodes [parseBlock] returns, which are the kinds
    [emitNode] has a case for. *)
Definition blockKind (k : Ast.Kind) : bool :=
  match k with
  | K_Section | K_Paragraph | K_LiteralParagraph | K_AdmonitionParagraph
  | K_DelimitedBlock | K_List | K_Table | K_BlockMacro | K_Directive
  | K_ThematicBreak | K_PageBreak | K_LineComment => true
  | _ => false
  end.

(** The kinds of the nodes the inline scanner makes, which are the kinds
    [emitInline] has a case for. *)
Definition inlineKind (k : Ast.Kind) : bool :=
  match k with
  | K_Text | K_Emph | K_Superscript | K_Subscript | K_Link | K_AnchorInline
  | K_Xref | K_AttrRef | K_InlineMacro | K_PassthroughInline => true
  | _ => false
  end.

(** All children of a node have a kind of the class [K]. *)
Definition kids (K : Ast.Kind -> bool) (n : Node) : Prop :=
  Forall (fun c => K (Ast.kind c) = true) (children n).

(** The names of emphasis [emitInline] knows. *)
Definition emphNames : list QString :=
  [qs "bold"; qs "italic"; qs "mono"; qs "highlight"].

(** What a node of each kind holds, in a tree of the parser. *)
Definition shape (n : Node) : Prop :=
  match Ast.kind n with
  | K_Document | K_Section | K_DelimitedBlock | K_Directive | K_ListItem =>
      kids blockKind n
  | K_Paragraph | K_AdmonitionParagraph | K_TableCell => kids inlineKind n
  | K_List => Forall isItem (children n)
  | K_Table => exists w, Forall (isRow w) (children n)
  | K_TableRow => Forall isCell (children n)
  | K_Emph => In (name n) emphNames /\ kids inlineKind n
  | K_Link | K_AnchorInline | K_Xref | K_InlineMacro | K_PassthroughInline =>
      kids inlineKind n
  | K_Text | K_Superscript | K_Subscript | K_AttrRef
  | K_LiteralParagraph | K_BlockMacro | K_ThematicBreak | K_PageBreak
  | K_LineComment => children n = []
  | K_Space | K_LineBreak | K_ImageInline => False
  end.

(** A tree of nodes of that shape whose root has a kind of the class. *)
Definition good (K : Ast.Kind -> bool) (n : Node) : Prop :=
  K (Ast.kind n) = true /\ AllNodes shape n.

(** A list item under construction. *)
Definition itemGood (n : Node) : Prop :=
  Ast.kind n = K_ListItem /\ Forall (good blockKind) (children n).

(** A table cell. *)
Definition cellGood (n : Node) : Prop := isCell n /\ AllNodes shape n.

(** The results of the block routines, in trees of that shape. *)
Definition nodeRes (x : option Node * State) : Prop :=
  optAll (good blockKind) (fst x).
Definition nodesRes {S : Type} (x : list Node * S) : Prop :=
  Forall (good blockKind) (fst x).
Definition itemRes {S : Type} (x : Node * S) : Prop := itemGood (fst x).

(** The conditions under which the generator gives up on a tree of the
    parser, by the message it leaves. *)
Inductive Reason : QString -> Prop :=
| R_template nm : Reason (qs "Unknown templateName: " ++ nm)
| R_directive nm :
    Reason (qs "Directives must be resolved before Typst generation (" ++ nm
            ++ qs ")")
| R_include :
    Reason (qs "include:: requires semantic include expansion before Typst generation")
| R_blockMacro nm : Reason (qs "Unsupported block macro in Typst generator: " ++ nm)
| R_inlineMacro nm : Reason (qs "Unsupported inline macro in Typst generator: " ++ nm)
| R_stemInline :
    Reason (qs "stem: inline macro requires raw passthrough or math conversion phase")
| R_stemBlock :
    Reason (qs "Stem block requires raw passthrough or math conversion phase")
| R_passthrough : Reason (qs "Inline passthrough disabled").

(** What holds of a block node, and of the children of a list item. *)
Definition emitsOk (opts : Options) (n : Node) : Prop :=
  (blockKind (Ast.kind n) = true ->
   forall shift e, emitNode opts n shift = Failed e -> Reason (message e)) /\
  (Ast.kind n = K_ListItem ->
   forall c shift e, In c (children n) -> emitNode opts c shift = Failed e ->
                     Reason (message e)).

(** A token of the lexer that is neither a list continuation nor a
    table line; a text token of the lexer is not blank. *)
Definition plainTok (t : LineTok) : Prop :=
  Lexer.kind t <> T_EOF /\ Lexer.kind t <> T_LIST_CONT /\
  Lexer.kind t <> T_TABLE_LINE /\
  (Lexer.kind t = T_TEXT -> trimmed (raw t) <> []).

(** The routine returned, normally or with a [ParseError], and a normal
    result satisfies [Q]. *)
Definition returns {A : Type} (Q : A -> Prop) (r : Res A) : Prop :=
  match r with Ok a => Q a | Err _ => True | OutOfFuel => False end.

(** The routine comes back, with a result or with an error. *)
Definition halts {A : Type} (r : Res A) : Prop := r <> OutOfFuel.

(** [st'] is [st] after some calls of [take]. *)
Definition later (st' st : State) : Prop :=
  (exists pre, toks st = pre ++ toks st') /\ eofLine st' = eofLine st.

(** The number of lines that are still to be read. *)
Definition len (st : State) : nat := length (toks st).

(** The lexer is at a line that is not blank. *)
Definition ready (st : State) : bool :=
  match toks st with
  | t :: _ => negb (keq (Lexer.kind t) T_BLANK)
  | [] => false
  end.

(** What a routine called at [st] does to the lexer: it takes tokens
    only; it takes at least one; it takes at least one when it is
    called at a line that is not blank. *)
Definition stays {A : Type} (st : State) (x : A * State) : Prop :=
  later (snd x) st.

Definition consumes {A : Type} (st : State) (x : A * State) : Prop :=
  later (snd x) st /\ (len (snd x) < len st)%nat.

Definition advances {A : Type} (st : State) (x : A * State) : Prop :=
  later (snd x) st /\ (ready st = true -> (len (snd x) < len st)%nat).

(** What the scanner makes of a text [x] between two marks [m], and
    what the generator writes in front of and behind the escaped [x]. *)
Definition marked (m : QChar) (lineNo : Z) (x : QString)
  : option (Node * QString * QString) :=
  let text := setText (nodeAt K_Text lineNo) x in
  let emph := fun nm => setChildren (setName (nodeAt K_Emph lineNo) (qs nm)) [text] in
  if ceq m "*"%char then Some (emph "bold"%string, qs "*", qs "*")
  else if ceq m "_"%char then Some (emph "italic"%string, qs "_", qs "_")
  else if ceq m "#"%char then
    Some (emph "highlight"%string, qs "#highlight([", qs "])")
  else if ceq m "`"%char then
    Some (setText (setName (nodeAt K_Emph lineNo) (qs "mono")) x, qs "`", qs "`")
  else if ceq m "^"%char then
    Some (setText (nodeAt K_Superscript lineNo) x, qs "#super[", qs "]")
  else if ceq m "~"%char then
    Some (setText (nodeAt K_Subscript lineNo) x, qs "#sub[", qs "]")
  else None.

(** A text line of a paragraph: a text token that is not blank. *)
Definition textLine (t : LineTok) : Prop :=
  Lexer.kind t = T_TEXT /\ trimmed (raw t) <> [].

(** The fences of the container blocks. *)
Definition containerFence (k : Lexer.Kind) : bool :=
  keq k T_DELIM_QUOTE || keq k T_DELIM_EXAMPLE ||
  keq k T_DELIM_SIDEBAR || keq k T_DELIM_OPEN.

(** The lines of a text of paragraphs: the lines of each paragraph, and
    an empty line between two. *)
Fixpoint paragraphText (ps : list (list QString)) : list QString :=
  match ps with
  | [] => []
  | [p] => p
  | p :: r => p ++ [] :: paragraphText r
  end.

(** The text of a paragraph of lines: the trimmed lines, a space between
    two. *)
Definition flowed (p : list QString) : QString := join (map trimmed p) (qs " ").

(** A paragraph at line [k] that holds the text [x] alone. *)
Definition plainParagraph (k : Z) (x : QString) : Node :=
  paragraphOf k [mkNode K_Text (mkPos k 1) None x [] [] [] []].

(** The paragraphs of the text that follows line [k]. *)
Fixpoint paragraphsAt (k : Z) (ps : list (list QString)) : list Node :=
  match ps with
  | [] => []
  | p :: r => plainParagraph (k + 1) (flowed p)
              :: paragraphsAt (k + Z.of_nat (length p) + 1) r
  end.

(** The lines of a paragraph of plain text: each is a text line for the
    lexer and holds no markup character, and the first is not indented. *)
Definition plainLines (p : list QString) : Prop :=
  p <> [] /\ isSpace (at_ (hd [] p) 0) = false /\
  Forall (fun l => Lexer.kind (classify l 0) = T_TEXT /\ plainText l /\
                   ~ In newline l) p.

(** The lines at which [parseBlock] takes nothing: the end of the input,
    a blank line, a list continuation and a table line. *)
Definition standstill (k : Lexer.Kind) : bool :=
  keq k T_EOF || keq k T_BLANK || keq k T_LIST_CONT || keq k T_TABLE_LINE.

(** A token the lexer has made of a line. *)
Definition lexed (t : LineTok) : Prop := exists line n, t = classify line n.

(** [a] is made of elements of [b], in the order they have in [b]. *)
Inductive Subseq {A : Type} : list A -> list A -> Prop :=
| Subseq_nil l : Subseq [] l
| Subseq_take x a b : Subseq a b -> Subseq (x :: a) (x :: b)
| Subseq_skip x a b : Subseq a b -> Subseq a (x :: b).

(** A check box at the start of the text of an item line. *)
Definition boxed (s : QString) : bool :=
  startsWith s (qs "[*]") || startsWith s (qs "[x]") || startsWith s (qs "[ ]").

(** The text of an item line that is the text of the item: what follows
    the marker, without the check box if there is one. *)
Definition itemText (t : LineTok) : QString :=
  if boxed (rest t) then trimmed (mid (rest t) 3) else rest t.

(** The item of an ordered or unordered list made of the item line [t]:
    it is at the line of [t], holds the level of its marker and the
    character in its check box, and starts with the paragraph of its
    text. *)
Definition itemOf (t : LineTok) (it : Node) : Prop :=
  Ast.kind it = K_ListItem /\ pos it = mkPos (lineNo t) 1 /\
  value (kv it) (qs "markerLevel") = number (level t) /\
  (boxed (rest t) = true -> value (kv it) (qs "check") = midn (rest t) 1 1) /\
  exists more,
    children it
    = paragraphOf (lineNo t) (inlineNodes (itemText t) (lineNo t)) :: more.

(** The item of a description list made of the term line [t]. *)
Definition termOf (t : LineTok) (it : Node) : Prop :=
  Ast.kind it = K_ListItem /\ pos it = mkPos (lineNo t) 1 /\
  name it = rest t /\
  value (kv it) (qs "kind") = qs "definition" /\
  value (kv it) (qs "termLevel") = number (level t).

(** The line an item of a list of the given type is made of. *)
Definition listed (type : QString) (t : LineTok) (it : Node) : Prop :=
  if qeq type (qs "description") then Lexer.kind t = T_DESC_TERM /\ termOf t it
  else Lexer.kind t = (if qeq type (qs "ordered") then T_OL_ITEM else T_UL_ITEM)
       /\ itemOf t it.

(** A line of the header, if the header has it, with the blank lines and
    line comments that are skipped behind it. *)
Definition lead (o : option LineTok) (skipped : list LineTok) : list LineTok :=
  match o with Some t => t :: skipped | None => [] end.

(** A line that holds both angle brackets, as an author line does. *)
Definition angled (t : LineTok) : bool :=
  contains (trimmed (raw t)) "<"%char && contains (trimmed (raw t)) ">"%char.

(** The title line, the author line and the revision line of a header. *)
Definition titleTok (t : LineTok) : Prop :=
  Lexer.kind t = T_SECTION /\ level t = 1.
Definition authorTok (t : LineTok) : Prop :=
  Lexer.kind t = T_TEXT /\ angled t = true.
Definition revisionTok (t : LineTok) : Prop :=
  Lexer.kind t = T_TEXT /\ startsWith (trimmed (raw t)) (qs "v") = true.

(** An attribute entry [:name: value]: the name is not empty and holds
    no colon. *)
Definition entryTok (t : LineTok) (name val : QString) : Prop :=
  Lexer.kind t = T_TEXT /\
  trimmed (raw t) = ":"%char :: name ++ ":"%char :: val /\
  name <> [] /\ ~ In ":"%char name.

(** [Within d n]: the tree [n] is at most [d] nodes high. *)
#[warnings="-register-all"]
Inductive Within : nat -> Node -> Prop :=
| Within_node d n : Forall (Within d) (children n) -> Within (S d) n.

(** What a block routine called at [st] returns: it puts back no line,
    and its node is at most as high as the number of lines it has
    taken, and sixteen more. *)
Definition high (st : State) (x : option Node * State) : Prop :=
  later (snd x) st /\ optAll (Within (len st - len (snd x) + 16)) (fst x).

(** What a body loop started at [st0] returns: it puts back no line, and
    its nodes are at most as high as the number of lines taken since
    [st0], and [k] more. *)
Definition grown (k : nat) (st0 : State) (x : list Node * State) : Prop :=
  later (snd x) st0 /\ Forall (Within (len st0 - len (snd x) + k)) (fst x).

End Notions.
Import Notions.

(* ===================================================================== *)
(** * Facts about QString operations *)
(* ===================================================================== *)

Module QStrFacts.

(** Boolean tests of the source, as propositions. *)
Ltac zbool :=
  repeat match goal with
  | H : (_ && _) = true |- _ => apply andb_true_iff in H; destruct H
  | H : (_ || _) = false |- _ => apply orb_false_iff in H; destruct H
  | H : negb _ = true |- _ => apply negb_true_iff in H
  | H : negb _ = false |- _ => apply negb_false_iff in H
  | H : (_ >? _) = _ |- _ => rewrite Z.gtb_ltb in H
  | H : (_ >=? _) = _ |- _ => rewrite Z.geb_leb in H
  | H : (_ <? _) = true |- _ => apply Z.ltb_lt in H
  | H : (_ <? _) = false |- _ => apply Z.ltb_ge in H
  | H : (_ <=? _) = true |- _ => apply Z.leb_le in H
  | H : (_ <=? _) = false |- _ => apply Z.leb_gt in H
  | H : (_ =? _) = true |- _ => apply Z.eqb_eq in H
  | H : (_ =? _) = false |- _ => apply Z.eqb_neq in H
  end.

Ltac zdecide :=
  repeat first [rewrite Z.gtb_ltb | rewrite Z.geb_leb];
  first [apply Z.ltb_lt | apply Z.ltb_ge | apply Z.leb_le | apply Z.leb_gt
        | apply Z.eqb_eq | apply Z.eqb_neq]; lia.

Lemma ceq_eq (a b : QChar) : ceq a b = true <-> a = b.
Proof. apply Ascii.eqb_eq. Qed.

Lemma ceq_refl (a : QChar) : ceq a a = true.
Proof. apply ceq_eq; reflexivity. Qed.

Lemma ceq_neq (a b : QChar) : ceq a b = false <-> a <> b.
Proof.
  split.
  - intros H E. apply ceq_eq in E. congruence.
  - intros H. destruct (ceq a b) eqn:E; [apply ceq_eq in E; contradiction | reflexivity].
Qed.

Lemma qeq_eq (a b : QString) : qeq a b = true <-> a = b.
Proof.
  revert b; induction a as [|x a IH]; intros [|y b]; simpl; split; intros H;
    try reflexivity; try discriminate.
  - apply andb_true_iff in H as [H1 H2].
    apply ceq_eq in H1. apply IH in H2. congruence.
  - injection H as -> ->. rewrite ceq_refl. apply IH. reflexivity.
Qed.

Lemma qeq_refl (a : QString) : qeq a a = true.
Proof. apply qeq_eq; reflexivity. Qed.

Lemma size_nonneg {A} (s : list A) : 0 <= size s.
Proof. unfold size; lia. Qed.

Lemma size_app {A} (a b : list A) : size (a ++ b) = size a + size b.
Proof. unfold size. rewrite length_app. lia. Qed.

Lemma startsWith_spec (s p : QString) :
  startsWith s p = true <-> exists r, s = p ++ r.
Proof.
  revert s; induction p as [|a p IH]; intros s; simpl.
  - split; [intros _; exists s; reflexivity | destruct s; reflexivity].
  - destruct s as [|b s]; simpl.
    + split; [discriminate | intros [r H]; discriminate].
    + rewrite andb_true_iff, ceq_eq, IH. split.
      * intros [-> [r ->]]. exists r. reflexivity.
      * intros [r H]. injection H as -> ->. split; [reflexivity | eauto].
Qed.

Lemma startsWith_app (s p r : QString) :
  startsWith s p = true -> startsWith (s ++ r) p = true.
Proof.
  rewrite !startsWith_spec. intros [x ->]. exists (x ++ r).
  now rewrite app_assoc.
Qed.

(** ** Contiguous substrings *)

Lemma Infix_refl (s : QString) : Infix s s.
Proof. exists [], []. now rewrite app_nil_r. Qed.

Lemma Infix_nil (s : QString) : Infix [] s.
Proof. exists [], s. reflexivity. Qed.

Lemma Infix_trans (a b c : QString) : Infix a b -> Infix b c -> Infix a c.
Proof.
  intros [x [y ->]] [u [v ->]]. exists (u ++ x), (y ++ v).
  now rewrite <- !app_assoc.
Qed.

Lemma Infix_skipn (n : nat) (s : QString) : Infix (skipn n s) s.
Proof.
  exists (firstn n s), []. now rewrite app_nil_r, firstn_skipn.
Qed.

Lemma Infix_firstn (n : nat) (s : QString) : Infix (firstn n s) s.
Proof. exists [], (skipn n s). simpl. now rewrite firstn_skipn. Qed.

Lemma Infix_length (p s : QString) : Infix p s -> (length p <= length s)%nat.
Proof. intros [a [b ->]]. rewrite !length_app. lia. Qed.

Lemma midn_Infix (s : QString) (pos n : Z) : Infix (midn s pos n) s.
Proof.
  unfold midn.
  repeat match goal with
         | |- context [if ?c then _ else _] => destruct c
         end;
    auto using Infix_nil, Infix_refl, Infix_skipn, Infix_firstn.
  eapply Infix_trans; [apply Infix_firstn | apply Infix_skipn].
Qed.

Lemma mid_Infix (s : QString) (pos : Z) : Infix (mid s pos) s.
Proof.
  unfold mid. destruct (pos >? size s); auto using Infix_nil, Infix_skipn.
Qed.

Lemma left_Infix (s : QString) (n : Z) : Infix (left s n) s.
Proof.
  unfold left.
  destruct ((n >=? size s) || (n <? 0)); auto using Infix_refl, Infix_firstn.
Qed.

Lemma dropSpaces_suffix (s : QString) : exists a, s = a ++ dropSpaces s.
Proof.
  induction s as [|c s [a IH]]; simpl.
  - exists []. reflexivity.
  - destruct (isSpace c).
    + exists (c :: a). simpl. now rewrite <- IH.
    + exists []. reflexivity.
Qed.

Lemma trimmed_Infix (s : QString) : Infix (trimmed s) s.
Proof.
  unfold trimmed.
  destruct (dropSpaces_suffix s) as [a Ha].
  destruct (dropSpaces_suffix (rev (dropSpaces s))) as [b Hb].
  exists a, (rev b).
  rewrite <- rev_app_distr, <- Hb, rev_involutive. exact Ha.
Qed.

Lemma trimmed_length (s : QString) : (length (trimmed s) <= length s)%nat.
Proof. apply Infix_length, trimmed_Infix. Qed.

(** ** indexOf *)

Lemma findFrom_spec (p s : QString) (off : Z) :
  0 <= off ->
  (findFrom p s off = -1 /\
   forall k, (k <= length s)%nat -> startsWith (skipn k s) p = false)
  \/
  (exists k, findFrom p s off = off + Z.of_nat k /\ (k <= length s)%nat /\
             startsWith (skipn k s) p = true /\
             forall k', (k' < k)%nat -> startsWith (skipn k' s) p = false).
Proof.
  revert off; induction s as [|c s IH]; intros off Hoff.
  - cbn [findFrom]. destruct (startsWith [] p) eqn:E.
    + right. exists 0%nat. simpl. repeat split; auto; try lia.
    + left. split; [reflexivity|]. intros k Hk. simpl in Hk.
      replace k with 0%nat by lia. exact E.
  - cbn [findFrom]. destruct (startsWith (c :: s) p) eqn:E.
    + right. exists 0%nat. simpl. repeat split; auto; try lia.
    + destruct (IH (off + 1)) as [[H1 H2] | [k [H1 [H2 [H3 H4]]]]]; [lia | |].
      * left. split; [exact H1|]. intros [|k] Hk; [exact E|].
        simpl. apply H2. simpl in Hk. lia.
      * right. exists (S k). simpl. repeat split; auto; try lia.
        intros [|k'] Hk'; [exact E|]. simpl. apply H4. lia.
Qed.

(** What a successful [indexOf] says: the pattern starts at the index
    found and at no index between [from] and it. *)
Lemma indexOf_found (s p : QString) (from j : Z) :
  0 <= from -> indexOf s p from = j -> 0 <= j ->
  from <= j /\ j <= size s /\
  startsWith (skipn (Z.to_nat j) s) p = true /\
  forall k, from <= k < j -> startsWith (skipn (Z.to_nat k) s) p = false.
Proof.
  intros Hfrom H Hj. unfold indexOf in H.
  replace (from <? 0) with false in H by (symmetry; zdecide).
  destruct (from >? size s) eqn:E; [lia|]. zbool.
  unfold size in *.
  destruct (findFrom_spec p (skipn (Z.to_nat from) s) Hfrom)
    as [[H1 _] | [k [H1 [H2 [H3 H4]]]]]; [lia|].
  rewrite length_skipn in H2. rewrite skipn_skipn in H3.
  assert (Ej : j = from + Z.of_nat k) by lia.
  repeat split; try lia.
  - replace (Z.to_nat j) with (k + Z.to_nat from)%nat by lia. exact H3.
  - intros k' Hk'.
    specialize (H4 (Z.to_nat k' - Z.to_nat from)%nat).
    rewrite skipn_skipn in H4.
    replace (Z.to_nat k' - Z.to_nat from + Z.to_nat from)%nat
      with (Z.to_nat k') in H4 by lia.
    apply H4. lia.
Qed.

Lemma indexOf_Infix (s p : QString) (from j : Z) :
  0 <= from -> indexOf s p from = j -> 0 <= j -> Infix p s.
Proof.
  intros Hf H Hj. destruct (indexOf_found _ _ Hf H Hj) as [_ [_ [H3 _]]].
  apply startsWith_spec in H3 as [r Hr].
  exists (firstn (Z.to_nat j) s), r.
  rewrite <- Hr. now rewrite firstn_skipn.
Qed.

Lemma midn_inside (s : QString) (from n : Z) :
  0 <= from -> 0 <= n -> from + n <= size s ->
  midn s from n = firstn (Z.to_nat n) (skipn (Z.to_nat from) s).
Proof.
  intros H1 H2 H3. unfold midn.
  replace (from >? size s) with false by (symmetry; zdecide).
  replace (from <? 0) with false by (symmetry; zdecide).
  replace (n <? 0) with false by (symmetry; zdecide).
  replace (n >? size s - from) with false by (symmetry; zdecide).
  reflexivity.
Qed.

(** The text between [from] and the index found holds no occurrence of
    the pattern. *)
Lemma indexOf_gap (s p : QString) (from j : Z) :
  0 <= from -> indexOf s p from = j -> 0 <= j -> p <> [] ->
  ~ Infix p (midn s from (j - from)).
Proof.
  intros Hf H Hj Hp [a [b Hab]].
  destruct (indexOf_found _ _ Hf H Hj) as [H1 [H2 [_ H4]]].
  rewrite midn_inside in Hab by lia.
  assert (Hlen : (length a + length p <= Z.to_nat (j - from))%nat).
  { pose proof (f_equal (@length _) Hab) as L.
    rewrite length_firstn, !length_app in L. lia. }
  assert (Hpos : (0 < length p)%nat) by (destruct p; [congruence | simpl; lia]).
  assert (Hs : startsWith (skipn (Z.to_nat (from + Z.of_nat (length a))) s) p
               = true).
  { apply startsWith_spec.
    replace (Z.to_nat (from + Z.of_nat (length a)))
      with (length a + Z.to_nat from)%nat by lia.
    rewrite <- skipn_skipn.
    rewrite <- (firstn_skipn (Z.to_nat (j - from)) (skipn (Z.to_nat from) s)).
    rewrite Hab, <- app_assoc, skipn_app, skipn_all, Nat.sub_diag. simpl.
    rewrite <- app_assoc. eauto. }
  rewrite H4 in Hs by lia. discriminate.
Qed.

(** ** Counting with filter *)

Lemma filter_length_le {A} (f g : A -> bool) (l : list A) :
  (forall y, f y = true -> g y = true) ->
  (length (filter f l) <= length (filter g l))%nat.
Proof.
  intros H. induction l as [|y l IH]; simpl; [lia|].
  destruct (f y) eqn:E.
  - rewrite (H _ E). simpl. lia.
  - destruct (g y); simpl; lia.
Qed.

Lemma filter_length_lt {A} (f g : A -> bool) (l : list A) (x : A) :
  (forall y, f y = true -> g y = true) ->
  In x l -> f x = false -> g x = true ->
  (length (filter f l) < length (filter g l))%nat.
Proof.
  intros H Hin Hf Hg. induction l as [|y l IH]; simpl; [contradiction|].
  destruct Hin as [-> | Hin].
  - rewrite Hf, Hg. simpl.
    pose proof (filter_length_le f g l H). lia.
  - specialize (IH Hin). destruct (f y) eqn:E.
    + rewrite (H _ E). simpl. lia.
    + destruct (g y); simpl; lia.
Qed.


Lemma indexOf_at_0 (s p : QString) : indexOf s p 0 = findFrom p s 0.
Proof.
  unfold indexOf. change (0 <? 0) with false. cbv iota.
  pose proof (size_nonneg s).
  destruct (0 >? size s) eqn:E; zbool; [lia | reflexivity].
Qed.

Lemma midn_shorter (s : QString) (pos n : Z) :
  0 < pos -> (0 < length s)%nat -> (length (midn s pos n) < length s)%nat.
Proof.
  intros Hp Hs. unfold midn.
  destruct (pos >? size s) eqn:E1; [exact Hs|].
  replace (pos <? 0) with false by (symmetry; zdecide).
  zbool. unfold size in *.
  destruct ((n <? 0) || (n >? Z.of_nat (length s) - pos)).
  - rewrite length_skipn. lia.
  - rewrite length_firstn, length_skipn. lia.
Qed.

End QStrFacts.
Import QStrFacts.

(* ===================================================================== *)
(** * The inline scanner: termination and nesting depth *)
(* ===================================================================== *)

Module InlineFacts.

Lemma occurs_Infix (p s : QString) : occurs p s = true <-> Infix p s.
Proof.
  unfold occurs. split.
  - intros H. zbool. eapply indexOf_Infix with (from := 0); eauto; lia.
  - intros [a [b ->]]. apply Z.leb_le. rewrite indexOf_at_0.
    destruct (findFrom_spec p (a ++ p ++ b) (off := 0))
      as [[_ H2] | [k [H1 _]]]; [lia | | lia].
    specialize (H2 (length a)).
    rewrite skipn_app, skipn_all, Nat.sub_diag in H2. simpl in H2.
    assert (E : startsWith (p ++ b) p = true) by (apply startsWith_spec; eauto).
    rewrite H2 in E; [discriminate | rewrite length_app; lia].
Qed.

Lemma rank_bound (s : QString) : (rank s <= 12)%nat.
Proof.
  unfold rank.
  etransitivity; [apply filter_length_le with (g := fun _ => true); auto|].
  reflexivity.
Qed.

Lemma rank_lt (inner s p : QString) :
  Infix inner s -> In p closers -> Infix p s -> ~ Infix p inner ->
  (rank inner < rank s)%nat.
Proof.
  intros Hsub Hin Hs Hinner. unfold rank.
  apply filter_length_lt with (x := p); auto.
  - intros y Hy. apply occurs_Infix. apply occurs_Infix in Hy.
    eapply Infix_trans; eauto.
  - destruct (occurs p inner) eqn:E; [|reflexivity].
    apply occurs_Infix in E. contradiction.
  - apply occurs_Infix; assumption.
Qed.

Lemma some_inj {A} (a b : A) : Some a = Some b -> a = b.
Proof. congruence. Qed.

Ltac break_ifs H :=
  repeat match type of H with
         | context [if ?c then _ else _] => destruct c eqn:?
         end.

Section Rules.
Variable s : QString.
Variable i : Z.
Variable lineNo : Z.
Hypothesis Hi : 0 <= i < size s.

Lemma index_nonempty : (0 < length s)%nat.
Proof. unfold size in Hi. lia. Qed.

(** The inner text cut out between an opening mark and the earliest
    closing mark [p] found from [from] on. *)
Lemma cut_ok (p : QString) (from j : Z) (inner : QString) :
  0 < from -> indexOf s p from = j -> from <= j -> p <> [] -> In p closers ->
  Infix inner (midn s from (j - from)) ->
  Infix inner s /\ (length inner < length s)%nat /\
  exists p, In p closers /\ Infix p s /\ ~ Infix p inner.
Proof.
  intros Hfrom Hj Hlt Hp Hin Hsub. split; [|split].
  - eapply Infix_trans; [exact Hsub | apply midn_Infix].
  - apply Infix_length in Hsub.
    pose proof (midn_shorter s (j - from) Hfrom index_nonempty). lia.
  - exists p. split; [exact Hin|]. split.
    + eapply indexOf_Infix with (from := from); eauto; lia.
    + intros H. eapply indexOf_gap with (from := from) (j := j); eauto; try lia.
      eapply Infix_trans; eauto.
Qed.

Lemma attrRef_ok h : attrRef s i lineNo = Some h -> hitOk s i h.
Proof.
  unfold attrRef. intros H. break_ifs H; inversion H; subst; clear H.
  zbool. split; simpl; [lia | discriminate].
Qed.

Lemma bracketed_ok o close k setId h :
  close <> [] -> In close closers ->
  bracketed s i lineNo o close k setId = Some h -> hitOk s i h.
Proof.
  intros Hc Hin. unfold bracketed. intros H.
  break_ifs H; inversion H; subst; clear H; zbool;
    (split; cbn [hitInner hitNext]; [lia|]); intros inner E; [discriminate|].
  apply some_inj in E; subst inner.
  eapply cut_ok with (p := close) (from := i + 2); eauto; try lia.
  eapply Infix_trans; [apply trimmed_Infix | apply mid_Infix].
Qed.

Lemma autoLink_ok h : autoLink s i lineNo = Some h -> hitOk s i h.
Proof.
  unfold autoLink. intros H. break_ifs H; inversion H; subst; clear H.
  zbool. split; simpl; [lia | discriminate].
Qed.

Lemma inlineMacro_ok h : inlineMacro s i lineNo = Some h -> hitOk s i h.
Proof.
  unfold inlineMacro. intros H. cbv zeta in H.
  break_ifs H; inversion H; subst; clear H. zbool.
  split; cbn [hitInner hitNext]; [lia|]. intros inner E. apply some_inj in E; subst inner.
  unfold indexOfC in *.
  match goal with
  | Hlb : _ < ?lb, Hrb : ?lb < _ |- _ =>
      eapply cut_ok with (p := qs "]") (from := lb + 1);
        [ lia | reflexivity | exact (Zlt_le_succ _ _ Hrb) | discriminate
        | unfold closers; simpl; auto | apply Infix_refl ]
  end.
Qed.

Lemma paired_emph_ok mark nm h :
  mark <> [] -> In mark closers ->
  paired s i mark (emph lineNo nm) = Some h -> hitOk s i h.
Proof.
  intros Hm Hin. unfold paired. intros H. cbv zeta in H.
  break_ifs H; inversion H; subst; clear H. zbool.
  assert (0 < size mark) by (destruct mark; [congruence | unfold size; simpl; lia]).
  split; cbn [hitInner hitNext]; [lia|]. intros inner E. apply some_inj in E; subst inner.
  eapply cut_ok with (p := mark) (from := i + size mark);
    [ lia | reflexivity | lia | assumption | assumption | apply Infix_refl ].
Qed.

Lemma paired_raw_ok mark n h :
  paired s i mark (rawRun n) = Some h -> hitOk s i h.
Proof.
  unfold paired. intros H. cbv zeta in H.
  break_ifs H; inversion H; subst; clear H. zbool.
  pose proof (size_nonneg mark).
  split; simpl; [lia | discriminate].
Qed.

Lemma passthrough_ok h : passthrough s i lineNo = Some h -> hitOk s i h.
Proof.
  unfold passthrough. intros H. cbv zeta in H.
  break_ifs H; inversion H; subst; clear H. zbool.
  set (plusN := runLength (mid s i) "+"%char (length s)) in *.
  split; cbn [hitInner hitNext]; [lia|]. intros inner E. apply some_inj in E; subst inner.
  eapply cut_ok with (p := fill plusN "+"%char) (from := i + plusN);
    [ lia | reflexivity | lia | | | apply Infix_refl ].
  - assert (C : plusN = 1 \/ plusN = 2 \/ plusN = 3) by lia.
    destruct C as [-> | [-> | ->]]; discriminate.
  - assert (C : plusN = 1 \/ plusN = 2 \/ plusN = 3) by lia.
    unfold closers.
    destruct C as [-> | [-> | ->]]; simpl; auto 15.
Qed.

Lemma orElse_Some (a b : option Hit) h :
  orElse a b = Some h -> a = Some h \/ b = Some h.
Proof. destruct a; simpl; auto. Qed.

Lemma firstHit_ok h : firstHit s i lineNo = Some h -> hitOk s i h.
Proof.
  unfold firstHit, xref, anchor. intros H.
  repeat (apply orElse_Some in H as [H | H]);
    eauto using attrRef_ok, autoLink_ok, inlineMacro_ok, paired_raw_ok,
                passthrough_ok;
    first [ eapply bracketed_ok in H | eapply paired_emph_ok in H ];
    eauto; try discriminate; unfold closers; simpl; auto 15.
Qed.

End Rules.

(** The scan loop ends within its gas as soon as every inner text it
    meets can be scanned. *)
Lemma scan_total rec lineNo depth s :
  (forall i h inner, 0 <= i < size s -> firstHit s i lineNo = Some h ->
     hitInner h = Some inner -> exists r, rec inner (depth + 1) = Some r) ->
  forall g i out acc, 0 <= i -> Z.max 0 (size s - i) < Z.of_nat g ->
    exists r, scan rec lineNo depth g s i out acc = Some r.
Proof.
  intros Hrec. induction g as [|g IH]; intros i out acc Hi Hg; [lia|].
  cbn [scan]. destruct (i <? size s) eqn:E; [|eauto]. zbool.
  destruct (firstHit s i lineNo) as [h|] eqn:Eh.
  - destruct (@firstHit_ok s i lineNo (conj Hi E) h Eh) as [Hnext _].
    destruct (hitInner h) as [inner|] eqn:Ei.
    + destruct (Hrec i h inner (conj Hi E) Eh Ei) as [c Hc]. rewrite Hc.
      apply IH; lia.
    + apply IH; lia.
  - apply IH; lia.
Qed.

(** Any measure that goes down from a text to the inner texts scanned
    again bounds the nesting of [parseInlineContentRec]. *)
Lemma inline_total (m : QString -> nat) :
  (forall s i l h inner, 0 <= i < size s -> firstHit s i l = Some h ->
     hitInner h = Some inner -> (m inner < m s)%nat) ->
  forall f s l d, (m s < f)%nat ->
    exists r, parseInlineContentRec f s l d = Some r.
Proof.
  intros Hm. induction f as [|f IH]; intros s l d Hf; [lia|].
  cbn [parseInlineContentRec]. apply scan_total.
  - intros i h inner Hi Eh Ei. apply IH.
    specialize (Hm s i l h inner Hi Eh Ei). lia.
  - lia.
  - unfold size. lia.
Qed.

Lemma scan_mono rec rec' l d :
  (forall x d' r, rec x d' = Some r -> rec' x d' = Some r) ->
  forall g s i out acc r,
    scan rec l d g s i out acc = Some r -> scan rec' l d g s i out acc = Some r.
Proof.
  intros Hrec. induction g as [|g IH]; intros s i out acc r; [discriminate|].
  cbn [scan]. destruct (i <? size s); [|auto].
  destruct (firstHit s i l) as [h|]; [|apply IH].
  destruct (hitInner h) as [inner|].
  - destruct (rec inner (d + 1)) as [c|] eqn:E; [|discriminate].
    rewrite (Hrec _ _ _ E). apply IH.
  - apply IH.
Qed.

(** More nesting budget never changes the outcome of a scan. *)
Lemma inline_mono f f' s l d r :
  (f <= f')%nat ->
  parseInlineContentRec f s l d = Some r ->
  parseInlineContentRec f' s l d = Some r.
Proof.
  revert f' s d r. induction f as [|f IH]; intros f' s d r Hf; [discriminate|].
  destruct f' as [|f']; [lia|]. cbn [parseInlineContentRec].
  apply scan_mono. intros x d' r'. apply IH. lia.
Qed.

Lemma scan_depth rec l :
  (forall x d d', rec x d = rec x d') ->
  forall g s i out acc d d',
    scan rec l d g s i out acc = scan rec l d' g s i out acc.
Proof.
  intros Hrec. induction g as [|g IH]; intros s i out acc d d'; [reflexivity|].
  cbn [scan]. destruct (i <? size s); [|reflexivity].
  destruct (firstHit s i l) as [h|]; [|apply IH].
  destruct (hitInner h) as [inner|].
  - rewrite (Hrec inner (d + 1) (d' + 1)).
    destruct (rec inner (d' + 1)); [apply IH | reflexivity].
  - apply IH.
Qed.

(** The depth argument is passed along and decides nothing. *)
Lemma depth_irrelevant f s l d d' :
  parseInlineContentRec f s l d = parseInlineContentRec f s l d'.
Proof.
  revert s d d'. induction f as [|f IH]; intros s d d'; [reflexivity|].
  cbn [parseInlineContentRec]. apply scan_depth. intros x e e'. apply IH.
Qed.

(** [parseInlineContent] always returns. *)
Theorem parseInlineContent_total s l :
  exists r, parseInlineContent s l = Some r.
Proof.
  unfold parseInlineContent.
  apply inline_total with (m := @length QChar); [|lia].
  intros s0 i l0 h inner Hi Eh Ei.
  destruct (@firstHit_ok s0 i l0 Hi h Eh) as [_ H]. apply (H _ Ei).
Qed.

(** Twelve nested calls below the outermost one are enough for every
    text. *)
Theorem nesting_bound s l d :
  exists r, parseInlineContentRec 13 s l d = Some r.
Proof.
  apply inline_total with (m := rank).
  - intros s0 i l0 h inner Hi Eh Ei.
    destruct (@firstHit_ok s0 i l0 Hi h Eh) as [_ H].
    destruct (H _ Ei) as [Hsub [_ [p [Hp [Hs Hn]]]]].
    eapply rank_lt; eauto.
  - pose proof (rank_bound s). lia.
Qed.

(** The bound is reached: [deepInline] holds all twelve closing marks,
    and the scanner has no outcome on it with room for eleven nested
    calls only. *)
Lemma nesting_bound_reached :
  rank deepInline = 12%nat /\
  parseInlineContentRec 12 deepInline 1 0 = None /\
  exists r, parseInlineContentRec 13 deepInline 1 0 = Some r.
Proof.
  split; [reflexivity|]. split; [vm_compute; reflexivity|].
  apply nesting_bound.
Qed.

Lemma inlineContent_total s l : exists r, inlineContent s l = Ok r.
Proof.
  unfold inlineContent. destruct (parseInlineContent_total s l) as [r ->].
  eauto.
Qed.

End InlineFacts.
Import InlineFacts.

(* ===================================================================== *)
(** * The block parser: fuel *)
(* ===================================================================== *)

Module FuelFacts.

Lemma le_res_refl {A} (r : Res A) : le_res r r.
Proof. right; reflexivity. Qed.

Lemma le_res_timeout {A} (r : Res A) : le_res OutOfFuel r.
Proof. left; reflexivity. Qed.

Lemma bind_mono {A B} (m m' : Res A) (k k' : A -> Res B) :
  le_res m m' -> (forall a, le_res (k a) (k' a)) ->
  le_res (bind m k) (bind m' k').
Proof.
  intros [-> | ->] Hk; [left; reflexivity|].
  destruct m'; simpl; auto using le_res_refl.
Qed.

Lemma le_res_ok {A} (r r' : Res A) (a : A) : le_res r r' -> r = Ok a -> r' = Ok a.
Proof. intros [-> | ->]; [discriminate | auto]. Qed.

Lemma le_res_err {A} (r r' : Res A) e : le_res r r' -> r = Err e -> r' = Err e.
Proof. intros [-> | ->]; [discriminate | auto]. Qed.

Create HintDb mono.
#[local] Hint Resolve le_res_refl le_res_timeout : mono.

(** One step through two runs of the same routine. *)
Ltac mono_step :=
  match goal with
  | |- le_res OutOfFuel _ => apply le_res_timeout
  | |- le_res ?x ?x => apply le_res_refl
  | |- le_res (bind _ _) (bind _ _) => apply bind_mono; [|intros ?]
  | |- le_res ?l _ =>
      match l with
      | context [match ?x with _ => _ end] => destruct x
      end
  end.

Ltac mono := repeat mono_step; eauto with mono.

Section Loops.
Variables rec rec' : State -> Res (option Node * State).
Hypothesis Hrec : forall st, le_res (rec st) (rec' st).

#[local] Hint Resolve Hrec : mono.

Lemma sectionBody_mono tlevel n n' st acc :
  (n <= n')%nat ->
  le_res (sectionBody rec tlevel n st acc) (sectionBody rec' tlevel n' st acc).
Proof.
  revert n' st acc. induction n as [|n IH]; intros n' st acc Hn;
    [apply le_res_timeout|].
  destruct n' as [|n']; [lia|]. cbn [sectionBody]. mono. apply IH; lia.
Qed.

Lemma parseSection_mono n n' m st :
  (n <= n')%nat ->
  le_res (parseSection rec n m st) (parseSection rec' n' m st).
Proof.
  intros Hn. unfold parseSection. mono. apply sectionBody_mono; lia.
Qed.

Lemma containerBody_mono k n n' st acc :
  (n <= n')%nat ->
  le_res (containerBody rec k n st acc) (containerBody rec' k n' st acc).
Proof.
  revert n' st acc. induction n as [|n IH]; intros n' st acc Hn;
    [apply le_res_timeout|].
  destruct n' as [|n']; [lia|]. cbn [containerBody]. mono. apply IH; lia.
Qed.

Lemma parseDelimited_mono n n' m st :
  (n <= n')%nat ->
  le_res (parseDelimited rec n m st) (parseDelimited rec' n' m st).
Proof.
  intros Hn. unfold parseDelimited. mono. apply containerBody_mono; lia.
Qed.

Lemma descItems_mono n n' st items :
  (n <= n')%nat ->
  le_res (descItems rec n st items) (descItems rec' n' st items).
Proof.
  revert n' st items. induction n as [|n IH]; intros n' st items Hn;
    [apply le_res_timeout|].
  destruct n' as [|n']; [lia|]. cbn [descItems]. mono;
    try (apply IH; lia); try (apply parseDelimited_mono; lia).
Qed.

Lemma continuations_mono n n' st item :
  (n <= n')%nat ->
  le_res (continuations rec n st item) (continuations rec' n' st item).
Proof.
  revert n' st item. induction n as [|n IH]; intros n' st item Hn;
    [apply le_res_timeout|].
  destruct n' as [|n']; [lia|]. cbn [continuations]. mono; apply IH; lia.
Qed.

Lemma listItems_mono ordered n n' st items :
  (n <= n')%nat ->
  le_res (listItems rec ordered n st items) (listItems rec' ordered n' st items).
Proof.
  revert n' st items. induction n as [|n IH]; intros n' st items Hn;
    [apply le_res_timeout|].
  destruct n' as [|n']; [lia|]. cbn [listItems]. mono;
    try (apply IH; lia); try (apply continuations_mono; lia).
Qed.

Lemma parseList_mono n n' m st :
  (n <= n')%nat ->
  le_res (parseList rec n m st) (parseList rec' n' m st).
Proof.
  intros Hn. unfold parseList. mono;
    first [apply descItems_mono | apply listItems_mono]; lia.
Qed.

Lemma directiveBody_mono n n' st acc :
  (n <= n')%nat ->
  le_res (directiveBody rec n st acc) (directiveBody rec' n' st acc).
Proof.
  revert n' st acc. induction n as [|n IH]; intros n' st acc Hn;
    [apply le_res_timeout|].
  destruct n' as [|n']; [lia|]. cbn [directiveBody]. mono. apply IH; lia.
Qed.

Lemma parseDirective_mono n n' m st :
  (n <= n')%nat ->
  le_res (parseDirective rec n m st) (parseDirective rec' n' m st).
Proof.
  intros Hn. unfold parseDirective. mono. apply directiveBody_mono; lia.
Qed.

Lemma parseBlockBody_mono n n' st :
  (n <= n')%nat ->
  le_res (parseBlockBody rec n st) (parseBlockBody rec' n' st).
Proof.
  intros Hn. unfold parseBlockBody.
  destruct (parseBlockMetaOpt st) as [meta st1].
  repeat match goal with
         | |- le_res (if ?c then _ else _) _ => destruct c
         end;
    auto using le_res_refl, parseSection_mono, parseList_mono,
               parseDelimited_mono, parseDirective_mono.
Qed.

Lemma documentBody_mono n n' st acc :
  (n <= n')%nat ->
  le_res (documentBody rec n st acc) (documentBody rec' n' st acc).
Proof.
  revert n' st acc. induction n as [|n IH]; intros n' st acc Hn;
    [apply le_res_timeout|].
  destruct n' as [|n']; [lia|]. cbn [documentBody]. mono. apply IH; lia.
Qed.

End Loops.

Lemma parseBlock_mono fuel fuel' st :
  (fuel <= fuel')%nat -> le_res (parseBlock fuel st) (parseBlock fuel' st).
Proof.
  revert fuel' st. induction fuel as [|f IH]; intros fuel' st Hf;
    [apply le_res_timeout|].
  destruct fuel' as [|f']; [lia|]. cbn [parseBlock].
  apply parseBlockBody_mono; [|lia]. intros st'. apply IH. lia.
Qed.

Lemma parseDocument_mono fuel fuel' st :
  (fuel <= fuel')%nat ->
  le_res (parseDocument fuel st) (parseDocument fuel' st).
Proof.
  intros Hf. unfold parseDocument.
  destruct (parseDocumentHeader _ _) as [kv st1].
  apply bind_mono; [|intros; apply le_res_refl].
  apply documentBody_mono; [|lia]. intros st'. apply parseBlock_mono. lia.
Qed.

(** More fuel never changes an outcome of [parse]: a run that returned
    a tree or an error within some fuel returns it within any larger
    fuel. *)
Theorem parse_mono fuel fuel' input :
  (fuel <= fuel')%nat -> le_res (parse fuel input) (parse fuel' input).
Proof. intros Hf. apply parseDocument_mono, Hf. Qed.

Corollary parse_ok_stable fuel fuel' input doc :
  parse fuel input = Ok doc -> (fuel <= fuel')%nat -> parse fuel' input = Ok doc.
Proof. intros H Hf. eapply le_res_ok; [apply parse_mono, Hf | exact H]. Qed.

Corollary parse_err_stable fuel fuel' input e :
  parse fuel input = Err e -> (fuel <= fuel')%nat -> parse fuel' input = Err e.
Proof. intros H Hf. eapply le_res_err; [apply parse_mono, Hf | exact H]. Qed.

End FuelFacts.
Import FuelFacts.

(* ===================================================================== *)
(** * The lexer: classification *)
(* ===================================================================== *)

Module LexerFacts.

Lemma keq_eq (a b : Lexer.Kind) : keq a b = true <-> a = b.
Proof.
  unfold keq; split.
  - destruct a, b; simpl; intros H; try reflexivity; discriminate H.
  - intros ->. apply Z.eqb_refl.
Qed.

Lemma keq_refl (a : Lexer.Kind) : keq a a = true.
Proof. apply keq_eq; reflexivity. Qed.

Lemma keq_neq (a b : Lexer.Kind) : keq a b = false <-> a <> b.
Proof.
  split.
  - intros H E. apply keq_eq in E. congruence.
  - intros H. destruct (keq a b) eqn:E; [apply keq_eq in E; contradiction | reflexivity].
Qed.

(** Classification is local to the trimmed line: two lines with the same
    trimmed form get the same kind and level. *)
Lemma classify_trimmed (line line' : QString) (n n' : Z) :
  trimmed line = trimmed line' ->
  Lexer.kind (classify line n) = Lexer.kind (classify line' n') /\
  level (classify line n) = level (classify line' n').
Proof.
  intros H. unfold classify. rewrite H. cbv zeta.
  repeat match goal with
         | |- context [if ?c then _ else _] => destruct c
         | |- context [match ?x with Some _ => _ | None => _ end] => destruct x
         end; split; reflexivity.
Qed.

(** [classify] never returns the EOF kind, nor one of the two kinds that
    only the parser knows. *)
Lemma classify_kinds (line : QString) (n : Z) :
  Lexer.kind (classify line n) <> T_EOF /\
  Lexer.kind (classify line n) <> T_BLOCK_ATTRS /\
  Lexer.kind (classify line n) <> T_DELIM_PASSTHROUGH /\
  Lexer.kind (classify line n) <> T_STEM_ATTR_LINE.
Proof.
  unfold classify. cbv zeta.
  repeat match goal with
         | |- context [if ?c then _ else _] => destruct c
         | |- context [match ?x with Some _ => _ | None => _ end] => destruct x
         end; repeat split; discriminate.
Qed.

(** Five of the seven fences are classified as fences, whatever the
    white space around them. *)
Lemma fence_classified (line : QString) (n : Z) (f : QString) (k : Lexer.Kind) :
  In (f, k) fences -> f <> qs "...." -> f <> qs "////" ->
  trimmed line = f -> Lexer.kind (classify line n) = k.
Proof.
  intros Hin H1 H2 Ht. unfold fences in Hin. simpl in Hin.
  repeat match type of Hin with
         | _ \/ _ => destruct Hin as [Hin | Hin]
         end;
    try contradiction; injection Hin as <- <-;
    try (exfalso; apply H1; reflexivity); try (exfalso; apply H2; reflexivity);
    match type of Ht with
    | trimmed line = ?f =>
        destruct (classify_trimmed line f n 0) as [-> _];
          [rewrite Ht; reflexivity | reflexivity]
    end.
Qed.

(** A line whose trimmed form is [....] is a title line, and one whose
    trimmed form is [////] is a line comment. *)
Lemma literal_fence_title (line : QString) (n : Z) :
  trimmed line = qs "...." ->
  classify line n = mkTok T_BLOCK_TITLE n line 0 [] (qs "...").
Proof. intros H. unfold classify. rewrite H. reflexivity. Qed.

Lemma comment_fence_line_comment (line : QString) (n : Z) :
  trimmed line = qs "////" ->
  classify line n = mkTok T_LINE_COMMENT n line 0 [] (qs "//").
Proof. intros H. unfold classify. rewrite H. reflexivity. Qed.

(** No line is given the kind DELIM_LITERAL or DELIM_COMMENT. *)
Lemma literal_comment_unreachable (line : QString) (n : Z) :
  Lexer.kind (classify line n) <> T_DELIM_LITERAL /\
  Lexer.kind (classify line n) <> T_DELIM_COMMENT.
Proof.
  unfold classify. cbv zeta. generalize (trimmed line) as s. intros s.
  repeat match goal with
         | |- context [if ?c then _ else _] => destruct c eqn:?
         | |- context [match ?x with Some _ => _ | None => _ end] => destruct x eqn:?
         end; split; try discriminate; intros _;
    match goal with
    | H : qeq s _ = true |- _ => apply qeq_eq in H; subst s
    end;
    repeat match goal with
           | H : _ = false |- _ => vm_compute in H; try discriminate H; clear H
           end.
Qed.

End LexerFacts.
Import LexerFacts.

(* ===================================================================== *)
(** * Table cells: splitting a row on '|' *)
(* ===================================================================== *)

Module SplitFacts.

Lemma splitPipeLoop_state line parts cur bs :
  splitPipeLoop line parts cur bs =
  let '(p, c, _) := pipeState line parts cur bs in p ++ [c].
Proof.
  revert parts cur bs. induction line as [|c r IH]; intros; simpl; [reflexivity|].
  destruct (ceq c "|"%char); [destruct (bs mod 2 =? 0)|]; apply IH.
Qed.

Lemma pipeState_app pre post parts cur bs :
  pipeState (pre ++ post) parts cur bs =
  let '(p, c, b) := pipeState pre parts cur bs in pipeState post p c b.
Proof.
  revert parts cur bs. induction pre as [|c r IH]; intros; simpl; [reflexivity|].
  destruct (ceq c "|"%char); [destruct (bs mod 2 =? 0)|]; apply IH.
Qed.

Lemma splitPipeLoop_parts line parts cur bs :
  splitPipeLoop line parts cur bs = parts ++ splitPipeLoop line [] cur bs.
Proof.
  revert parts cur bs. induction line as [|c r IH]; intros; simpl; [reflexivity|].
  destruct (ceq c "|"%char); [destruct (bs mod 2 =? 0)|].
  - rewrite IH. rewrite (IH ([] ++ [cur])). now rewrite <- app_assoc.
  - apply IH.
  - apply IH.
Qed.

Lemma trailingRun_snoc (s : QString) (c ch : QChar) :
  trailingRun (s ++ [c]) ch = if ceq c ch then 1 + trailingRun s ch else 0.
Proof.
  unfold trailingRun. rewrite rev_app_distr, length_app, Nat.add_comm. simpl.
  reflexivity.
Qed.

Lemma runLength_nonneg (s : QString) (ch : QChar) (n : nat) :
  0 <= runLength s ch n.
Proof.
  revert s. induction n as [|n IH]; intros [|c s]; cbn [runLength]; try lia.
  destruct (ceq c ch); [specialize (IH s)|]; lia.
Qed.

Lemma trailingRun_nonneg (s : QString) (ch : QChar) : 0 <= trailingRun s ch.
Proof. apply runLength_nonneg. Qed.

Lemma trailingRun_last (s : QString) (ch : QChar) :
  0 < trailingRun s ch -> exists s', s = s' ++ [ch].
Proof.
  destruct s as [|c s] using rev_ind; [unfold trailingRun; simpl; lia|].
  rewrite trailingRun_snoc. destruct (ceq c ch) eqn:E; [|lia].
  apply ceq_eq in E. subst. eauto.
Qed.

(** The backslash run of the loop is the run of backslashes that ends
    the text read so far, and also the one that ends the part in
    progress. *)
Lemma pipeState_run (pre : QString) :
  let '(_, c, b) := pipeState pre [] [] 0 in
  b = trailingRun pre backslash /\ b = trailingRun c backslash.
Proof.
  induction pre as [|x pre IH] using rev_ind; [split; reflexivity|].
  rewrite pipeState_app.
  destruct (pipeState pre [] [] 0) as [[p c] b]. destruct IH as [IH1 IH2].
  cbn [pipeState]. rewrite trailingRun_snoc.
  destruct (ceq x "|"%char) eqn:E.
  - apply ceq_eq in E. subst x. change (ceq "|"%char backslash) with false.
    destruct (b mod 2 =? 0); split; try reflexivity.
    rewrite trailingRun_snoc. reflexivity.
  - rewrite trailingRun_snoc.
    destruct (ceq x backslash); split; lia.
Qed.

Lemma chop_last (s : QString) (c : QChar) : chop (s ++ [c]) 1 = s.
Proof.
  unfold chop. rewrite size_app. unfold size. simpl.
  destruct (1 >=? Z.of_nat (length s) + 1) eqn:E.
  - zbool. destruct s; [reflexivity | simpl in E; lia].
  - simpl. replace (Z.to_nat (Z.of_nat (length s) + 1 - 1)) with (length s) by lia.
    rewrite firstn_app, firstn_all, Nat.sub_diag. simpl. apply app_nil_r.
Qed.

(** Scanning on from a state whose part in progress has a prefix
    [pre]: the prefix stays in front of the first part. *)
Lemma splitPipeLoop_glue line pre cur bs :
  0 <= bs -> (0 < bs -> cur <> []) ->
  splitPipeLoop line [] (pre ++ cur) bs =
  match splitPipeLoop line [] cur bs with
  | h :: t => (pre ++ h) :: t
  | [] => []
  end.
Proof.
  revert pre cur bs. induction line as [|c r IH]; intros pre cur bs Hb Hc;
    simpl; [reflexivity|].
  destruct (ceq c "|"%char).
  - destruct (bs mod 2 =? 0) eqn:E.
    + rewrite splitPipeLoop_parts. rewrite (splitPipeLoop_parts r ([] ++ [cur])).
      reflexivity.
    + zbool. assert (Hpos : 0 < bs).
      { destruct (Z.eq_dec bs 0) as [-> | ]; [rewrite Z.mod_0_l in E; lia | lia]. }
      specialize (Hc Hpos).
      destruct cur as [|x cur _] using rev_ind; [congruence|].
      replace (isEmpty (pre ++ cur ++ [x])) with false
        by (destruct pre; destruct cur; reflexivity).
      replace (isEmpty (cur ++ [x])) with false by (destruct cur; reflexivity).
      rewrite app_assoc, !chop_last, <- app_assoc.
      apply IH; [lia | intros; lia].
  - rewrite <- app_assoc. apply IH.
    + destruct (ceq c backslash); lia.
    + intros _. destruct cur; discriminate.
Qed.

(** A text without '|' is one part. *)
Lemma split_no_pipe (s : QString) :
  ~ In "|"%char s -> splitUnescapedPipe s = [s].
Proof.
  unfold splitUnescapedPipe. intros H.
  assert (G : forall cur bs, splitPipeLoop s [] cur bs = [cur ++ s]).
  { induction s as [|c r IH]; intros cur bs; simpl; [now rewrite app_nil_r|].
    destruct (ceq c "|"%char) eqn:E.
    - apply ceq_eq in E. subst. exfalso. apply H. left. reflexivity.
    - rewrite IH; [now rewrite <- app_assoc | intros X; apply H; right; exact X]. }
  apply G.
Qed.

Lemma splitPipeLoop_app pre post parts cur bs :
  splitPipeLoop (pre ++ post) parts cur bs =
  let '(p, c, b) := pipeState pre parts cur bs in splitPipeLoop post p c b.
Proof.
  revert parts cur bs. induction pre as [|c r IH]; intros; simpl; [reflexivity|].
  destruct (ceq c "|"%char); [destruct (bs mod 2 =? 0)|]; apply IH.
Qed.

(** A '|' after an even number of backslashes is a separator: the parts
    of the text are the parts before it followed by the parts after
    it. *)
Lemma split_separator (pre post : QString) :
  Z.even (trailingRun pre backslash) = true ->
  splitUnescapedPipe (pre ++ "|"%char :: post) =
  splitUnescapedPipe pre ++ splitUnescapedPipe post.
Proof.
  intros He. unfold splitUnescapedPipe.
  rewrite splitPipeLoop_app, (splitPipeLoop_state pre).
  pose proof (pipeState_run pre) as R.
  destruct (pipeState pre [] [] 0) as [[p c] b]. destruct R as [R _].
  cbn [splitPipeLoop]. change (ceq "|"%char "|"%char) with true. cbv iota.
  replace (b mod 2 =? 0) with true.
  - apply splitPipeLoop_parts.
  - symmetry. apply Z.eqb_eq. rewrite R.
    rewrite Zeven_mod in He. zbool. exact He.
Qed.

(** A '|' after an odd number of backslashes is a literal '|': the part
    before it loses its last backslash and goes on, through the '|',
    with the first part of what follows. *)
Lemma split_escaped (pre post : QString) :
  Z.odd (trailingRun pre backslash) = true ->
  exists p c h t,
    splitUnescapedPipe pre = p ++ [c ++ [backslash]] /\
    splitUnescapedPipe post = h :: t /\
    splitUnescapedPipe (pre ++ "|"%char :: post) =
      p ++ (c ++ "|"%char :: h) :: t.
Proof.
  intros Ho. unfold splitUnescapedPipe.
  rewrite splitPipeLoop_app, (splitPipeLoop_state pre).
  pose proof (pipeState_run pre) as R.
  destruct (pipeState pre [] [] 0) as [[p c] b]. destruct R as [R1 R2].
  assert (Hb : b mod 2 = 1).
  { rewrite R1. rewrite Zodd_mod in Ho. zbool. exact Ho. }
  assert (Hpos : 0 < b).
  { destruct (Z.eq_dec b 0) as [-> | ]; [rewrite Z.mod_0_l in Hb; lia|].
    pose proof (trailingRun_nonneg pre backslash). lia. }
  destruct (@trailingRun_last c backslash) as [c' ->]; [lia|].
  cbn [splitPipeLoop]. change (ceq "|"%char "|"%char) with true. cbv iota.
  replace (b mod 2 =? 0) with false by (symmetry; apply Z.eqb_neq; lia).
  replace (isEmpty (c' ++ [backslash])) with false by (destruct c'; reflexivity).
  rewrite chop_last, (splitPipeLoop_parts post p).
  pose proof (@splitPipeLoop_glue post (c' ++ ["|"%char]) [] 0) as G.
  rewrite app_nil_r in G. rewrite G by lia.
  destruct (splitPipeLoop post [] [] 0) as [|h t] eqn:E.
  - exfalso. rewrite splitPipeLoop_state in E.
    destruct (pipeState post [] [] 0) as [[x y] z]. destruct x; discriminate.
  - exists p, c', h, t. repeat split. now rewrite <- app_assoc.
Qed.

(** The part before the first '|' of a row is dropped by [readCells]. *)
Lemma split_first_dropped (pre post : QString) :
  ~ In "|"%char pre -> Z.even (trailingRun pre backslash) = true ->
  tl (splitUnescapedPipe (pre ++ "|"%char :: post)) = splitUnescapedPipe post.
Proof.
  intros Hp He. rewrite split_separator by exact He.
  rewrite split_no_pipe by exact Hp. reflexivity.
Qed.

End SplitFacts.
Import SplitFacts.

(* ===================================================================== *)
(** * Tables *)
(* ===================================================================== *)

Module TableFacts.

Lemma inlineContent_eq s l : inlineContent s l = Ok (inlineNodes s l).
Proof.
  unfold inlineContent, inlineNodes.
  destruct (parseInlineContent_total s l) as [r ->]. reflexivity.
Qed.

Lemma cellsOf_eq parts l : cellsOf parts l = Ok (map (cellNode l) parts).
Proof.
  induction parts as [|c r IH]; simpl; [reflexivity|].
  rewrite inlineContent_eq, IH. reflexivity.
Qed.

Lemma readCells_eq t : readCells t = Ok (rowCells t).
Proof. apply cellsOf_eq. Qed.

Lemma rowCells_cells t : Forall isCell (rowCells t).
Proof. unfold rowCells. apply Forall_map, Forall_forall. reflexivity. Qed.

Lemma tableLines_eq l parts :
  tableLines l parts = Ok (parts ++ tableParts l, tableRest l).
Proof.
  revert parts. induction l as [|t r IH]; intros parts; cbn [tableLines tableParts tableRest].
  - now rewrite app_nil_r.
  - unfold inBody, isTableLine.
    destruct (keq (Lexer.kind t) T_EOF) eqn:E1; cbn [negb andb].
    { now rewrite app_nil_r. }
    destruct (keq (Lexer.kind t) T_TABLE_DELIM) eqn:E2; cbn [negb andb].
    { now rewrite app_nil_r. }
    destruct (keq (Lexer.kind t) T_BLANK) eqn:E3.
    { apply keq_eq in E3. rewrite E3. cbn. apply IH. }
    destruct (keq (Lexer.kind t) T_TABLE_LINE) eqn:E4; cbn [negb].
    + rewrite readCells_eq. cbn [bind]. rewrite IH, <- app_assoc. reflexivity.
    + apply IH.
Qed.

Lemma tableParts_body body :
  Forall (fun t => inBody t = true) body ->
  tableParts body = map rowCells (filter isTableLine body).
Proof.
  induction 1 as [|t r Ht _ IH]; cbn [tableParts filter map]; [reflexivity|].
  rewrite Ht, IH. destruct (isTableLine t); reflexivity.
Qed.

Lemma tableParts_closed body d rest :
  Forall (fun t => inBody t = true) body -> Lexer.kind d = T_TABLE_DELIM ->
  tableParts (body ++ d :: rest) = tableParts body /\
  tableRest (body ++ d :: rest) = rest /\ tableRest body = [].
Proof.
  intros Hb Hd. induction Hb as [|t r Ht _ IH]; cbn [app tableParts tableRest].
  - unfold inBody. rewrite Hd. cbn. auto.
  - rewrite Ht. destruct IH as [-> [-> ->]]. auto.
Qed.

Lemma tableParts_cells l : Forall (Forall isCell) (tableParts l).
Proof.
  induction l as [|t r IH]; cbn [tableParts]; [constructor|].
  destruct (inBody t); [|constructor].
  apply Forall_app. split; [|exact IH].
  destruct (isTableLine t); [|constructor].
  constructor; [apply rowCells_cells | constructor].
Qed.

(** Every collected row comes from a table line of the body and carries
    that line's number as its position. *)
Lemma tableParts_source l row c :
  In row (tableParts l) -> In c row ->
  exists t, In t l /\ Lexer.kind t = T_TABLE_LINE /\ pos c = mkPos (lineNo t) 1.
Proof.
  induction l as [|t r IH]; cbn [tableParts]; [contradiction|].
  destruct (inBody t); [|contradiction].
  intros Hin Hc. apply in_app_or in Hin as [Hin | Hin].
  - destruct (isTableLine t) eqn:E; [|contradiction].
    destruct Hin as [<- | []]. exists t. split; [left; reflexivity|].
    split; [apply keq_eq; exact E|].
    unfold rowCells in Hc. apply in_map_iff in Hc as [x [<- _]]. reflexivity.
  - destruct (IH Hin Hc) as [t' [H1 H2]]. exists t'. split; [right; exact H1 | exact H2].
Qed.

(** What [parseTable] computes when it is called on an opening
    delimiter. *)
Lemma parseTable_eq m st :
  laKind st 0 = T_TABLE_DELIM ->
  parseTable m st =
  (rows <- tableRows (tableParts (tl (toks st))) ;;
   Ok (Some (setChildren (blockAt K_Table (lineNo (la st 0)) m) rows),
       mkState (tableRest (tl (toks st))) (eofLine st))).
Proof.
  intros H. unfold parseTable, expect, accept. rewrite H. cbn [keq kindCode Z.eqb].
  rewrite Pos.eqb_refl. cbn [bind take snd toks eofLine].
  rewrite tableLines_eq. reflexivity.
Qed.

(** ** Rows *)

Lemma reflow_rows rows w cells :
  length cells = (rows * w)%nat -> Forall isCell cells ->
  Forall (isRow w) (reflow rows w cells) /\
  concat (map children (reflow rows w cells)) = cells.
Proof.
  revert cells. induction rows as [|r IH]; intros cells Hl Hc; cbn [reflow].
  - destruct cells; [split; [constructor | reflexivity] | discriminate].
  - destruct (IH (skipn w cells)) as [IH1 IH2].
    + rewrite length_skipn. lia.
    + apply Forall_forall. intros x Hx. rewrite Forall_forall in Hc.
      apply Hc. rewrite <- (firstn_skipn w cells). apply in_or_app. auto.
    + split.
      * constructor; [|exact IH1]. repeat split; cbn.
        -- rewrite length_firstn. simpl in Hl. lia.
        -- apply Forall_forall. intros x Hx. rewrite Forall_forall in Hc.
           apply Hc. rewrite <- (firstn_skipn w cells). apply in_or_app. auto.
      * rewrite map_cons, concat_cons, IH2. apply firstn_skipn.
Qed.

Lemma rem_of_nat (a b : nat) :
  (0 < b)%nat -> Z.rem (Z.of_nat a) (Z.of_nat b) = Z.of_nat (a mod b).
Proof.
  intros Hb. rewrite Z.rem_mod_nonneg by lia. symmetry. apply Nat2Z.inj_mod.
Qed.

Lemma quot_of_nat (a b : nat) :
  (0 < b)%nat -> Z.to_nat (Z.quot (Z.of_nat a) (Z.of_nat b)) = (a / b)%nat.
Proof.
  intros Hb. rewrite Z.quot_div_nonneg by lia.
  rewrite <- Nat2Z.inj_div. apply Nat2Z.id.
Qed.

(** The rows of a table whose cell count fits: the first line's cells,
    then the other cells in rows of the same width, no cell lost. *)
Lemma tableRows_ok parts rows :
  Forall (Forall isCell) parts -> tableRows parts = Ok rows ->
  Forall (isRow (length (hd [] parts))) rows /\
  (hd [] parts <> [] -> concat (map children rows) = concat parts).
Proof.
  intros Hc. unfold tableRows. destruct parts as [|firstRow others].
  - intros H. injection H as <-. split; [apply Forall_nil | reflexivity].
  - destruct firstRow as [|c0 fr].
    + intros H. injection H as <-. split; [apply Forall_nil | cbn; congruence].
    + unfold size. rewrite rem_of_nat, quot_of_nat by (simpl; lia).
      destruct (Z.of_nat _ =? 0) eqn:E; simpl negb; [|discriminate].
      intros H. injection H as <-. zbool.
      inversion Hc as [|? ? Hf Ho]; subst.
      destruct (@reflow_rows (length (concat others) / length (c0 :: fr))
                             (length (c0 :: fr)) (concat others)) as [R1 R2].
      * pose proof (Nat.div_mod_eq (length (concat others)) (length (c0 :: fr))).
        lia.
      * apply Forall_concat. exact Ho.
      * split.
        -- constructor; [|exact R1]. repeat split. exact Hf.
        -- intros _. exact (f_equal (app (c0 :: fr)) R2).
Qed.

(** The rows of a table whose cell count does not fit: the error, at
    the position of the first cell. *)
Lemma tableRows_err c0 fr others :
  (length (concat others) mod length (c0 :: fr) <> 0)%nat ->
  tableRows ((c0 :: fr) :: others) = Err (widthError c0).
Proof.
  intros H. unfold tableRows, size.
  rewrite rem_of_nat by (simpl; lia).
  destruct (Z.of_nat _ =? 0) eqn:E; simpl negb; [zbool; lia | reflexivity].
Qed.

Lemma tableRows_fits c0 fr others :
  (length (concat others) mod length (c0 :: fr) = 0)%nat ->
  exists rows, tableRows ((c0 :: fr) :: others) = Ok rows.
Proof.
  intros H. unfold tableRows, size.
  rewrite rem_of_nat by (simpl; lia). rewrite H. cbn. eauto.
Qed.

End TableFacts.
Import TableFacts.

(* ===================================================================== *)
(** * Invariants of the parsed tree *)
(* ===================================================================== *)

Module TreeFacts.

Lemma resAll_bind {A B} (Q1 : A -> Prop) (Q2 : B -> Prop) m k :
  resAll Q1 m -> (forall a, Q1 a -> resAll Q2 (k a)) -> resAll Q2 (bind m k).
Proof. destruct m; simpl; auto. Qed.

Lemma resAll_weaken {A} (Q1 Q2 : A -> Prop) r :
  resAll Q1 r -> (forall a, Q1 a -> Q2 a) -> resAll Q2 r.
Proof. destruct r; simpl; auto. Qed.

(** ** The trees of the parser

    A property of nodes that holds of every node that is no table and of
    every table [parseTable] returns holds of every node of every tree
    the parser returns. *)
Section Tree.
Variable P : Node -> Prop.
Hypothesis P_other : forall n, Ast.kind n <> K_Table -> P n.
Hypothesis P_table : forall m st t st', parseTable m st = Ok (Some t, st') -> P t.

Local Abbreviation A := (AllNodes P).

Lemma hit_kind s i l h : firstHit s i l = Some h -> Ast.kind (hitNode h) <> K_Table.
Proof.
  unfold firstHit, xref, anchor, attrRef, bracketed, autoLink, inlineMacro,
    paired, passthrough, emph, rawRun. cbv zeta. intros H.
  repeat (apply orElse_Some in H as [H | H]);
    break_ifs H; inversion H; subst; clear H; cbn; discriminate.
Qed.

Lemma pushText_all out t l : Forall A out -> Forall A (pushText out t l).
Proof.
  intros H. unfold pushText. destruct (isEmpty t); [exact H|].
  apply Forall_app. split; [exact H|]. constructor; [|constructor].
  constructor; [apply P_other; discriminate | constructor].
Qed.

Lemma scan_all rec l d :
  (forall x e, optAll (Forall A) (rec x e)) ->
  forall g s i out acc, Forall A out -> optAll (Forall A) (scan rec l d g s i out acc).
Proof.
  intros Hrec. induction g as [|g IH]; intros s i out acc Ho; [exact I|].
  cbn [scan]. destruct (i <? size s); [|apply pushText_all, Ho].
  destruct (firstHit s i l) as [h|] eqn:Eh; [|apply IH, Ho].
  assert (K : forall c, Forall A c -> Forall A (pushText out acc l ++ [setChildren (hitNode h) c])).
  { intros c Hc. apply Forall_app. split; [apply pushText_all, Ho|].
    constructor; [|constructor]. constructor; [|exact Hc].
    apply P_other. eapply hit_kind, Eh. }
  destruct (hitInner h) as [inner|].
  - specialize (Hrec inner (d + 1)). destruct (rec inner (d + 1)); [|exact I].
    apply IH, K, Hrec.
  - apply IH, K. constructor.
Qed.

Lemma inline_all f s l d : optAll (Forall A) (parseInlineContentRec f s l d).
Proof.
  revert s d. induction f as [|f IH]; intros s d; [exact I|].
  cbn [parseInlineContentRec]. apply scan_all; [|constructor].
  intros x e. apply IH.
Qed.

Lemma inlineContent_all s l : resAll (Forall A) (inlineContent s l).
Proof.
  unfold inlineContent, parseInlineContent.
  pose proof (inline_all (S (length s)) s l 0) as H.
  destruct (parseInlineContentRec _ _ _ _); [exact H | exact I].
Qed.

Lemma plain_all n : plainOk P n -> A n.
Proof. intros [Hk Hc]. constructor; [apply P_other; exact Hk | exact Hc]. Qed.

Lemma plain_add n b : plainOk P n -> A b -> plainOk P (add n b).
Proof.
  intros [Hk Hc] Hb. split; [exact Hk|]. cbn.
  apply Forall_app. split; [exact Hc | constructor; [exact Hb | constructor]].
Qed.

Lemma Forall_snoc (l : list Node) b : Forall A l -> A b -> Forall A (l ++ [b]).
Proof. intros. apply Forall_app. split; [assumption | constructor; [assumption | constructor]]. Qed.

Ltac leaf :=
  unfold nodeOk, nodesOk, itemOk; cbn [resAll optAll fst];
  first [ assumption | exact I
        | apply plain_all; split; [cbn; discriminate | cbn; first [assumption | constructor]] ].

Ltac all_step :=
  match goal with
  | |- resAll _ OutOfFuel => exact I
  | |- resAll _ (Err _) => exact I
  | |- resAll _ (error _ _ _) => exact I
  | |- resAll _ (bind (inlineContent _ _) _) =>
      eapply resAll_bind; [apply inlineContent_all | intros ? ?]
  | |- resAll _ (if ?c then _ else _) => destruct c eqn:?
  | |- resAll _ (match ?x with _ => _ end) => destruct x eqn:?
  | |- _ => progress cbv zeta
  end.

Lemma parseAdmonitionParagraph_all m st : resAll (nodeOk P) (parseAdmonitionParagraph m st).
Proof. unfold parseAdmonitionParagraph. repeat all_step. leaf. Qed.

Lemma parseParagraphOrLiteral_all m st : resAll (nodeOk P) (parseParagraphOrLiteral m st).
Proof. unfold parseParagraphOrLiteral. repeat all_step; leaf. Qed.

Lemma parseBlockMacro_all m st : resAll (nodeOk P) (parseBlockMacro m st).
Proof. unfold parseBlockMacro. repeat all_step; leaf. Qed.

Lemma parseBreakOrComment_all m st : resAll (nodeOk P) (parseBreakOrComment m st).
Proof. unfold parseBreakOrComment. repeat all_step; leaf. Qed.

Lemma cellNode_all l c : A (cellNode l c).
Proof.
  unfold cellNode. apply plain_all. split; [discriminate|]. cbn [children setChildren].
  unfold inlineNodes. pose proof (inline_all (S (length (trimmed c))) (trimmed c) l 0) as H.
  unfold parseInlineContent. destruct (parseInlineContentRec _ _ _ _); [exact H | constructor].
Qed.

Lemma tableParts_all l : Forall (Forall A) (tableParts l).
Proof.
  induction l as [|t r IH]; cbn [tableParts]; [constructor|].
  destruct (inBody t); [|constructor].
  apply Forall_app. split; [|exact IH].
  destruct (isTableLine t); [|constructor].
  constructor; [|constructor].
  unfold rowCells. apply Forall_map, Forall_forall. intros. apply cellNode_all.
Qed.

Lemma reflow_all rows w cells : Forall A cells -> Forall A (reflow rows w cells).
Proof.
  revert cells. induction rows as [|r IH]; intros cells Hc; cbn [reflow]; [constructor|].
  assert (H1 : Forall A (firstn w cells)).
  { apply Forall_forall. intros x Hx. rewrite Forall_forall in Hc. apply Hc.
    rewrite <- (firstn_skipn w cells). apply in_or_app. auto. }
  assert (H2 : Forall A (skipn w cells)).
  { apply Forall_forall. intros x Hx. rewrite Forall_forall in Hc. apply Hc.
    rewrite <- (firstn_skipn w cells). apply in_or_app. auto. }
  constructor; [|apply IH, H2].
  apply plain_all. split; [discriminate | exact H1].
Qed.

Lemma tableRows_all parts : Forall (Forall A) parts -> resAll (Forall A) (tableRows parts).
Proof.
  intros H. unfold tableRows. destruct parts as [|[|c0 fr] others]; try (cbn; constructor).
  inversion H as [|? ? Hf Ho]; subst.
  destruct (negb _); [exact I|]. cbn [resAll].
  constructor.
  - apply plain_all. split; [discriminate | exact Hf].
  - apply reflow_all. apply Forall_concat. exact Ho.
Qed.

Lemma parseTable_all m st : resAll (nodeOk P) (parseTable m st).
Proof.
  destruct (parseTable m st) as [[[t|] st']| |] eqn:E; try exact I.
  unfold nodeOk; cbn [resAll optAll fst]. constructor; [eapply P_table, E|].
  destruct (keq (laKind st 0) T_TABLE_DELIM) eqn:K.
  - apply keq_eq in K. rewrite (parseTable_eq m st K) in E.
    pose proof (@tableRows_all _ (tableParts_all (tl (toks st)))) as R.
    destruct (tableRows _) as [rows| |]; cbn [bind] in E; try discriminate.
    injection E as <- _. exact R.
  - unfold parseTable, expect, accept in E. rewrite K in E. discriminate.
Qed.

Section Loops.
Variable rec : State -> Res (option Node * State).
Hypothesis Hrec : forall st, resAll (nodeOk P) (rec st).

Ltac call_rec :=
  eapply resAll_bind; [apply Hrec | intros [[?b|] ?st'] ?Hb; unfold nodeOk in *; cbn [optAll fst] in *].

Lemma sectionBody_all tlevel n st acc :
  Forall A acc -> resAll (nodesOk P) (sectionBody rec tlevel n st acc).
Proof.
  revert st acc. induction n as [|n IH]; intros st acc Ha; [exact I|].
  cbn [sectionBody]. repeat all_step; try leaf.
  call_rec; [apply IH, Forall_snoc; assumption | leaf].
Qed.

Lemma parseSection_all n m st : resAll (nodeOk P) (parseSection rec n m st).
Proof.
  unfold parseSection. destruct (take st) as [t st1].
  eapply resAll_bind; [apply sectionBody_all; constructor|].
  intros [body st2] Hb. unfold nodesOk in Hb. cbn [fst] in Hb. leaf.
Qed.

Lemma containerBody_all k n st acc :
  Forall A acc -> resAll (nodesOk P) (containerBody rec k n st acc).
Proof.
  revert st acc. induction n as [|n IH]; intros st acc Ha; [exact I|].
  cbn [containerBody]. repeat all_step; try leaf.
  call_rec; [apply IH, Forall_snoc; assumption | leaf].
Qed.

Lemma expect_all {B} st k w (Q : B -> Prop) (f : State -> Res B) :
  (forall st', resAll Q (f st')) -> resAll Q (bind (expect st k w) f).
Proof.
  intros H. unfold expect. destruct (accept st k) as [[|] st']; cbn; [apply H | exact I].
Qed.

Lemma parseDelimited_all n m st : resAll (nodeOk P) (parseDelimited rec n m st).
Proof.
  unfold parseDelimited.
  destruct (if keq (laKind st 0) T_STEM_ATTR_LINE then _ else _) as [isStem st0].
  destruct (take st0) as [open st1].
  destruct (_ || isStem).
  - destruct (rawLines _ _ _) as [ls l]. apply expect_all. intros st'. leaf.
  - eapply resAll_bind; [apply containerBody_all; constructor|].
    intros [body st2] Hb. unfold nodesOk in Hb. cbn [fst] in Hb.
    apply expect_all. intros st'. leaf.
Qed.

Lemma descItems_all n st items :
  Forall A items -> resAll (nodesOk P) (descItems rec n st items).
Proof.
  revert st items. induction n as [|n IH]; intros st items Ha; [exact I|].
  cbn [descItems]. destruct (negb _); [leaf|].
  destruct (take st) as [termTok st1].
  eapply resAll_bind with (Q1 := (itemOk P)).
  { destruct (_ && _).
    - eapply resAll_bind; [apply inlineContent_all|]. intros c Hc.
      unfold itemOk; cbn [resAll fst]. apply plain_add.
      + split; [discriminate | constructor].
      + apply plain_all. split; [discriminate | exact Hc].
    - unfold itemOk; cbn [resAll fst]. split; [discriminate | constructor]. }
  intros [item st2] Hi. unfold itemOk in Hi. cbn [fst] in Hi.
  eapply resAll_bind with (Q1 := (itemOk P)).
  { destruct (keq _ T_LIST_CONT); [|exact Hi].
    eapply resAll_bind with (Q1 := (nodeOk P)).
    - destruct (isDelim _); [apply parseDelimited_all | apply parseParagraphOrLiteral_all].
    - intros [[c|] st3] Hc; unfold nodeOk in Hc; cbn [optAll fst] in Hc; unfold itemOk; cbn [resAll fst];
        [apply plain_add; assumption | exact Hi]. }
  intros [item' st3] Hi'. unfold itemOk in Hi'. cbn [fst] in Hi'.
  apply IH, Forall_snoc; [exact Ha | apply plain_all, Hi'].
Qed.

Lemma continuations_all n st item :
  plainOk P item -> resAll (itemOk P) (continuations rec n st item).
Proof.
  revert st item. induction n as [|n IH]; intros st item Hi; [exact I|].
  cbn [continuations]. destruct (keq _ T_LIST_CONT); [|exact Hi].
  call_rec; apply IH; [apply plain_add; assumption | exact Hi].
Qed.

Lemma listItems_all ordered n st items :
  Forall A items -> resAll (nodesOk P) (listItems rec ordered n st items).
Proof.
  revert st items. induction n as [|n IH]; intros st items Ha; [exact I|].
  cbn [listItems]. destruct (_ && _); [leaf|]. destruct (_ && _); [leaf|].
  destruct (take st) as [itTok st1]. cbv zeta.
  match goal with
  | |- context [if ?c then (?a, ?b) else (?a', ?b')] =>
      set (ip := if c then (a, b) else (a', b'));
      assert (Hk : plainOk P (fst ip))
        by (subst ip; destruct c; split; try discriminate; constructor)
  end.
  destruct ip as [item payload]. cbn [fst] in Hk.
  eapply resAll_bind; [apply inlineContent_all|]. intros c Hc.
  eapply resAll_bind with (Q1 := (itemOk P)).
  { apply continuations_all. apply plain_add; [exact Hk|].
    apply plain_all. split; [discriminate | exact Hc]. }
  intros [item' st2] Hi'. unfold itemOk in Hi'. cbn [fst] in Hi'.
  apply IH, Forall_snoc; [exact Ha | apply plain_all, Hi'].
Qed.

Lemma parseList_all n m st : resAll (nodeOk P) (parseList rec n m st).
Proof.
  unfold parseList.
  eapply resAll_bind with (Q1 := (nodesOk P)).
  - destruct (qeq _ _); [apply descItems_all | apply listItems_all]; constructor.
  - intros [its st'] Hi. unfold nodesOk in Hi. cbn [fst] in Hi.
    unfold nodeOk; cbn [resAll optAll fst]. apply plain_all. split; [|exact Hi].
    cbn. repeat match goal with |- context [if ?c then _ else _] => destruct c end; discriminate.
Qed.

Lemma directiveBody_all n st acc :
  Forall A acc -> resAll (nodesOk P) (directiveBody rec n st acc).
Proof.
  revert st acc. induction n as [|n IH]; intros st acc Ha; [exact I|].
  cbn [directiveBody]. repeat all_step; try leaf.
  - unfold nodesOk; cbn [resAll fst]. apply Forall_snoc; [exact Ha|].
    apply plain_all. split; [discriminate | constructor].
  - call_rec; [apply IH, Forall_snoc; assumption | leaf].
Qed.

Lemma parseDirective_all n m st : resAll (nodeOk P) (parseDirective rec n m st).
Proof.
  unfold parseDirective. destruct (take st) as [t st1].
  destruct (_ || _).
  - eapply resAll_bind; [apply directiveBody_all; constructor|].
    intros [body st2] Hb. unfold nodesOk in Hb. cbn [fst] in Hb. leaf.
  - leaf.
Qed.

Lemma parseBlockBody_all n st : resAll (nodeOk P) (parseBlockBody rec n st).
Proof.
  unfold parseBlockBody. destruct (parseBlockMetaOpt st) as [meta st1].
  repeat match goal with
         | |- resAll _ (if ?c then _ else _) => destruct c
         end;
    auto using parseSection_all, parseAdmonitionParagraph_all, parseList_all,
      parseTable_all, parseDelimited_all, parseBlockMacro_all,
      parseDirective_all, parseBreakOrComment_all, parseParagraphOrLiteral_all.
Qed.

Lemma documentBody_all n st acc :
  Forall A acc -> resAll (Forall A) (documentBody rec n st acc).
Proof.
  revert st acc. induction n as [|n IH]; intros st acc Ha; [exact I|].
  cbn [documentBody]. repeat all_step; try (cbn; assumption).
  call_rec; [apply IH, Forall_snoc; assumption | cbn; assumption].
Qed.

End Loops.

Lemma parseBlock_all fuel st : resAll (nodeOk P) (parseBlock fuel st).
Proof.
  revert st. induction fuel as [|f IH]; intros st; [exact I|].
  cbn [parseBlock]. apply parseBlockBody_all. exact IH.
Qed.

Theorem parse_all fuel input : resAll (AllNodes P) (parse fuel input).
Proof.
  unfold parse, parseDocument. destruct (parseDocumentHeader _ _) as [kv st].
  eapply resAll_bind; [apply documentBody_all; [apply parseBlock_all | constructor]|].
  intros body Hb. cbn [resAll]. constructor; [apply P_other; discriminate | exact Hb].
Qed.

End Tree.

(** ** Tables in a parsed tree *)

Lemma rows_first_width w rows (d : Node) :
  Forall (isRow w) rows ->
  Forall (isRow (length (children (hd d rows)))) rows.
Proof.
  intros H. destruct rows as [|r rs]; [constructor|].
  inversion H as [|? ? [_ [Hw _]] _]; subst. exact H.
Qed.

Lemma parseTable_tableOk m st t st' :
  parseTable m st = Ok (Some t, st') -> tableOk t.
Proof.
  intros H _. destruct (keq (laKind st 0) T_TABLE_DELIM) eqn:E.
  - apply keq_eq in E. rewrite (parseTable_eq m st E) in H.
    destruct (tableRows (tableParts (tl (toks st)))) as [rows| |] eqn:R;
      cbn [bind] in H; try discriminate.
    injection H as <- _. cbn [children setChildren].
    eapply rows_first_width, (tableRows_ok (tableParts_cells _) R).
  - unfold parseTable, expect, accept in H. rewrite E in H. discriminate.
Qed.

(** Every Table node of a tree that [Parser::parse] returns has rows of
    the width of its first row. *)
Lemma parse_tables fuel input doc :
  parse fuel input = Ok doc -> AllNodes tableOk doc.
Proof.
  intros H.
  assert (R : resAll (AllNodes tableOk) (parse fuel input)).
  { apply parse_all.
    - intros n Hn Hk. contradiction.
    - apply parseTable_tableOk. }
  rewrite H in R. exact R.
Qed.

End TreeFacts.
Import TreeFacts.

(* ===================================================================== *)
(** * Delimited blocks and their closing fence *)
(* ===================================================================== *)

Module FenceFacts.

(** [expect] returns when the next token has the expected kind, and
    takes that token. *)
Lemma expect_ok st k what st' :
  expect st k what = Ok st' -> laKind st 0 = k /\ st' = snd (take st).
Proof.
  unfold expect, accept. destruct (keq (laKind st 0) k) eqn:E.
  - intros H. injection H as <-. apply keq_eq in E. auto.
  - discriminate.
Qed.

Lemma expect_err st k what :
  laKind st 0 <> k ->
  expect st k what = Err (mkErr (lineNo (la st 0)) 1 (qs "Expected " ++ what)).
Proof.
  intros H. apply keq_neq in H. unfold expect, accept. rewrite H. reflexivity.
Qed.

(** A delimited block that [parseDelimited] returns was closed: the last
    token taken is a fence of the kind of the opening fence. *)
Lemma parseDelimited_closed rec n m st r st' :
  parseDelimited rec n m st = Ok (r, st') ->
  exists b close,
    r = Some b /\ Ast.kind b = K_DelimitedBlock /\
    laKind close 0 = laKind (fenceState st) 0 /\ st' = snd (take close).
Proof.
  unfold parseDelimited, fenceState.
  destruct (keq (laKind st 0) T_STEM_ATTR_LINE); cbv zeta;
    match goal with
    | |- context [take ?s] => destruct (take s) as [open st1] eqn:T
    end;
    match goal with
    | |- context [if ?c then _ else _] => destruct c
    end;
    try (destruct (rawLines _ _ _) as [ls l]);
    try (destruct (containerBody _ _ _ _ _) as [[body st2]| |]; cbn [bind];
         try discriminate);
    match goal with
    | |- context [expect ?s ?k ?w] =>
        destruct (expect s k w) as [st3| |] eqn:E; cbn [bind]; try discriminate;
        apply expect_ok in E; destruct E as [E1 E2]
    end;
    intros H; injection H as <- <-;
    eexists; eexists; (split; [reflexivity|]); (split; [reflexivity|]);
    split; eassumption.
Qed.

(** The raw lines of a block in which no line closes it: all of them. *)
Lemma rawLines_all k l acc :
  Forall (fun t => Lexer.kind t <> k /\ Lexer.kind t <> T_EOF) l ->
  rawLines k l acc = (acc ++ map raw l, [])%list.
Proof.
  revert acc. induction l as [|t r IH]; intros acc H; cbn [rawLines map].
  - rewrite app_nil_r. reflexivity.
  - inversion H as [|? ? [H1 H2] Hr]; subst.
    apply keq_neq in H1, H2. rewrite H1, H2. cbn [negb andb].
    rewrite (IH _ Hr), <- app_assoc. reflexivity.
Qed.

(** A raw block that is not closed before the end of the input is the
    error "Expected closing delimiter", at the line of the end of the
    input. *)
Lemma raw_unclosed rec n m open body e :
  rawFence (Lexer.kind open) = true ->
  Forall (fun t => Lexer.kind t <> Lexer.kind open /\ Lexer.kind t <> T_EOF) body ->
  parseDelimited rec n m (mkState (open :: body) e)
    = Err (mkErr e 1 (qs "Expected closing delimiter")).
Proof.
  intros Hk Hb. unfold parseDelimited.
  assert (S : keq (laKind (mkState (open :: body) e) 0) T_STEM_ATTR_LINE = false).
  { unfold laKind, la, peek. cbn [toks nth].
    destruct (Lexer.kind open); try reflexivity; discriminate Hk. }
  rewrite S. cbv zeta. unfold take, laKind, la, peek. cbn [toks nth eofLine tl].
  unfold rawFence in Hk. rewrite orb_false_r, Hk.
  rewrite (rawLines_all _ Hb).
  rewrite expect_err.
  - reflexivity.
  - unfold laKind, la, peek. cbn [toks nth eofLine eofTok Lexer.kind].
    intros E. rewrite <- E in Hk. discriminate Hk.
Qed.

End FenceFacts.
Import FenceFacts.

(* ===================================================================== *)
(** * The block parser: blocks that consume nothing *)
(* ===================================================================== *)

Module StuckFacts.

(** A list continuation or a table line where a block is expected:
    [parseBlock] returns an empty paragraph and takes no token. *)
Lemma parseBlock_no_progress (f : nat) (st : State) (t : LineTok) (r : list LineTok) :
  toks st = t :: r ->
  Lexer.kind t = T_LIST_CONT \/ Lexer.kind t = T_TABLE_LINE ->
  parseBlock (S f) st = Ok (Some (emptyParagraph (lineNo t) None), st).
Proof.
  intros Ht Hk.
  assert (Hm : parseBlockMetaOpt st = (None, st)).
  { unfold parseBlockMetaOpt, laKind, la, peek. rewrite Ht. cbn [nth].
    destruct Hk as [-> | ->]; reflexivity. }
  assert (Hp : parseParagraphOrLiteral None st
               = Ok (Some (emptyParagraph (lineNo t) None), st)).
  { unfold parseParagraphOrLiteral, laKind, la, peek. rewrite Ht.
    cbn [nth paragraphLines].
    destruct st as [l e]. cbn [toks] in Ht. subst l.
    destruct Hk as [-> | ->]; reflexivity. }
  cbn [parseBlock]. unfold parseBlockBody. rewrite Hm.
  unfold laKind, la, peek. rewrite Ht. cbn [nth].
  destruct Hk as [-> | ->]; exact Hp.
Qed.

Section Stuck.
Variable rec : State -> Res (option Node * State).
Variable st : State.
Variable t : LineTok.
Variable r : list LineTok.
Variable p : Node.
Hypothesis Ht : toks st = t :: r.
Hypothesis Hk : Lexer.kind t = T_LIST_CONT \/ Lexer.kind t = T_TABLE_LINE.
Hypothesis Hrec : rec st = OutOfFuel \/ rec st = Ok (Some p, st).

Lemma stuck_atEnd : atEnd st = false.
Proof.
  unfold atEnd, peek. rewrite Ht. cbn [nth].
  destruct Hk as [-> | ->]; reflexivity.
Qed.

Lemma stuck_skip : skipBlankAndLineComments st = st.
Proof.
  unfold skipBlankAndLineComments. rewrite Ht. cbn [skipToks].
  destruct st as [l e]. cbn [toks eofLine] in *. subst l.
  destruct Hk as [-> | ->]; reflexivity.
Qed.

(** The block loop of [parseDocument] never leaves such a token. *)
Lemma documentBody_stuck n acc : documentBody rec n st acc = OutOfFuel.
Proof.
  revert acc. induction n as [|n IH]; intros acc; [reflexivity|].
  cbn [documentBody]. rewrite stuck_atEnd, stuck_skip, stuck_atEnd.
  destruct Hrec as [-> | ->]; [reflexivity|]. cbn [bind]. apply IH.
Qed.

(** Nor does the body loop of a container block whose fence is of
    another kind. *)
Lemma containerBody_stuck k n acc :
  keq (Lexer.kind t) k = false -> containerBody rec k n st acc = OutOfFuel.
Proof.
  intros Hne. revert acc. induction n as [|n IH]; intros acc; [reflexivity|].
  cbn [containerBody]. rewrite stuck_atEnd, stuck_skip.
  unfold laKind, la, peek. rewrite Ht. cbn [nth]. rewrite Hne. cbn [negb andb].
  destruct Hrec as [-> | ->]; [reflexivity|]. cbn [bind]. apply IH.
Qed.

End Stuck.

Lemma parseBlock_stuck f st t r :
  toks st = t :: r ->
  Lexer.kind t = T_LIST_CONT \/ Lexer.kind t = T_TABLE_LINE ->
  parseBlock f st = OutOfFuel \/
  parseBlock f st = Ok (Some (emptyParagraph (lineNo t) None), st).
Proof.
  intros Ht Hk. destruct f as [|f]; [left; reflexivity|].
  right. eapply parseBlock_no_progress; eauto.
Qed.

(** A table line met by the body loop of a section is the error
    "unexpected table line", at the line of the token. *)
Lemma sectionBody_table_line rec tlevel n st acc t r :
  skipToks (toks st) = t :: r -> Lexer.kind t = T_TABLE_LINE ->
  sectionBody rec tlevel (S n) st acc =
  Err (mkErr (lineNo t) 1 (qs "unexpected table line")).
Proof.
  intros Ht Hk. cbn [sectionBody].
  assert (E1 : atEnd st = false).
  { unfold atEnd, peek. destruct (toks st) as [|x l]; [discriminate|].
    cbn [nth]. cbn [skipToks] in Ht.
    destruct (keq (Lexer.kind x) T_BLANK) eqn:B.
    - apply keq_eq in B. rewrite B. reflexivity.
    - destruct (keq (Lexer.kind x) T_LINE_COMMENT) eqn:C.
      + apply keq_eq in C. rewrite C. reflexivity.
      + cbn in Ht. injection Ht as -> _. rewrite Hk. reflexivity. }
  rewrite E1. unfold atEnd, la, peek, skipBlankAndLineComments.
  cbn [toks eofLine]. rewrite Ht. cbn [nth]. rewrite Hk. reflexivity.
Qed.

End StuckFacts.
Import StuckFacts.

(* ===================================================================== *)
(** * Facts about the lines of the lexer *)
(* ===================================================================== *)

Module LineFacts.

Lemma join_cons2 (a b : QString) (l : list QString) (sep : QString) :
  join (a :: b :: l) sep = a ++ sep ++ join (b :: l) sep.
Proof. reflexivity. Qed.

Lemma splitAcc_nonempty sep s cur : splitAcc sep s cur <> [].
Proof.
  revert cur. induction s as [|x r IH]; intros cur; simpl; [discriminate|].
  destruct (ceq x sep); [discriminate | apply IH].
Qed.

Lemma join_splitAcc (c : QChar) (s cur : QString) :
  join (splitAcc c s cur) [c] = cur ++ s.
Proof.
  revert cur. induction s as [|x r IH]; intros cur; cbn [splitAcc].
  - simpl. now rewrite app_nil_r.
  - destruct (ceq x c) eqn:E.
    + apply ceq_eq in E. subst x.
      pose proof (splitAcc_nonempty c r []) as N.
      pose proof (IH []) as J.
      destruct (splitAcc c r []) as [|b l]; [contradiction|].
      rewrite join_cons2, J. reflexivity.
    + rewrite IH, <- app_assoc. reflexivity.
Qed.

Lemma splitAcc_length (c : QChar) (s cur : QString) :
  length (splitAcc c s cur) = S (count_occ ascii_dec s c).
Proof.
  revert cur. induction s as [|x r IH]; intros cur; cbn [splitAcc count_occ]; [reflexivity|].
  destruct (ceq x c) eqn:E.
  - apply ceq_eq in E. subst x. destruct (ascii_dec c c); [|contradiction].
    simpl. now rewrite IH.
  - apply ceq_neq in E. destruct (ascii_dec x c); [contradiction|]. apply IH.
Qed.

Lemma splitAcc_no_sep (c : QChar) (s cur : QString) :
  ~ In c cur -> Forall (fun p => ~ In c p) (splitAcc c s cur).
Proof.
  revert cur. induction s as [|x r IH]; intros cur H; cbn [splitAcc].
  - constructor; [exact H | constructor].
  - destruct (ceq x c) eqn:E.
    + constructor; [exact H|]. apply IH. intros [].
    + apply IH. intros Hin. apply in_app_or in Hin as [Hin | [Hin | []]]; [auto|].
      apply ceq_neq in E. congruence.
Qed.

Lemma classify_raw (line : QString) (n : Z) :
  raw (classify line n) = line /\ lineNo (classify line n) = n.
Proof.
  unfold classify. cbv zeta.
  repeat match goal with
         | |- context [if ?c then _ else _] => destruct c
         | |- context [match ?x with Some _ => _ | None => _ end] => destruct x
         end; split; reflexivity.
Qed.

Lemma classifyLines_raw (ls : list QString) (i : Z) :
  map raw (classifyLines ls i) = ls.
Proof.
  revert i. induction ls as [|l r IH]; intros i; cbn [classifyLines map]; [reflexivity|].
  rewrite IH. f_equal. apply classify_raw.
Qed.

Lemma classifyLines_length (ls : list QString) (i : Z) :
  length (classifyLines ls i) = length ls.
Proof.
  revert i. induction ls as [|l r IH]; intros i; cbn [classifyLines length]; auto.
Qed.

Lemma classifyLines_lineNo (ls : list QString) (i : nat) :
  map lineNo (classifyLines ls (Z.of_nat i)) = map Z.of_nat (seq (S i) (length ls)).
Proof.
  revert i. induction ls as [|l r IH]; intros i; cbn [classifyLines map length seq]; [reflexivity|].
  f_equal.
  - rewrite (proj2 (classify_raw l _)). lia.
  - replace (Z.of_nat i + 1) with (Z.of_nat (S i)) by lia. apply IH.
Qed.

Lemma classifyLines_no_eof (ls : list QString) (i : Z) :
  Forall (fun t => Lexer.kind t <> T_EOF) (classifyLines ls i).
Proof.
  revert i. induction ls as [|l r IH]; intros i; cbn [classifyLines]; constructor.
  - apply classify_kinds.
  - apply IH.
Qed.

(** ** Blank lines *)

Lemma dropSpaces_nil (s : QString) : dropSpaces s = [] <-> forallb isSpace s = true.
Proof.
  induction s as [|c r IH]; simpl; [tauto|].
  destruct (isSpace c); simpl; [exact IH | split; discriminate].
Qed.

Lemma dropSpaces_head (s : QString) c r : dropSpaces s = c :: r -> isSpace c = false.
Proof.
  induction s as [|x s IH]; simpl; [discriminate|].
  destruct (isSpace x) eqn:E; [exact IH | intros H; injection H as <- _; exact E].
Qed.

Lemma trimmed_nil (s : QString) : trimmed s = [] <-> forallb isSpace s = true.
Proof.
  unfold trimmed. split.
  - intros H. apply (f_equal (@rev _)) in H. rewrite rev_involutive in H. simpl in H.
    apply dropSpaces_nil in H. rewrite forallb_forall in H.
    destruct (dropSpaces s) as [|c r] eqn:E; [apply dropSpaces_nil, E|].
    apply dropSpaces_head in E. specialize (H c). rewrite E in H.
    discriminate H. apply in_rev. rewrite rev_involutive. left. reflexivity.
  - intros H. apply dropSpaces_nil in H. rewrite H. reflexivity.
Qed.

Lemma isBlank_forallb (s : QString) : isBlank s = forallb isSpace s.
Proof. induction s as [|c r IH]; simpl; [reflexivity|]. destruct (isSpace c); simpl; auto. Qed.

Lemma classify_blank_iff (line : QString) (n : Z) :
  Lexer.kind (classify line n) = T_BLANK <-> isBlank line = true.
Proof.
  rewrite isBlank_forallb, <- trimmed_nil. unfold classify. cbv zeta.
  destruct (trimmed line) as [|c s] eqn:E; [simpl; tauto|].
  cbn [isEmpty].
  repeat match goal with
         | |- context [if ?c then _ else _] => destruct c
         | |- context [match ?x with Some _ => _ | None => _ end] => destruct x
         end; split; discriminate.
Qed.

(** ** Levels *)

Lemma runLength_le (s : QString) (ch : QChar) (m : nat) : runLength s ch m <= Z.of_nat m.
Proof.
  revert s. induction m as [|m IH]; intros [|c s]; cbn [runLength]; try lia.
  destruct (ceq c ch); [specialize (IH s)|]; lia.
Qed.

Lemma markerRun_range (s : QString) (ch : QChar) (k : Z) :
  markerRun s ch = Some k -> 1 <= k <= 6.
Proof.
  unfold markerRun, startsWithRun. cbv zeta.
  pose proof (runLength_le s ch (Z.to_nat 6)) as L.
  destruct (runLength s ch (Z.to_nat 6) >=? 1) eqn:E; [|discriminate].
  destruct (_ && _); [|discriminate]. intros H; injection H as <-.
  zbool. change (Z.of_nat (Z.to_nat 6)) with 6 in L. split; [exact E | exact L].
Qed.

Lemma classify_level (line : QString) (n : Z) :
  match Lexer.kind (classify line n) with
  | T_SECTION | T_UL_ITEM | T_OL_ITEM => 1 <= level (classify line n) <= 6
  | T_DESC_TERM => 2 <= level (classify line n)
  | _ => level (classify line n) = 0
  end.
Proof.
  unfold classify. cbv zeta.
  repeat match goal with
         | |- context [if ?c then _ else _] => destruct c eqn:?
         | |- context [match ?x with Some _ => _ | None => _ end] => destruct x eqn:?
         end; cbn [Lexer.kind level]; try reflexivity;
    try (eapply markerRun_range; eassumption).
  zbool. assumption.
Qed.

(** ** Pieces *)

Lemma classify_pieces (line : QString) (n : Z) :
  Infix (head (classify line n)) line /\ Infix (rest (classify line n)) line.
Proof.
  pose proof (trimmed_Infix line) as T.
  unfold classify. cbv zeta.
  repeat match goal with
         | |- context [if ?c then _ else _] => destruct c
         | |- context [match ?x with Some _ => _ | None => _ end] => destruct x
         end; cbn [head rest]; split;
    eauto 6 using Infix_trans, trimmed_Infix, mid_Infix, left_Infix, Infix_refl, Infix_nil.
Qed.

End LineFacts.
Import LineFacts.

(* ===================================================================== *)
(** * Facts about the helpers of the parser *)
(* ===================================================================== *)

Module HelperFacts.

Lemma splitPipeLoop0_eq s r cur bs :
  splitPipeLoop0 s r cur bs = splitPipeLoop s r cur bs.
Proof.
  revert r cur bs. induction s as [|c s IH]; intros r cur bs; [reflexivity|].
  cbn [splitPipeLoop0 splitPipeLoop].
  destruct (ceq c "|"%char); [|apply IH].
  change 1 with (Z.ones 1) at 1. rewrite Z.land_ones by lia.
  change (2 ^ 1) with 2.
  destruct (bs mod 2 =? 0); cbn [negb]; [apply IH|].
  destruct cur as [|x cur]; [apply IH | apply IH].
Qed.

(** ** skipBlankAndLineComments *)

Lemma skipToks_spec (l : list LineTok) :
  exists pre, l = pre ++ skipToks l /\ forallb blankOrComment pre = true /\
              match skipToks l with
              | t :: _ => blankOrComment t = false
              | [] => True
              end.
Proof.
  induction l as [|t r [pre [H1 [H2 H3]]]]; cbn [skipToks].
  - exists []. auto.
  - fold (blankOrComment t). destruct (blankOrComment t) eqn:E.
    + exists (t :: pre). cbn [forallb app]. rewrite E, H2, <- H1. auto.
    + exists []. cbn. rewrite E. auto.
Qed.

Lemma skipToks_idem (l : list LineTok) : skipToks (skipToks l) = skipToks l.
Proof.
  destruct (skipToks_spec l) as [_ [_ [_ H]]].
  destruct (skipToks l) as [|t r]; [reflexivity|].
  cbn [skipToks]. fold (blankOrComment t). rewrite H. reflexivity.
Qed.

(** ** stripOuter *)

Lemma at_last (m : QString) (a b : QChar) :
  at_ (a :: m ++ [b]) (size (a :: m ++ [b]) - 1) = b.
Proof.
  unfold at_, size. cbn [length]. rewrite length_app. cbn [length].
  replace (Z.to_nat (Z.of_nat (S (length m + 1)) - 1)) with (S (length m)) by lia.
  cbn [nth]. rewrite app_nth2 by lia. rewrite Nat.sub_diag. reflexivity.
Qed.

Lemma outer_shape (t : QString) (a b : QChar) :
  (size t >=? 2) && ceq (at_ t 0) a && ceq (at_ t (size t - 1)) b = true ->
  exists m, t = a :: m ++ [b].
Proof.
  intros H. apply andb_true_iff in H as [H H3]. apply andb_true_iff in H as [H1 H2].
  apply ceq_eq in H2, H3. zbool.
  destruct t as [|x t]; [unfold size in H1; simpl in H1; lia|].
  unfold at_ in H2. simpl in H2. subst x.
  destruct (exists_last (l := t)) as [m [y ->]].
  { intros ->. unfold size in H1. simpl in H1. lia. }
  exists m. rewrite at_last in H3. subst y. reflexivity.
Qed.

Lemma stripOuter_inner (s m : QString) (a b : QChar) :
  trimmed s = a :: m ++ [b] -> stripOuter s a b = m.
Proof.
  intros H. unfold stripOuter. cbv zeta. rewrite H.
  rewrite at_last. unfold at_ at 1. cbn [Z.to_nat nth].
  rewrite !ceq_refl.
  assert (S2 : size (a :: m ++ [b]) = size m + 2).
  { unfold size. cbn [length]. rewrite length_app. cbn [length]. lia. }
  pose proof (size_nonneg m) as Hm.
  replace (size (a :: m ++ [b]) >=? 2) with true by (symmetry; zdecide).
  cbn [andb]. rewrite midn_inside by lia.
  rewrite S2. replace (size m + 2 - 2) with (size m) by lia.
  change (Z.to_nat 1) with 1%nat. cbn [skipn]. unfold size. rewrite Nat2Z.id.
  rewrite firstn_app, Nat.sub_diag, firstn_all. cbn [firstn]. apply app_nil_r.
Qed.

Lemma stripOuter_other (s : QString) (a b : QChar) :
  (forall m, trimmed s <> a :: m ++ [b]) -> stripOuter s a b = trimmed s.
Proof.
  intros H. unfold stripOuter. cbv zeta.
  destruct (_ && _) eqn:E; [|reflexivity].
  apply outer_shape in E as [m E]. exfalso. exact (H m E).
Qed.

(** ** parseBlockMetaOpt *)

Lemma meta_none (st : State) :
  metaKind (laKind st 0) = false -> parseBlockMetaOpt st = (None, st).
Proof.
  unfold metaKind, parseBlockMetaOpt. intros H.
  apply orb_false_iff in H as [H H3]. apply orb_false_iff in H as [H1 H2].
  rewrite H1, H2, H3. reflexivity.
Qed.

Lemma head_tok (l : list LineTok) (e : Z) (k : Lexer.Kind) :
  keq (Lexer.kind (nth 0 l (eofTok e))) k = true -> k <> T_EOF ->
  exists t r, l = t :: r.
Proof.
  destruct l as [|t r]; [|eauto]. cbn [nth]. intros H N. apply keq_eq in H. cbn in H. congruence.
Qed.

Lemma meta_step (A : Type) (l : list LineTok) (e : Z) (k : Lexer.Kind)
    (f : LineTok -> A -> A) (m : A) :
  k <> T_EOF ->
  exists m' j,
    (if keq (Lexer.kind (nth 0 l (eofTok e))) k
     then (f (nth 0 l (eofTok e)) m, mkState (tl l) e)
     else (m, mkState l e)) = (m', mkState (skipn j l) e) /\
    (j <= 1)%nat /\ (j <= length l)%nat /\
    (keq (Lexer.kind (nth 0 l (eofTok e))) k = true -> j = 1%nat).
Proof.
  intros N. destruct (keq _ k) eqn:E.
  - destruct (head_tok l e E N) as [t [r ->]].
    eexists; exists 1%nat. cbn. repeat split; lia.
  - eexists; exists 0%nat. cbn. repeat split; try lia; discriminate.
Qed.

Lemma meta_some (st : State) :
  metaKind (laKind st 0) = true ->
  exists m k, parseBlockMetaOpt st = (Some m, mkState (skipn k (toks st)) (eofLine st)) /\
              (1 <= k <= 3)%nat /\ (k <= length (toks st))%nat.
Proof.
  destruct st as [l e]. unfold metaKind, parseBlockMetaOpt, laKind, la, peek, take.
  cbn [toks eofLine]. intros H.
  replace (negb (keq (Lexer.kind (nth 0 l (eofTok e))) T_BLOCK_ANCHOR) &&
           negb (keq (Lexer.kind (nth 0 l (eofTok e))) T_BLOCK_ATTRS) &&
           negb (keq (Lexer.kind (nth 0 l (eofTok e))) T_BLOCK_TITLE)) with false
    by (rewrite <- !negb_orb, H; reflexivity).
  cbv zeta.
  destruct (@meta_step BlockMeta l e T_BLOCK_ANCHOR
              (fun t m =>
                 let inner := stripOuter (stripOuter (rest t) "["%char "]"%char)
                                         "["%char "]"%char in
                 if indexOfC inner ","%char 0 <? 0
                 then mkMeta (trimmed inner) (anchorText m) (title m) (attrs m) (roles m)
                 else mkMeta (trimmed (left inner (indexOfC inner ","%char 0)))
                        (trimmed (mid inner (indexOfC inner ","%char 0 + 1)))
                        (title m) (attrs m) (roles m))
              emptyMeta ltac:(discriminate)) as [m1 [j1 [E1 [B1 [L1 F1]]]]].
  match goal with
  | |- context [let '(m, st) := ?x in _] =>
      assert (X : x = (m1, mkState (skipn j1 l) e))
        by (rewrite <- E1; destruct (keq _ T_BLOCK_ANCHOR); [|reflexivity];
            cbv zeta; destruct (_ <? 0); reflexivity);
      rewrite X; clear X
  end.
  cbn [toks eofLine].
  destruct (@meta_step BlockMeta (skipn j1 l) e T_BLOCK_ATTRS
              (fun t m =>
                 let attrs' := fold_left (fun acc e => insert acc (fst e) (snd e))
                                 (parseAttrList (rest t)) (attrs m) in
                 mkMeta (anchorId m) (anchorText m) (title m) attrs'
                        (roles m ++ rolesOf attrs'))
              m1 ltac:(discriminate)) as [m2 [j2 [E2 [B2 [L2 F2]]]]].
  match goal with
  | |- context [let '(m, st) := ?x in _] =>
      assert (X : x = (m2, mkState (skipn j2 (skipn j1 l)) e))
        by (rewrite <- E2; destruct (keq _ T_BLOCK_ATTRS); reflexivity);
      rewrite X; clear X
  end.
  cbn [toks eofLine].
  destruct (@meta_step BlockMeta (skipn j2 (skipn j1 l)) e T_BLOCK_TITLE
              (fun t m => mkMeta (anchorId m) (anchorText m) (trimmed (rest t))
                                 (attrs m) (roles m))
              m2 ltac:(discriminate)) as [m3 [j3 [E3 [B3 [L3 F3]]]]].
  match goal with
  | |- context [let '(m, st) := ?x in _] =>
      assert (X : x = (m3, mkState (skipn j3 (skipn j2 (skipn j1 l))) e))
        by (rewrite <- E3; destruct (keq _ T_BLOCK_TITLE); reflexivity);
      rewrite X; clear X
  end.
  exists m3, (j1 + j2 + j3)%nat.
  rewrite !length_skipn in *. rewrite !skipn_skipn.
  replace (j3 + j2 + j1)%nat with (j1 + j2 + j3)%nat by lia.
  split; [reflexivity|]. split; [|lia]. split; [|lia].
  apply orb_true_iff in H as [H | H]; [apply orb_true_iff in H as [H | H]|].
  - specialize (F1 H). lia.
  - destruct j1 as [|j1]; [|lia]. cbn [skipn] in F2. specialize (F2 H). lia.
  - destruct j1 as [|j1]; [|lia]. destruct j2 as [|j2]; [|lia].
    cbn [skipn] in F3. specialize (F3 H). lia.
Qed.

(** ** Literal paragraphs *)

Lemma literalLine_first (t : LineTok) :
  literalLine t ->
  keq (Lexer.kind t) T_TEXT = true /\
  (isEmpty (raw t) || negb (isSpace (at_ (raw t) 0))) = false /\
  mid (raw t) 1 = tl (raw t).
Proof.
  intros [K [c [x [R Hs]]]]. rewrite K, R. split; [reflexivity|]. split.
  - unfold at_. cbn. rewrite Hs. reflexivity.
  - unfold mid, size. cbn [length tl].
    destruct (1 >? Z.of_nat (S (length x))) eqn:E; [zbool; lia | reflexivity].
Qed.

Lemma paragraphLines_literal (l rest : list LineTok) (acc : list QString) :
  Forall literalLine l -> kindOfFirst rest <> T_TEXT ->
  paragraphLines true (l ++ rest) acc = (acc ++ map (fun t => tl (raw t)) l, rest).
Proof.
  intros Hl Hr. revert acc. induction Hl as [|t l Ht Hl IH]; intros acc.
  - cbn [app map]. rewrite app_nil_r.
    destruct rest as [|t r]; [reflexivity|]. cbn [paragraphLines].
    cbn [kindOfFirst] in Hr. apply keq_neq in Hr. rewrite Hr. reflexivity.
  - cbn [app map paragraphLines].
    destruct (literalLine_first Ht) as [K [E M]]. rewrite K, E, M.
    cbn [negb andb].
    assert (B : keq (kindOfFirst (l ++ rest)) T_BLANK = true ->
                l = [] /\ True).
    { intros B. apply keq_eq in B. destruct l as [|t' l']; [auto|].
      inversion Hl as [|? ? [K' _] _]; subst. cbn in B. congruence. }
    destruct (keq (kindOfFirst (l ++ rest)) T_BLANK) eqn:EB.
    + destruct (B eq_refl) as [-> _]. cbn [app map]. reflexivity.
    + rewrite IH, <- app_assoc. reflexivity.
Qed.

(** ** Raw delimited blocks *)

Lemma rawLines_closed k body close rest acc :
  Forall (fun t => Lexer.kind t <> k /\ Lexer.kind t <> T_EOF) body ->
  Lexer.kind close = k ->
  rawLines k (body ++ close :: rest) acc = (acc ++ map raw body, close :: rest).
Proof.
  intros Hb Hc. revert acc. induction Hb as [|t l [H1 H2] Hl IH]; intros acc.
  - cbn [app map rawLines]. rewrite Hc, keq_refl, app_nil_r.
    rewrite andb_false_r. reflexivity.
  - cbn [app map rawLines]. apply keq_neq in H1, H2. rewrite H1, H2.
    cbn [negb andb]. rewrite IH, <- app_assoc. reflexivity.
Qed.

End HelperFacts.
Import HelperFacts.

(* ===================================================================== *)
(** * Facts about escaping and sequencing in the generator *)
(* ===================================================================== *)

Module GenFacts.

Lemma escText_cons c r :
  escText (c :: r) = (if escaped c then [backslash; c] else [c]) ++ escText r.
Proof. reflexivity. Qed.

Lemma escText_inj (a b : QString) : escText a = escText b -> a = b.
Proof.
  revert b. induction a as [|c a IH]; intros [|d b]; rewrite ?escText_cons.
  - reflexivity.
  - cbn [escText]. destruct (escaped d); discriminate.
  - cbn [escText]. destruct (escaped c); discriminate.
  - destruct (escaped c) eqn:Ec, (escaped d) eqn:Ed; cbn [app]; intros H.
    + injection H as H1 H2. subst d. f_equal. apply IH, H2.
    + injection H as H1 H2. subst d. discriminate Ed.
    + injection H as H1 H2. subst c. discriminate Ec.
    + injection H as H1 H2. subst d. f_equal. apply IH, H2.
Qed.

Lemma escText_plain (s : QString) :
  forallb (fun c => negb (escaped c)) s = true -> escText s = s.
Proof.
  induction s as [|c s IH]; [reflexivity|]. cbn [forallb]. intros H.
  apply andb_true_iff in H as [H1 H2]. apply negb_true_iff in H1.
  rewrite escText_cons, H1, IH by exact H2. reflexivity.
Qed.

(** ** escString *)


Lemma escString_cons c r : escString (c :: r) = escOne c ++ escString r.
Proof. reflexivity. Qed.

Lemma escOne_cases (c : QChar) :
  (c = backslash /\ escOne c = [backslash; backslash]) \/
  (c = dquote /\ escOne c = [backslash; dquote]) \/
  (c = newline /\ escOne c = [backslash; "n"%char]) \/
  (c = cr /\ escOne c = []) \/
  (c <> backslash /\ c <> dquote /\ c <> newline /\ c <> cr /\ escOne c = [c]).
Proof.
  unfold escOne.
  destruct (ceq c backslash) eqn:E1; [apply ceq_eq in E1; subst; auto|].
  destruct (ceq c dquote) eqn:E2; [apply ceq_eq in E2; subst; auto|].
  destruct (ceq c newline) eqn:E3; [apply ceq_eq in E3; subst; auto 6|].
  destruct (ceq c cr) eqn:E4; [apply ceq_eq in E4; subst; auto 6|].
  apply ceq_neq in E1, E2, E3, E4. auto 10.
Qed.

Lemma escString_no_break (s : QString) :
  ~ In newline (escString s) /\ ~ In cr (escString s).
Proof.
  induction s as [|c s [IH1 IH2]]; [split; intros []|].
  rewrite escString_cons.
  split; intros H; apply in_app_or in H as [H | H]; try contradiction;
    destruct (escOne_cases c) as [[E R] | [[E R] | [[E R] | [[E R] | [N1 [N2 [N3 [N4 R]]]]]]]];
    rewrite R in H;
    cbn in H; repeat (destruct H as [H | H]); try discriminate H; try contradiction;
    congruence.
Qed.

Lemma escString_inj (a b : QString) :
  ~ In cr a -> ~ In cr b -> escString a = escString b -> a = b.
Proof.
  revert b. induction a as [|c a IH]; intros [|d b] Ha Hb; rewrite ?escString_cons.
  - reflexivity.
  - cbn [escString]. intros H. exfalso.
    destruct (escOne_cases d) as [[E R] | [[E R] | [[E R] | [[E R] | [N1 [N2 [N3 [N4 R]]]]]]]];
      rewrite R in H; try discriminate H.
    apply Hb. left. auto.
  - cbn [escString]. intros H. exfalso.
    destruct (escOne_cases c) as [[E R] | [[E R] | [[E R] | [[E R] | [N1 [N2 [N3 [N4 R]]]]]]]];
      rewrite R in H; try discriminate H.
    apply Ha. left. auto.
  - intros H.
    assert (Ha' : ~ In cr a) by (intros X; apply Ha; right; exact X).
    assert (Hb' : ~ In cr b) by (intros X; apply Hb; right; exact X).
    assert (Nc : c <> cr) by (intros X; apply Ha; left; auto).
    assert (Nd : d <> cr) by (intros X; apply Hb; left; auto).
    destruct (escOne_cases c) as [[E R] | [[E R] | [[E R] | [[E R] | [N1 [N2 [N3 [N4 R]]]]]]]];
    destruct (escOne_cases d) as [[E' R'] | [[E' R'] | [[E' R'] | [[E' R'] | [M1 [M2 [M3 [M4 R']]]]]]]];
      try contradiction; rewrite R, R' in H; cbn [app] in H;
      inversion H; try congruence; subst; f_equal; apply IH; assumption.
Qed.

(** ** Emissions in a row *)

Lemma andThen_Out_l (x : QString) (b : Gen) :
  Out x >> b = match b with Out y => Out (x ++ y) | Failed e => Failed e end.
Proof. reflexivity. Qed.

Lemma andThen_Failed_l (e : TypstGenError) (b : Gen) : Failed e >> b = Failed e.
Proof. reflexivity. Qed.

Lemma andThen_nil_l (b : Gen) : Out [] >> b = b.
Proof. destruct b; reflexivity. Qed.

Lemma andThen_nil_r (a : Gen) : a >> Out [] = a.
Proof. destruct a; cbn; [rewrite app_nil_r|]; reflexivity. Qed.

Lemma andThen_assoc (a b c : Gen) : (a >> b) >> c = a >> (b >> c).
Proof.
  destruct a as [x|e]; [|reflexivity]. destruct b as [y|e]; [|reflexivity].
  destruct c as [z|e]; cbn; [rewrite app_assoc|]; reflexivity.
Qed.

Lemma fold_andThen {A} (f : A -> Gen) (l : list A) (a : Gen) :
  fold_left (fun acc x => acc >> f x) l a =
  a >> fold_right (fun x r => f x >> r) (Out []) l.
Proof.
  revert a. induction l as [|x l IH]; intros a; cbn [fold_left fold_right].
  - rewrite andThen_nil_r. reflexivity.
  - rewrite IH, andThen_assoc. reflexivity.
Qed.

Lemma seq_Out {A} (f : A -> Gen) (l : list A) (outs : list QString) :
  Forall2 (fun x o => f x = Out o) l outs ->
  fold_right (fun x r => f x >> r) (Out []) l = Out (concat outs).
Proof.
  induction 1 as [|x o l outs H _ IH]; cbn [fold_right concat]; [reflexivity|].
  rewrite H, IH. reflexivity.
Qed.

Lemma seq_Failed {A} (f : A -> Gen) (pre post : list A) (c : A) e :
  Forall (fun x => exists o, f x = Out o) pre -> f c = Failed e ->
  fold_right (fun x r => f x >> r) (Out []) (pre ++ c :: post) = Failed e.
Proof.
  intros Hp Hc. induction Hp as [|x pre [o Ho] _ IH]; cbn [app fold_right].
  - rewrite Hc. reflexivity.
  - rewrite Ho, IH. reflexivity.
Qed.

Lemma seq_Failed_inv {A} (f : A -> Gen) (l : list A) e :
  fold_right (fun x r => f x >> r) (Out []) l = Failed e ->
  exists x, In x l /\ f x = Failed e.
Proof.
  induction l as [|x l IH]; cbn [fold_right]; [discriminate|].
  destruct (f x) as [o|e'] eqn:E.
  - destruct (fold_right _ _ l) as [o'|e'']; [discriminate|].
    intros H. injection H as <-. destruct (IH eq_refl) as [y [Hy1 Hy2]].
    exists y. split; [right; exact Hy1 | exact Hy2].
  - intros H. injection H as <-. exists x. split; [left; reflexivity | exact E].
Qed.

End GenFacts.
Import GenFacts.

(* ===================================================================== *)
(** * Facts about the document and table output *)
(* ===================================================================== *)

Module GenFacts2.

Lemma fold_left_same {A B} (f g : A -> B -> A) (l : list B) (a : A) :
  (forall x y, f x y = g x y) -> fold_left f l a = fold_left g l a.
Proof.
  intros H. revert a. induction l as [|y l IH]; intros a; cbn [fold_left]; [reflexivity|].
  rewrite H. apply IH.
Qed.

Section Gen.
Variable opts : Options.


Lemma generate_eq (doc : Node) :
  Ast.kind doc = K_Document ->
  generate opts doc =
  emitPreamble opts >> Out (titleLine doc)
  >> fold_right (fun c r => (emitNode opts c 0 >> Out [newline]) >> r) (Out [])
                (children doc).
Proof.
  intros K. unfold generate. rewrite K. cbn [kindEq negb].
  rewrite (@fold_left_same _ _ _
             (fun acc c => acc >> (emitNode opts c 0 >> Out [newline])))
    by (intros; apply andThen_assoc).
  rewrite (fold_andThen (fun c => emitNode opts c 0 >> Out [newline])).
  rewrite andThen_nil_l. unfold titleLine.
  destruct (negb _); reflexivity.
Qed.

Lemma generate_ok (doc : Node) (p : QString) (outs : list QString) :
  Ast.kind doc = K_Document -> emitPreamble opts = Out p ->
  Forall2 (fun c o => emitNode opts c 0 = Out o) (children doc) outs ->
  generate opts doc = Out (p ++ titleLine doc ++ linesOf outs).
Proof.
  intros K P F. rewrite generate_eq, P by exact K.
  rewrite (@seq_Out _ (fun c => emitNode opts c 0 >> Out [newline]) (children doc)
             (map (fun o => o ++ [newline]) outs)).
  - cbn. rewrite <- app_assoc. reflexivity.
  - induction F as [|c o l outs' H _ IH]; cbn [map]; constructor; [|exact IH].
    rewrite H. reflexivity.
Qed.

Lemma generate_first_error (doc : Node) (p : QString) pre c post e :
  Ast.kind doc = K_Document -> emitPreamble opts = Out p ->
  children doc = pre ++ c :: post ->
  Forall (fun x => exists o, emitNode opts x 0 = Out o) pre ->
  emitNode opts c 0 = Failed e ->
  generate opts doc = Failed e.
Proof.
  intros K P C F E. rewrite generate_eq, P, C by exact K.
  rewrite (@seq_Failed _ (fun c => emitNode opts c 0 >> Out [newline]) pre post c e).
  - reflexivity.
  - eapply Forall_impl; [|exact F]. intros x [o Ho]. rewrite Ho. eexists. reflexivity.
  - rewrite E. reflexivity.
Qed.

(** ** Tables *)

Lemma filter_rows w (rows : list Node) :
  Forall (isRow w) rows ->
  filter (fun r => kindEq (Ast.kind r) K_TableRow) rows = rows.
Proof.
  induction 1 as [|r l [K _] _ IH]; cbn [filter]; [reflexivity|].
  rewrite K, IH. reflexivity.
Qed.

Lemma wrapped_Failed (a b : QString) (g : Gen) e :
  Out a >> g >> Out b = Failed e -> g = Failed e.
Proof. destruct g; cbn; [discriminate | congruence]. Qed.

Lemma emitTable_rows (t : Node) (w : nat) e :
  Forall (isRow w) (children t) ->
  emitTable opts t = Failed e ->
  exists row cell, In row (children t) /\ In cell (children row) /\
                   emitInlineSeq opts (children cell) = Failed e.
Proof.
  intros R. unfold emitTable. cbv zeta. rewrite (filter_rows R).
  destruct (children t) as [|r0 rs] eqn:C; [cbn; discriminate|].
  set (cols := size (children r0)).
  destruct (cols <=? 0); [discriminate|].
  rewrite (fold_andThen
    (fun row =>
       if negb (size (children row) =? cols)
       then failAt (Some row) (qs "Table row has inconsistent number of cells")
       else fold_left
              (fun acc cell =>
                 acc >> Out (qs "  [") >> emitInlineSeq opts (children cell)
                     >> Out (qs "]," ++ [newline]))
              (children row) (Out []))).
  rewrite andThen_nil_l. intros H. apply wrapped_Failed in H.
  apply seq_Failed_inv in H as [row [Hin Hrow]].
  assert (W : (size (children row) =? cols) = true).
  { rewrite Forall_forall in R. destruct (R row Hin) as [_ [L _]].
    destruct (R r0 (or_introl eq_refl)) as [_ [L0 _]].
    unfold cols, size. rewrite L, L0. apply Z.eqb_refl. }
  rewrite W in Hrow. cbn [negb] in Hrow.
  rewrite (@fold_left_same _ _ _
             (fun acc cell => acc >> (Out (qs "  [") >> emitInlineSeq opts (children cell)
                                      >> Out (qs "]," ++ [newline])))) in Hrow
    by (intros; rewrite !andThen_assoc; reflexivity).
  rewrite (fold_andThen
             (fun cell => Out (qs "  [") >> emitInlineSeq opts (children cell)
                          >> Out (qs "]," ++ [newline]))) in Hrow.
  rewrite andThen_nil_l in Hrow.
  apply seq_Failed_inv in Hrow as [cell [Hc1 Hc2]].
  apply wrapped_Failed in Hc2. eauto.
Qed.

End Gen.
End GenFacts2.
Import GenFacts2.

(* ===================================================================== *)
(** * Facts about section headings *)
(* ===================================================================== *)

Module SectionFacts.

Lemma level_round_trip (lv : Z) :
  1 <= lv <= 6 ->
  toInt (value (insert [] (qs "level") (number lv)) (qs "level")) = lv.
Proof.
  intros H.
  assert (C : lv = 1 \/ lv = 2 \/ lv = 3 \/ lv = 4 \/ lv = 5 \/ lv = 6) by lia.
  repeat destruct C as [-> | C]; try reflexivity. subst. reflexivity.
Qed.

Lemma headingMarks_fill (lv : Z) : 1 <= lv <= 6 -> headingMarks lv = fill lv "="%char.
Proof.
  intros H. unfold headingMarks.
  destruct (lv <? 1) eqn:E1; [zbool; lia|].
  destruct (lv >? 6) eqn:E2; [zbool; lia|]. reflexivity.
Qed.

Lemma section_heading opts rec n m t r e s st' out :
  1 <= level t <= 6 ->
  parseSection rec n m (mkState (t :: r) e) = Ok (Some s, st') ->
  emitNode opts s 0 = Out out ->
  exists body,
    out = fill (level t) "="%char ++ qs " " ++ escText (rest t)
          ++ labelSuffix m ++ [newline; newline] ++ body.
Proof.
  intros L. unfold parseSection, take, peek. cbn [toks nth tl eofLine].
  destruct (sectionBody _ _ _ _ _) as [[body st1]| |]; cbn [bind]; try discriminate.
  intros H. injection H as <- <-.
  unfold setChildren, setName, kvInsert, blockAt, setMeta, setPos, newNode.
  cbn [Ast.kind pos meta text name target kv children].
  cbn [emitNode Ast.kind pos meta text name target kv children].
  rewrite level_round_trip by exact L. rewrite Z.add_0_r.
  replace (if level t <? 1 then 1 else level t) with (level t)
    by (destruct (level t <? 1) eqn:E; [zbool; lia | reflexivity]).
  rewrite headingMarks_fill by exact L.
  match goal with
  | |- Out ?h >> ?X = Out out -> _ => destruct X as [b|e']; cbn [andThen]; [|discriminate]
  end.
  intros H. injection H as <-. exists b. cbn [qs list_ascii_of_string app]. rewrite <- !app_assoc.
  f_equal. cbn [app]. f_equal. rewrite <- !app_assoc. reflexivity.
Qed.

End SectionFacts.
Import SectionFacts.

(* ===================================================================== *)
(** * Facts about text without markup *)
(* ===================================================================== *)

Module PlainFacts.

Lemma In_Infix (p s : QString) (c : QChar) : Infix p s -> In c p -> In c s.
Proof. intros [a [b ->]] H. apply in_or_app. right. apply in_or_app. left. exact H. Qed.

Lemma at_In (s : QString) (i : Z) : 0 <= i < size s -> In (at_ s i) s.
Proof. intros H. unfold at_. apply nth_In. unfold size in H. lia. Qed.

Lemma startsWith_In (t p : QString) (c : QChar) :
  startsWith t p = true -> In c p -> In c t.
Proof.
  intros H Hc. apply startsWith_spec in H as [r ->]. apply in_or_app. left. exact Hc.
Qed.

Lemma indexOfC_absent (s : QString) (c : QChar) (from : Z) :
  0 <= from -> ~ In c s -> indexOfC s c from < 0.
Proof.
  intros Hf Hn. destruct (Z_lt_ge_dec (indexOfC s c from) 0) as [L | G]; [exact L|].
  exfalso. apply Hn. unfold indexOfC in G.
  apply In_Infix with (p := [c]); [|left; reflexivity].
  eapply indexOf_Infix with (from := from) (j := indexOf s [c] from); auto. lia.
Qed.

Lemma skipn_at (s : QString) (i : Z) :
  0 <= i < size s ->
  skipn (Z.to_nat i) s = at_ s i :: skipn (Z.to_nat (i + 1)) s.
Proof.
  intros H. unfold at_, size in *.
  replace (Z.to_nat (i + 1)) with (S (Z.to_nat i)) by lia.
  assert (L : (Z.to_nat i < length s)%nat) by lia.
  generalize dependent (Z.to_nat i). clear H. intros n.
  revert s. induction n as [|n IH]; intros [|x s] L; simpl in *; try lia; auto.
  apply IH. lia.
Qed.

Section Plain.
Variable s : QString.
Variable i : Z.
Variable lineNo : Z.
Hypothesis Hp : plainText s.
Hypothesis Hi : 0 <= i < size s.

Lemma not_markup (c : QChar) : In c markupChars -> ceq (at_ s i) c = false.
Proof.
  intros H. apply ceq_neq. intros E. apply (Hp H). rewrite <- E. apply at_In, Hi.
Qed.

Ltac inlist := cbn; repeat (first [left; reflexivity | right]).
Ltac markup := unfold markupChars; inlist.

Lemma attrRef_plain : attrRef s i lineNo = None.
Proof. unfold attrRef. rewrite not_markup by markup. reflexivity. Qed.

Lemma bracketed_plain o close k setId :
  In o markupChars -> bracketed s i lineNo o close k setId = None.
Proof.
  intros H. unfold bracketed. rewrite (not_markup H).
  rewrite andb_false_r. reflexivity.
Qed.

Lemma no_scheme (p : QString) :
  In ":"%char p -> startsWith (mid s i) p = false.
Proof.
  intros H. destruct (startsWith (mid s i) p) eqn:X; [|reflexivity].
  exfalso. apply (@Hp ":"%char); [markup|].
  apply In_Infix with (p := mid s i); [apply mid_Infix|].
  eapply startsWith_In; [exact X | exact H].
Qed.

Lemma autoLink_plain : autoLink s i lineNo = None.
Proof.
  unfold autoLink, isUrlSchemeStart. rewrite !no_scheme by inlist. reflexivity.
Qed.

Lemma inlineMacro_plain : inlineMacro s i lineNo = None.
Proof.
  unfold inlineMacro. cbv zeta.
  assert (Hc : ~ In ":"%char s) by (apply Hp; markup).
  pose proof (@indexOfC_absent s ":"%char i ltac:(lia) Hc) as H.
  destruct (indexOfC s ":"%char i >? i) eqn:E; [zbool; lia | reflexivity].
Qed.

Lemma paired_plain c mark mk :
  In c markupChars -> paired s i (c :: mark) mk = None.
Proof.
  intros H. unfold paired. cbv zeta.
  destruct (qeq _ _) eqn:E; [|reflexivity].
  exfalso. apply qeq_eq in E. apply (Hp H).
  apply In_Infix with (p := midn s i (size (c :: mark))); [apply midn_Infix|].
  rewrite E. left. reflexivity.
Qed.

Lemma passthrough_plain : passthrough s i lineNo = None.
Proof. unfold passthrough. rewrite not_markup by markup. reflexivity. Qed.

Lemma firstHit_plain : firstHit s i lineNo = None.
Proof.
  unfold firstHit, xref, anchor.
  rewrite attrRef_plain, !bracketed_plain, autoLink_plain, inlineMacro_plain,
    passthrough_plain by markup.
  cbn [orElse qs list_ascii_of_string].
  rewrite !paired_plain by markup. reflexivity.
Qed.

End Plain.

Lemma scan_plain rec l d s :
  plainText s ->
  forall g i out acc, 0 <= i <= size s -> size s - i < Z.of_nat g ->
    scan rec l d g s i out acc
    = Some (pushText out (acc ++ skipn (Z.to_nat i) s) l).
Proof.
  intros Hp. induction g as [|g IH]; intros i out acc Hi Hg; [lia|].
  cbn [scan]. destruct (i <? size s) eqn:E; zbool.
  - rewrite firstHit_plain by (auto; lia).
    rewrite IH by lia. rewrite (@skipn_at s i) by lia.
    rewrite <- app_assoc. reflexivity.
  - replace i with (size s) by lia. unfold size. rewrite Nat2Z.id, skipn_all, app_nil_r.
    reflexivity.
Qed.

Lemma plain_inline (s : QString) (l : Z) :
  plainText s -> parseInlineContent s l = Some (pushText [] s l).
Proof.
  intros Hp. unfold parseInlineContent. cbn [parseInlineContentRec].
  rewrite scan_plain; auto.
  - pose proof (size_nonneg s). lia.
  - unfold size. lia.
Qed.

End PlainFacts.
Import PlainFacts.

(* ===================================================================== *)
(** * Facts about lists *)
(* ===================================================================== *)

Module ListFacts.

Lemma tl_skipn {A} (k : nat) (l : list A) : tl (skipn k l) = skipn (S k) l.
Proof.
  revert l. induction k as [|k IH]; intros [|x l]; try reflexivity.
  cbn [skipn] in *. apply IH.
Qed.

Lemma taken_toks (k : nat) (st : State) :
  taken k st = mkState (skipn k (toks st)) (eofLine st).
Proof.
  induction k as [|k IH]; [destruct st; reflexivity|].
  change (taken (S k) st) with (snd (take (taken k st))). rewrite IH.
  unfold take. cbn [snd toks eofLine]. rewrite tl_skipn. reflexivity.
Qed.

Lemma atEnd_toks (st : State) :
  Forall (fun t => Lexer.kind t <> T_EOF) (toks st) ->
  (atEnd st = true <-> toks st = []).
Proof.
  intros H. unfold atEnd, peek. destruct (toks st) as [|t r]; cbn [nth].
  - split; reflexivity.
  - inversion H as [|? ? Ht _]; subst. apply keq_neq in Ht. rewrite Ht.
    split; discriminate.
Qed.

Section Items.
Variable rec : State -> Res (option Node * State).

Lemma continuations_item n st item :
  resAll (fun x => Ast.kind (fst x) = Ast.kind item /\
                   exists more, children (fst x) = children item ++ more)
         (continuations rec n st item).
Proof.
  revert st item. induction n as [|n IH]; intros st item; [exact I|].
  cbn [continuations]. destruct (keq _ T_LIST_CONT).
  - destruct (rec _) as [[cont st1]| |]; cbn [bind]; try exact I.
    eapply resAll_weaken; [apply IH|].
    intros [x st2] [K [more M]]. cbn [fst] in *.
    destruct cont as [c|]; cbn [add setChildren Ast.kind children] in *.
    + split; [exact K|]. exists ([c] ++ more). rewrite M, <- app_assoc. reflexivity.
    + split; [exact K|]. exists more. exact M.
  - cbn [resAll fst]. split; [reflexivity|]. exists []. now rewrite app_nil_r.
Qed.

Lemma listItems_items ordered n st items :
  Forall isItem items -> Forall headed items ->
  resAll (fun x => Forall isItem (fst x) /\ Forall headed (fst x))
         (listItems rec ordered n st items).
Proof.
  revert st items. induction n as [|n IH]; intros st items H1 H2; [exact I|].
  cbn [listItems]. destruct (_ && _); [split; assumption|].
  destruct (_ && _); [split; assumption|].
  destruct (take st) as [itTok st1]. cbv zeta.
  match goal with
  | |- context [if ?c then (?a, ?b) else (?a', ?b')] =>
      set (ip := if c then (a, b) else (a', b'));
      assert (Hk : Ast.kind (fst ip) = K_ListItem /\ children (fst ip) = [])
        by (subst ip; destruct c; split; reflexivity)
  end.
  destruct ip as [item payload]. cbn [fst] in Hk. destruct Hk as [K C].
  destruct (inlineContent payload (lineNo itTok)) as [c| |]; cbn [bind]; try exact I.
  eapply resAll_bind; [apply continuations_item|].
  intros [item' st2] [K' [more M]]. cbn [fst] in *.
  cbn [add setChildren Ast.kind children] in *. rewrite C in M. cbn [app] in M.
  apply IH.
  - apply Forall_app. split; [exact H1|]. constructor; [|constructor].
    unfold isItem. rewrite K'. exact K.
  - apply Forall_app. split; [exact H2|]. constructor; [|constructor].
    eexists; eexists. split; [exact M | reflexivity].
Qed.

Lemma descItems_items n st items :
  Forall isItem items ->
  resAll (fun x => Forall isItem (fst x)) (descItems rec n st items).
Proof.
  revert st items. induction n as [|n IH]; intros st items H1; [exact I|].
  cbn [descItems]. destruct (negb _); [exact H1|].
  destruct (take st) as [termTok st1]. cbv zeta.
  eapply resAll_bind with (Q1 := fun x => Ast.kind (fst x) = K_ListItem).
  { destruct (_ && _); [|reflexivity].
    destruct (inlineContent _ _); cbn [bind resAll]; auto. }
  intros [item st2] K. cbn [fst] in K.
  eapply resAll_bind with (Q1 := fun x => Ast.kind (fst x) = K_ListItem).
  { destruct (keq _ T_LIST_CONT); [|exact K].
    match goal with
    | |- resAll _ (bind ?m _) => destruct m as [[[c|] st3]| |]
    end; cbn [bind resAll fst]; auto. }
  intros [item' st3] K'. cbn [fst] in K'.
  apply IH. apply Forall_app. split; [exact H1|]. constructor; [exact K' | constructor].
Qed.

Lemma parseList_shape n m st l st' :
  parseList rec n m st = Ok (Some l, st') ->
  Ast.kind l = K_List /\ meta l = m /\ Forall isItem (children l) /\
  (value (kv l) (qs "type") <> qs "description" -> Forall headed (children l)) /\
  In (value (kv l) (qs "type")) [qs "description"; qs "ordered"; qs "unordered"].
Proof.
  unfold parseList. cbv zeta.
  set (ty := if keq (laKind st 0) T_DESC_TERM then qs "description"
             else if keq (laKind st 0) T_OL_ITEM then qs "ordered"
             else qs "unordered").
  assert (V : value (kv (kvInsert (blockAt K_List (lineNo (la st 0)) m) (qs "type") ty))
                    (qs "type") = ty).
  { reflexivity. }
  rewrite V.
  assert (T : In ty [qs "description"; qs "ordered"; qs "unordered"]).
  { subst ty. destruct (keq _ T_DESC_TERM); [left; reflexivity|].
    destruct (keq _ T_OL_ITEM); [right; left | right; right; left]; reflexivity. }
  destruct (qeq ty (qs "description")) eqn:D.
  - pose proof (@descItems_items n st [] (Forall_nil _)) as R.
    destruct (descItems rec n st []) as [[items st1]| |]; cbn [bind]; try discriminate.
    intros H. injection H as <- <-. cbn [resAll fst] in R.
    cbn [setChildren kvInsert blockAt setMeta setPos newNode Ast.kind meta children kv].
    repeat split; auto.
    all: try (intros X; exfalso; apply X; cbn [insert value]; rewrite qeq_refl;
              apply qeq_eq, D).
    all: try (cbn [insert value]; rewrite qeq_refl; exact T).
  - pose proof (@listItems_items (qeq ty (qs "ordered")) n st []
                  (Forall_nil _) (Forall_nil _)) as R.
    destruct (listItems rec _ n st []) as [[items st1]| |]; cbn [bind]; try discriminate.
    intros H. injection H as <- <-. cbn [resAll fst] in R. destruct R as [R1 R2].
    cbn [setChildren kvInsert blockAt setMeta setPos newNode Ast.kind meta children kv].
    repeat split; auto.
    all: try (cbn [insert value]; rewrite qeq_refl; exact T).
Qed.

End Items.
End ListFacts.
Import ListFacts.

(* ===================================================================== *)
(** * The shape of the parsed tree *)
(* ===================================================================== *)

Module ShapeFacts.

Local Abbreviation Blk := (good blockKind).
Local Abbreviation Inl := (good inlineKind).

Lemma good_kinds K (l : list Node) :
  Forall (good K) l -> Forall (fun c => K (Ast.kind c) = true) l.
Proof. intros H. eapply Forall_impl; [|exact H]. intros c [Hc _]. exact Hc. Qed.

Lemma good_trees K (l : list Node) :
  Forall (good K) l -> Forall (AllNodes shape) l.
Proof. intros H. eapply Forall_impl; [|exact H]. intros c [_ Hc]. exact Hc. Qed.

Lemma snoc_good K (l : list Node) b :
  Forall (good K) l -> good K b -> Forall (good K) (l ++ [b]).
Proof. intros. apply Forall_app. split; [assumption | constructor; [assumption | constructor]]. Qed.

(** A node with children of the class its shape asks for. *)
Lemma block_parent (n : Node) (c : list Node) :
  In (Ast.kind n) [K_Document; K_Section; K_DelimitedBlock; K_Directive; K_ListItem] ->
  Forall Blk c -> AllNodes shape (setChildren n c).
Proof.
  intros K H. constructor; [|apply good_trees with (K := blockKind), H].
  unfold shape, kids. cbn [setChildren Ast.kind children].
  pose proof (good_kinds H) as G.
  cbn in K. repeat destruct K as [<- | K]; try exact G. contradiction.
Qed.

Lemma inline_parent (n : Node) (c : list Node) :
  In (Ast.kind n) [K_Paragraph; K_AdmonitionParagraph; K_TableCell; K_Link;
                   K_AnchorInline; K_Xref; K_InlineMacro; K_PassthroughInline] ->
  Forall Inl c -> AllNodes shape (setChildren n c).
Proof.
  intros K H. constructor; [|apply good_trees with (K := inlineKind), H].
  unfold shape, kids. cbn [setChildren Ast.kind children].
  pose proof (good_kinds H) as G.
  cbn in K. repeat destruct K as [<- | K]; try exact G. contradiction.
Qed.

Lemma emph_parent (n : Node) (c : list Node) :
  Ast.kind n = K_Emph -> In (name n) emphNames ->
  Forall Inl c -> AllNodes shape (setChildren n c).
Proof.
  intros K N H. constructor; [|apply good_trees with (K := inlineKind), H].
  unfold shape, kids. cbn [setChildren Ast.kind children name]. rewrite K.
  split; [exact N | apply good_kinds, H].
Qed.

Lemma leaf_node (n : Node) :
  In (Ast.kind n) [K_Text; K_Superscript; K_Subscript; K_AttrRef;
                   K_LiteralParagraph; K_BlockMacro; K_ThematicBreak;
                   K_PageBreak; K_LineComment] ->
  children n = [] -> AllNodes shape n.
Proof.
  intros K C. constructor; [|rewrite C; constructor].
  unfold shape. cbn in K. repeat destruct K as [<- | K]; try exact C. contradiction.
Qed.

Ltac inlist := solve [cbn; repeat (first [left; reflexivity | right])].

(** ** The inline scanner *)

Lemma hit_shape s i l h :
  firstHit s i l = Some h ->
  inlineKind (Ast.kind (hitNode h)) = true /\
  (forall c, Forall Inl c -> (hitInner h = None -> c = []) ->
             AllNodes shape (setChildren (hitNode h) c)).
Proof.
  unfold firstHit, xref, anchor, attrRef, bracketed, autoLink, inlineMacro,
    paired, passthrough, emph, rawRun. cbv zeta. intros H.
  repeat (apply orElse_Some in H as [H | H]);
    break_ifs H; inversion H; subst; clear H;
    (split; [reflexivity|]); intros c Hc Hn; cbn [hitInner hitNode] in *;
    try (rewrite (Hn eq_refl));
    first [ apply inline_parent; [inlist | first [exact Hc | constructor]]
          | apply emph_parent; [reflexivity | inlist | first [exact Hc | constructor]]
          | apply leaf_node; [inlist | reflexivity] ].
Qed.

Lemma pushText_good out t l : Forall Inl out -> Forall Inl (pushText out t l).
Proof.
  intros H. unfold pushText. destruct (isEmpty t); [exact H|].
  apply snoc_good; [exact H|]. split; [reflexivity|].
  apply leaf_node; [inlist | reflexivity].
Qed.

Lemma scan_good rec l d :
  (forall x e, optAll (Forall Inl) (rec x e)) ->
  forall g s i out acc, Forall Inl out -> optAll (Forall Inl) (scan rec l d g s i out acc).
Proof.
  intros Hrec. induction g as [|g IH]; intros s i out acc Ho; [exact I|].
  cbn [scan]. destruct (i <? size s); [|apply pushText_good, Ho].
  destruct (firstHit s i l) as [h|] eqn:Eh; [|apply IH, Ho].
  destruct (hit_shape _ _ _ Eh) as [K S].
  assert (G : forall c, Forall Inl c -> (hitInner h = None -> c = []) ->
                Forall Inl (pushText out acc l ++ [setChildren (hitNode h) c])).
  { intros c Hc Hn. apply snoc_good; [apply pushText_good, Ho|].
    split; [exact K | apply S; assumption]. }
  destruct (hitInner h) as [inner|].
  - specialize (Hrec inner (d + 1)). destruct (rec inner (d + 1)); [|exact I].
    apply IH, G; [exact Hrec | discriminate].
  - apply IH, G; [constructor | reflexivity].
Qed.

Lemma inline_good f s l d : optAll (Forall Inl) (parseInlineContentRec f s l d).
Proof.
  revert s d. induction f as [|f IH]; intros s d; [exact I|].
  cbn [parseInlineContentRec]. apply scan_good; [|constructor].
  intros x e. apply IH.
Qed.

Lemma inlineContent_good s l : resAll (Forall Inl) (inlineContent s l).
Proof.
  unfold inlineContent, parseInlineContent.
  pose proof (inline_good (S (length s)) s l 0) as H.
  destruct (parseInlineContentRec _ _ _ _); [exact H | exact I].
Qed.


(** ** Block routines *)


Lemma empty_node (n : Node) :
  match Ast.kind n with
  | K_Space | K_LineBreak | K_ImageInline | K_Emph => False
  | _ => True
  end ->
  children n = [] -> AllNodes shape n.
Proof.
  intros K C. constructor; [|rewrite C; constructor].
  unfold shape, kids. rewrite C.
  destruct (Ast.kind n); try contradiction; try reflexivity; try constructor.
  exists 0%nat. constructor.
Qed.

Lemma item_tree (n : Node) : itemGood n -> AllNodes shape n.
Proof.
  intros [K C]. constructor; [|apply good_trees with (K := blockKind), C].
  unfold shape, kids. rewrite K. apply good_kinds, C.
Qed.

Lemma item_add (n b : Node) : itemGood n -> Blk b -> itemGood (add n b).
Proof.
  intros [K C] Hb. split; [exact K|]. cbn [add setChildren children].
  apply snoc_good; assumption.
Qed.

Ltac leaf :=
  unfold nodeRes, nodesRes, itemRes; cbn [resAll optAll fst];
  first [ exact I | assumption
        | split; [reflexivity|]; first
            [ apply inline_parent; [inlist | first [assumption | constructor]]
            | apply block_parent; [inlist | first [assumption | constructor]]
            | apply empty_node; [exact I | reflexivity] ] ].

Ltac step :=
  match goal with
  | |- resAll _ OutOfFuel => exact I
  | |- resAll _ (Err _) => exact I
  | |- resAll _ (error _ _ _) => exact I
  | |- resAll _ (bind (inlineContent _ _) _) =>
      eapply resAll_bind; [apply inlineContent_good | intros ? ?]
  | |- resAll _ (if ?c then _ else _) => destruct c eqn:?
  | |- resAll _ (match ?x with _ => _ end) => destruct x eqn:?
  | |- _ => progress cbv zeta
  end.

Lemma parseAdmonitionParagraph_good m st : resAll nodeRes (parseAdmonitionParagraph m st).
Proof. unfold parseAdmonitionParagraph. repeat step. leaf. Qed.

Lemma parseParagraphOrLiteral_good m st : resAll nodeRes (parseParagraphOrLiteral m st).
Proof. unfold parseParagraphOrLiteral. repeat step; leaf. Qed.

Lemma parseBlockMacro_good m st : resAll nodeRes (parseBlockMacro m st).
Proof. unfold parseBlockMacro. repeat step; leaf. Qed.

Lemma parseBreakOrComment_good m st : resAll nodeRes (parseBreakOrComment m st).
Proof. unfold parseBreakOrComment. repeat step; leaf. Qed.

(** ** Tables *)

Lemma inlineNodes_good s l : Forall Inl (inlineNodes s l).
Proof.
  unfold inlineNodes, parseInlineContent.
  pose proof (inline_good (S (length s)) s l 0) as H.
  destruct (parseInlineContentRec _ _ _ _); [exact H | constructor].
Qed.

Lemma cellNode_good l c : cellGood (cellNode l c).
Proof.
  split; [reflexivity|]. unfold cellNode.
  apply inline_parent; [inlist | apply inlineNodes_good].
Qed.

Lemma tableParts_good l : Forall (Forall cellGood) (tableParts l).
Proof.
  induction l as [|t r IH]; cbn [tableParts]; [constructor|].
  destruct (inBody t); [|constructor].
  apply Forall_app. split; [|exact IH].
  destruct (isTableLine t); [|constructor].
  constructor; [|constructor].
  unfold rowCells. apply Forall_map, Forall_forall. intros. apply cellNode_good.
Qed.

Lemma row_tree (pos : SourcePos) (cells : list Node) :
  Forall cellGood cells ->
  AllNodes shape (setChildren (setPos (newNode K_TableRow) pos) cells).
Proof.
  intros H. constructor; cbn [setChildren children].
  - unfold shape. cbn [Ast.kind setChildren setPos newNode children].
    eapply Forall_impl; [|exact H]. intros c [Hc _]. exact Hc.
  - eapply Forall_impl; [|exact H]. intros c [_ Hc]. exact Hc.
Qed.

Lemma Forall_firstn {A} (Q : A -> Prop) (k : nat) (l : list A) :
  Forall Q l -> Forall Q (firstn k l) /\ Forall Q (skipn k l).
Proof.
  intros H. rewrite <- (firstn_skipn k l) in H. apply Forall_app in H. exact H.
Qed.

Lemma reflow_good rows w cells :
  Forall cellGood cells -> Forall (AllNodes shape) (reflow rows w cells).
Proof.
  revert cells. induction rows as [|r IH]; intros cells Hc; cbn [reflow]; [constructor|].
  destruct (Forall_firstn w Hc) as [H1 H2].
  constructor; [apply row_tree, H1 | apply IH, H2].
Qed.

Lemma tableRows_good parts :
  Forall (Forall cellGood) parts -> resAll (Forall (AllNodes shape)) (tableRows parts).
Proof.
  intros H. unfold tableRows. destruct parts as [|[|c0 fr] others]; try (cbn; constructor).
  inversion H as [|? ? Hf Ho]; subst.
  destruct (negb _); [exact I|]. cbn [resAll].
  constructor; [apply row_tree, Hf | apply reflow_good, Forall_concat, Ho].
Qed.

Lemma parseTable_good m st : resAll nodeRes (parseTable m st).
Proof.
  destruct (parseTable m st) as [[[t|] st']| |] eqn:E; try exact I.
  unfold nodeRes; cbn [resAll optAll fst].
  destruct (keq (laKind st 0) T_TABLE_DELIM) eqn:K.
  - apply keq_eq in K. rewrite (parseTable_eq m st K) in E.
    pose proof (@tableRows_good _ (tableParts_good (tl (toks st)))) as R.
    destruct (tableRows _) as [rows| |] eqn:T; cbn [bind] in E; try discriminate.
    injection E as <- _. cbn [resAll] in R.
    split; [reflexivity|]. constructor; [|exact R].
    unfold shape. cbn [Ast.kind setChildren blockAt setMeta setPos newNode children].
    eexists. apply (tableRows_ok (tableParts_cells _) T).
  - unfold parseTable, expect, accept in E. rewrite K in E. discriminate.
Qed.

Section Loops.
Variable rec : State -> Res (option Node * State).
Hypothesis Hrec : forall st, resAll nodeRes (rec st).

Ltac call_rec :=
  eapply resAll_bind;
  [apply Hrec | intros [[?b|] ?st'] ?Hb; unfold nodeRes in *; cbn [optAll fst] in *].

Lemma sectionBody_good tlevel n st acc :
  Forall Blk acc -> resAll nodesRes (sectionBody rec tlevel n st acc).
Proof.
  revert st acc. induction n as [|n IH]; intros st acc Ha; [exact I|].
  cbn [sectionBody]. repeat step; try leaf.
  call_rec; [apply IH, snoc_good; assumption | leaf].
Qed.

Lemma parseSection_good n m st : resAll nodeRes (parseSection rec n m st).
Proof.
  unfold parseSection. destruct (take st) as [t st1].
  eapply resAll_bind; [apply sectionBody_good; constructor|].
  intros [body st2] Hb. unfold nodesRes in Hb. cbn [fst] in Hb. leaf.
Qed.

Lemma containerBody_good k n st acc :
  Forall Blk acc -> resAll nodesRes (containerBody rec k n st acc).
Proof.
  revert st acc. induction n as [|n IH]; intros st acc Ha; [exact I|].
  cbn [containerBody]. repeat step; try leaf.
  call_rec; [apply IH, snoc_good; assumption | leaf].
Qed.

Lemma parseDelimited_good n m st : resAll nodeRes (parseDelimited rec n m st).
Proof.
  unfold parseDelimited.
  destruct (if keq (laKind st 0) T_STEM_ATTR_LINE then _ else _) as [isStem st0].
  destruct (take st0) as [open st1].
  destruct (_ || isStem).
  - destruct (rawLines _ _ _) as [ls l]. apply expect_all. intros st'. leaf.
  - eapply resAll_bind; [apply containerBody_good; constructor|].
    intros [body st2] Hb. unfold nodesRes in Hb. cbn [fst] in Hb.
    apply expect_all. intros st'. leaf.
Qed.

Lemma paragraph_good (pos : SourcePos) (c : list Node) :
  Forall Inl c -> Blk (setChildren (setPos (newNode K_Paragraph) pos) c).
Proof. intros H. split; [reflexivity|]. apply inline_parent; [inlist | exact H]. Qed.

Lemma descItems_good n st items :
  Forall itemGood items -> resAll (fun x => Forall itemGood (fst x)) (descItems rec n st items).
Proof.
  revert st items. induction n as [|n IH]; intros st items Ha; [exact I|].
  cbn [descItems]. destruct (negb _); [exact Ha|].
  destruct (take st) as [termTok st1].
  eapply resAll_bind with (Q1 := itemRes).
  { destruct (_ && _).
    - eapply resAll_bind; [apply inlineContent_good|]. intros c Hc.
      unfold itemRes; cbn [resAll fst]. apply item_add.
      + split; [reflexivity | constructor].
      + apply paragraph_good, Hc.
    - unfold itemRes; cbn [resAll fst]. split; [reflexivity | constructor]. }
  intros [item st2] Hi. unfold itemRes in Hi. cbn [fst] in Hi.
  eapply resAll_bind with (Q1 := itemRes).
  { destruct (keq _ T_LIST_CONT); [|exact Hi].
    eapply resAll_bind with (Q1 := nodeRes).
    - destruct (isDelim _); [apply parseDelimited_good | apply parseParagraphOrLiteral_good].
    - intros [[c|] st3] Hc; unfold nodeRes in Hc; cbn [optAll fst] in Hc;
        unfold itemRes; cbn [resAll fst]; [apply item_add; assumption | exact Hi]. }
  intros [item' st3] Hi'. unfold itemRes in Hi'. cbn [fst] in Hi'.
  apply IH. apply Forall_app. split; [exact Ha | constructor; [exact Hi' | constructor]].
Qed.

Lemma continuations_good n st item :
  itemGood item -> resAll itemRes (continuations rec n st item).
Proof.
  revert st item. induction n as [|n IH]; intros st item Hi; [exact I|].
  cbn [continuations]. destruct (keq _ T_LIST_CONT); [|exact Hi].
  call_rec; apply IH; [apply item_add; assumption | exact Hi].
Qed.

Lemma listItems_good ordered n st items :
  Forall itemGood items ->
  resAll (fun x => Forall itemGood (fst x)) (listItems rec ordered n st items).
Proof.
  revert st items. induction n as [|n IH]; intros st items Ha; [exact I|].
  cbn [listItems]. destruct (_ && _); [exact Ha|]. destruct (_ && _); [exact Ha|].
  destruct (take st) as [itTok st1]. cbv zeta.
  match goal with
  | |- context [if ?c then (?a, ?b) else (?a', ?b')] =>
      set (ip := if c then (a, b) else (a', b'));
      assert (Hk : itemGood (fst ip))
        by (subst ip; destruct c; split; try reflexivity; constructor)
  end.
  destruct ip as [item payload]. cbn [fst] in Hk.
  eapply resAll_bind; [apply inlineContent_good|]. intros c Hc.
  eapply resAll_bind with (Q1 := itemRes).
  { apply continuations_good. apply item_add; [exact Hk | apply paragraph_good, Hc]. }
  intros [item' st2] Hi'. unfold itemRes in Hi'. cbn [fst] in Hi'.
  apply IH. apply Forall_app. split; [exact Ha | constructor; [exact Hi' | constructor]].
Qed.

Lemma parseList_good n m st : resAll nodeRes (parseList rec n m st).
Proof.
  unfold parseList.
  eapply resAll_bind with (Q1 := fun x => Forall itemGood (fst x)).
  - destruct (qeq _ _); [apply descItems_good | apply listItems_good]; constructor.
  - intros [its st'] Hi. cbn [fst] in Hi.
    unfold nodeRes; cbn [resAll optAll fst]. split; [reflexivity|].
    constructor; cbn [setChildren children].
    + unfold shape. cbn [Ast.kind setChildren kvInsert blockAt setMeta setPos newNode children].
      eapply Forall_impl; [|exact Hi]. intros x [K _]. exact K.
    + eapply Forall_impl; [|exact Hi]. intros x. apply item_tree.
Qed.

Lemma directiveBody_good n st acc :
  Forall Blk acc -> resAll nodesRes (directiveBody rec n st acc).
Proof.
  revert st acc. induction n as [|n IH]; intros st acc Ha; [exact I|].
  cbn [directiveBody]. repeat step; try leaf.
  - unfold nodesRes; cbn [resAll fst]. apply snoc_good; [exact Ha|].
    split; [reflexivity|]. apply empty_node; [exact I | reflexivity].
  - call_rec; [apply IH, snoc_good; assumption | leaf].
Qed.

Lemma parseDirective_good n m st : resAll nodeRes (parseDirective rec n m st).
Proof.
  unfold parseDirective. destruct (take st) as [t st1].
  destruct (_ || _).
  - eapply resAll_bind; [apply directiveBody_good; constructor|].
    intros [body st2] Hb. unfold nodesRes in Hb. cbn [fst] in Hb. leaf.
  - leaf.
Qed.

Lemma parseBlockBody_good n st : resAll nodeRes (parseBlockBody rec n st).
Proof.
  unfold parseBlockBody. destruct (parseBlockMetaOpt st) as [meta st1].
  repeat match goal with
         | |- resAll _ (if ?c then _ else _) => destruct c
         end;
    auto using parseSection_good, parseAdmonitionParagraph_good, parseList_good,
      parseTable_good, parseDelimited_good, parseBlockMacro_good,
      parseDirective_good, parseBreakOrComment_good, parseParagraphOrLiteral_good.
Qed.

Lemma documentBody_good n st acc :
  Forall Blk acc -> resAll (Forall Blk) (documentBody rec n st acc).
Proof.
  revert st acc. induction n as [|n IH]; intros st acc Ha; [exact I|].
  cbn [documentBody]. repeat step; try (cbn; assumption).
  call_rec; [apply IH, snoc_good; assumption | cbn; assumption].
Qed.

End Loops.

Lemma parseBlock_good fuel st : resAll nodeRes (parseBlock fuel st).
Proof.
  revert st. induction fuel as [|f IH]; intros st; [exact I|].
  cbn [parseBlock]. apply parseBlockBody_good. exact IH.
Qed.

Lemma parse_good fuel input :
  resAll (fun doc => Ast.kind doc = K_Document /\ AllNodes shape doc)
         (parse fuel input).
Proof.
  unfold parse, parseDocument. destruct (parseDocumentHeader _ _) as [kv st].
  eapply resAll_bind; [apply documentBody_good; [apply parseBlock_good | constructor]|].
  intros body Hb. cbn [resAll]. split; [reflexivity|].
  constructor; cbn [children].
  - unfold shape, kids. cbn [Ast.kind setPos newNode children]. apply good_kinds, Hb.
  - apply good_trees with (K := blockKind), Hb.
Qed.

End ShapeFacts.
Import ShapeFacts.

(* ===================================================================== *)
(** * When the generator gives up *)
(* ===================================================================== *)

Module EmitFacts.

Section Emit.
Variable opts : Options.

Lemma emitInline_eq (n : Node) :
  emitInline opts n =
  let seq := emitInlineSeq opts (children n) in
  match Ast.kind n with
  | K_Text => Out (escText (text n))
  | K_Emph =>
      if qeq (name n) (qs "bold") then Out (qs "*") >> seq >> Out (qs "*")
      else if qeq (name n) (qs "italic") then Out (qs "_") >> seq >> Out (qs "_")
      else if qeq (name n) (qs "mono") then
        if negb (isEmpty (text n)) then
          Out (qs "`" ++ escText (text n) ++ qs "`")
        else Out (qs "`") >> seq >> Out (qs "`")
      else if qeq (name n) (qs "highlight") then
        Out (qs "#highlight([") >> seq >> Out (qs "])")
      else failAt (Some n) (qs "Unknown inline emphasis kind: " ++ name n)
  | K_Superscript => Out (qs "#super[" ++ escText (text n) ++ qs "]")
  | K_Subscript => Out (qs "#sub[" ++ escText (text n) ++ qs "]")
  | K_Link =>
      if isEmpty (children n) then
        Out (qs "#link(" ++ [dquote] ++ escString (target n) ++ [dquote]
             ++ qs ")[" ++ escText (target n) ++ qs "]")
      else
        Out (qs "#link(" ++ [dquote] ++ escString (target n) ++ [dquote]
             ++ qs ")[") >> seq >> Out (qs "]")
  | K_Xref =>
      if isEmpty (children n) then Out (qs "@" ++ escText (target n))
      else Out (qs "#link(<" ++ escText (target n) ++ qs ">)[")
           >> seq >> Out (qs "]")
  | K_AnchorInline => Out (qs "<" ++ escText (name n) ++ qs ">")
  | K_AttrRef => Out (qs "{" ++ escText (name n) ++ qs "}")
  | K_InlineMacro =>
      if qeq (name n) (qs "footnote") then
        Out (qs "#footnote[") >> seq >> Out (qs "]")
      else if qeq (name n) (qs "kbd") || qeq (name n) (qs "btn")
              || qeq (name n) (qs "menu") then
        Out (qs "#smallcaps[") >> seq >> Out (qs "]")
      else if qeq (name n) (qs "stem") then
        if negb (allowRawPassthrough opts) then
          failAt (Some n)
            (qs "stem: inline macro requires raw passthrough or math conversion phase")
        else Out (qs "$" ++ escText (target n) ++ qs "$")
      else failAt (Some n)
             (qs "Unsupported inline macro in Typst generator: " ++ name n)
  | K_PassthroughInline =>
      if negb (allowRawPassthrough opts) then
        failAt (Some n) (qs "Inline passthrough disabled")
      else seq
  | _ => failAt (Some n) (qs "Unsupported inline node kind in generator")
  end.
Proof. destruct n. reflexivity. Qed.

Lemma emitNode_eq (n : Node) (headingShift : Z) :
  emitNode opts n headingShift =
  match Ast.kind n with
  | K_Section =>
      let level := toInt (value (kv n) (qs "level")) + headingShift in
      let level := if level <? 1 then 1 else level in
      Out (headingMarks level ++ qs " " ++ escText (name n)
           ++ labelSuffix (meta n) ++ [newline; newline])
      >> emitEach opts headingShift true (children n)
  | K_Paragraph => emitParagraph opts n
  | K_LiteralParagraph => emitLiteral n
  | K_AdmonitionParagraph => emitAdmonition opts n
  | K_DelimitedBlock =>
      if negb (isEmpty (children n)) then
        Out (qs "#block([") >> emitEach opts 0 true (children n)
        >> Out (qs "])" ++ [newline])
      else if qeq (value (kv n) (qs "stem")) (qs "1") then
        if negb (allowRawPassthrough opts) then
          failAt (Some n)
            (qs "Stem block requires raw passthrough or math conversion phase")
        else Out (text n ++ [newline])
      else
        Out (qs "#raw(" ++ [dquote] ++ escString (text n) ++ [dquote]
             ++ qs ", block: true)" ++ [newline])
  | K_List =>
      let type := value (kv n) (qs "type") in
      if qeq type (qs "description") then
        Out (qs "#table(columns: 2," ++ [newline])
        >> emitTerms opts (children n)
        >> Out (qs ")" ++ [newline])
      else
        Out ((if qeq type (qs "ordered") then qs "#enum(" else qs "#list(")
             ++ [newline])
        >> emitItems opts (children n)
        >> Out (qs ")" ++ [newline])
  | K_Table => emitTable opts n
  | K_BlockMacro => emitBlockMacro n
  | K_Directive => emitDirective n
  | K_ThematicBreak => Out (qs "---" ++ [newline])
  | K_PageBreak => Out (qs "#pagebreak()" ++ [newline])
  | K_LineComment => Out (qs "// " ++ escText (text n) ++ [newline])
  | _ => failAt (Some n) (qs "Unsupported block node kind in generator")
  end.
Proof. destruct n. reflexivity. Qed.


Lemma AllNodes_induction (P Q : Node -> Prop) :
  (forall n, P n -> Forall (AllNodes P) (children n) -> Forall Q (children n) -> Q n) ->
  forall n, AllNodes P n -> Q n.
Proof.
  intros H.
  refine (fix IH n (a : AllNodes P n) {struct a} : Q n :=
            match a with
            | @AllNodes_intro _ n' hp hc =>
                H n' hp hc
                  ((fix aux l (f : Forall (AllNodes P) l) {struct f} : Forall Q l :=
                      match f with
                      | @Forall_nil _ _ => @Forall_nil _ _
                      | @Forall_cons _ _ x xs hx hxs =>
                          @Forall_cons _ _ x xs (IH x hx) (aux xs hxs)
                      end) (children n') hc)
            end).
Qed.

Lemma AllNodes_children (P : Node -> Prop) (n : Node) :
  AllNodes P n -> P n /\ Forall (AllNodes P) (children n).
Proof. intros [n' H1 H2]. auto. Qed.

Lemma emitInlineSeq_failed (l : list Node) e :
  emitInlineSeq opts l = Failed e ->
  exists x, In x l /\ emitInline opts x = Failed e.
Proof.
  induction l as [|x l IH]; cbn [emitInlineSeq]; [discriminate|].
  destruct (emitInline opts x) as [o|e'] eqn:E.
  - destruct (emitInlineSeq opts l) as [o'|e'']; [discriminate|].
    intros H. injection H as <-. destruct (IH eq_refl) as [y [Hy1 Hy2]].
    exists y. split; [right; exact Hy1 | exact Hy2].
  - intros H. injection H as <-. exists x. split; [left; reflexivity | exact E].
Qed.

Lemma emitEach_failed shift sep (l : list Node) e :
  emitEach opts shift sep l = Failed e ->
  exists x, In x l /\ emitNode opts x shift = Failed e.
Proof.
  induction l as [|x l IH]; [discriminate|].
  change (emitEach opts shift sep (x :: l))
    with (emitNode opts x shift
          >> (if sep || negb (isEmpty l) then Out [newline] else Out [])
          >> emitEach opts shift sep l).
  destruct (emitNode opts x shift) as [o|e'] eqn:E.
  - destruct (sep || negb (isEmpty l));
      (destruct (emitEach opts shift sep l) as [o'|e'']; [discriminate|]);
      intros H; injection H as <-; destruct (IH eq_refl) as [y [Hy1 Hy2]];
      exists y; (split; [right; exact Hy1 | exact Hy2]).
  - intros H. exists x. split; [left; reflexivity|].
    rewrite E. destruct (sep || negb (isEmpty l)); cbn in H; exact H.
Qed.

Lemma kindEq_eq (a b : Ast.Kind) : kindEq a b = true -> a = b.
Proof. destruct a, b; simpl; intros H; try reflexivity; discriminate H. Qed.

Lemma emitTerms_failed (l : list Node) e :
  emitTerms opts l = Failed e ->
  exists it d r, In it l /\ Ast.kind it = K_ListItem /\ children it = d :: r /\
                 emitNode opts d 0 = Failed e.
Proof.
  induction l as [|it l IH]; cbn [emitTerms]; [discriminate|].
  destruct (negb (kindEq (Ast.kind it) K_ListItem)) eqn:K.
  - rewrite andThen_nil_l. intros H. destruct (IH H) as [x [d [r [H1 H2]]]].
    exists x, d, r. split; [right; exact H1 | exact H2].
  - apply negb_false_iff, kindEq_eq in K.
    match goal with
    | |- ?a >> ?b = Failed e -> _ => destruct a as [o|e'] eqn:E
    end.
    + destruct (emitTerms opts l) as [o'|e'']; [discriminate|].
      intros H. injection H as <-. destruct (IH eq_refl) as [x [d [r [H1 H2]]]].
      exists x, d, r. split; [right; exact H1 | exact H2].
    + intros H. cbn in H. injection H as <-.
      apply wrapped_Failed in E.
      destruct (children it) as [|d r] eqn:C; [discriminate|].
      exists it, d, r. repeat split; auto. left. reflexivity.
Qed.

Lemma emitItems_failed (l : list Node) e :
  emitItems opts l = Failed e ->
  exists it c, In it l /\ Ast.kind it = K_ListItem /\ In c (children it) /\
               emitNode opts c 0 = Failed e.
Proof.
  induction l as [|it l IH]; cbn [emitItems]; [discriminate|].
  destruct (negb (kindEq (Ast.kind it) K_ListItem)) eqn:K.
  - rewrite andThen_nil_l. intros H. destruct (IH H) as [x [c [H1 H2]]].
    exists x, c. split; [right; exact H1 | exact H2].
  - apply negb_false_iff, kindEq_eq in K.
    match goal with
    | |- ?a >> ?b = Failed e -> _ => destruct a as [o|e'] eqn:E
    end.
    + destruct (emitItems opts l) as [o'|e'']; [discriminate|].
      intros H. injection H as <-. destruct (IH eq_refl) as [x [c [H1 H2]]].
      exists x, c. split; [right; exact H1 | exact H2].
    + intros H. cbn in H. injection H as <-.
      apply wrapped_Failed in E. apply emitEach_failed in E as [c [Hc1 Hc2]].
      exists it, c. repeat split; auto. left. reflexivity.
Qed.

(** ** Inline nodes *)

Lemma emitInline_reason (n : Node) :
  AllNodes shape n -> inlineKind (Ast.kind n) = true ->
  forall e, emitInline opts n = Failed e -> Reason (message e).
Proof.
  intros A. induction A as [n S C IH] using AllNodes_induction.
  intros K e. rewrite emitInline_eq. cbv zeta.
  assert (Seq : forall a b, Out a >> emitInlineSeq opts (children n) >> Out b = Failed e ->
                  kids inlineKind n -> Reason (message e)).
  { intros a b H Hk. apply wrapped_Failed in H.
    apply emitInlineSeq_failed in H as [x [Hx1 Hx2]].
    unfold kids in Hk. rewrite Forall_forall in Hk, IH. eapply IH; eauto. }
  unfold shape in S.
  destruct (Ast.kind n) eqn:Kn; try discriminate K.
  - discriminate.
  - destruct S as [N Hk].
    repeat match goal with
           | |- (if ?c then _ else _) = _ -> _ => destruct c eqn:?
           end; intros H; try discriminate H; try (eapply Seq; eassumption).
    exfalso. unfold emphNames in N. cbn [In] in N.
    repeat destruct N as [N | N]; try contradiction;
      rewrite <- N in *;
      match goal with X : qeq ?a ?a = false |- _ => rewrite qeq_refl in X; discriminate X end.
  - discriminate.
  - discriminate.
  - repeat match goal with
           | |- (if ?c then _ else _) = _ -> _ => destruct c eqn:?
           end; intros H; try discriminate H; eapply Seq; eassumption.
  - discriminate.
  - repeat match goal with
           | |- (if ?c then _ else _) = _ -> _ => destruct c eqn:?
           end; intros H; try discriminate H; eapply Seq; eassumption.
  - discriminate.
  - repeat match goal with
           | |- (if ?c then _ else _) = _ -> _ => destruct c eqn:?
           end; intros H; try discriminate H; try (eapply Seq; eassumption);
      unfold failAt in H; injection H as <-; cbn [message]; constructor.
  - destruct (negb (allowRawPassthrough opts)).
    + intros H. unfold failAt in H. injection H as <-. cbn [message]. constructor.
    + intros H. apply emitInlineSeq_failed in H as [x [Hx1 Hx2]].
      unfold kids in S. rewrite Forall_forall in S, IH. eapply IH; eauto.
Qed.

Lemma inlines_reason (n : Node) e :
  AllNodes shape n -> kids inlineKind n ->
  emitInlineSeq opts (children n) = Failed e -> Reason (message e).
Proof.
  intros A Hk H. apply AllNodes_children in A as [_ A].
  apply emitInlineSeq_failed in H as [x [Hx1 Hx2]].
  unfold kids in Hk. rewrite Forall_forall in Hk, A.
  eapply emitInline_reason; eauto.
Qed.


(** ** Block nodes *)


Lemma emitNode_emitsOk (n : Node) : AllNodes shape n -> emitsOk opts n.
Proof.
  intros A. induction A as [n S C IH] using AllNodes_induction.
  assert (An : AllNodes shape n) by (constructor; assumption).
  assert (Kids : kids blockKind n ->
                 forall c shift e, In c (children n) ->
                   emitNode opts c shift = Failed e -> Reason (message e)).
  { intros Hk c shift e Hc H. unfold kids in Hk. rewrite Forall_forall in Hk, IH.
    destruct (IH c Hc) as [I1 _]. eapply I1; eauto. }
  split.
  - intros K shift e. rewrite emitNode_eq. unfold shape in S.
    destruct (Ast.kind n) eqn:Kn; try discriminate K; cbv zeta.
    + (* Section *)
      intros H.
      match type of H with Out ?a >> ?b = _ => destruct b as [o|e'] eqn:E; [discriminate H|] end.
      cbn in H. injection H as <-.
      apply emitEach_failed in E as [c [Hc1 Hc2]]. eapply Kids; eauto.
    + (* Paragraph *)
      unfold emitParagraph. intros H.
      destruct (emitInlineSeq opts (children n)) as [o|e'] eqn:E; [discriminate H|].
      cbn in H. injection H as <-. eapply inlines_reason; eauto.
    + discriminate.
    + (* Admonition *)
      unfold emitAdmonition. intros H. apply wrapped_Failed in H.
      eapply inlines_reason; eauto.
    + (* DelimitedBlock *)
      destruct (negb (isEmpty (children n))).
      * intros H. apply wrapped_Failed, emitEach_failed in H as [c [Hc1 Hc2]].
        eapply Kids; eauto.
      * destruct (qeq _ _); [|discriminate].
        destruct (negb _); [|discriminate].
        intros H. unfold failAt in H. injection H as <-. cbn [message]. constructor.
    + (* List *)
      rewrite Forall_forall in S, IH.
      destruct (qeq _ (qs "description")).
      * intros H. apply wrapped_Failed, emitTerms_failed in H
          as [it [d [r [H1 [H2 [H3 H4]]]]]].
        destruct (IH it H1) as [_ I2]. eapply (I2 H2 d); [rewrite H3; left; reflexivity|].
        exact H4.
      * intros H. apply wrapped_Failed, emitItems_failed in H
          as [it [c [H1 [H2 [H3 H4]]]]].
        destruct (IH it H1) as [_ I2]. eapply (I2 H2 c); eauto.
    + (* Table *)
      destruct S as [w R]. intros H.
      destruct (emitTable_rows _ _ R H) as [row [cell [H1 [H2 H3]]]].
      rewrite Forall_forall in C, R.
      destruct (R row H1) as [_ [_ Rc]]. rewrite Forall_forall in Rc.
      destruct (AllNodes_children (C row H1)) as [_ Cr]. rewrite Forall_forall in Cr.
      pose proof (Cr cell H2) as Ac.
      destruct (AllNodes_children Ac) as [Sc _]. unfold shape in Sc.
      rewrite (Rc cell H2) in Sc. eapply inlines_reason; eauto.
    + (* BlockMacro *)
      unfold emitBlockMacro.
      repeat match goal with
             | |- (if ?c then _ else _) = _ -> _ => destruct c eqn:?
             end; intros H; try discriminate H;
        unfold failAt in H; injection H as <-; cbn [message]; constructor.
    + (* Directive *)
      unfold emitDirective, failAt. intros H. injection H as <-. cbn [message].
      constructor.
    + discriminate.
    + discriminate.
    + discriminate.
  - intros K. unfold shape in S. rewrite K in S. intros c shift e. apply Kids, S.
Qed.

Lemma emitPreamble_reason e :
  emitPreamble opts = Failed e -> Reason (message e).
Proof.
  unfold emitPreamble. cbv zeta.
  repeat match goal with
         | |- (if ?c then _ else _) = _ -> _ => destruct c
         end; intros H; try discriminate H.
  unfold failAt in H. injection H as <-. cbn [message]. constructor.
Qed.

Lemma generate_reason (doc : Node) e :
  Ast.kind doc = K_Document -> AllNodes shape doc ->
  generate opts doc = Failed e -> Reason (message e).
Proof.
  intros K A. rewrite generate_eq by exact K.
  destruct (emitPreamble opts) as [p|e'] eqn:P.
  - rewrite andThen_Out_l. cbn [andThen].
    match goal with
    | |- match ?x with _ => _ end = _ -> _ => destruct x as [o|e''] eqn:E
    end; [discriminate|].
    intros H. injection H as <-.
    apply seq_Failed_inv in E as [c [Hc1 Hc2]].
    destruct (emitNode opts c 0) as [o|e3] eqn:E3; [discriminate Hc2|].
    cbn in Hc2. injection Hc2 as <-.
    destruct (AllNodes_children A) as [S C].
    unfold shape in S. rewrite K in S. unfold kids in S.
    rewrite Forall_forall in S, C.
    destruct (emitNode_emitsOk (C c Hc1)) as [I1 _]. eapply I1; eauto.
  - intros H. cbn in H. injection H as <-. apply emitPreamble_reason, P.
Qed.

(** The messages of the generator that are no such condition. *)
Lemma internal_no_reason (msg : QString) :
  Reason msg ->
  msg <> qs "Unsupported block node kind in generator" /\
  msg <> qs "Unsupported inline node kind in generator" /\
  msg <> qs "Table row has inconsistent number of cells" /\
  msg <> qs "Root node is not a Document" /\
  forall nm, msg <> qs "Unknown inline emphasis kind: " ++ nm.
Proof.
  intros R. inversion R; subst; repeat split; try discriminate;
    intros nm'; discriminate.
Qed.

End Emit.
End EmitFacts.
Import EmitFacts.

(* ===================================================================== *)
(** * Progress of the parser *)
(* ===================================================================== *)

Module TermFacts.

Lemma returns_bind {A B} (Q1 : A -> Prop) (Q2 : B -> Prop) m k :
  returns Q1 m -> (forall a, Q1 a -> returns Q2 (k a)) -> returns Q2 (bind m k).
Proof. destruct m; cbn; auto. Qed.

Lemma returns_weaken {A} (Q1 Q2 : A -> Prop) r :
  returns Q1 r -> (forall a, Q1 a -> Q2 a) -> returns Q2 r.
Proof. destruct r; cbn; auto. Qed.

Lemma returns_inline {B} s l (Q : B -> Prop) k :
  (forall c, returns Q (k c)) -> returns Q (bind (inlineContent s l) k).
Proof. intros H. rewrite inlineContent_eq. apply H. Qed.

Lemma later_refl st : later st st.
Proof. split; [exists []; reflexivity | reflexivity]. Qed.

Lemma later_trans a b c : later a b -> later b c -> later a c.
Proof.
  intros [[p Hp] E] [[q Hq] F]. split; [|congruence].
  exists (q ++ p). rewrite Hq, Hp, app_assoc. reflexivity.
Qed.

Lemma later_len a b : later a b -> (len a <= len b)%nat.
Proof. intros [[p Hp] _]. unfold len. rewrite Hp, length_app. lia. Qed.

Lemma later_plain a b :
  later a b -> Forall plainTok (toks b) -> Forall plainTok (toks a).
Proof. intros [[p Hp] _] H. rewrite Hp in H. apply Forall_app in H. tauto. Qed.

Lemma later_mk l st :
  (exists pre, toks st = pre ++ l) -> later (mkState l (eofLine st)) st.
Proof. intros H. split; [exact H | reflexivity]. Qed.

Lemma later_take st : later (snd (take st)) st.
Proof.
  apply later_mk. destruct (toks st) as [|t r]; [exists [] | exists [t]]; reflexivity.
Qed.

Lemma take_len st : toks st <> [] -> (len (snd (take st)) < len st)%nat.
Proof. unfold len. cbn. destruct (toks st); [congruence | cbn; lia]. Qed.

Lemma later_skip st : later (skipBlankAndLineComments st) st.
Proof.
  apply later_mk. destruct (skipToks_spec (toks st)) as [pre [H _]]. eauto.
Qed.

Lemma head_kind st k :
  laKind st 0 = k -> k <> T_EOF -> toks st <> [].
Proof.
  unfold laKind, la, peek. intros H Hk E. rewrite E in H. cbn in H. congruence.
Qed.

Lemma head_true st k :
  keq (laKind st 0) k = true -> k <> T_EOF -> toks st <> [].
Proof. intros H. apply keq_eq in H. eapply head_kind; eauto. Qed.

Lemma take_consumes st k :
  keq (laKind st 0) k = true -> k <> T_EOF ->
  later (snd (take st)) st /\ (len (snd (take st)) < len st)%nat.
Proof.
  intros H Hk. split; [apply later_take | apply take_len; eapply head_true; eauto].
Qed.

Lemma atEnd_plain st :
  Forall plainTok (toks st) -> atEnd st = false -> toks st <> [].
Proof.
  intros _ H E. unfold atEnd, peek in H. rewrite E in H. discriminate.
Qed.

Lemma skip_ready st :
  toks (skipBlankAndLineComments st) = [] \/ ready (skipBlankAndLineComments st) = true.
Proof.
  unfold ready. cbn [skipBlankAndLineComments toks].
  destruct (skipToks_spec (toks st)) as [pre [_ [_ H]]].
  destruct (skipToks (toks st)) as [|t r]; [left; reflexivity|right].
  unfold blankOrComment in H. apply orb_false_iff in H as [-> _]. reflexivity.
Qed.

Lemma skip_nonempty_ready st :
  toks (skipBlankAndLineComments st) <> [] -> ready (skipBlankAndLineComments st) = true.
Proof. destruct (skip_ready st); [contradiction | auto]. Qed.

Lemma expect_consumes {B} st k w (Q : B -> Prop) (f : State -> Res B) :
  k <> T_EOF ->
  (forall st', later st' st -> (len st' < len st)%nat -> returns Q (f st')) ->
  returns Q (bind (expect st k w) f).
Proof.
  intros Hk H. unfold expect, accept. destruct (keq (laKind st 0) k) eqn:E; cbn; [|exact I].
  destruct (take_consumes st E Hk). apply H; assumption.
Qed.

(** ** Leaf routines *)

Lemma meta_later st :
  later (snd (parseBlockMetaOpt st)) st /\
  (fst (parseBlockMetaOpt st) <> None ->
   (len (snd (parseBlockMetaOpt st)) < len st)%nat) /\
  (fst (parseBlockMetaOpt st) = None -> snd (parseBlockMetaOpt st) = st /\
   metaKind (laKind st 0) = false).
Proof.
  destruct (metaKind (laKind st 0)) eqn:E.
  - destruct (meta_some st E) as [m [k [-> [Hk Hl]]]]. cbn [fst snd].
    split; [|split].
    + apply later_mk. exists (firstn k (toks st)). symmetry. apply firstn_skipn.
    + intros _. unfold len. cbn [toks]. rewrite length_skipn. lia.
    + discriminate.
  - rewrite (meta_none st E). cbn [fst snd]. split; [apply later_refl|].
    split; [congruence | auto].
Qed.

Lemma paragraphLines_later literal l acc :
  exists pre, l = pre ++ snd (paragraphLines literal l acc).
Proof.
  revert acc. induction l as [|t r IH]; intros acc; cbn [paragraphLines].
  - exists []. reflexivity.
  - destruct (keq (Lexer.kind t) T_TEXT); [|exists []; reflexivity].
    match goal with |- context [match ?c with Some _ => _ | None => _ end] =>
      destruct c as [q|] end; [|exists []; reflexivity].
    destruct (keq (kindOfFirst r) T_BLANK); [exists [t]; reflexivity|].
    destruct (negb literal && _); [exists [t]; reflexivity|].
    destruct (IH (acc ++ [q])) as [pre H]. exists (t :: pre). cbn. f_equal. exact H.
Qed.

Lemma paragraphLines_shorter (literal : bool) t r acc :
  Lexer.kind t = T_TEXT ->
  (if literal then negb (isEmpty (raw t)) && isSpace (at_ (raw t) 0)
   else negb (isEmpty (trimmed (raw t)))) = true ->
  (length (snd (paragraphLines literal (t :: r) acc)) <= length r)%nat.
Proof.
  intros Hk Hl. cbn [paragraphLines]. rewrite Hk. cbn [keq kindCode Z.eqb].
  rewrite Pos.eqb_refl.
  assert (exists x, (if literal
                     then if isEmpty (raw t) || negb (isSpace (at_ (raw t) 0))
                          then None else Some (mid (raw t) 1)
                     else if isEmpty (trimmed (raw t)) then None
                          else Some (trimmed (raw t))) = Some x) as [x ->].
  { destruct literal.
    - apply andb_true_iff in Hl as [H1 H2]. apply negb_true_iff in H1.
      rewrite H1, H2. cbn. eauto.
    - apply negb_true_iff in Hl. rewrite Hl. eauto. }
  destruct (keq (kindOfFirst r) T_BLANK); [cbn; lia|].
  destruct (negb literal && _); [cbn; lia|].
  destruct (paragraphLines_later literal r (acc ++ [x])) as [pre H].
  rewrite H at 2. rewrite length_app. lia.
Qed.

Lemma parseParagraphOrLiteral_stays m st :
  returns (stays st) (parseParagraphOrLiteral m st).
Proof.
  unfold parseParagraphOrLiteral.
  destruct (paragraphLines _ (toks st) []) as [lines l] eqn:E.
  assert (L : later (mkState l (eofLine st)) st).
  { apply later_mk.
    destruct (paragraphLines_later
                (keq (laKind st 0) T_TEXT && negb (isEmpty (raw (la st 0)))
                 && isSpace (at_ (raw (la st 0)) 0)) (toks st) []) as [pre H].
    rewrite E in H. eauto. }
  destruct (_ && _ && _); [exact L|].
  apply returns_inline. intros c. exact L.
Qed.

Lemma isEmpty_false (s : QString) : s <> [] -> isEmpty s = false.
Proof. destruct s; [congruence | reflexivity]. Qed.

Lemma parseParagraphOrLiteral_consumes m st :
  Forall plainTok (toks st) -> laKind st 0 = T_TEXT ->
  returns (consumes st) (parseParagraphOrLiteral m st).
Proof.
  intros Hp Hk. unfold parseParagraphOrLiteral.
  destruct (paragraphLines _ (toks st) []) as [lines l] eqn:E.
  assert (L : consumes st (Some (newNode K_Paragraph), mkState l (eofLine st))).
  { unfold consumes. cbn [snd]. split.
    - apply later_mk.
      destruct (paragraphLines_later
                  (keq (laKind st 0) T_TEXT && negb (isEmpty (raw (la st 0)))
                   && isSpace (at_ (raw (la st 0)) 0)) (toks st) []) as [pre H].
      rewrite E in H. eauto.
    - unfold len. cbn [toks].
      assert (Hne : toks st <> []) by (eapply head_kind; [exact Hk | discriminate]).
      revert E Hk. unfold laKind, la, peek.
      destruct (toks st) as [|t r]; [congruence|]. cbn [nth]. intros E Hk.
      inversion Hp as [|? ? [_ [_ [_ Ht]]] _]; subst.
      pose proof (@paragraphLines_shorter
                    (keq (Lexer.kind t) T_TEXT && negb (isEmpty (raw t))
                     && isSpace (at_ (raw t) 0)) t r [] Hk) as S.
      rewrite E in S. cbn [snd] in S. cbn [length].
      enough ((length l <= length r)%nat) by lia. apply S.
      rewrite Hk. cbn [keq kindCode Z.eqb]. rewrite Pos.eqb_refl. cbn [andb].
      destruct (negb (isEmpty (raw t)) && isSpace (at_ (raw t) 0)) eqn:F;
        [reflexivity|].
      rewrite (isEmpty_false (Ht Hk)). reflexivity. }
  destruct (_ && _ && _); [exact L|].
  apply returns_inline. intros c. exact L.
Qed.

Lemma rawLines_later k l acc : exists pre, l = pre ++ snd (rawLines k l acc).
Proof.
  revert acc. induction l as [|t r IH]; intros acc; cbn [rawLines].
  - exists []. reflexivity.
  - destruct (_ && _); [|exists []; reflexivity].
    destruct (IH (acc ++ [raw t])) as [pre H]. exists (t :: pre). cbn. f_equal. exact H.
Qed.

Lemma tableRest_later l : exists pre, l = pre ++ tableRest l.
Proof.
  induction l as [|t r [pre H]]; cbn [tableRest].
  - exists []. reflexivity.
  - unfold inBody.
    destruct (keq (Lexer.kind t) T_EOF); cbn [negb andb]; [exists []; reflexivity|].
    destruct (keq (Lexer.kind t) T_TABLE_DELIM); cbn [negb];
      [exists [t]; reflexivity|].
    exists (t :: pre). cbn. f_equal. exact H.
Qed.

Lemma tableRows_returns parts : tableRows parts <> OutOfFuel.
Proof.
  unfold tableRows. destruct parts as [|[|c0 fr] others]; try discriminate.
  destruct (negb _); discriminate.
Qed.

Lemma parseTable_consumes m st :
  returns (consumes st) (parseTable m st).
Proof.
  unfold parseTable. apply expect_consumes; [discriminate|].
  intros st1 L1 S1. rewrite tableLines_eq. cbn [bind app].
  pose proof (tableRows_returns (tableParts (toks st1))) as T.
  destruct (tableRows _); cbn; auto.
  unfold consumes. cbn [snd].
  assert (L : later (mkState (tableRest (toks st1)) (eofLine st1)) st1).
  { apply later_mk. apply tableRest_later. }
  split; [eapply later_trans; eauto|].
  apply later_len in L. lia.
Qed.

Lemma parseAdmonitionParagraph_consumes m st :
  toks st <> [] -> returns (consumes st) (parseAdmonitionParagraph m st).
Proof.
  intros H. unfold parseAdmonitionParagraph. cbn [take].
  apply returns_inline. intros c. split; [apply later_take | apply take_len; exact H].
Qed.

Lemma parseBlockMacro_consumes m st :
  toks st <> [] -> returns (consumes st) (parseBlockMacro m st).
Proof.
  intros H. unfold parseBlockMacro. cbn [take].
  split; [apply later_take | apply take_len; exact H].
Qed.

Lemma parseBreakOrComment_consumes m st :
  keq (laKind st 0) T_THEMATIC || keq (laKind st 0) T_PAGEBREAK
  || keq (laKind st 0) T_LINE_COMMENT = true ->
  returns (consumes st) (parseBreakOrComment m st).
Proof.
  intros H. unfold parseBreakOrComment.
  assert (Hne : toks st <> []).
  { apply orb_true_iff in H as [H | H]; [apply orb_true_iff in H as [H | H]|];
      eapply head_true; eauto; discriminate. }
  destruct (keq (laKind st 0) T_LINE_COMMENT) eqn:E1;
    [cbn [take]; split; [apply later_take | apply take_len; exact Hne]|].
  destruct (keq (laKind st 0) T_THEMATIC) eqn:E2;
    [cbn [take]; split; [apply later_take | apply take_len; exact Hne]|].
  destruct (keq (laKind st 0) T_PAGEBREAK) eqn:E3;
    [cbn [take]; split; [apply later_take | apply take_len; exact Hne]|].
  discriminate.
Qed.

(** ** The routines that call [parseBlock] *)

Section Loops.

Variable rec : State -> Res (option Node * State).
Variable f : nat.
Hypothesis Hrec : forall st,
  Forall plainTok (toks st) -> (len st + 2 <= f)%nat ->
  returns (advances st) (rec st).

Lemma no_cont st :
  Forall plainTok (toks st) -> keq (laKind st 0) T_LIST_CONT = false.
Proof.
  intros H. apply keq_neq. unfold laKind, la, peek.
  destruct (toks st) as [|t r]; cbn [nth]; [discriminate|].
  inversion H as [|? ? [_ [Ht _]] _]; subst. exact Ht.
Qed.

Lemma sectionBody_stays tlevel n st acc :
  Forall plainTok (toks st) -> (len st + 2 <= f)%nat -> (len st < n)%nat ->
  returns (stays st) (sectionBody rec tlevel n st acc).
Proof.
  revert st acc. induction n as [|n IH]; intros st acc Hp Hf Hn; [lia|].
  cbn [sectionBody].
  destruct (atEnd st) eqn:E0; [apply later_refl|].
  pose proof (later_skip st) as L1.
  set (st1 := skipBlankAndLineComments st) in *.
  pose proof (later_plain L1 Hp) as Hp1. pose proof (later_len L1) as Ll1.
  destruct (atEnd st1) eqn:E1; [exact L1|].
  destruct (_ && _); [exact L1|].
  destruct (keq _ T_TABLE_LINE); [exact I|].
  destruct (_ && _ && _); [exact L1|].
  eapply returns_bind; [apply Hrec; [exact Hp1 | lia]|].
  intros [b st2] [L2 S2]. cbn [snd] in *.
  assert (R : (len st2 < len st1)%nat).
  { apply S2. apply skip_nonempty_ready. apply atEnd_plain; assumption. }
  destruct b as [b|]; [|unfold stays; cbn [snd]; eapply later_trans; eauto].
  eapply returns_weaken; [apply IH; [eapply later_plain; eauto | lia | lia]|].
  intros x Hx. unfold stays in *. eauto using later_trans.
Qed.

Lemma expect_stays {B} st k w (Q : B -> Prop) (g : State -> Res B) :
  (forall st', later st' st -> returns Q (g st')) ->
  returns Q (bind (expect st k w) g).
Proof.
  intros H. unfold expect, accept. destruct (keq (laKind st 0) k); cbn; [|exact I].
  apply H. apply later_take.
Qed.

Lemma parseSection_consumes n m st :
  Forall plainTok (toks st) -> toks st <> [] ->
  (len st + 1 <= f)%nat -> (len st <= n)%nat ->
  returns (consumes st) (parseSection rec n m st).
Proof.
  intros Hp Hne Hf Hn. unfold parseSection.
  pose proof (later_take st) as L. pose proof (@take_len st Hne) as Hs.
  destruct (take st) as [t st1]. cbn [snd] in L, Hs.
  eapply returns_bind;
    [apply sectionBody_stays; [eapply later_plain; eauto | lia | lia]|].
  intros [body st2] L2. unfold stays in L2. cbn [snd] in L2.
  split; cbn [snd]; [eapply later_trans; eauto|].
  apply later_len in L2. lia.
Qed.

Lemma containerBody_stays k n st acc :
  Forall plainTok (toks st) -> (len st + 2 <= f)%nat -> (len st < n)%nat ->
  returns (stays st) (containerBody rec k n st acc).
Proof.
  revert st acc. induction n as [|n IH]; intros st acc Hp Hf Hn; [lia|].
  cbn [containerBody].
  destruct (atEnd st) eqn:E0; cbn [negb andb]; [apply later_refl|].
  destruct (negb (keq (laKind st 0) k)); [|apply later_refl].
  pose proof (later_skip st) as L1.
  set (st1 := skipBlankAndLineComments st) in *.
  pose proof (later_plain L1 Hp) as Hp1. pose proof (later_len L1) as Ll1.
  destruct (keq (laKind st1 0) k); [exact L1|].
  eapply returns_bind; [apply Hrec; [exact Hp1 | lia]|].
  intros [b st2] [L2 S2]. cbn [snd] in *.
  assert (R : (len st2 < len st)%nat).
  { pose proof (@atEnd_plain st Hp E0) as Hne.
    destruct (skip_ready st) as [E | E]; fold st1 in E.
    - apply later_len in L2. unfold len in *. rewrite E in L2.
      destruct (toks st); [congruence | cbn in *; lia].
    - specialize (S2 E). lia. }
  destruct b as [b|]; [|unfold stays; cbn [snd]; eapply later_trans; eauto].
  eapply returns_weaken; [apply IH; [eapply later_plain; eauto | lia | lia]|].
  intros x Hx. unfold stays in *. eauto using later_trans.
Qed.

Lemma parseDelimited_consumes n m st :
  Forall plainTok (toks st) -> toks st <> [] ->
  (len st + 1 <= f)%nat -> (len st <= n)%nat ->
  returns (consumes st) (parseDelimited rec n m st).
Proof.
  intros Hp Hne Hf Hn. unfold parseDelimited.
  assert (H0 : forall b st0,
             (if keq (laKind st 0) T_STEM_ATTR_LINE then (true, snd (take st))
              else (false, st)) = (b, st0) ->
             later (snd (take st0)) st /\ (len (snd (take st0)) < len st)%nat).
  { intros b st0 E. destruct (keq (laKind st 0) T_STEM_ATTR_LINE).
    - injection E as _ <-. pose proof (later_take st) as L.
      pose proof (@take_len st Hne) as Hs. pose proof (later_take (snd (take st))) as L'.
      split; [eapply later_trans; eauto|]. apply later_len in L'.
      unfold len, take in *. cbn [snd toks] in *. lia.
    - injection E as _ <-. split; [apply later_take | apply take_len; exact Hne]. }
  destruct (if keq (laKind st 0) T_STEM_ATTR_LINE then _ else _) as [isStem st0].
  destruct (H0 isStem st0 eq_refl) as [L1 S1].
  destruct (take st0) as [open st1]. cbn [snd] in L1, S1.
  destruct (_ || isStem).
  - pose proof (rawLines_later (laKind st0 0) (toks st1) []) as R.
    destruct (rawLines _ _ _) as [ls l]. cbn [snd] in R.
    apply expect_stays. intros st' L'.
    assert (L2 : later (mkState l (eofLine st1)) st1) by (apply later_mk; exact R).
    split; cbn [snd]; [eauto using later_trans|].
    apply later_len in L', L2. lia.
  - eapply returns_bind;
      [apply containerBody_stays; [eapply later_plain; eauto | lia | lia]|].
    intros [body st2] L2. unfold stays in L2. cbn [snd] in L2.
    apply expect_stays. intros st' L'.
    split; cbn [snd]; [eauto using later_trans|].
    apply later_len in L', L2. lia.
Qed.

Lemma descItems_stays n st items :
  Forall plainTok (toks st) -> (len st < n)%nat ->
  returns (fun x => later (snd x) st /\
                    (keq (laKind st 0) T_DESC_TERM = true ->
                     (len (snd x) < len st)%nat))
          (descItems rec n st items).
Proof.
  revert st items. induction n as [|n IH]; intros st items Hp Hn; [lia|].
  cbn [descItems].
  destruct (keq (laKind st 0) T_DESC_TERM) eqn:E; cbn [negb];
    [|split; [apply later_refl | discriminate]].
  destruct (take_consumes st E) as [L1 S1]; [discriminate|].
  destruct (take st) as [termTok st1]. cbn [snd] in L1, S1.
  eapply returns_bind with (Q1 := fun x => later (snd x) st1).
  { destruct (_ && _); [|apply later_refl].
    apply returns_inline. intros c. apply later_take. }
  intros [item st2] L2. cbn [snd] in L2.
  pose proof (later_skip st2) as L3.
  set (st3 := skipBlankAndLineComments st2) in *.
  assert (Hp3 : Forall plainTok (toks st3)) by eauto using later_plain.
  rewrite (@no_cont st3 Hp3). cbn [bind].
  pose proof (later_skip st3) as L4.
  assert (Hl : (len (skipBlankAndLineComments st3) < len st)%nat).
  { apply later_len in L2, L3, L4. lia. }
  eapply returns_weaken; [apply IH; [eauto using later_plain | lia]|].
  intros x [Hx _]. split; [eauto 6 using later_trans|].
  intros _. apply later_len in Hx. lia.
Qed.

Lemma continuations_stays n st item :
  Forall plainTok (toks st) -> (0 < n)%nat ->
  returns (stays st) (continuations rec n st item).
Proof.
  intros Hp Hn. destruct n as [|n]; [lia|]. cbn [continuations].
  rewrite (@no_cont st Hp). apply later_refl.
Qed.

Lemma listItems_stays (ordered : bool) n st items :
  Forall plainTok (toks st) -> (len st < n)%nat ->
  returns (fun x => later (snd x) st /\
                    (keq (laKind st 0) (if ordered then T_OL_ITEM else T_UL_ITEM)
                     = true -> (len (snd x) < len st)%nat))
          (listItems rec ordered n st items).
Proof.
  revert st items. induction n as [|n IH]; intros st items Hp Hn; [lia|].
  cbn [listItems].
  assert (E : (ordered && negb (keq (laKind st 0) T_OL_ITEM) = false /\
               negb ordered && negb (keq (laKind st 0) T_UL_ITEM) = false /\
               keq (laKind st 0) (if ordered then T_OL_ITEM else T_UL_ITEM) = true) \/
              (keq (laKind st 0) (if ordered then T_OL_ITEM else T_UL_ITEM) = false /\
               (if ordered && negb (keq (laKind st 0) T_OL_ITEM) then true
                else negb ordered && negb (keq (laKind st 0) T_UL_ITEM)) = true)).
  { destruct ordered; cbn [andb negb];
      [destruct (keq (laKind st 0) T_OL_ITEM) | destruct (keq (laKind st 0) T_UL_ITEM)];
      cbn; auto. }
  destruct E as [[E1 [E2 E3]] | [E1 E2]].
  2:{ destruct (ordered && negb (keq (laKind st 0) T_OL_ITEM));
        [split; [apply later_refl | congruence]|].
      rewrite E2. split; [apply later_refl | congruence]. }
  rewrite E1, E2.
  destruct (take_consumes st E3) as [L1 S1]; [destruct ordered; discriminate|].
  destruct (take st) as [itTok st1]. cbn [snd] in L1, S1.
  match goal with
  | |- context [if ?c then (?a, ?b) else (?a', ?b')] =>
      destruct (if c then (a, b) else (a', b')) as [item payload]
  end.
  apply returns_inline. intros c.
  pose proof (later_skip st1) as L2.
  eapply returns_bind;
    [apply continuations_stays; [eauto using later_plain | lia]|].
  intros [item' st2] L3. unfold stays in L3. cbn [snd] in L3.
  pose proof (later_skip st2) as L4.
  assert (Hl : (len (skipBlankAndLineComments st2) < len st)%nat).
  { apply later_len in L2, L3, L4. lia. }
  eapply returns_weaken; [apply IH; [eauto 6 using later_plain | lia]|].
  intros x [Hx _]. split; [eauto 7 using later_trans|].
  intros _. apply later_len in Hx. lia.
Qed.

Lemma parseList_consumes n m st :
  Forall plainTok (toks st) -> (len st < n)%nat ->
  keq (laKind st 0) T_UL_ITEM || keq (laKind st 0) T_OL_ITEM
  || keq (laKind st 0) T_DESC_TERM = true ->
  returns (consumes st) (parseList rec n m st).
Proof.
  intros Hp Hn Hk. unfold parseList. cbv zeta.
  set (ty := if keq (laKind st 0) T_DESC_TERM then qs "description"
             else if keq (laKind st 0) T_OL_ITEM then qs "ordered"
             else qs "unordered").
  assert (V : value (kv (kvInsert (blockAt K_List (lineNo (la st 0)) m) (qs "type") ty))
                    (qs "type") = ty) by reflexivity.
  rewrite V. clear V.
  destruct (keq (laKind st 0) T_DESC_TERM) eqn:D.
  - subst ty. change (qeq (qs "description") (qs "description")) with true. cbv iota.
    eapply returns_bind; [apply descItems_stays; assumption|].
    intros [items st1] [L S1]. cbn [snd] in *. split; cbn [snd]; auto.
  - destruct (keq (laKind st 0) T_OL_ITEM) eqn:O.
    + subst ty. change (qeq (qs "ordered") (qs "description")) with false.
      change (qeq (qs "ordered") (qs "ordered")) with true. cbv iota.
      eapply returns_bind; [apply listItems_stays; assumption|].
      intros [items st1] [L S1]. cbn [snd] in *. split; cbn [snd]; auto.
    + subst ty. change (qeq (qs "unordered") (qs "description")) with false.
      change (qeq (qs "unordered") (qs "ordered")) with false. cbv iota.
      eapply returns_bind; [apply listItems_stays; assumption|].
      intros [items st1] [L S1]. cbn [snd] in *. split; cbn [snd]; auto.
      apply S1. rewrite !orb_false_r in Hk. exact Hk.
Qed.

Lemma directiveBody_stays n st acc :
  Forall plainTok (toks st) -> (len st + 2 <= f)%nat -> (len st < n)%nat ->
  returns (stays st) (directiveBody rec n st acc).
Proof.
  revert st acc. induction n as [|n IH]; intros st acc Hp Hf Hn; [lia|].
  cbn [directiveBody].
  destruct (atEnd st) eqn:E0; [apply later_refl|].
  pose proof (later_skip st) as L1.
  set (st1 := skipBlankAndLineComments st) in *.
  pose proof (later_plain L1 Hp) as Hp1. pose proof (later_len L1) as Ll1.
  destruct (_ && _).
  { pose proof (later_take st1) as L2. destruct (take st1) as [e st2].
    unfold stays. cbn [returns snd] in *. eauto using later_trans. }
  destruct (atEnd st1) eqn:E1; [exact L1|].
  eapply returns_bind; [apply Hrec; [exact Hp1 | lia]|].
  intros [b st2] [L2 S2]. cbn [snd] in *.
  assert (R : (len st2 < len st1)%nat).
  { apply S2. apply skip_nonempty_ready. apply atEnd_plain; assumption. }
  destruct b as [b|]; [|unfold stays; cbn [snd]; eapply later_trans; eauto].
  eapply returns_weaken; [apply IH; [eapply later_plain; eauto | lia | lia]|].
  intros x Hx. unfold stays in *. eauto using later_trans.
Qed.

Lemma parseDirective_consumes n m st :
  Forall plainTok (toks st) -> toks st <> [] ->
  (len st + 1 <= f)%nat -> (len st <= n)%nat ->
  returns (consumes st) (parseDirective rec n m st).
Proof.
  intros Hp Hne Hf Hn. unfold parseDirective.
  pose proof (later_take st) as L. pose proof (@take_len st Hne) as Hs.
  destruct (take st) as [t st1]. cbn [snd] in L, Hs. cbv zeta.
  destruct (_ || _); [|split; assumption].
  eapply returns_bind;
    [apply directiveBody_stays; [eapply later_plain; eauto | lia | lia]|].
  intros [body st2] L2. unfold stays in L2. cbn [snd] in L2.
  split; cbn [snd]; [eapply later_trans; eauto|].
  apply later_len in L2. lia.
Qed.

Lemma consumes_advances {A} st (r : Res (A * State)) :
  returns (consumes st) r ->
  returns (fun x => later (snd x) st /\
                    (ready st = true -> metaKind (laKind st 0) = false ->
                     (len (snd x) < len st)%nat)) r.
Proof. intros H. eapply returns_weaken; [exact H|]. intros x [H1 H2]. auto. Qed.

Lemma isDelim_head st : isDelim (laKind st 0) = true -> toks st <> [].
Proof.
  intros H E. unfold laKind, la, peek in H. rewrite E in H. discriminate.
Qed.

Lemma dispatch_advances n meta st :
  Forall plainTok (toks st) -> (len st + 1 <= f)%nat -> (len st < n)%nat ->
  returns (fun x => later (snd x) st /\
                    (ready st = true -> metaKind (laKind st 0) = false ->
                     (len (snd x) < len st)%nat))
    (let k := laKind st 0 in
     if keq k T_SECTION then parseSection rec n meta st
     else if keq k T_ADMONITION then parseAdmonitionParagraph meta st
     else if keq k T_UL_ITEM || keq k T_OL_ITEM || keq k T_DESC_TERM then
       parseList rec n meta st
     else if keq k T_TABLE_DELIM then parseTable meta st
     else if isDelim k then parseDelimited rec n meta st
     else if keq k T_BLOCK_MACRO then parseBlockMacro meta st
     else if keq k T_DIRECTIVE then parseDirective rec n meta st
     else if keq k T_THEMATIC || keq k T_PAGEBREAK || keq k T_LINE_COMMENT then
       parseBreakOrComment meta st
     else parseParagraphOrLiteral meta st).
Proof.
  intros Hp Hf Hn. cbv zeta.
  destruct (keq (laKind st 0) T_SECTION) eqn:E1.
  { apply consumes_advances, parseSection_consumes; auto; [|lia].
    eapply head_true; eauto; discriminate. }
  destruct (keq (laKind st 0) T_ADMONITION) eqn:E2.
  { apply consumes_advances, parseAdmonitionParagraph_consumes.
    eapply head_true; eauto; discriminate. }
  destruct (keq (laKind st 0) T_UL_ITEM || keq (laKind st 0) T_OL_ITEM
            || keq (laKind st 0) T_DESC_TERM) eqn:E3.
  { apply consumes_advances, parseList_consumes; auto. }
  destruct (keq (laKind st 0) T_TABLE_DELIM) eqn:E4.
  { apply consumes_advances, parseTable_consumes. }
  destruct (isDelim (laKind st 0)) eqn:E5.
  { apply consumes_advances, parseDelimited_consumes; auto; [|lia].
    apply isDelim_head; exact E5. }
  destruct (keq (laKind st 0) T_BLOCK_MACRO) eqn:E6.
  { apply consumes_advances, parseBlockMacro_consumes.
    eapply head_true; eauto; discriminate. }
  destruct (keq (laKind st 0) T_DIRECTIVE) eqn:E7.
  { apply consumes_advances, parseDirective_consumes; auto; [|lia].
    eapply head_true; eauto; discriminate. }
  destruct (keq (laKind st 0) T_THEMATIC || keq (laKind st 0) T_PAGEBREAK
            || keq (laKind st 0) T_LINE_COMMENT) eqn:E8.
  { apply consumes_advances, parseBreakOrComment_consumes; exact E8. }
  destruct (keq (laKind st 0) T_TEXT) eqn:E9.
  { apply consumes_advances, parseParagraphOrLiteral_consumes; auto.
    apply keq_eq; exact E9. }
  eapply returns_weaken; [apply parseParagraphOrLiteral_stays|].
  intros x Hx. split; [exact Hx|]. intros R M. exfalso.
  unfold ready in R. unfold metaKind in M. revert E1 E2 E3 E4 E5 E6 E7 E8 E9 M.
  unfold laKind, la, peek. destruct (toks st) as [|t r]; [discriminate|].
  cbn [nth]. inversion Hp as [|? ? [T1 [T2 [T3 _]]] _]; subst.
  destruct (Lexer.kind t); cbn; try discriminate; try congruence.
Qed.

Lemma parseBlockBody_advances n st :
  Forall plainTok (toks st) -> (len st + 1 <= f)%nat -> (len st < n)%nat ->
  returns (advances st) (parseBlockBody rec n st).
Proof.
  intros Hp Hf Hn. unfold parseBlockBody.
  destruct (meta_later st) as [L [S1 S2]].
  destruct (parseBlockMetaOpt st) as [meta st1]. cbn [fst snd] in *.
  pose proof (later_len L) as Ll.
  eapply returns_weaken;
    [apply (@dispatch_advances n meta st1); [eauto using later_plain | lia | lia]|].
  intros x [Hx Hs]. split; [eauto using later_trans|]. intros R.
  destruct meta as [m|].
  - assert ((len st1 < len st)%nat) by (apply S1; discriminate).
    apply later_len in Hx. lia.
  - destruct (S2 eq_refl) as [-> M]. auto.
Qed.

Lemma documentBody_returns n st acc :
  Forall plainTok (toks st) -> (len st + 2 <= f)%nat -> (len st < n)%nat ->
  returns (fun _ => True) (documentBody rec n st acc).
Proof.
  revert st acc. induction n as [|n IH]; intros st acc Hp Hf Hn; [lia|].
  cbn [documentBody].
  destruct (atEnd st) eqn:E0; [exact I|].
  pose proof (later_skip st) as L1.
  set (st1 := skipBlankAndLineComments st) in *.
  pose proof (later_plain L1 Hp) as Hp1. pose proof (later_len L1) as Ll1.
  destruct (atEnd st1) eqn:E1; [exact I|].
  eapply returns_bind; [apply Hrec; [exact Hp1 | lia]|].
  intros [b st2] [L2 S2]. cbn [snd] in *.
  assert (R : (len st2 < len st1)%nat).
  { apply S2. apply skip_nonempty_ready. apply atEnd_plain; assumption. }
  destruct b as [b|]; [|exact I].
  apply IH; [eapply later_plain; eauto | lia | lia].
Qed.

End Loops.

Lemma parseBlock_advances fuel st :
  Forall plainTok (toks st) -> (len st + 2 <= fuel)%nat ->
  returns (advances st) (parseBlock fuel st).
Proof.
  revert st. induction fuel as [|fuel IH]; intros st Hp Hf; [lia|].
  cbn [parseBlock]. apply parseBlockBody_advances with (f := fuel); auto; lia.
Qed.

Lemma headerAttrs_later l kv : exists pre, l = pre ++ snd (headerAttrs l kv).
Proof.
  revert kv. induction l as [|t r IH]; intros kv; cbn [headerAttrs].
  - exists []. reflexivity.
  - destruct (keq (Lexer.kind t) T_TEXT); [|exists []; reflexivity].
    destruct (negb _); [exists []; reflexivity|].
    destruct (_ <=? 1); [exists []; reflexivity|].
    destruct (IH (insert kv (qs "attr:" ++ trimmed (midn (trimmed (raw t)) 1
                   (indexOfC (trimmed (raw t)) ":"%char 1 - 1)))
                   (trimmed (mid (trimmed (raw t))
                   (indexOfC (trimmed (raw t)) ":"%char 1 + 1))))) as [pre H].
    exists (t :: pre). cbn. f_equal. exact H.
Qed.

Lemma header_tail kv st :
  later (snd (let (kv', l) := headerAttrs (toks st) kv in
              (kv', mkState l (eofLine st)))) st.
Proof.
  pose proof (headerAttrs_later (toks st) kv) as H.
  destruct (headerAttrs (toks st) kv) as [kv' l]. cbn [snd] in *.
  apply later_mk. exact H.
Qed.

Lemma parseDocumentHeader_later kv st :
  later (snd (parseDocumentHeader kv st)) st.
Proof.
  unfold parseDocumentHeader.
  unfold take.
  repeat first [ progress cbv iota beta zeta
               | match goal with
                 | |- context [if ?c then _ else _] => destruct c
                 end ];
    (eapply later_trans; [apply header_tail|]);
    repeat first [ apply later_refl
                 | eapply later_trans; [apply later_skip|]
                 | eapply later_trans; [apply later_take|] ].
Qed.

Lemma parseDocument_returns fuel st :
  Forall plainTok (toks st) -> (len st + 2 <= fuel)%nat ->
  parseDocument fuel st <> OutOfFuel.
Proof.
  intros Hp Hf. unfold parseDocument. cbv zeta.
  pose proof (later_skip st) as L1.
  pose proof (parseDocumentHeader_later
                (kv (setPos (newNode K_Document) (mkPos 1 1)))
                (skipBlankAndLineComments st)) as L2.
  destruct (parseDocumentHeader _ _) as [kv' st'] eqn:E. cbn [snd] in L2.
  assert (L : later st' st) by eauto using later_trans.
  pose proof (later_len L) as Ll.
  pose proof (@documentBody_returns (parseBlock fuel) fuel
                (fun s => @parseBlock_advances fuel s) fuel st' []
                (later_plain L Hp)) as R.
  destruct (documentBody _ _ _ _); cbn [bind]; try discriminate.
  intros _. apply R; lia.
Qed.

Lemma classify_plain line n :
  Lexer.kind (classify line n) <> T_LIST_CONT ->
  Lexer.kind (classify line n) <> T_TABLE_LINE ->
  plainTok (classify line n).
Proof.
  intros H1 H2. repeat split; auto; [apply classify_kinds|].
  intros Hk E. destruct (classify_raw line n) as [R _]. rewrite R in E.
  apply trimmed_nil in E. rewrite <- isBlank_forallb in E.
  apply (classify_blank_iff line n) in E. congruence.
Qed.

End TermFacts.
Import TermFacts.

(* ===================================================================== *)
(** * Facts about the document header *)
(* ===================================================================== *)

Module HeaderFacts.

Lemma value_insert_same (m : QMap) (k v : QString) : value (insert m k v) k = v.
Proof.
  induction m as [|[k1 v1] r IH]; cbn [insert value].
  - rewrite qeq_refl. reflexivity.
  - destruct (qeq k k1) eqn:E1; [cbn [value]; rewrite qeq_refl; reflexivity|].
    destruct (qlt k k1); cbn [value]; [rewrite qeq_refl; reflexivity|].
    rewrite E1. exact IH.
Qed.

Lemma value_insert_other (m : QMap) (k v k' : QString) :
  qeq k' k = false -> value (insert m k v) k' = value m k'.
Proof.
  intros H. induction m as [|[k1 v1] r IH]; cbn [insert value].
  - rewrite H. reflexivity.
  - destruct (qeq k k1) eqn:E1.
    + apply qeq_eq in E1. subst k1. cbn [value]. rewrite H. reflexivity.
    + destruct (qlt k k1); cbn [value]; [rewrite H; reflexivity|].
      destruct (qeq k' k1); [reflexivity | exact IH].
Qed.

Lemma headerAttrs_value (l : list LineTok) (kv : QMap) (k : QString) :
  (forall nm, qeq k (qs "attr:" ++ nm) = false) ->
  value (fst (headerAttrs l kv)) k = value kv k.
Proof.
  intros H. revert kv. induction l as [|t r IH]; intros kv; cbn [headerAttrs];
    [reflexivity|].
  destruct (keq (Lexer.kind t) T_TEXT); [|reflexivity].
  destruct (negb _); [reflexivity|].
  destruct (_ <=? 1); [reflexivity|].
  rewrite IH. apply value_insert_other, H.
Qed.

(** The entries of the header that the attribute entries leave alone. *)
Ltac header_tail :=
  match goal with
  | |- value (fst ?x) ?k = _ =>
      match x with
      | context [headerAttrs ?l ?kv] =>
      let V := fresh "V" in
      pose proof (@headerAttrs_value l kv k (fun nm => eq_refl)) as V;
      destruct (headerAttrs l kv) as [kv' l']; cbn [fst] in V |- *; rewrite V
      end
  end.

End HeaderFacts.
Import HeaderFacts.

(* ===================================================================== *)
(** * Facts about marked text *)
(* ===================================================================== *)

Module EmphFacts.

Lemma findFrom_first (m : QChar) (x r : QString) (off : Z) :
  ~ In m x -> findFrom [m] (x ++ m :: r) off = off + size x.
Proof.
  revert off. induction x as [|c x IH]; intros off H.
  - cbn [app findFrom startsWith]. rewrite ceq_refl. cbn [andb].
    unfold size. cbn [length]. destruct r; cbn [startsWith]; lia.
  - cbn [app findFrom startsWith].
    assert (E : ceq m c = false).
    { apply ceq_neq. intros ->. apply H. left. reflexivity. }
    rewrite E. cbn [andb]. rewrite IH by (intros X; apply H; right; exact X).
    unfold size. cbn [length]. lia.
Qed.

Lemma indexOf_first (m : QChar) (x r : QString) :
  ~ In m x -> indexOf (m :: x ++ m :: r) [m] 1 = 1 + size x.
Proof.
  intros H. unfold indexOf. change (1 <? 0) with false. cbv iota.
  destruct (1 >? size (m :: x ++ m :: r)) eqn:E.
  - zbool. unfold size in E. cbn [length] in E. rewrite length_app in E.
    cbn [length] in E. lia.
  - change (Z.to_nat 1) with 1%nat. cbn [skipn]. apply findFrom_first, H.
Qed.

Lemma paired_single (m : QChar) (x r : QString)
    (mk : QString -> Node * option QString) :
  ~ In m x -> x <> [] ->
  paired (m :: x ++ m :: r) 0 [m] mk
  = Some (mkHit (fst (mk x)) (snd (mk x)) (size x + 2)).
Proof.
  intros H N. unfold paired. cbv zeta. change (size [m]) with 1.
  assert (S1 : size (m :: x ++ m :: r) = size x + size r + 2).
  { unfold size. cbn [length]. rewrite length_app. cbn [length]. lia. }
  pose proof (size_nonneg x) as Px. pose proof (size_nonneg r) as Pr.
  rewrite midn_inside by lia. change (Z.to_nat 0) with 0%nat.
  change (Z.to_nat 1) with 1%nat. cbn [skipn firstn]. rewrite qeq_refl.
  change (0 + 1) with 1. rewrite (@indexOf_first m x r H).
  assert (P : 0 < size x).
  { destruct x; [congruence|]. unfold size. cbn [length]. lia. }
  replace (1 + size x >? 1) with true by (symmetry; zdecide).
  rewrite midn_inside by lia.
  replace (1 + size x - 1) with (size x) by lia.
  change (Z.to_nat 1) with 1%nat. cbn [skipn].
  assert (F : firstn (Z.to_nat (size x)) (x ++ m :: r) = x).
  { unfold size. rewrite Nat2Z.id, firstn_app, Nat.sub_diag, firstn_all.
    cbn [firstn]. apply app_nil_r. }
  rewrite !F. do 2 f_equal. lia.
Qed.

Lemma paired_other (s mark : QString) (mk : QString -> Node * option QString) :
  qeq (midn s 0 (size mark)) mark = false -> paired s 0 mark mk = None.
Proof. intros H. unfold paired. cbv zeta. rewrite H. reflexivity. Qed.

Lemma midn_1 (m c : QChar) (r : QString) : midn (m :: c :: r) 0 1 = [m].
Proof.
  rewrite midn_inside; [reflexivity | lia | lia |].
  unfold size. cbn [length]. lia.
Qed.

Lemma midn_2 (m c : QChar) (r : QString) : midn (m :: c :: r) 0 2 = [m; c].
Proof.
  rewrite midn_inside; [reflexivity | lia | lia |].
  unfold size. cbn [length]. lia.
Qed.

Lemma inlineMacro_none (s : QString) (l : Z) :
  ~ In ":"%char s -> inlineMacro s 0 l = None.
Proof.
  intros H. unfold inlineMacro. cbv zeta.
  pose proof (@indexOfC_absent s ":"%char 0 ltac:(lia) H) as L.
  destruct (indexOfC s ":"%char 0 >? 0) eqn:E; [zbool; lia | reflexivity].
Qed.

Lemma attrRef_none (s : QString) (l : Z) :
  ceq (at_ s 0) "{"%char = false -> attrRef s 0 l = None.
Proof. intros H. unfold attrRef. rewrite H. reflexivity. Qed.

Lemma bracketed_none (s : QString) (l : Z) (o : QChar) (close : QString)
    (k : Ast.Kind) (setId : Node -> QString -> Node) :
  ceq (at_ s 0) o = false -> bracketed s 0 l o close k setId = None.
Proof.
  intros H. unfold bracketed. rewrite H, andb_false_r. reflexivity.
Qed.

Lemma autoLink_none (m : QChar) (r : QString) (l : Z) :
  ceq "h"%char m || ceq "f"%char m || ceq "i"%char m || ceq "m"%char m = false ->
  autoLink (m :: r) 0 l = None.
Proof.
  intros H. apply orb_false_iff in H as [H H4]. apply orb_false_iff in H as [H H3].
  apply orb_false_iff in H as [H1 H2].
  unfold autoLink, isUrlSchemeStart, mid.
  replace (0 >? size (m :: r)) with false by (symmetry; unfold size; zdecide).
  change (Z.to_nat 0) with 0%nat. cbn [skipn qs list_ascii_of_string startsWith].
  rewrite H1, H2, H3, H4. reflexivity.
Qed.

(** The scanner at a single mark [m] in front of plain text that is
    closed by the same mark. *)
Lemma firstHit_marked (m : QChar) (x : QString) (l : Z) n o c :
  marked m l x = Some (n, o, c) -> plainText x -> x <> [] ->
  exists h,
    firstHit (m :: x ++ [m]) 0 l = Some h /\ hitNext h = size x + 2 /\
    ((hitInner h = Some x /\ n = setChildren (hitNode h) (pushText [] x l)) \/
     (hitInner h = None /\ n = setChildren (hitNode h) [])).
Proof.
  intros M P N.
  assert (Hm : In m (qs "*_#`^~")).
  { unfold marked in M. cbv zeta in M.
    repeat match type of M with
           | (if ceq m ?c then _ else _) = _ =>
               let E := fresh "E" in
               destruct (ceq m c) eqn:E;
               [apply ceq_eq in E; subst m; cbn; tauto|]
           end. discriminate M. }
  assert (Pm : ~ In m x).
  { apply P. cbn in Hm. unfold markupChars. cbn.
    repeat (destruct Hm as [<- | Hm]; [tauto|]). destruct Hm. }
  assert (Pc : ~ In ":"%char (m :: x ++ [m])).
  { intros [E | E].
    - subst m. cbn in Hm. repeat (destruct Hm as [Hm | Hm]; [discriminate Hm|]).
      exact Hm.
    - apply in_app_or in E as [E | [E | []]].
      + revert E. apply P. unfold markupChars. cbn. tauto.
      + subst m. cbn in Hm.
        repeat (destruct Hm as [Hm | Hm]; [discriminate Hm|]). exact Hm. }
  pose proof (@paired_single m x []) as S.
  destruct x as [|x0 x']; [congruence|].
  assert (X0 : forall ch, In ch markupChars -> ceq x0 ch = false).
  { intros ch Hc. apply ceq_neq. intros ->. apply (P _ Hc). left. reflexivity. }
  unfold firstHit, xref, anchor.
  rewrite (@inlineMacro_none _ l Pc).
  unfold marked in M. cbv zeta in M. cbn in Hm.
  repeat (destruct Hm as [<- | Hm];
          [ rewrite attrRef_none by reflexivity;
            rewrite !bracketed_none by reflexivity;
            rewrite autoLink_none by reflexivity;
            cbn [orElse];
            repeat first
              [ rewrite paired_other
                  by (cbn [size length Z.of_nat Pos.of_succ_nat Pos.succ app];
                      rewrite ?midn_1, ?midn_2;
                      cbn [qeq ceq Ascii.eqb Bool.eqb andb qs list_ascii_of_string];
                      rewrite ?X0 by (unfold markupChars; cbn; tauto);
                      reflexivity)
              | progress cbn [orElse] ];
            rewrite S by assumption; cbn [orElse];
            cbn in M; injection M as <- <- <-;
            eexists; split; [reflexivity|]; split; [reflexivity|];
            first [ left; split; reflexivity | right; split; reflexivity ]
          |]).
  destruct Hm.
Qed.

Lemma scan_step rec (l d : Z) (g : nat) (s : QString) (i : Z) out acc :
  scan rec l d (S g) s i out acc =
  if i <? size s then
    match firstHit s i l with
    | Some h =>
        match match hitInner h with
              | Some inner => rec inner (d + 1)
              | None => Some []
              end with
        | Some c =>
            scan rec l d g s (hitNext h)
                 (pushText out acc l ++ [setChildren (hitNode h) c]) []
        | None => None
        end
    | None => scan rec l d g s (i + 1) out (acc ++ [at_ s i])
    end
  else Some (pushText out acc l).
Proof. reflexivity. Qed.

Lemma rec_scan (f : nat) (s : QString) (l d : Z) :
  parseInlineContentRec (S f) s l d =
  scan (fun inner d' => parseInlineContentRec f inner l d') l d
       (S (length s)) s 0 [] [].
Proof. reflexivity. Qed.

Lemma plain_rec (f : nat) (x : QString) (l d : Z) :
  plainText x -> parseInlineContentRec (S f) x l d = Some (pushText [] x l).
Proof.
  intros P. cbn [parseInlineContentRec]. rewrite scan_plain; auto.
  - pose proof (size_nonneg x). lia.
  - unfold size. lia.
Qed.

End EmphFacts.
Import EmphFacts.

(* ===================================================================== *)
(** * Facts about paragraphs and header entries *)
(* ===================================================================== *)

Module BlockFacts.

Lemma paragraphLines_text (l rest : list LineTok) (acc : list QString) :
  Forall textLine l -> kindOfFirst rest <> T_TEXT ->
  paragraphLines false (l ++ rest) acc
  = (acc ++ map (fun t => trimmed (raw t)) l, rest).
Proof.
  intros Hl Hr. revert acc. induction Hl as [|t l [K N] Hl IH]; intros acc.
  - cbn [app map]. rewrite app_nil_r.
    destruct rest as [|t r]; [reflexivity|]. cbn [paragraphLines].
    cbn [kindOfFirst] in Hr. apply keq_neq in Hr. rewrite Hr. reflexivity.
  - cbn [app map paragraphLines]. rewrite K, keq_refl.
    rewrite (isEmpty_false N). cbn [negb].
    destruct l as [|t' l'].
    + cbn [app map]. destruct (keq (kindOfFirst rest) T_BLANK); [reflexivity|].
      destruct (_ || _); [reflexivity|].
      specialize (IH (acc ++ [trimmed (raw t)])). cbn [app map] in IH.
      rewrite app_nil_r in IH. exact IH.
    + inversion Hl as [|? ? [K' _] _]; subst.
      cbn [app kindOfFirst]. rewrite K'. cbn [keq kindCode Z.eqb Pos.eqb orb].
      rewrite IH, <- app_assoc. reflexivity.
Qed.

Lemma mid_after (a b : QString) : mid (a ++ b) (size a) = b.
Proof.
  unfold mid. rewrite size_app. pose proof (size_nonneg b).
  replace (size a >? size a + size b) with false by (symmetry; zdecide).
  unfold size. rewrite Nat2Z.id, skipn_app, skipn_all, Nat.sub_diag. reflexivity.
Qed.

Lemma entry_name (name val : QString) :
  midn (":"%char :: name ++ ":"%char :: val) 1 (size name) = name.
Proof.
  pose proof (size_nonneg name) as Pn. pose proof (size_nonneg val) as Pv.
  rewrite midn_inside; try lia.
  - change (Z.to_nat 1) with 1%nat. cbn [skipn]. unfold size.
    rewrite Nat2Z.id, firstn_app, Nat.sub_diag, firstn_all. cbn [firstn].
    apply app_nil_r.
  - unfold size. cbn [length]. rewrite length_app. cbn [length]. lia.
Qed.

Lemma entry_value (name val : QString) :
  mid (":"%char :: name ++ ":"%char :: val) (1 + size name + 1) = val.
Proof.
  replace (1 + size name + 1) with (size ((":"%char :: name) ++ [":"%char])).
  2:{ unfold size. rewrite length_app. cbn [length]. unfold QChar in *. lia. }
  replace (":"%char :: name ++ ":"%char :: val)
    with (((":"%char :: name) ++ [":"%char]) ++ val)
    by (rewrite <- app_assoc; reflexivity).
  apply mid_after.
Qed.

(** A run of text lines is one paragraph. *)
Lemma paragraph_run (m : option BlockMeta) (t : LineTok)
    (l rest : list LineTok) (e : Z) :
  Forall textLine (t :: l) ->
  isEmpty (raw t) || negb (isSpace (at_ (raw t) 0)) = true ->
  kindOfFirst rest <> T_TEXT ->
  parseParagraphOrLiteral m (mkState (t :: l ++ rest) e) =
  Ok (Some (setChildren (blockAt K_Paragraph (lineNo t) m)
              (inlineNodes (join (map (fun x => trimmed (raw x)) (t :: l))
                                 (qs " "))
                           (lineNo t))),
      mkState rest e).
Proof.
  intros Hl Hf Hr. unfold parseParagraphOrLiteral, laKind, la, peek.
  cbn [toks nth eofLine].
  assert (L : keq (Lexer.kind t) T_TEXT && negb (isEmpty (raw t))
              && isSpace (at_ (raw t) 0) = false).
  { destruct (isEmpty (raw t)); [cbn [negb]; rewrite andb_false_r; reflexivity|].
    cbn [orb] in Hf. apply negb_true_iff in Hf. rewrite Hf. apply andb_false_r. }
  rewrite L.
  change (t :: l ++ rest) with ((t :: l) ++ rest).
  rewrite (@paragraphLines_text (t :: l) rest [] Hl Hr).
  cbn [app]. rewrite inlineContent_eq. reflexivity.
Qed.

End BlockFacts.
Import BlockFacts.

(* ===================================================================== *)
(** * The fuel of the parser *)
(* ===================================================================== *)

Module BoundFacts.

Lemma returns_resAll {A} (Q : A -> Prop) r : returns Q r -> resAll Q r.
Proof. destruct r; cbn; auto. Qed.

Lemma later_same a b : later a b -> len a = len b -> a = b.
Proof.
  destruct a as [la ea], b as [lb eb]. unfold later, len. cbn [toks eofLine].
  intros [[pre H] E] L. subst lb eb. rewrite length_app in L.
  destruct pre; [reflexivity | cbn in L; lia].
Qed.

(** A loop whose round leaves it where it was never comes back. *)
Lemma spin {A B} (F : nat -> A -> Res B) (g : A -> A) :
  (forall a, F O a = OutOfFuel) -> (forall n a, F (S n) a = F n (g a)) ->
  forall n a, F n a = OutOfFuel.
Proof.
  intros H0 HS n. induction n as [|n IH]; intros a; [apply H0|].
  rewrite HS. apply IH.
Qed.

Lemma bind_bound {A B} (Q : A -> Prop) (mB mS : Res A) (kB kS : A -> Res B) :
  resAll Q mB -> (halts mB -> mS = mB) ->
  (forall a, Q a -> mB = Ok a -> halts (kB a) -> kS a = kB a) ->
  halts (bind mB kB) -> bind mS kS = bind mB kB.
Proof.
  intros HQ Hm Hk. destruct mB as [a|e|]; cbn [bind resAll] in *.
  - rewrite Hm by discriminate. cbn [bind]. intros H. apply Hk; auto.
  - rewrite Hm by discriminate. reflexivity.
  - intros H. exfalso. apply H. reflexivity.
Qed.

Ltac lat := unfold stays in *; cbn [snd resAll] in *;
  eauto 8 using later_refl, later_trans, later_take, later_skip.

(** ** What the routines leave of the lines *)

Section Keeps.

Variable rec : State -> Res (option Node * State).
Hypothesis Hrec : forall st, resAll (stays st) (rec st).

Lemma inline_keeps {B} s l (Q : B -> Prop) k :
  (forall c, resAll Q (k c)) -> resAll Q (bind (inlineContent s l) k).
Proof. intros H. rewrite inlineContent_eq. apply H. Qed.

Lemma expect_keeps {B} st k w (Q : B -> Prop) (g : State -> Res B) :
  (forall st', later st' st -> resAll Q (g st')) ->
  resAll Q (bind (expect st k w) g).
Proof.
  intros H. unfold expect, accept. destruct (keq (laKind st 0) k); cbn; [|exact I].
  apply H. apply later_take.
Qed.

Lemma sectionBody_keeps tlevel n st acc :
  resAll (stays st) (sectionBody rec tlevel n st acc).
Proof.
  revert st acc. induction n as [|n IH]; intros st acc; [exact I|].
  cbn [sectionBody].
  destruct (atEnd st); [lat|].
  destruct (atEnd _); [lat|].
  destruct (_ && _); [lat|].
  destruct (keq _ T_TABLE_LINE); [exact I|].
  destruct (_ && _ && _); [lat|].
  eapply resAll_bind; [apply Hrec|].
  intros [b st2] L2. destruct b as [b|]; [|lat].
  eapply resAll_weaken; [apply IH|]. intros x Hx. lat.
Qed.

Lemma parseSection_keeps n m st : resAll (stays st) (parseSection rec n m st).
Proof.
  unfold parseSection. pose proof (later_take st) as L.
  destruct (take st) as [t st1]. cbn [snd] in L.
  eapply resAll_bind; [apply sectionBody_keeps|].
  intros [body st2] L2. lat.
Qed.

Lemma containerBody_keeps k n st acc :
  resAll (stays st) (containerBody rec k n st acc).
Proof.
  revert st acc. induction n as [|n IH]; intros st acc; [exact I|].
  cbn [containerBody].
  destruct (negb (atEnd st) && _); [|lat].
  destruct (keq _ k); [lat|].
  eapply resAll_bind; [apply Hrec|].
  intros [b st2] L2. destruct b as [b|]; [|lat].
  eapply resAll_weaken; [apply IH|]. intros x Hx. lat.
Qed.

Lemma parseDelimited_keeps n m st : resAll (stays st) (parseDelimited rec n m st).
Proof.
  unfold parseDelimited.
  assert (H0 : forall b st0,
             (if keq (laKind st 0) T_STEM_ATTR_LINE then (true, snd (take st))
              else (false, st)) = (b, st0) -> later (snd (take st0)) st).
  { intros b st0 E. destruct (keq (laKind st 0) T_STEM_ATTR_LINE);
      injection E as _ <-; lat. }
  destruct (if keq (laKind st 0) T_STEM_ATTR_LINE then _ else _) as [isStem st0].
  pose proof (H0 isStem st0 eq_refl) as L1.
  destruct (take st0) as [open st1]. cbn [snd] in L1.
  destruct (_ || isStem).
  - pose proof (rawLines_later (laKind st0 0) (toks st1) []) as R.
    destruct (rawLines _ _ _) as [ls l]. cbn [snd] in R.
    apply expect_keeps. intros st' L'.
    assert (L2 : later (mkState l (eofLine st1)) st1) by (apply later_mk; exact R).
    lat.
  - eapply resAll_bind; [apply containerBody_keeps|].
    intros [body st2] L2. apply expect_keeps. intros st' L'. lat.
Qed.

Lemma paragraph_keeps m st : resAll (stays st) (parseParagraphOrLiteral m st).
Proof. apply returns_resAll, parseParagraphOrLiteral_stays. Qed.

Lemma descItems_keeps n st items : resAll (stays st) (descItems rec n st items).
Proof.
  revert st items. induction n as [|n IH]; intros st items; [exact I|].
  cbn [descItems].
  destruct (keq (laKind st 0) T_DESC_TERM); cbn [negb]; [|lat].
  pose proof (later_take st) as L1.
  destruct (take st) as [termTok st1]. cbn [snd] in L1.
  eapply resAll_bind with (Q1 := fun x => later (snd x) st1).
  { destruct (_ && _); [|lat]. apply inline_keeps. intros c. lat. }
  intros [item st2] L2. cbn [snd] in L2.
  eapply resAll_bind with (Q1 := fun x => later (snd x) st1).
  { destruct (keq _ T_LIST_CONT); [|lat].
    eapply resAll_bind with (Q1 := fun x => later (snd x) st1).
    - destruct (isDelim _).
      + eapply resAll_weaken; [apply parseDelimited_keeps|]. intros x Hx. lat.
      + eapply resAll_weaken; [apply paragraph_keeps|]. intros x Hx. lat.
    - intros [cont st3] L3. destruct cont; lat. }
  intros [item' st3] L3.
  eapply resAll_weaken; [apply IH|]. intros x Hx. lat.
Qed.

Lemma continuations_keeps n st item :
  resAll (stays st) (continuations rec n st item).
Proof.
  revert st item. induction n as [|n IH]; intros st item; [exact I|].
  cbn [continuations].
  destruct (keq _ T_LIST_CONT); [|lat].
  eapply resAll_bind; [apply Hrec|].
  intros [cont st2] L2.
  eapply resAll_weaken; [apply IH|]. intros x Hx. lat.
Qed.

Lemma listItems_keeps (ordered : bool) n st items :
  resAll (stays st) (listItems rec ordered n st items).
Proof.
  revert st items. induction n as [|n IH]; intros st items; [exact I|].
  cbn [listItems].
  destruct (ordered && _); [lat|].
  destruct (negb ordered && _); [lat|].
  pose proof (later_take st) as L1.
  destruct (take st) as [itTok st1]. cbn [snd] in L1.
  match goal with
  | |- context [if ?c then (?a, ?b) else (?a', ?b')] =>
      destruct (if c then (a, b) else (a', b')) as [item payload]
  end.
  apply inline_keeps. intros c.
  eapply resAll_bind; [apply continuations_keeps|].
  intros [item' st2] L2.
  eapply resAll_weaken; [apply IH|]. intros x Hx. lat.
Qed.

Lemma parseList_keeps n m st : resAll (stays st) (parseList rec n m st).
Proof.
  unfold parseList. cbv zeta.
  eapply resAll_bind with (Q1 := stays st).
  { destruct (qeq _ _); [apply descItems_keeps | apply listItems_keeps]. }
  intros [items st1] L. lat.
Qed.

Lemma directiveBody_keeps n st acc :
  resAll (stays st) (directiveBody rec n st acc).
Proof.
  revert st acc. induction n as [|n IH]; intros st acc; [exact I|].
  cbn [directiveBody].
  destruct (atEnd st); [lat|].
  destruct (_ && _).
  { pose proof (later_take (skipBlankAndLineComments st)) as L2.
    destruct (take _) as [e st2]. lat. }
  destruct (atEnd _); [lat|].
  eapply resAll_bind; [apply Hrec|].
  intros [b st2] L2. destruct b as [b|]; [|lat].
  eapply resAll_weaken; [apply IH|]. intros x Hx. lat.
Qed.

Lemma parseDirective_keeps n m st : resAll (stays st) (parseDirective rec n m st).
Proof.
  unfold parseDirective. pose proof (later_take st) as L.
  destruct (take st) as [t st1]. cbn [snd] in L. cbv zeta.
  destruct (_ || _); [|lat].
  eapply resAll_bind; [apply directiveBody_keeps|].
  intros [body st2] L2. lat.
Qed.

Lemma parseBlockBody_keeps n st : resAll (stays st) (parseBlockBody rec n st).
Proof.
  unfold parseBlockBody.
  destruct (meta_later st) as [L _].
  destruct (parseBlockMetaOpt st) as [meta st1]. cbn [fst snd] in *. cbv zeta.
  assert (W : forall r : Res (option Node * State),
             resAll (stays st1) r -> resAll (stays st) r).
  { intros r H. eapply resAll_weaken; [exact H|]. intros x Hx. lat. }
  apply W.
  destruct (keq _ T_SECTION); [apply parseSection_keeps|].
  destruct (keq _ T_ADMONITION).
  { unfold parseAdmonitionParagraph. cbn [take]. apply inline_keeps. intros c. lat. }
  destruct (_ || _ || _); [apply parseList_keeps|].
  destruct (keq _ T_TABLE_DELIM).
  { eapply resAll_weaken; [apply returns_resAll, parseTable_consumes|].
    intros x [Hx _]. exact Hx. }
  destruct (isDelim _); [apply parseDelimited_keeps|].
  destruct (keq _ T_BLOCK_MACRO); [unfold parseBlockMacro; cbn [take]; lat|].
  destruct (keq _ T_DIRECTIVE); [apply parseDirective_keeps|].
  destruct (_ || _ || _); [|apply paragraph_keeps].
  unfold parseBreakOrComment.
  repeat match goal with |- context [if ?c then _ else _] => destruct c end;
    cbn [take]; lat.
Qed.

End Keeps.

Lemma parseBlock_keeps fuel st : resAll (stays st) (parseBlock fuel st).
Proof.
  revert st. induction fuel as [|fuel IH]; intros st; [exact I|].
  cbn [parseBlock]. apply parseBlockBody_keeps. exact IH.
Qed.


(** ** More fuel than lines

    [recB] is [parseBlock] with any fuel, [recS] is [parseBlock] with
    the fuel [f]: where the first comes back on at most [f - 2] lines,
    the second comes back with the same. *)
Section Bound.

Variables recB recS : State -> Res (option Node * State).
Variable f : nat.
Hypothesis Hkeep : forall st, resAll (stays st) (recB st).
Hypothesis Hrec : forall st,
  (len st + 2 <= f)%nat -> halts (recB st) -> recS st = recB st.

Ltac no_halt := let H := fresh in intros H; exfalso; apply H; reflexivity.

Lemma bind_bound0 {A B} (mB mS : Res A) (k : A -> Res B) :
  (halts mB -> mS = mB) -> halts (bind mB k) -> bind mS k = bind mB k.
Proof.
  intros Hm. destruct mB as [a|e|]; cbn [bind].
  - rewrite Hm by discriminate. reflexivity.
  - rewrite Hm by discriminate. reflexivity.
  - no_halt.
Qed.

Lemma sectionBody_bound tlevel nB nS st acc :
  (len st + 2 <= f)%nat -> (len st < nS)%nat ->
  halts (sectionBody recB tlevel nB st acc) ->
  sectionBody recS tlevel nS st acc = sectionBody recB tlevel nB st acc.
Proof.
  revert nS st acc. induction nB as [|nB IH]; intros nS st acc Hf Hn; [no_halt|].
  destruct nS as [|nS]; [lia|]. cbn [sectionBody].
  destruct (atEnd st) eqn:E0; [reflexivity|].
  pose proof (later_skip st) as L1.
  remember (skipBlankAndLineComments st) as st1 eqn:S1.
  pose proof (later_len L1) as Ll1.
  destruct (atEnd st1) eqn:E1; [reflexivity|].
  destruct (_ && _) eqn:C1; [reflexivity|].
  destruct (keq _ T_TABLE_LINE) eqn:C2; [reflexivity|].
  destruct (_ && _ && _) eqn:C3; [reflexivity|].
  apply bind_bound with (Q := stays st1); [apply Hkeep | apply Hrec; lia |].
  intros [b st2] L2 E H. unfold stays in L2. cbn [snd] in L2.
  destruct b as [b|]; [|reflexivity]. cbv beta iota in H |- *.
  pose proof (later_len L2) as Ll2.
  destruct (Nat.eq_dec (len st2) (len st)) as [Q|Q]; [|apply IH; [lia | lia | exact H]].
  exfalso. apply H.
  assert (X : st1 = st) by (apply later_same; [assumption | lia]).
  assert (Y : st2 = st1) by (apply later_same; [assumption | lia]).
  subst st2.
  assert (K : skipBlankAndLineComments st1 = st1) by congruence.
  apply (spin (fun n a => sectionBody recB tlevel n st1 a) (fun a => a ++ [b]));
    [reflexivity|].
  intros n a. cbn [sectionBody]. rewrite E1, K, E1, C1, C2, C3, E. reflexivity.
Qed.

Lemma parseSection_bound nB nS m st :
  toks st <> [] -> (len st + 1 <= f)%nat -> (len st <= nS)%nat ->
  halts (parseSection recB nB m st) ->
  parseSection recS nS m st = parseSection recB nB m st.
Proof.
  intros Hne Hf Hn. unfold parseSection.
  pose proof (@take_len st Hne) as Hs.
  destruct (take st) as [t st1]. cbn [snd] in Hs.
  apply bind_bound0. apply sectionBody_bound; lia.
Qed.

Lemma containerBody_bound k nB nS st acc :
  (len st + 2 <= f)%nat -> (len st < nS)%nat ->
  halts (containerBody recB k nB st acc) ->
  containerBody recS k nS st acc = containerBody recB k nB st acc.
Proof.
  revert nS st acc. induction nB as [|nB IH]; intros nS st acc Hf Hn; [no_halt|].
  destruct nS as [|nS]; [lia|]. cbn [containerBody].
  destruct (atEnd st) eqn:E0; cbn [negb andb]; [reflexivity|].
  destruct (keq (laKind st 0) k) eqn:E1; cbn [negb]; [reflexivity|].
  pose proof (later_skip st) as L1.
  remember (skipBlankAndLineComments st) as st1 eqn:S1.
  pose proof (later_len L1) as Ll1.
  destruct (keq (laKind st1 0) k) eqn:E2; [reflexivity|].
  apply bind_bound with (Q := stays st1); [apply Hkeep | apply Hrec; lia |].
  intros [b st2] L2 E H. unfold stays in L2. cbn [snd] in L2.
  destruct b as [b|]; [|reflexivity]. cbv beta iota in H |- *.
  pose proof (later_len L2) as Ll2.
  destruct (Nat.eq_dec (len st2) (len st)) as [Q|Q]; [|apply IH; [lia | lia | exact H]].
  exfalso. apply H.
  assert (X : st1 = st) by (apply later_same; [assumption | lia]).
  assert (Y : st2 = st1) by (apply later_same; [assumption | lia]).
  subst st2.
  assert (K : skipBlankAndLineComments st1 = st1) by congruence.
  assert (E0' : atEnd st1 = false) by congruence.
  apply (spin (fun n a => containerBody recB k n st1 a) (fun a => a ++ [b]));
    [reflexivity|].
  intros n a. cbn [containerBody]. rewrite E0', E2. cbn [negb andb].
  rewrite K, E2, E. reflexivity.
Qed.

Lemma parseDelimited_bound nB nS m st :
  toks st <> [] -> (len st + 1 <= f)%nat -> (len st <= nS)%nat ->
  halts (parseDelimited recB nB m st) ->
  parseDelimited recS nS m st = parseDelimited recB nB m st.
Proof.
  intros Hne Hf Hn. unfold parseDelimited.
  assert (H0 : forall b st0,
             (if keq (laKind st 0) T_STEM_ATTR_LINE then (true, snd (take st))
              else (false, st)) = (b, st0) ->
             (len (snd (take st0)) < len st)%nat).
  { intros b st0 E. destruct (keq (laKind st 0) T_STEM_ATTR_LINE).
    - injection E as _ <-. pose proof (@take_len st Hne) as Hs.
      pose proof (later_len (later_take (snd (take st)))) as Hl.
      unfold len, take in *. cbn [snd toks] in *. lia.
    - injection E as _ <-. apply take_len; exact Hne. }
  destruct (if keq (laKind st 0) T_STEM_ATTR_LINE then _ else _) as [isStem st0].
  pose proof (H0 isStem st0 eq_refl) as S1.
  destruct (take st0) as [open st1]. cbn [snd] in S1.
  destruct (_ || isStem); [reflexivity|].
  apply bind_bound0. apply containerBody_bound; lia.
Qed.

Lemma descItems_bound nB nS st items :
  (len st + 1 <= f)%nat -> (len st < nS)%nat ->
  halts (descItems recB nB st items) ->
  descItems recS nS st items = descItems recB nB st items.
Proof.
  revert nS st items. induction nB as [|nB IH]; intros nS st items Hf Hn; [no_halt|].
  destruct nS as [|nS]; [lia|]. cbn [descItems].
  destruct (keq (laKind st 0) T_DESC_TERM) eqn:E; cbn [negb]; [|reflexivity].
  destruct (take_consumes st E) as [L1 S1]; [discriminate|].
  destruct (take st) as [termTok st1]. cbn [snd] in L1, S1.
  apply bind_bound with (Q := fun x => later (snd x) st1).
  { destruct (_ && _); [|lat]. apply inline_keeps. intros c. lat. }
  { reflexivity. }
  intros [item st2] L2 _ H. cbn [snd] in L2. cbv beta iota in H |- *.
  pose proof (later_skip st2) as L3.
  remember (skipBlankAndLineComments st2) as st3 eqn:S3.
  revert H. apply bind_bound with (Q := fun x => later (snd x) st3).
  { destruct (keq _ T_LIST_CONT); [|lat].
    eapply resAll_bind with (Q1 := fun x => later (snd x) st3).
    - destruct (isDelim _).
      + eapply resAll_weaken; [apply parseDelimited_keeps; exact Hkeep|].
        intros x Hx. lat.
      + eapply resAll_weaken; [apply paragraph_keeps|]. intros x Hx. lat.
    - intros [cont st4] L4. destruct cont; lat. }
  { destruct (keq (laKind st3 0) T_LIST_CONT) eqn:C; [|reflexivity].
    apply bind_bound0.
    destruct (isDelim _) eqn:D; [|reflexivity].
    destruct (take_consumes st3 C) as [L4 S4]; [discriminate|].
    pose proof (later_skip (snd (take st3))) as L5.
    apply later_len in L2, L3, L5.
    apply parseDelimited_bound; [apply isDelim_head; exact D | lia | lia]. }
  intros [item' st5] L5 _ H. cbn [snd] in L5. cbv beta iota in H |- *.
  pose proof (later_skip st5) as L6.
  apply later_len in L2, L3, L5, L6.
  apply IH; [lia | lia | exact H].
Qed.

Lemma continuations_bound nB nS st item :
  (len st + 1 <= f)%nat -> (len st < nS)%nat ->
  halts (continuations recB nB st item) ->
  continuations recS nS st item = continuations recB nB st item.
Proof.
  revert nS st item. induction nB as [|nB IH]; intros nS st item Hf Hn; [no_halt|].
  destruct nS as [|nS]; [lia|]. cbn [continuations].
  destruct (keq (laKind st 0) T_LIST_CONT) eqn:E; [|reflexivity].
  destruct (take_consumes st E) as [L1 S1]; [discriminate|].
  pose proof (later_skip (snd (take st))) as L2.
  remember (skipBlankAndLineComments (snd (take st))) as st1 eqn:S.
  apply later_len in L2.
  apply bind_bound with (Q := stays st1); [apply Hkeep | apply Hrec; lia |].
  intros [cont st2] L3 _ H. unfold stays in L3. cbn [snd] in L3.
  cbv beta iota in H |- *.
  pose proof (later_skip st2) as L4. apply later_len in L3, L4.
  apply IH; [lia | lia | exact H].
Qed.

Lemma listItems_bound (ordered : bool) nB nS st items :
  (len st + 1 <= f)%nat -> (len st < nS)%nat ->
  halts (listItems recB ordered nB st items) ->
  listItems recS ordered nS st items = listItems recB ordered nB st items.
Proof.
  revert nS st items. induction nB as [|nB IH]; intros nS st items Hf Hn; [no_halt|].
  destruct nS as [|nS]; [lia|]. cbn [listItems].
  destruct (ordered && negb (keq (laKind st 0) T_OL_ITEM)) eqn:E1; [reflexivity|].
  destruct (negb ordered && negb (keq (laKind st 0) T_UL_ITEM)) eqn:E2; [reflexivity|].
  assert (Hne : toks st <> []).
  { destruct ordered; cbn [negb andb] in E1, E2.
    - apply negb_false_iff in E1. eapply head_true; eauto; discriminate.
    - apply negb_false_iff in E2. eapply head_true; eauto; discriminate. }
  pose proof (@take_len st Hne) as S1.
  destruct (take st) as [itTok st1]. cbn [snd] in S1.
  match goal with
  | |- context [if ?c then (?a, ?b) else (?a', ?b')] =>
      destruct (if c then (a, b) else (a', b')) as [item payload]
  end.
  rewrite inlineContent_eq. cbn [bind].
  pose proof (later_skip st1) as L2. apply later_len in L2.
  match goal with
  | |- halts (bind (continuations _ _ ?s ?i) _) -> _ =>
      apply bind_bound with (Q := stays s);
        [apply continuations_keeps; exact Hkeep
        | apply continuations_bound; lia |]
  end.
  intros [item' st2] L3 _ H. unfold stays in L3. cbn [snd] in L3.
  cbv beta iota in H |- *.
  pose proof (later_skip st2) as L4. apply later_len in L3, L4.
  apply IH; [lia | lia | exact H].
Qed.

Lemma parseList_bound nB nS m st :
  (len st + 1 <= f)%nat -> (len st < nS)%nat ->
  halts (parseList recB nB m st) ->
  parseList recS nS m st = parseList recB nB m st.
Proof.
  intros Hf Hn. unfold parseList. cbv zeta.
  apply bind_bound0.
  destruct (qeq _ _); [apply descItems_bound | apply listItems_bound]; assumption.
Qed.

Lemma directiveBody_bound nB nS st acc :
  (len st + 2 <= f)%nat -> (len st < nS)%nat ->
  halts (directiveBody recB nB st acc) ->
  directiveBody recS nS st acc = directiveBody recB nB st acc.
Proof.
  revert nS st acc. induction nB as [|nB IH]; intros nS st acc Hf Hn; [no_halt|].
  destruct nS as [|nS]; [lia|]. cbn [directiveBody].
  destruct (atEnd st) eqn:E0; [reflexivity|].
  pose proof (later_skip st) as L1.
  remember (skipBlankAndLineComments st) as st1 eqn:S1.
  pose proof (later_len L1) as Ll1.
  destruct (_ && _) eqn:C1; [reflexivity|].
  destruct (atEnd st1) eqn:E1; [reflexivity|].
  apply bind_bound with (Q := stays st1); [apply Hkeep | apply Hrec; lia |].
  intros [b st2] L2 E H. unfold stays in L2. cbn [snd] in L2.
  destruct b as [b|]; [|reflexivity]. cbv beta iota in H |- *.
  pose proof (later_len L2) as Ll2.
  destruct (Nat.eq_dec (len st2) (len st)) as [Q|Q]; [|apply IH; [lia | lia | exact H]].
  exfalso. apply H.
  assert (X : st1 = st) by (apply later_same; [assumption | lia]).
  assert (Y : st2 = st1) by (apply later_same; [assumption | lia]).
  subst st2.
  assert (K : skipBlankAndLineComments st1 = st1) by congruence.
  apply (spin (fun n a => directiveBody recB n st1 a) (fun a => a ++ [b]));
    [reflexivity|].
  intros n a. cbn [directiveBody]. rewrite E1, K, C1, E1, E. reflexivity.
Qed.

Lemma parseDirective_bound nB nS m st :
  toks st <> [] -> (len st + 1 <= f)%nat -> (len st <= nS)%nat ->
  halts (parseDirective recB nB m st) ->
  parseDirective recS nS m st = parseDirective recB nB m st.
Proof.
  intros Hne Hf Hn. unfold parseDirective.
  pose proof (@take_len st Hne) as Hs.
  destruct (take st) as [t st1]. cbn [snd] in Hs. cbv zeta.
  destruct (_ || _); [|reflexivity].
  apply bind_bound0. apply directiveBody_bound; lia.
Qed.

Lemma parseBlockBody_bound nB nS st :
  (len st + 1 <= f)%nat -> (len st < nS)%nat ->
  halts (parseBlockBody recB nB st) ->
  parseBlockBody recS nS st = parseBlockBody recB nB st.
Proof.
  intros Hf Hn. unfold parseBlockBody.
  destruct (meta_later st) as [L _].
  destruct (parseBlockMetaOpt st) as [meta st1]. cbn [fst snd] in *. cbv zeta.
  apply later_len in L.
  destruct (keq (laKind st1 0) T_SECTION) eqn:E1.
  { apply parseSection_bound; [|lia|lia]. eapply head_true; eauto; discriminate. }
  destruct (keq (laKind st1 0) T_ADMONITION); [reflexivity|].
  destruct (_ || _ || _); [apply parseList_bound; lia|].
  destruct (keq (laKind st1 0) T_TABLE_DELIM); [reflexivity|].
  destruct (isDelim (laKind st1 0)) eqn:E5.
  { apply parseDelimited_bound; [|lia|lia]. apply isDelim_head; exact E5. }
  destruct (keq (laKind st1 0) T_BLOCK_MACRO); [reflexivity|].
  destruct (keq (laKind st1 0) T_DIRECTIVE) eqn:E7.
  { apply parseDirective_bound; [|lia|lia]. eapply head_true; eauto; discriminate. }
  reflexivity.
Qed.

Lemma documentBody_bound nB nS st acc :
  (len st + 2 <= f)%nat -> (len st < nS)%nat ->
  halts (documentBody recB nB st acc) ->
  documentBody recS nS st acc = documentBody recB nB st acc.
Proof.
  revert nS st acc. induction nB as [|nB IH]; intros nS st acc Hf Hn; [no_halt|].
  destruct nS as [|nS]; [lia|]. cbn [documentBody].
  destruct (atEnd st) eqn:E0; [reflexivity|].
  pose proof (later_skip st) as L1.
  remember (skipBlankAndLineComments st) as st1 eqn:S1.
  pose proof (later_len L1) as Ll1.
  destruct (atEnd st1) eqn:E1; [reflexivity|].
  apply bind_bound with (Q := stays st1); [apply Hkeep | apply Hrec; lia |].
  intros [b st2] L2 E H. unfold stays in L2. cbn [snd] in L2.
  destruct b as [b|]; [|reflexivity]. cbv beta iota in H |- *.
  pose proof (later_len L2) as Ll2.
  destruct (Nat.eq_dec (len st2) (len st)) as [Q|Q]; [|apply IH; [lia | lia | exact H]].
  exfalso. apply H.
  assert (X : st1 = st) by (apply later_same; [assumption | lia]).
  assert (Y : st2 = st1) by (apply later_same; [assumption | lia]).
  subst st2.
  assert (K : skipBlankAndLineComments st1 = st1) by congruence.
  apply (spin (fun n a => documentBody recB n st1 a) (fun a => a ++ [b]));
    [reflexivity|].
  intros n a. cbn [documentBody]. rewrite E1, K, E1, E. reflexivity.
Qed.

End Bound.

(** [parseBlock] comes back with two more units of fuel than there are
    lines, or never. *)
Lemma parseBlock_bound fuel f st :
  (len st + 2 <= f)%nat -> halts (parseBlock fuel st) ->
  parseBlock f st = parseBlock fuel st.
Proof.
  revert f st. induction fuel as [|fuel IH]; intros f st Hf;
    [intros H; exfalso; apply H; reflexivity|].
  destruct f as [|f]; [lia|]. cbn [parseBlock].
  apply parseBlockBody_bound with (f := f); [apply parseBlock_keeps | | lia | lia].
  intros st' Hf'. apply IH. exact Hf'.
Qed.

Lemma parseDocument_bound fuel f st :
  (len st + 2 <= f)%nat -> halts (parseDocument fuel st) ->
  parseDocument f st = parseDocument fuel st.
Proof.
  intros Hf. unfold parseDocument. cbv zeta.
  pose proof (later_skip st) as L1.
  pose proof (parseDocumentHeader_later
                (kv (setPos (newNode K_Document) (mkPos 1 1)))
                (skipBlankAndLineComments st)) as L2.
  destruct (parseDocumentHeader _ _) as [kv' st'] eqn:E. cbn [snd] in L2.
  apply later_len in L1, L2.
  apply bind_bound0.
  apply documentBody_bound with (f := f); [apply parseBlock_keeps | | lia | lia].
  intros st0 H0. apply parseBlock_bound. exact H0.
Qed.

(** The parser with more fuel than lines. *)
Lemma parse_bound input fuel :
  (length (toks (setInput input)) + 2 <= fuel)%nat ->
  parse fuel input = parse (length (toks (setInput input)) + 2) input.
Proof.
  intros Hf.
  pose proof (@parse_mono (length (toks (setInput input)) + 2) fuel input Hf) as M.
  destruct (parse fuel input) as [d|e|] eqn:E.
  - rewrite <- E. symmetry. apply parseDocument_bound; [unfold len; lia|].
    unfold parse in E. unfold halts. rewrite E. discriminate.
  - rewrite <- E. symmetry. apply parseDocument_bound; [unfold len; lia|].
    unfold parse in E. unfold halts. rewrite E. discriminate.
  - destruct M as [M | M]; rewrite M; reflexivity.
Qed.

End BoundFacts.

Import BoundFacts.

(* ===================================================================== *)
(** * Texts of plain paragraphs *)
(* ===================================================================== *)

Module DocFacts.

Lemma splitAcc_line (sep : QChar) (x s cur : QString) :
  ~ In sep x -> splitAcc sep (x ++ s) cur = splitAcc sep s (cur ++ x).
Proof.
  revert cur. induction x as [|c x IH]; intros cur H; cbn [app splitAcc].
  - rewrite app_nil_r. reflexivity.
  - destruct (ceq c sep) eqn:E.
    + apply ceq_eq in E. subst c. exfalso. apply H. left. reflexivity.
    + rewrite IH by (intros Hin; apply H; right; exact Hin).
      rewrite <- app_assoc. reflexivity.
Qed.

Lemma splitAcc_join (sep : QChar) (x : QString) (r : list QString) (cur : QString) :
  Forall (fun l => ~ In sep l) (x :: r) ->
  splitAcc sep (join (x :: r) [sep]) cur = (cur ++ x) :: r.
Proof.
  revert x cur. induction r as [|y r IH]; intros x cur H;
    inversion H as [|? ? Hx Hr]; subst.
  - cbn [join]. rewrite <- (app_nil_r x) at 1. rewrite splitAcc_line by exact Hx.
    reflexivity.
  - change (join (x :: y :: r) [sep]) with (x ++ sep :: join (y :: r) [sep]).
    rewrite splitAcc_line by exact Hx. cbn [splitAcc]. rewrite ceq_refl.
    rewrite IH by exact Hr. reflexivity.
Qed.

Lemma split_join (ls : list QString) :
  ls <> [] -> Forall (fun l => ~ In newline l) ls ->
  split (join ls [newline]) newline = ls.
Proof.
  intros Hne H. destruct ls as [|x r]; [congruence|].
  unfold split. rewrite splitAcc_join by exact H. reflexivity.
Qed.

Lemma classify_kind_line (line : QString) (n m : Z) :
  Lexer.kind (classify line n) = Lexer.kind (classify line m).
Proof.
  unfold classify. cbv zeta.
  repeat match goal with
         | |- context [if ?c then _ else _] => destruct c
         | |- context [match ?x with Some _ => _ | None => _ end] => destruct x
         end; reflexivity.
Qed.

Lemma classifyLines_app (a b : list QString) (k : Z) :
  classifyLines (a ++ b) k
  = classifyLines a k ++ classifyLines b (k + Z.of_nat (length a)).
Proof.
  revert k. induction a as [|x a IH]; intros k; cbn [app classifyLines length].
  - rewrite Z.add_0_r. reflexivity.
  - rewrite IH. do 3 f_equal. lia.
Qed.


Lemma plain_space : plainText (qs " ").
Proof.
  intros c Hc Hs. destruct Hs as [<- | []]. cbn in Hc.
  repeat (destruct Hc as [Hc | Hc]; [discriminate Hc|]). exact Hc.
Qed.

Lemma plain_app (a b : QString) : plainText a -> plainText b -> plainText (a ++ b).
Proof.
  intros Ha Hb c Hc Hin. apply in_app_or in Hin as [Hin | Hin];
    [exact (Ha c Hc Hin) | exact (Hb c Hc Hin)].
Qed.

Lemma plain_join (ls : list QString) (sep : QString) :
  plainText sep -> Forall plainText ls -> plainText (join ls sep).
Proof.
  intros Hs H. induction H as [|x r Hx Hr IH]; [intros c _ []|].
  destruct r as [|y r]; [exact Hx|].
  change (join (x :: y :: r) sep) with (x ++ sep ++ join (y :: r) sep).
  auto using plain_app.
Qed.

Lemma plain_trimmed (l : QString) : plainText l -> plainText (trimmed l).
Proof.
  intros H c Hc Hin. apply (H c Hc). eapply In_Infix; [apply trimmed_Infix | exact Hin].
Qed.

Lemma plain_flowed (p : list QString) : Forall plainText p -> plainText (flowed p).
Proof.
  intros H. apply plain_join; [apply plain_space|].
  induction H; cbn [map]; constructor; auto using plain_trimmed.
Qed.

Lemma flowed_nonempty (x : QString) (r : list QString) :
  trimmed x <> [] -> flowed (x :: r) <> [].
Proof.
  intros H. unfold flowed. cbn [map]. destruct (map trimmed r) as [|y m]; [exact H|].
  change (join (trimmed x :: y :: m) (qs " "))
    with (trimmed x ++ qs " " ++ join (y :: m) (qs " ")).
  destruct (trimmed x); [congruence | discriminate].
Qed.

Lemma text_not_blank (l : QString) (n : Z) :
  Lexer.kind (classify l n) = T_TEXT -> trimmed l <> [].
Proof.
  intros K E. apply trimmed_nil in E. rewrite <- isBlank_forallb in E.
  apply (classify_blank_iff l n) in E. congruence.
Qed.

Lemma text_tokens (p : list QString) (k : Z) :
  Forall (fun l => Lexer.kind (classify l 0) = T_TEXT /\ plainText l /\
                   ~ In newline l) p ->
  Forall textLine (classifyLines p k).
Proof.
  intros H. revert k. induction H as [|l r [K _] _ IH]; intros k;
    cbn [classifyLines]; constructor; [|apply IH].
  split; [rewrite (classify_kind_line l (k + 1) 0); exact K|].
  rewrite (proj1 (classify_raw l (k + 1))). exact (text_not_blank l 0 K).
Qed.

Lemma trimmed_tokens (p : list QString) (k : Z) :
  map (fun t => trimmed (raw t)) (classifyLines p k) = map trimmed p.
Proof.
  rewrite <- (classifyLines_raw p k) at 2. rewrite map_map. reflexivity.
Qed.

(** [parseBlock] on the lines of a plain paragraph. *)
Lemma parseBlock_paragraph (f : nat) (p : list QString) (k : Z)
    (rest : list LineTok) (e : Z) :
  plainLines p -> kindOfFirst rest <> T_TEXT ->
  parseBlock (S f) (mkState (classifyLines p k ++ rest) e)
  = Ok (Some (plainParagraph (k + 1) (flowed p)), mkState rest e).
Proof.
  intros [Hne [Hi Hp]] Hr. destruct p as [|x r]; [congruence|]. cbn [hd] in Hi.
  pose proof (text_tokens k Hp) as T.
  pose proof (trimmed_tokens (x :: r) k) as M.
  cbn [classifyLines] in *. cbn [app].
  set (t := classify x (k + 1)) in *.
  set (l := classifyLines r (k + 1)) in *.
  inversion T as [|? ? [K N] _]; subst.
  assert (R : raw t = x) by apply classify_raw.
  assert (Ln : lineNo t = k + 1) by apply classify_raw.
  cbn [parseBlock]. unfold parseBlockBody.
  rewrite meta_none
    by (unfold metaKind, laKind, la, peek; cbn [toks nth]; rewrite K; reflexivity).
  unfold laKind, la, peek. cbn [toks nth]. rewrite K.
  cbn [keq kindCode Z.eqb Pos.eqb orb isDelim].
  rewrite paragraph_run; [|exact T | rewrite R, Hi; apply orb_true_r | exact Hr].
  rewrite M. fold (flowed (x :: r)). rewrite Ln.
  unfold inlineNodes. rewrite plain_inline.
  2:{ apply plain_flowed. eapply Forall_impl; [|exact Hp]. intros a [_ [Ha _]]. exact Ha. }
  unfold pushText. rewrite ?R in N.
  rewrite (isEmpty_false (@flowed_nonempty x r N)). reflexivity.
Qed.


Lemma skipToks_blank (bl l : list LineTok) :
  Forall (fun t => Lexer.kind t = T_BLANK) bl -> skipToks (bl ++ l) = skipToks l.
Proof.
  intros H. induction H as [|t bl K _ IH]; [reflexivity|].
  cbn [app skipToks]. rewrite K. exact IH.
Qed.

Lemma skipToks_text (p : list QString) (k : Z) (rest : list LineTok) :
  plainLines p -> skipToks (classifyLines p k ++ rest) = classifyLines p k ++ rest.
Proof.
  intros [Hne [_ Hp]]. pose proof (text_tokens k Hp) as T.
  destruct p as [|x r]; [congruence|]. cbn [classifyLines app] in *.
  inversion T as [|? ? [K _] _]; subst. cbn [skipToks]. rewrite K. reflexivity.
Qed.

(** The tokens of a text of paragraphs: those of the first paragraph,
    and what follows them. *)
Lemma paragraphText_tokens (p : list QString) (r : list (list QString)) (k : Z) :
  exists bl,
    classifyLines (paragraphText (p :: r)) k
    = classifyLines p k
      ++ bl ++ classifyLines (paragraphText r)
                             (k + Z.of_nat (length p) + Z.of_nat (length bl)) /\
    Forall (fun t => Lexer.kind t = T_BLANK) bl /\
    (bl = [] -> r = []) /\ (length bl <= 1)%nat /\ (r <> [] -> length bl = 1%nat).
Proof.
  destruct r as [|q r].
  - exists []. cbn [paragraphText classifyLines app length]. rewrite app_nil_r.
    repeat split; auto; congruence.
  - exists [classify [] (k + Z.of_nat (length p) + 1)].
    change (paragraphText (p :: q :: r)) with (p ++ [] :: paragraphText (q :: r)).
    rewrite classifyLines_app. cbn [classifyLines app length].
    repeat split; auto; discriminate.
Qed.

Lemma documentBody_paragraphs (f n : nat) (ps : list (list QString)) (k : Z)
    (bl : list LineTok) (e : Z) (acc : list Node) :
  Forall plainLines ps -> (length ps < n)%nat ->
  Forall (fun t => Lexer.kind t = T_BLANK) bl ->
  documentBody (parseBlock (S f)) n
    (mkState (bl ++ classifyLines (paragraphText ps) k) e) acc
  = Ok (acc ++ paragraphsAt k ps).
Proof.
  intros H. revert n k bl acc. induction H as [|p r Hp Hr IH]; intros n k bl acc Hn Hb.
  - destruct n as [|n]; [cbn in Hn; lia|]. cbn [paragraphText classifyLines paragraphsAt].
    rewrite !app_nil_r. cbn [documentBody].
    unfold skipBlankAndLineComments. cbn [toks eofLine].
    rewrite <- (app_nil_r bl) at 2. rewrite skipToks_blank by exact Hb.
    cbn [skipToks].
    destruct (atEnd (mkState bl e)); reflexivity.
  - destruct n as [|n]; [cbn in Hn; lia|]. cbn [length] in Hn.
    destruct (paragraphText_tokens p r k) as [bl' [E [Hb' [_ [_ Hl]]]]].
    rewrite E. cbn [paragraphsAt documentBody].
    assert (A : atEnd (mkState (bl ++ classifyLines p k
                                   ++ bl' ++ classifyLines (paragraphText r)
                                        (k + Z.of_nat (length p) + Z.of_nat (length bl')))
                               e) = false).
    { destruct Hp as [Hne [_ Hp]]. pose proof (text_tokens k Hp) as T.
      destruct p as [|x p]; [congruence|]. cbn [classifyLines app] in *.
      inversion T as [|? ? [K _] _]; subst.
      unfold atEnd, peek. cbn [toks]. destruct Hb as [|b bl Kb _]; cbn [app nth].
      - rewrite K. reflexivity.
      - rewrite Kb. reflexivity. }
    rewrite A. unfold skipBlankAndLineComments. cbn [toks eofLine].
    rewrite skipToks_blank by exact Hb. rewrite skipToks_text by exact Hp.
    assert (A' : atEnd (mkState (classifyLines p k
                                   ++ bl' ++ classifyLines (paragraphText r)
                                        (k + Z.of_nat (length p) + Z.of_nat (length bl')))
                                e) = false).
    { specialize (A). clear A.
      destruct Hp as [Hne [_ Hp]]. pose proof (text_tokens k Hp) as T.
      destruct p as [|x p]; [congruence|]. cbn [classifyLines app] in *.
      inversion T as [|? ? [K _] _]; subst.
      unfold atEnd, peek. cbn [toks nth]. rewrite K. reflexivity. }
    rewrite A'. rewrite parseBlock_paragraph; [|exact Hp|].
    2:{ destruct Hb' as [|b bl' Kb _]; cbn [app kindOfFirst].
        - destruct r as [|q r]; [cbn; discriminate|]. specialize (Hl ltac:(discriminate)).
          discriminate Hl.
        - rewrite Kb. discriminate. }
    cbn [bind]. rewrite IH; [|lia|exact Hb'].
    rewrite <- app_assoc. cbn [app]. do 3 f_equal.
    destruct r as [|q r]; [reflexivity|].
    rewrite (Hl ltac:(discriminate)). reflexivity.
Qed.

Lemma no_revision_header (kv : QMap) (t : LineTok) (l : list LineTok) (e : Z) :
  Lexer.kind t = T_TEXT -> plainText (raw t) ->
  startsWith (trimmed (raw t)) (qs "v") = false ->
  parseDocumentHeader kv (mkState (t :: l) e) = (kv, mkState (t :: l) e).
Proof.
  intros K P V.
  assert (C : contains (trimmed (raw t)) "<"%char = false).
  { unfold contains. apply Z.leb_gt. apply indexOfC_absent; [lia|].
    apply plain_trimmed; [exact P|]. unfold markupChars. cbn. auto. }
  assert (S : startsWith (trimmed (raw t)) (qs ":") = false).
  { destruct (startsWith (trimmed (raw t)) (qs ":")) eqn:S; [|reflexivity].
    exfalso. apply (plain_trimmed P (c := ":"%char)); [unfold markupChars; cbn; auto|].
    eapply startsWith_In; [exact S | left; reflexivity]. }
  unfold parseDocumentHeader, laKind, la, peek.
  repeat progress (rewrite ?K, ?C, ?V, ?S;
                   cbn [toks nth eofLine keq kindCode Z.eqb Pos.eqb andb negb
                        headerAttrs];
                   cbv iota beta zeta).
  reflexivity.
Qed.

Lemma paragraphs_output (opts : Options) (k : Z) (ps : list (list QString)) :
  Forall2 (fun c o => emitNode opts c 0 = Out o) (paragraphsAt k ps)
          (map (fun p => escText (flowed p) ++ [newline]) ps).
Proof.
  revert k. induction ps as [|p r IH]; intros k; cbn [paragraphsAt map]; constructor.
  - unfold plainParagraph, paragraphOf. rewrite emitNode_eq.
    cbn [Ast.kind]. unfold emitParagraph. cbn [children emitInlineSeq].
    rewrite emitInline_eq. cbn [Ast.kind text andThen]. rewrite app_nil_r.
    reflexivity.
  - apply IH.
Qed.


Lemma paragraphText_lines (ps : list (list QString)) :
  Forall plainLines ps -> Forall (fun l => ~ In newline l) (paragraphText ps).
Proof.
  intros H. induction H as [|p r [_ [_ Hp]] Hr IH]; [constructor|].
  assert (P : Forall (fun l => ~ In newline l) p).
  { eapply Forall_impl; [|exact Hp]. intros a [_ [_ Ha]]. exact Ha. }
  destruct r as [|q r]; [exact P|].
  change (paragraphText (p :: q :: r)) with (p ++ [] :: paragraphText (q :: r)).
  apply Forall_app. split; [exact P|]. constructor; [intros []|exact IH].
Qed.

(** The parser on a text of plain paragraphs. *)
Lemma parse_paragraphs (ps : list (list QString)) (fuel : nat) :
  ps <> [] -> Forall plainLines ps ->
  startsWith (trimmed (hd [] (hd [] ps))) (qs "v") = false ->
  (length ps < fuel)%nat ->
  parse fuel (join (paragraphText ps) [newline]) = Ok (docOf (paragraphsAt 0 ps)).
Proof.
  intros Hne H V Hf. destruct ps as [|p r]; [congruence|]. cbn [hd] in V.
  destruct fuel as [|f]; [lia|].
  pose proof (paragraphText_lines H) as Hl.
  inversion H as [|? ? Hp Hr]; subst.
  destruct (paragraphText_tokens p r 0) as [bl [E _]].
  pose proof Hp as [Hn [_ Hx]]. destruct p as [|x p]; [congruence|]. cbn [hd] in V.
  inversion Hx as [|? ? [K [P _]] _]; subst.
  unfold parse, setInput. rewrite split_join; [|destruct r; discriminate|exact Hl].
  set (e := Z.of_nat (length (paragraphText ((x :: p) :: r))) + 1).
  pose proof (@documentBody_paragraphs f (S f) ((x :: p) :: r) 0 [] e [] H Hf
                (Forall_nil _)) as D.
  cbn [app] in D. unfold parseDocument. cbv zeta.
  unfold skipBlankAndLineComments. cbn [toks eofLine].
  rewrite E in D |- *. rewrite skipToks_text by exact Hp.
  cbn [classifyLines app] in D |- *.
  rewrite no_revision_header;
    [| rewrite (classify_kind_line x (0 + 1) 0); exact K
     | rewrite (proj1 (classify_raw x (0 + 1))); exact P
     | rewrite (proj1 (classify_raw x (0 + 1))); exact V ].
  rewrite D. reflexivity.
Qed.

(** The generator on the tree of plain paragraphs. *)
Lemma generate_paragraphs (opts : Options) (ps : list (list QString))
    (pre : QString) (k : Z) :
  emitPreamble opts = Out pre ->
  generate opts (docOf (paragraphsAt k ps))
  = Out (pre ++ concat (map (fun p => escText (flowed p) ++ [newline; newline]) ps)).
Proof.
  intros P.
  rewrite (@generate_ok opts (docOf (paragraphsAt k ps)) pre
             (map (fun p => escText (flowed p) ++ [newline]) ps)
             eq_refl P (paragraphs_output opts k ps)).
  unfold titleLine, linesOf. cbn [docOf kv value isEmpty negb app].
  rewrite map_map. do 3 f_equal. apply map_ext. intros a.
  rewrite <- app_assoc. reflexivity.
Qed.

End DocFacts.
Import DocFacts.

(* ===================================================================== *)
(** * The lines a block takes *)
(* ===================================================================== *)

Module ProgressFacts.

Ltac held := unfold stays, consumes in *; cbn [snd resAll] in *;
  eauto 8 using later_refl, later_trans, later_take, later_skip.

Lemma classifyLines_lexed (ls : list QString) (i : Z) :
  Forall lexed (classifyLines ls i).
Proof.
  revert i. induction ls as [|l r IH]; intros i; cbn [classifyLines]; constructor;
    [exists l, (i + 1); reflexivity | apply IH].
Qed.

Lemma later_lexed (st : State) (input : QString) :
  later st (setInput input) -> Forall lexed (toks st).
Proof.
  intros [[pre H] _]. pose proof (classifyLines_lexed (split input newline) 0) as F.
  unfold setInput in H. cbn [toks] in H. rewrite H in F.
  apply Forall_app in F. tauto.
Qed.

Lemma lexed_text (t : LineTok) :
  lexed t -> Lexer.kind t = T_TEXT -> trimmed (raw t) <> [].
Proof.
  intros [line [n ->]] K E. rewrite (proj1 (classify_raw line n)) in E.
  apply trimmed_nil in E. rewrite <- isBlank_forallb in E.
  apply (classify_blank_iff line n) in E. congruence.
Qed.

Section Takes.

Variable rec : State -> Res (option Node * State).
Hypothesis Hrec : forall st, resAll (stays st) (rec st).

Lemma parseSection_takes n m st :
  toks st <> [] -> resAll (consumes st) (parseSection rec n m st).
Proof.
  intros Hne. unfold parseSection.
  pose proof (later_take st) as L. pose proof (@take_len st Hne) as Hs.
  destruct (take st) as [t st1]. cbn [snd] in L, Hs.
  eapply resAll_bind; [apply sectionBody_keeps; exact Hrec|].
  intros [body st2] L2. held. split; [eauto using later_trans|].
  apply later_len in L2. lia.
Qed.

Lemma parseDelimited_takes n m st :
  toks st <> [] -> resAll (consumes st) (parseDelimited rec n m st).
Proof.
  intros Hne. unfold parseDelimited.
  assert (H0 : forall b st0,
             (if keq (laKind st 0) T_STEM_ATTR_LINE then (true, snd (take st))
              else (false, st)) = (b, st0) ->
             later (snd (take st0)) st /\ (len (snd (take st0)) < len st)%nat).
  { intros b st0 E. destruct (keq (laKind st 0) T_STEM_ATTR_LINE).
    - injection E as _ <-. pose proof (later_take st) as L.
      pose proof (@take_len st Hne) as Hs. pose proof (later_take (snd (take st))) as L'.
      split; [eapply later_trans; eauto|]. apply later_len in L'.
      unfold len, take in *. cbn [snd toks] in *. lia.
    - injection E as _ <-. split; [apply later_take | apply take_len; exact Hne]. }
  destruct (if keq (laKind st 0) T_STEM_ATTR_LINE then _ else _) as [isStem st0].
  destruct (H0 isStem st0 eq_refl) as [L1 S1].
  destruct (take st0) as [open st1]. cbn [snd] in L1, S1.
  destruct (_ || isStem).
  - pose proof (rawLines_later (laKind st0 0) (toks st1) []) as R.
    destruct (rawLines _ _ _) as [ls l]. cbn [snd] in R.
    apply expect_keeps. intros st' L'.
    assert (L2 : later (mkState l (eofLine st1)) st1) by (apply later_mk; exact R).
    held. split; [eauto using later_trans|]. apply later_len in L', L2. lia.
  - eapply resAll_bind; [apply containerBody_keeps; exact Hrec|].
    intros [body st2] L2. apply expect_keeps. intros st' L'.
    held. split; [eauto using later_trans|]. apply later_len in L', L2. lia.
Qed.

Lemma parseDirective_takes n m st :
  toks st <> [] -> resAll (consumes st) (parseDirective rec n m st).
Proof.
  intros Hne. unfold parseDirective.
  pose proof (later_take st) as L. pose proof (@take_len st Hne) as Hs.
  destruct (take st) as [t st1]. cbn [snd] in L, Hs. cbv zeta.
  destruct (_ || _); [|held; split; assumption].
  eapply resAll_bind; [apply directiveBody_keeps; exact Hrec|].
  intros [body st2] L2. held. split; [eauto using later_trans|].
  apply later_len in L2. lia.
Qed.

Lemma listItems_takes (ordered : bool) n st items :
  keq (laKind st 0) (if ordered then T_OL_ITEM else T_UL_ITEM) = true ->
  resAll (consumes st) (listItems rec ordered n st items).
Proof.
  intros E. destruct n as [|n]; [exact I|]. cbn [listItems].
  assert (Hne : toks st <> [])
    by (eapply head_true; [exact E | destruct ordered; discriminate]).
  replace (ordered && negb (keq (laKind st 0) T_OL_ITEM)) with false
    by (destruct ordered; [rewrite E|]; reflexivity).
  replace (negb ordered && negb (keq (laKind st 0) T_UL_ITEM)) with false
    by (destruct ordered; [|rewrite E]; reflexivity).
  pose proof (later_take st) as L1. pose proof (@take_len st Hne) as S1.
  destruct (take st) as [itTok st1]. cbn [snd] in L1, S1.
  match goal with
  | |- context [if ?c then (?a, ?b) else (?a', ?b')] =>
      destruct (if c then (a, b) else (a', b')) as [item payload]
  end.
  apply inline_keeps. intros c.
  eapply resAll_bind; [apply continuations_keeps; exact Hrec|].
  intros [item' st2] L2.
  eapply resAll_weaken; [apply listItems_keeps; exact Hrec|].
  intros x Hx. held. pose proof (later_skip st1) as L3. pose proof (later_skip st2) as L4.
  split; [eauto 8 using later_trans|].
  apply later_len in L2, L3, L4, Hx. lia.
Qed.

Lemma descItems_takes n st items :
  keq (laKind st 0) T_DESC_TERM = true ->
  resAll (consumes st) (descItems rec n st items).
Proof.
  intros E. destruct n as [|n]; [exact I|]. cbn [descItems]. rewrite E. cbn [negb].
  destruct (take_consumes st E) as [L1 S1]; [discriminate|].
  destruct (take st) as [termTok st1]. cbn [snd] in L1, S1.
  eapply resAll_bind with (Q1 := fun x => later (snd x) st1).
  { destruct (_ && _); [|held]. apply inline_keeps. intros c. held. }
  intros [item st2] L2. cbn [snd] in L2.
  eapply resAll_bind with (Q1 := fun x => later (snd x) st1).
  { destruct (keq _ T_LIST_CONT); [|held].
    eapply resAll_bind with (Q1 := fun x => later (snd x) st1).
    - destruct (isDelim _).
      + eapply resAll_weaken; [apply parseDelimited_keeps; exact Hrec|].
        intros x Hx. held.
      + eapply resAll_weaken; [apply paragraph_keeps|]. intros x Hx. held.
    - intros [cont st3] L3. destruct cont; held. }
  intros [item' st3] L3. cbn [snd] in L3.
  eapply resAll_weaken; [apply descItems_keeps; exact Hrec|].
  intros x Hx. held. pose proof (later_skip st3) as L4.
  split; [eauto 8 using later_trans|].
  apply later_len in L3, L4, Hx. lia.
Qed.

Lemma parseList_takes n m st :
  keq (laKind st 0) T_UL_ITEM || keq (laKind st 0) T_OL_ITEM
  || keq (laKind st 0) T_DESC_TERM = true ->
  resAll (consumes st) (parseList rec n m st).
Proof.
  intros Hk. unfold parseList. cbv zeta.
  set (ty := if keq (laKind st 0) T_DESC_TERM then qs "description"
             else if keq (laKind st 0) T_OL_ITEM then qs "ordered"
             else qs "unordered").
  assert (V : value (kv (kvInsert (blockAt K_List (lineNo (la st 0)) m) (qs "type") ty))
                    (qs "type") = ty) by reflexivity.
  rewrite V. clear V.
  eapply resAll_bind with (Q1 := consumes st); [|intros [items st1] C; exact C].
  destruct (keq (laKind st 0) T_DESC_TERM) eqn:D.
  - subst ty. change (qeq (qs "description") (qs "description")) with true. cbv iota.
    apply descItems_takes. exact D.
  - destruct (keq (laKind st 0) T_OL_ITEM) eqn:O.
    + subst ty. change (qeq (qs "ordered") (qs "description")) with false.
      change (qeq (qs "ordered") (qs "ordered")) with true. cbv iota.
      apply listItems_takes. exact O.
    + subst ty. change (qeq (qs "unordered") (qs "description")) with false.
      change (qeq (qs "unordered") (qs "ordered")) with false. cbv iota.
      apply listItems_takes. rewrite !orb_false_r in Hk. exact Hk.
Qed.

Lemma paragraph_takes m st t r :
  toks st = t :: r -> Lexer.kind t = T_TEXT -> trimmed (raw t) <> [] ->
  resAll (consumes st) (parseParagraphOrLiteral m st).
Proof.
  intros Ht Hk Hn. apply returns_resAll. unfold parseParagraphOrLiteral.
  destruct (paragraphLines _ (toks st) []) as [lines l] eqn:E.
  assert (L : consumes st (Some (newNode K_Paragraph), mkState l (eofLine st))).
  { unfold consumes. cbn [snd]. split.
    - apply later_mk.
      destruct (paragraphLines_later
                  (keq (laKind st 0) T_TEXT && negb (isEmpty (raw (la st 0)))
                   && isSpace (at_ (raw (la st 0)) 0)) (toks st) []) as [pre H].
      rewrite E in H. eauto.
    - unfold len. cbn [toks]. revert E. unfold laKind, la, peek. rewrite Ht.
      cbn [nth]. intros E.
      pose proof (@paragraphLines_shorter
                    (keq (Lexer.kind t) T_TEXT && negb (isEmpty (raw t))
                     && isSpace (at_ (raw t) 0)) t r [] Hk) as S.
      rewrite E in S. cbn [snd] in S. cbn [length].
      enough ((length l <= length r)%nat) by lia. apply S.
      rewrite Hk. cbn [keq kindCode Z.eqb]. rewrite Pos.eqb_refl. cbn [andb].
      destruct (negb (isEmpty (raw t)) && isSpace (at_ (raw t) 0)) eqn:F;
        [reflexivity|].
      rewrite (isEmpty_false Hn). reflexivity. }
  destruct (_ && _ && _); [exact L|].
  apply returns_inline. intros c. exact L.
Qed.

Lemma dispatch_takes n meta st :
  Forall lexed (toks st) ->
  resAll (fun x => later (snd x) st /\
                   (standstill (laKind st 0) = false ->
                    metaKind (laKind st 0) = false ->
                    (len (snd x) < len st)%nat))
    (let k := laKind st 0 in
     if keq k T_SECTION then parseSection rec n meta st
     else if keq k T_ADMONITION then parseAdmonitionParagraph meta st
     else if keq k T_UL_ITEM || keq k T_OL_ITEM || keq k T_DESC_TERM then
       parseList rec n meta st
     else if keq k T_TABLE_DELIM then parseTable meta st
     else if isDelim k then parseDelimited rec n meta st
     else if keq k T_BLOCK_MACRO then parseBlockMacro meta st
     else if keq k T_DIRECTIVE then parseDirective rec n meta st
     else if keq k T_THEMATIC || keq k T_PAGEBREAK || keq k T_LINE_COMMENT then
       parseBreakOrComment meta st
     else parseParagraphOrLiteral meta st).
Proof.
  intros F. cbv zeta.
  assert (W : forall r : Res (option Node * State),
             resAll (consumes st) r ->
             resAll (fun x => later (snd x) st /\
                              (standstill (laKind st 0) = false ->
                               metaKind (laKind st 0) = false ->
                               (len (snd x) < len st)%nat)) r).
  { intros r H. eapply resAll_weaken; [exact H|]. intros x [H1 H2]. auto. }
  destruct (keq (laKind st 0) T_SECTION) eqn:E1.
  { apply W, parseSection_takes. eapply head_true; eauto; discriminate. }
  destruct (keq (laKind st 0) T_ADMONITION) eqn:E2.
  { apply W, returns_resAll, parseAdmonitionParagraph_consumes.
    eapply head_true; eauto; discriminate. }
  destruct (keq (laKind st 0) T_UL_ITEM || keq (laKind st 0) T_OL_ITEM
            || keq (laKind st 0) T_DESC_TERM) eqn:E3.
  { apply W, parseList_takes. exact E3. }
  destruct (keq (laKind st 0) T_TABLE_DELIM) eqn:E4.
  { apply W, returns_resAll, parseTable_consumes. }
  destruct (isDelim (laKind st 0)) eqn:E5.
  { apply W, parseDelimited_takes. apply isDelim_head; exact E5. }
  destruct (keq (laKind st 0) T_BLOCK_MACRO) eqn:E6.
  { apply W, returns_resAll, parseBlockMacro_consumes.
    eapply head_true; eauto; discriminate. }
  destruct (keq (laKind st 0) T_DIRECTIVE) eqn:E7.
  { apply W, parseDirective_takes. eapply head_true; eauto; discriminate. }
  destruct (keq (laKind st 0) T_THEMATIC || keq (laKind st 0) T_PAGEBREAK
            || keq (laKind st 0) T_LINE_COMMENT) eqn:E8.
  { apply W, returns_resAll, parseBreakOrComment_consumes; exact E8. }
  destruct (toks st) as [|t r] eqn:T.
  { eapply resAll_weaken; [apply paragraph_keeps|]. intros x Hx.
    split; [exact Hx|]. intros S. exfalso. revert S.
    unfold standstill, laKind, la, peek. rewrite T. cbn. discriminate. }
  assert (Lx : lexed t) by (inversion F; assumption).
  destruct (keq (laKind st 0) T_TEXT) eqn:E9.
  { apply W. apply (@paragraph_takes meta st t r T).
    - apply keq_eq in E9. revert E9. unfold laKind, la, peek. rewrite T. auto.
    - apply lexed_text; [exact Lx|]. apply keq_eq in E9. revert E9.
      unfold laKind, la, peek. rewrite T. auto. }
  eapply resAll_weaken; [apply paragraph_keeps|]. intros x Hx.
  split; [exact Hx|]. intros S M. exfalso.
  destruct Lx as [line [i ->]].
  destruct (classify_kinds line i) as [K1 [K2 [K3 K4]]].
  revert E1 E2 E3 E4 E5 E6 E7 E8 E9 S M.
  unfold standstill, metaKind, laKind, la, peek. rewrite T. cbn [nth].
  destruct (Lexer.kind (classify line i)); cbn; try discriminate; try congruence.
Qed.

Lemma parseBlockBody_takes n st :
  Forall lexed (toks st) ->
  resAll (fun x => later (snd x) st /\
                   (standstill (laKind st 0) = false -> (len (snd x) < len st)%nat))
         (parseBlockBody rec n st).
Proof.
  intros F. unfold parseBlockBody.
  destruct (meta_later st) as [L [S1 S2]].
  destruct (parseBlockMetaOpt st) as [meta st1]. cbn [fst snd] in *.
  pose proof (later_len L) as Ll.
  assert (F1 : Forall lexed (toks st1)).
  { destruct L as [[pre H] _]. rewrite H in F. apply Forall_app in F. tauto. }
  eapply resAll_weaken; [apply (@dispatch_takes n meta st1 F1)|].
  intros x [Hx Hs]. split; [eauto using later_trans|]. intros R.
  destruct meta as [m|].
  - assert ((len st1 < len st)%nat) by (apply S1; discriminate).
    apply later_len in Hx. lia.
  - destruct (S2 eq_refl) as [-> M]. auto.
Qed.

End Takes.


Lemma parseBlock_takes fuel st :
  Forall lexed (toks st) ->
  resAll (fun x => later (snd x) st /\
                   (standstill (laKind st 0) = false -> (len (snd x) < len st)%nat))
         (parseBlock fuel st).
Proof.
  intros F. destruct fuel as [|f]; [exact I|]. cbn [parseBlock].
  apply parseBlockBody_takes; [apply parseBlock_keeps | exact F].
Qed.

(** At the end of the input, at a blank line, at a list continuation
    and at a table line [parseBlock] returns an empty paragraph and
    takes nothing. *)
Lemma parseBlock_stands (f : nat) (st : State) :
  standstill (laKind st 0) = true ->
  parseBlock (S f) st = Ok (Some (emptyParagraph (lineNo (la st 0)) None), st).
Proof.
  intros H.
  assert (M : metaKind (laKind st 0) = false).
  { revert H. unfold standstill, metaKind. destruct (laKind st 0); cbn; congruence. }
  cbn [parseBlock]. unfold parseBlockBody. rewrite (meta_none st M).
  assert (D : parseParagraphOrLiteral None st
              = Ok (Some (emptyParagraph (lineNo (la st 0)) None), st)).
  { unfold parseParagraphOrLiteral. revert H. unfold standstill, laKind, la, peek.
    destruct st as [l e]. cbn [toks eofLine]. destruct l as [|t r]; cbn [nth].
    - intros _. reflexivity.
    - intros H. cbn [paragraphLines].
      destruct (Lexer.kind t); cbn in H; try discriminate H; reflexivity. }
  revert H. unfold standstill. destruct (laKind st 0); cbn; try discriminate;
    intros _; exact D.
Qed.

End ProgressFacts.
Import ProgressFacts.

(* ===================================================================== *)
(** * The items of a list *)
(* ===================================================================== *)

Module ItemFacts.

Lemma Subseq_app_r {A} (a b c : list A) : Subseq a b -> Subseq a (b ++ c).
Proof. induction 1; cbn [app]; constructor; assumption. Qed.

Lemma Subseq_app_l {A} (a b p : list A) : Subseq a b -> Subseq a (p ++ b).
Proof. intros H. induction p; cbn [app]; [exact H | constructor; assumption]. Qed.

Lemma Subseq_snoc {A} (a b c : list A) (x : A) :
  Subseq a b -> Subseq (a ++ [x]) (b ++ x :: c).
Proof.
  induction 1; cbn [app].
  - apply Subseq_app_l. constructor. constructor.
  - constructor. assumption.
  - constructor. assumption.
Qed.

Lemma resAll_and {A} (P Q : A -> Prop) r :
  resAll P r -> resAll Q r -> resAll (fun x => P x /\ Q x) r.
Proof. destruct r; cbn; auto. Qed.

Lemma Forall_snoc1 {A} (P : A -> Prop) l x : Forall P l -> P x -> Forall P (l ++ [x]).
Proof. intros H1 H2. apply Forall_app. split; [exact H1 | constructor; [exact H2 | constructor]]. Qed.

Lemma Forall2_snoc {A B} (R : A -> B -> Prop) l l' x y :
  Forall2 R l l' -> R x y -> Forall2 R (l ++ [x]) (l' ++ [y]).
Proof. intros H1 H2. apply Forall2_app; [exact H1 | constructor; [exact H2 | constructor]]. Qed.

Section Items.
Variable rec : State -> Res (option Node * State).
Hypothesis Hrec : forall st, resAll (stays st) (rec st).

(** The continuations of an item add children and change nothing else. *)
Lemma continuations_same n st item :
  resAll (fun x => Ast.kind (fst x) = Ast.kind item /\ pos (fst x) = pos item /\
                   name (fst x) = name item /\ kv (fst x) = kv item /\
                   exists more, children (fst x) = children item ++ more)
         (continuations rec n st item).
Proof.
  revert st item. induction n as [|n IH]; intros st item; [exact I|].
  cbn [continuations]. destruct (keq _ T_LIST_CONT).
  - destruct (rec _) as [[cont st1]| |]; cbn [bind]; try exact I.
    eapply resAll_weaken; [apply IH|].
    intros [x st2] [K [P [N [V [more M]]]]]. cbn [fst] in *.
    destruct cont as [c|];
      cbn [add setChildren Ast.kind children pos name kv] in *.
    + repeat split; auto. exists ([c] ++ more). rewrite M, <- app_assoc. reflexivity.
    + repeat split; auto. exists more. exact M.
  - cbn [resAll fst]. repeat split; auto. exists []. now rewrite app_nil_r.
Qed.

Lemma listItems_of (ordered : bool) n st0 st items ts pre :
  toks st0 = pre ++ toks st -> Subseq ts pre ->
  Forall (fun t => Lexer.kind t = if ordered then T_OL_ITEM else T_UL_ITEM) ts ->
  Forall2 itemOf ts items ->
  resAll (fun x => exists ts',
            Subseq ts' (toks st0) /\
            Forall (fun t => Lexer.kind t = if ordered then T_OL_ITEM else T_UL_ITEM)
                   ts' /\
            Forall2 itemOf ts' (fst x))
         (listItems rec ordered n st items).
Proof.
  revert st items ts pre. induction n as [|n IH]; intros st items ts pre T S K F;
    [exact I|].
  assert (Done : exists ts',
             Subseq ts' (toks st0) /\
             Forall (fun t => Lexer.kind t = if ordered then T_OL_ITEM else T_UL_ITEM)
                    ts' /\
             Forall2 itemOf ts' items).
  { exists ts. rewrite T. split; [apply Subseq_app_r; exact S | split; assumption]. }
  cbn [listItems].
  destruct (ordered && negb (keq (laKind st 0) T_OL_ITEM)) eqn:C1; [exact Done|].
  destruct (negb ordered && negb (keq (laKind st 0) T_UL_ITEM)) eqn:C2; [exact Done|].
  clear Done.
  assert (E : keq (laKind st 0) (if ordered then T_OL_ITEM else T_UL_ITEM) = true).
  { destruct ordered; cbn [negb andb] in C1, C2; apply negb_false_iff; assumption. }
  assert (Hne : toks st <> [])
    by (eapply head_true; [exact E | destruct ordered; discriminate]).
  destruct (toks st) as [|t r] eqn:Ts; [congruence|]. clear Hne.
  assert (Kt : Lexer.kind t = if ordered then T_OL_ITEM else T_UL_ITEM).
  { apply keq_eq in E. revert E. unfold laKind, la, peek. rewrite Ts. auto. }
  unfold take, peek. rewrite Ts. cbn [nth tl]. cbv zeta.
  match goal with
  | |- context [if ?c then (?a, ?b) else (?a', ?b')] =>
      set (ip := if c then (a, b) else (a', b'));
      assert (Hip : Ast.kind (fst ip) = K_ListItem /\ children (fst ip) = [] /\
                    pos (fst ip) = mkPos (lineNo t) 1 /\
                    value (kv (fst ip)) (qs "markerLevel") = number (level t) /\
                    (boxed (rest t) = true ->
                     value (kv (fst ip)) (qs "check") = midn (rest t) 1 1) /\
                    snd ip = itemText t)
  end.
  { subst ip. unfold itemText, boxed.
    destruct (startsWith (rest t) (qs "[*]") || startsWith (rest t) (qs "[x]")
              || startsWith (rest t) (qs "[ ]"));
      cbn [fst snd kvInsert setPos newNode Ast.kind children pos kv];
      repeat split; try reflexivity; try discriminate. }
  destruct ip as [item payload]. cbn [fst snd] in Hip.
  destruct Hip as [Ki [Ci [Pi [Mi [Bi Pl]]]]]. subst payload.
  rewrite inlineContent_eq. cbn [bind].
  eapply resAll_bind;
    [apply resAll_and; [apply continuations_same | apply continuations_keeps; exact Hrec]|].
  intros [item' st2] [[K' [P' [N' [V' [more M]]]]] L2]. cbn [fst snd] in *.
  unfold stays in L2. cbn [snd] in L2.
  pose proof (later_skip (mkState r (eofLine st))) as L1.
  pose proof (later_skip st2) as L3.
  destruct (later_trans L3 (later_trans L2 L1)) as [[mid Hm] _]. cbn [toks] in Hm.
  cbn [add setChildren Ast.kind children pos name kv] in *.
  rewrite Ci in M. cbn [app] in M.
  apply IH with (ts := ts ++ [t]) (pre := pre ++ t :: mid).
  - rewrite T, Hm, <- app_assoc. reflexivity.
  - apply Subseq_snoc. exact S.
  - apply Forall_snoc1; assumption.
  - apply Forall2_snoc; [exact F|].
    unfold itemOf. rewrite K', P', V'. repeat split; auto.
    exists more. exact M.
Qed.

Lemma descItems_of n st0 st items ts pre :
  toks st0 = pre ++ toks st -> Subseq ts pre ->
  Forall (fun t => Lexer.kind t = T_DESC_TERM) ts ->
  Forall2 termOf ts items ->
  resAll (fun x => exists ts',
            Subseq ts' (toks st0) /\
            Forall (fun t => Lexer.kind t = T_DESC_TERM) ts' /\
            Forall2 termOf ts' (fst x))
         (descItems rec n st items).
Proof.
  revert st items ts pre. induction n as [|n IH]; intros st items ts pre T S K F;
    [exact I|].
  cbn [descItems].
  destruct (keq (laKind st 0) T_DESC_TERM) eqn:E; cbn [negb].
  2:{ exists ts. rewrite T. split; [apply Subseq_app_r; exact S | split; assumption]. }
  assert (Hne : toks st <> []) by (eapply head_true; [exact E | discriminate]).
  destruct (toks st) as [|t r] eqn:Ts; [congruence|]. clear Hne.
  assert (Kt : Lexer.kind t = T_DESC_TERM).
  { apply keq_eq in E. revert E. unfold laKind, la, peek. rewrite Ts. auto. }
  unfold take at 1. unfold peek. rewrite Ts. cbn [nth tl]. cbv zeta.
  set (st1 := mkState r (eofLine st)).
  match goal with
  | |- context [add ?b _] => set (base := b)
  end.
  assert (B : termOf t base) by (subst base; repeat split; reflexivity).
  set (Same := fun x : Node * State =>
                 (Ast.kind (fst x) = Ast.kind base /\ pos (fst x) = pos base /\
                  name (fst x) = name base /\ kv (fst x) = kv base) /\
                 later (snd x) st1).
  eapply resAll_bind with (Q1 := Same).
  { destruct (_ && _).
    - rewrite inlineContent_eq. cbn [bind resAll]. subst Same. cbn [fst snd].
      split; [repeat split | apply later_take].
    - cbn [resAll]. subst Same. cbn [fst snd].
      split; [repeat split | apply later_refl]. }
  intros [item st2] [[K2 [P2 [N2 V2]]] L2]. cbn [fst snd] in *.
  eapply resAll_bind with (Q1 := Same).
  { pose proof (later_skip st2) as L3.
    destruct (keq _ T_LIST_CONT).
    - pose proof (later_skip (snd (take (skipBlankAndLineComments st2)))) as L4.
      pose proof (later_take (skipBlankAndLineComments st2)) as L5.
      eapply resAll_bind with
        (Q1 := fun x : option Node * State => later (snd x) st1).
      + destruct (isDelim _).
        * eapply resAll_weaken; [apply parseDelimited_keeps; exact Hrec|].
          intros x Hx. unfold stays in Hx. eauto 8 using later_trans.
        * eapply resAll_weaken; [apply paragraph_keeps|].
          intros x Hx. unfold stays in Hx. eauto 8 using later_trans.
      + intros [cont st3] L6. cbn [snd] in L6. subst Same.
        destruct cont; cbn [resAll fst snd add setChildren Ast.kind pos name kv];
          (split; [repeat split; assumption | exact L6]).
    - cbn [resAll]. subst Same. cbn [fst snd].
      split; [repeat split; assumption | eauto using later_trans]. }
  intros [item' st3] [[K3 [P3 [N3 V3]]] L3]. cbn [fst snd] in *.
  pose proof (later_skip st3) as L4.
  destruct (later_trans L4 L3) as [[mid Hm] _]. subst st1. cbn [toks] in Hm.
  apply IH with (ts := ts ++ [t]) (pre := pre ++ t :: mid).
  - rewrite T, Hm, <- app_assoc. reflexivity.
  - apply Subseq_snoc. exact S.
  - apply Forall_snoc1; assumption.
  - apply Forall2_snoc; [exact F|].
    destruct B as [B1 [B2 [B3 [B4 B5]]]].
    unfold termOf. rewrite K3, P3, N3, V3. repeat split; assumption.
Qed.

Lemma Forall2_both {A B} (P : A -> Prop) (R : A -> B -> Prop) l l' :
  Forall P l -> Forall2 R l l' -> Forall2 (fun a b => P a /\ R a b) l l'.
Proof.
  intros H F. induction F; constructor; inversion H; subst; auto.
Qed.

Lemma parseList_listed n m st l st' :
  parseList rec n m st = Ok (Some l, st') ->
  exists ts, Subseq ts (toks st) /\
             Forall2 (listed (value (kv l) (qs "type"))) ts (children l).
Proof.
  unfold parseList. cbv zeta.
  set (ty := if keq (laKind st 0) T_DESC_TERM then qs "description"
             else if keq (laKind st 0) T_OL_ITEM then qs "ordered"
             else qs "unordered").
  assert (V : value (kv (kvInsert (blockAt K_List (lineNo (la st 0)) m) (qs "type") ty))
                    (qs "type") = ty) by reflexivity.
  rewrite V.
  destruct (qeq ty (qs "description")) eqn:D.
  - pose proof (@descItems_of n st st [] [] [] eq_refl (Subseq_nil _)
                  (Forall_nil _) (Forall2_nil _)) as R.
    destruct (descItems rec n st []) as [[items st1]| |]; cbn [bind]; try discriminate.
    intros H. injection H as <- <-. cbn [resAll fst] in R.
    destruct R as [ts [S [K F]]]. exists ts. split; [exact S|].
    match goal with |- Forall2 (listed ?v) _ _ => change v with ty end.
    cbn [setChildren children]. unfold listed. rewrite D.
    apply Forall2_both; assumption.
  - pose proof (@listItems_of (qeq ty (qs "ordered")) n st st [] [] [] eq_refl
                  (Subseq_nil _) (Forall_nil _) (Forall2_nil _)) as R.
    destruct (listItems rec _ n st []) as [[items st1]| |]; cbn [bind]; try discriminate.
    intros H. injection H as <- <-. cbn [resAll fst] in R.
    destruct R as [ts [S [K F]]]. exists ts. split; [exact S|].
    match goal with |- Forall2 (listed ?v) _ _ => change v with ty end.
    cbn [setChildren children]. unfold listed. rewrite D.
    apply Forall2_both; assumption.
Qed.

End Items.

End ItemFacts.
Import ItemFacts.

(* ===================================================================== *)
(** * The lines of the document header *)
(* ===================================================================== *)

Module FrontFacts.

Lemma skipToks_lead (b : list LineTok) (t : LineTok) (r : list LineTok) :
  forallb blankOrComment b = true -> Lexer.kind t = T_TEXT ->
  skipToks (b ++ t :: r) = t :: r.
Proof.
  intros H K. induction b as [|x b IH]; cbn [app skipToks].
  - rewrite K. reflexivity.
  - cbn [forallb] in H. apply andb_true_iff in H as [H1 H2].
    unfold blankOrComment in H1. rewrite H1. apply IH. exact H2.
Qed.

Ltac known :=
  repeat match goal with
         | H : Lexer.kind ?t = _ |- context [Lexer.kind ?t] => rewrite H
         | H : level ?t = _ |- context [level ?t] => rewrite H
         | H : contains ?a ?c && contains ?a ?d = _
           |- context [contains ?a ?c && contains ?a ?d] => rewrite H
         | H : startsWith ?a ?p = _ |- context [startsWith ?a ?p] => rewrite H
         end.

Ltac stages :=
  repeat progress
    (cbn [lead app toks nth eofLine tl snd fst keq kindCode Z.eqb Pos.eqb andb];
     unfold skipBlankAndLineComments;
     rewrite ?skipToks_lead by assumption;
     known; cbv iota beta zeta).

(** The revision line behind the title line and the author line. *)
Lemma revision_front (kv : QMap) (title : option LineTok) (b1 : list LineTok)
    (author : option LineTok) (b2 : list LineTok) (v : LineTok)
    (r : list LineTok) (e : Z) :
  optAll titleTok title -> optAll authorTok author ->
  forallb blankOrComment b1 = true -> forallb blankOrComment b2 = true ->
  Lexer.kind v = T_TEXT -> startsWith (trimmed (raw v)) (qs "v") = true ->
  (author = None -> angled v = false) ->
  exists kv',
    parseDocumentHeader kv
      (mkState (lead title b1 ++ lead author b2 ++ v :: r) e)
    = (let (kv'', l) :=
         headerAttrs (skipToks r)
           (insert (insert kv' (qs "revisionLine") (trimmed (raw v)))
                   (qs "revisionLineNo") (number (lineNo v))) in
       (kv'', mkState l e)).
Proof.
  intros Ht Ha B1 B2 K V A.
  destruct title as [tt|], author as [a|]; cbn [optAll] in Ht, Ha;
    unfold titleTok, authorTok in *;
    repeat match goal with H : _ /\ _ |- _ => destruct H end;
    try specialize (A eq_refl); unfold angled in *;
    unfold parseDocumentHeader, take, laKind, la, peek; stages;
    eexists; reflexivity.
Qed.


(** The attribute entries behind the title line, the author line and
    the revision line. *)
Lemma entries_front (kv : QMap) (title : option LineTok) (b1 : list LineTok)
    (author : option LineTok) (b2 : list LineTok) (rev : option LineTok)
    (b3 : list LineTok) (x : LineTok) (r : list LineTok) (e : Z) :
  optAll titleTok title -> optAll authorTok author -> optAll revisionTok rev ->
  forallb blankOrComment b1 = true -> forallb blankOrComment b2 = true ->
  forallb blankOrComment b3 = true ->
  Lexer.kind x = T_TEXT -> startsWith (trimmed (raw x)) (qs "v") = false ->
  (author = None -> rev = None -> angled x = false) ->
  exists kv',
    parseDocumentHeader kv
      (mkState (lead title b1 ++ lead author b2 ++ lead rev b3 ++ x :: r) e)
    = (let (kv'', l) := headerAttrs (x :: r) kv' in (kv'', mkState l e)).
Proof.
  intros Ht Ha Hr B1 B2 B3 K V A.
  destruct title as [tt|], author as [a|], rev as [v|]; cbn [optAll] in Ht, Ha, Hr;
    unfold titleTok, authorTok, revisionTok in *;
    repeat match goal with H : _ /\ _ |- _ => destruct H end;
    try specialize (A eq_refl eq_refl); unfold angled in *;
    try (destruct (contains (trimmed (raw v)) "<"%char
                   && contains (trimmed (raw v)) ">"%char) eqn:Av);
    unfold parseDocumentHeader, take, laKind, la, peek; stages;
    eexists; reflexivity.
Qed.

Lemma entry_front (t : LineTok) (name val : QString) :
  entryTok t name val -> startsWith (trimmed (raw t)) (qs "v") = false.
Proof. intros [_ [S _]]. rewrite S. reflexivity. Qed.

Lemma headerAttrs_entry (t : LineTok) (r : list LineTok) (kv : QMap)
    (name val : QString) :
  entryTok t name val ->
  headerAttrs (t :: r) kv
  = headerAttrs r (insert kv (qs "attr:" ++ trimmed name) (trimmed val)).
Proof.
  intros [K [S [N C]]]. cbn [headerAttrs]. rewrite K, keq_refl, S.
  cbn [startsWith qs list_ascii_of_string]. rewrite ceq_refl. cbn [andb].
  match goal with
  | |- context [negb (startsWith ?a ?b)] =>
      replace (startsWith a b) with true by (destruct a; reflexivity)
  end.
  cbn [negb]. unfold indexOfC.
  match goal with
  | |- context [indexOf ?s ?p 1] =>
      replace (indexOf s p 1) with (1 + size name)
        by (symmetry; apply (@indexOf_first ":"%char name val C))
  end.
  assert (P : 0 < size name).
  { destruct name; [congruence|]. unfold size. cbn [length]. lia. }
  replace (1 + size name <=? 1) with false by (symmetry; zdecide).
  replace (1 + size name - 1) with (size name) by lia.
  match goal with
  | |- context [midn ?s 1 (size name)] =>
      replace (midn s 1 (size name)) with name
        by (symmetry; apply entry_name)
  end.
  match goal with
  | |- context [mid ?s (1 + size name + 1)] =>
      replace (mid s (1 + size name + 1)) with val
        by (symmetry; apply entry_value)
  end.
  reflexivity.
Qed.

Lemma headerAttrs_stop (rest : list LineTok) (kv : QMap) :
  kindOfFirst rest <> T_TEXT -> headerAttrs rest kv = (kv, rest).
Proof.
  intros H. destruct rest as [|t r]; [reflexivity|]. cbn [headerAttrs].
  cbn [kindOfFirst] in H. apply keq_neq in H. rewrite H. reflexivity.
Qed.

(** The entries in front of an entry are taken. *)
Lemma headerAttrs_before (before l : list LineTok) (kv : QMap) :
  Forall (fun x => exists n v, entryTok x n v) before ->
  exists kv', headerAttrs (before ++ l) kv = headerAttrs l kv'.
Proof.
  intros H. revert kv. induction H as [|x r [n [v E]] _ IH]; intros kv.
  - exists kv. reflexivity.
  - cbn [app]. rewrite (@headerAttrs_entry x (r ++ l) kv n v E). apply IH.
Qed.

Lemma attr_key (a b : QString) : a <> b -> qeq (qs "attr:" ++ a) (qs "attr:" ++ b) = false.
Proof.
  intros H. destruct (qeq _ _) eqn:E; [|reflexivity].
  apply qeq_eq in E. apply app_inv_head in E. congruence.
Qed.

(** The entries behind an entry of another name leave its value. *)
Lemma headerAttrs_after (after rest : list LineTok) (kv : QMap) (name : QString) :
  Forall (fun x => exists n v, entryTok x n v /\ trimmed n <> trimmed name) after ->
  kindOfFirst rest <> T_TEXT ->
  exists kv', headerAttrs (after ++ rest) kv = (kv', rest) /\
              value kv' (qs "attr:" ++ trimmed name)
              = value kv (qs "attr:" ++ trimmed name).
Proof.
  intros H R. revert kv. induction H as [|x r [n [v [E D]]] _ IH]; intros kv.
  - exists kv. cbn [app]. split; [apply headerAttrs_stop; exact R | reflexivity].
  - cbn [app]. rewrite (@headerAttrs_entry x (r ++ rest) kv n v E).
    destruct (IH (insert kv (qs "attr:" ++ trimmed n) (trimmed v))) as [kv' [H1 H2]].
    exists kv'. split; [exact H1|]. rewrite H2.
    apply value_insert_other. apply attr_key. congruence.
Qed.

End FrontFacts.
Import FrontFacts.

(* ===================================================================== *)
(** * The height of the tree *)
(* ===================================================================== *)

Module HeightFacts.

Lemma Within_mono (d d' : nat) (n : Node) :
  (d <= d')%nat -> Within d n -> Within d' n.
Proof.
  revert n d'. induction d as [|d IH]; intros n d' L H; inversion H; subst.
  destruct d' as [|d']; [lia|]. constructor.
  eapply Forall_impl; [|eassumption]. intros x Hx. apply IH; [lia | exact Hx].
Qed.

Lemma Within_all (d d' : nat) (l : list Node) :
  (d <= d')%nat -> Forall (Within d) l -> Forall (Within d') l.
Proof.
  intros L H. eapply Forall_impl; [|exact H]. intros x. apply Within_mono, L.
Qed.

Lemma Within_leaf (d : nat) (n : Node) : children n = [] -> Within (S d) n.
Proof. intros H. constructor. rewrite H. constructor. Qed.

Lemma pushText_within k out t l :
  Forall (Within (S k)) out -> Forall (Within (S k)) (pushText out t l).
Proof.
  intros H. unfold pushText. destruct (isEmpty t); [exact H|].
  apply Forall_app. split; [exact H|]. constructor; [|constructor].
  apply Within_leaf. reflexivity.
Qed.

Lemma scan_within rec l d k :
  (forall x e, optAll (Forall (Within k)) (rec x e)) ->
  forall g s i out acc,
    Forall (Within (S k)) out ->
    optAll (Forall (Within (S k))) (scan rec l d g s i out acc).
Proof.
  intros Hrec. induction g as [|g IH]; intros s i out acc Ho; [exact I|].
  cbn [scan]. destruct (i <? size s); [|apply pushText_within, Ho].
  destruct (firstHit s i l) as [h|] eqn:Eh; [|apply IH, Ho].
  assert (K : forall c, Forall (Within k) c ->
                        Forall (Within (S k))
                               (pushText out acc l ++ [setChildren (hitNode h) c])).
  { intros c Hc. apply Forall_app. split; [apply pushText_within, Ho|].
    constructor; [|constructor]. constructor. exact Hc. }
  destruct (hitInner h) as [inner|].
  - specialize (Hrec inner (d + 1)). destruct (rec inner (d + 1)); [|exact I].
    apply IH, K, Hrec.
  - apply IH, K. constructor.
Qed.

Lemma inline_within f s l d : optAll (Forall (Within f)) (parseInlineContentRec f s l d).
Proof.
  revert s d. induction f as [|f IH]; intros s d; [exact I|].
  cbn [parseInlineContentRec]. apply scan_within; [|constructor].
  intros x e. apply IH.
Qed.

(** Inline content is at most thirteen nodes high. *)
Lemma inlineNodes_within s l : Forall (Within 13) (inlineNodes s l).
Proof.
  destruct (nesting_bound s l 0) as [r Hr].
  pose proof (inline_within 13 s l 0) as W. rewrite Hr in W. cbn [optAll] in W.
  unfold inlineNodes.
  destruct (parseInlineContent_total s l) as [r' Hr']. rewrite Hr'.
  unfold parseInlineContent in Hr'.
  pose proof (@inline_mono 13 (13 + S (length s)) s l 0 r ltac:(lia) Hr) as E1.
  pose proof (@inline_mono (S (length s)) (13 + S (length s)) s l 0 r'
                ltac:(lia) Hr') as E2.
  assert (r' = r) by congruence. subst r'. exact W.
Qed.

Lemma cellNode_within l c : Within 14 (cellNode l c).
Proof. unfold cellNode. constructor. apply inlineNodes_within. Qed.

Lemma tableParts_within l : Forall (Forall (Within 14)) (tableParts l).
Proof.
  induction l as [|t r IH]; cbn [tableParts]; [constructor|].
  destruct (inBody t); [|constructor].
  apply Forall_app. split; [|exact IH].
  destruct (isTableLine t); [|constructor].
  constructor; [|constructor].
  unfold rowCells. apply Forall_map, Forall_forall. intros. apply cellNode_within.
Qed.

Lemma reflow_within rows w cells :
  Forall (Within 14) cells -> Forall (Within 15) (reflow rows w cells).
Proof.
  revert cells. induction rows as [|r IH]; intros cells Hc; cbn [reflow]; [constructor|].
  constructor.
  - constructor. cbn [children setChildren]. apply Forall_firstn. exact Hc.
  - apply IH. apply Forall_forall. intros x Hx. rewrite Forall_forall in Hc. apply Hc.
    rewrite <- (firstn_skipn w cells). apply in_or_app. auto.
Qed.

Lemma tableRows_within parts :
  Forall (Forall (Within 14)) parts -> resAll (Forall (Within 15)) (tableRows parts).
Proof.
  intros H. unfold tableRows. destruct parts as [|[|c0 fr] others]; try (cbn; constructor).
  inversion H as [|? ? Hf Ho]; subst.
  destruct (negb _); [exact I|]. cbn [resAll].
  constructor.
  - constructor. exact Hf.
  - apply reflow_within. apply Forall_concat. exact Ho.
Qed.

Lemma parseTable_within m st :
  resAll (fun x => optAll (Within 16) (fst x)) (parseTable m st).
Proof.
  unfold parseTable, expect, accept. destruct (keq _ T_TABLE_DELIM); cbn [bind]; [|exact I].
  rewrite tableLines_eq. cbn [bind app].
  pose proof (tableRows_within (tableParts_within (toks (snd (take st))))) as R.
  destruct (tableRows _); cbn [bind resAll] in *; auto.
  cbn [fst optAll]. constructor. exact R.
Qed.

Lemma paragraph_within m st :
  resAll (fun x => optAll (Within 14) (fst x)) (parseParagraphOrLiteral m st).
Proof.
  unfold parseParagraphOrLiteral.
  destruct (paragraphLines _ (toks st) []) as [lines l].
  destruct (_ && _ && _).
  - cbn [resAll fst optAll]. apply Within_leaf. reflexivity.
  - rewrite inlineContent_eq. cbn [bind resAll fst optAll]. constructor.
    cbn [children setChildren]. apply inlineNodes_within.
Qed.


(** ** The routines that call [parseBlock] *)

Ltac lens :=
  repeat match goal with
         | H : later _ _ |- _ => apply later_len in H
         end.
Ltac lower := first
  [ eapply Within_mono; [|eassumption]; cbn [fst snd]; lens; lia
  | eapply Within_all; [|eassumption]; cbn [fst snd]; lens; lia ].
Ltac keep := unfold stays in *; cbn [snd fst resAll] in *;
  eauto 8 using later_refl, later_trans, later_take, later_skip.

Section High.

Variable rec : State -> Res (option Node * State).
Hypothesis Hrec : forall st, resAll (high st) (rec st).

Lemma grown_now k st0 st acc :
  later st st0 -> Forall (Within (len st0 - len st + k)) acc ->
  forall st', later st' st -> grown k st0 (acc, st').
Proof.
  intros L F st' L'. split; cbn [fst snd]; [eauto using later_trans|]. lower.
Qed.

Lemma grown_more k st0 st acc b st1 st2 :
  later st st0 -> Forall (Within (len st0 - len st + k)) acc ->
  later st1 st -> later st2 st1 -> Within (len st1 - len st2 + k) b ->
  later st2 st0 /\ Forall (Within (len st0 - len st2 + k)) (acc ++ [b]).
Proof.
  intros L F L1 L2 W. split; [eauto using later_trans|].
  apply Forall_app. split; [lower|]. constructor; [lower | constructor].
Qed.

Lemma high_low (d : nat) st (r : Res (option Node * State)) :
  (d <= 16)%nat -> resAll (stays st) r ->
  resAll (fun x => optAll (Within d) (fst x)) r -> resAll (high st) r.
Proof.
  intros Hd. destruct r as [[b st']| |]; cbn [resAll]; auto.
  unfold stays, high. cbn [fst snd]. intros L W. split; [exact L|].
  destruct b; [|exact I]. cbn [optAll] in *.
  apply Within_mono with (d := d); [lia | exact W].
Qed.

Lemma sectionBody_high tlevel n st0 st acc :
  later st st0 -> Forall (Within (len st0 - len st + 16)) acc ->
  resAll (grown 16 st0) (sectionBody rec tlevel n st acc).
Proof.
  revert st acc. induction n as [|n IH]; intros st acc L F; [exact I|].
  cbn [sectionBody].
  pose proof (@grown_now 16 _ _ _ L F) as G.
  destruct (atEnd st); [apply G, later_refl|].
  pose proof (later_skip st) as L1.
  destruct (atEnd _); [apply G, L1|].
  destruct (_ && _); [apply G, L1|].
  destruct (keq _ T_TABLE_LINE); [exact I|].
  destruct (_ && _ && _); [apply G, L1|].
  eapply resAll_bind; [apply Hrec|].
  intros [b st2] [L2 W]. cbn [fst snd] in *.
  destruct b as [b|]; [|apply G; eauto using later_trans].
  cbn [optAll] in W.
  destruct (@grown_more 16 _ _ _ _ _ _ L F L1 L2 W) as [L' F']. apply IH; assumption.
Qed.

Lemma parseSection_high n m st :
  toks st <> [] -> resAll (high st) (parseSection rec n m st).
Proof.
  intros Hne. unfold parseSection.
  pose proof (later_take st) as L. pose proof (@take_len st Hne) as Hs.
  destruct (take st) as [t st1]. cbn [snd] in L, Hs.
  eapply resAll_bind;
    [apply (@sectionBody_high (level t) n st1 st1 [] (later_refl _) (Forall_nil _))|].
  intros [body st2] [L2 F]. cbn [fst snd resAll] in *.
  split; cbn [fst snd optAll]; [eauto using later_trans|].
  apply Within_mono with (d := S (len st1 - len st2 + 16)); [lens; lia|].
  constructor. exact F.
Qed.

Lemma containerBody_high k n st0 st acc :
  later st st0 -> Forall (Within (len st0 - len st + 16)) acc ->
  resAll (grown 16 st0) (containerBody rec k n st acc).
Proof.
  revert st acc. induction n as [|n IH]; intros st acc L F; [exact I|].
  cbn [containerBody].
  pose proof (@grown_now 16 _ _ _ L F) as G.
  destruct (negb (atEnd st) && _); [|apply G, later_refl].
  pose proof (later_skip st) as L1.
  destruct (keq _ k); [apply G, L1|].
  eapply resAll_bind; [apply Hrec|].
  intros [b st2] [L2 W]. cbn [fst snd] in *.
  destruct b as [b|]; [|apply G; eauto using later_trans].
  cbn [optAll] in W.
  destruct (@grown_more 16 _ _ _ _ _ _ L F L1 L2 W) as [L' F']. apply IH; assumption.
Qed.

Lemma parseDelimited_high n m st :
  toks st <> [] -> resAll (high st) (parseDelimited rec n m st).
Proof.
  intros Hne. unfold parseDelimited.
  assert (H0 : forall b st0,
             (if keq (laKind st 0) T_STEM_ATTR_LINE then (true, snd (take st))
              else (false, st)) = (b, st0) ->
             later (snd (take st0)) st /\ (len (snd (take st0)) < len st)%nat).
  { intros b st0 E. destruct (keq (laKind st 0) T_STEM_ATTR_LINE).
    - injection E as _ <-. pose proof (later_take st) as L.
      pose proof (@take_len st Hne) as Hs. pose proof (later_take (snd (take st))) as L'.
      split; [eapply later_trans; eauto|]. apply later_len in L'.
      unfold len, take in *. cbn [snd toks] in *. lia.
    - injection E as _ <-. split; [apply later_take | apply take_len; exact Hne]. }
  destruct (if keq (laKind st 0) T_STEM_ATTR_LINE then _ else _) as [isStem st0].
  destruct (H0 isStem st0 eq_refl) as [L1 S1].
  destruct (take st0) as [open st1]. cbn [snd] in L1, S1.
  destruct (_ || isStem).
  - pose proof (rawLines_later (laKind st0 0) (toks st1) []) as R.
    destruct (rawLines _ _ _) as [ls l]. cbn [snd] in R.
    apply expect_keeps. intros st' L'.
    assert (L2 : later (mkState l (eofLine st1)) st1) by (apply later_mk; exact R).
    split; cbn [fst snd resAll optAll]; [eauto using later_trans|].
    apply Within_mono with (d := 1%nat); [lia|]. apply Within_leaf. reflexivity.
  - eapply resAll_bind;
      [apply (@containerBody_high (laKind st0 0) n st1 st1 [] (later_refl _)
                (Forall_nil _))|].
    intros [body st2] [L2 F]. cbn [fst snd] in *.
    apply expect_keeps. intros st' L'.
    split; cbn [fst snd resAll optAll]; [eauto using later_trans|].
    apply Within_mono with (d := S (len st1 - len st2 + 16)); [lens; lia|].
    constructor. exact F.
Qed.

Lemma continuations_high n stl st item :
  later st stl -> (len st < len stl)%nat ->
  Forall (Within (len stl - len st + 14)) (children item) ->
  resAll (fun x => later (snd x) st /\
                   Forall (Within (len stl - len (snd x) + 14)) (children (fst x)))
         (continuations rec n st item).
Proof.
  revert st item. induction n as [|n IH]; intros st item L S F; [exact I|].
  cbn [continuations]. destruct (keq (laKind st 0) T_LIST_CONT) eqn:E.
  2:{ cbn [resAll fst snd]. split; [apply later_refl | assumption]. }
  destruct (take_consumes st E) as [L1 S1]; [discriminate|].
  pose proof (later_skip (snd (take st))) as L2.
  eapply resAll_bind; [apply Hrec|].
  intros [cont st2] [L3 W]. cbn [fst snd] in *.
  pose proof (later_skip st2) as L4.
  eapply resAll_weaken.
  - apply IH.
    + eauto 8 using later_trans.
    + lens. lia.
    + destruct cont as [c|]; cbn [optAll add setChildren children] in *; [|lower].
      apply Forall_app. split; [lower|]. constructor; [lower | constructor].
  - intros x [Hx Wx]. split; [eauto 8 using later_trans | exact Wx].
Qed.

Lemma listItems_high (ordered : bool) n stl st items :
  later st stl -> Forall (Within (len stl - len st + 15)) items ->
  resAll (grown 15 stl) (listItems rec ordered n st items).
Proof.
  revert st items. induction n as [|n IH]; intros st items L F; [exact I|].
  cbn [listItems].
  pose proof (@grown_now 15 _ _ _ L F) as G.
  destruct (ordered && negb (keq (laKind st 0) T_OL_ITEM)) eqn:E1;
    [apply G, later_refl|].
  destruct (negb ordered && negb (keq (laKind st 0) T_UL_ITEM)) eqn:E2;
    [apply G, later_refl|].
  assert (Hne : toks st <> []).
  { destruct ordered; cbn [negb andb] in E1, E2.
    - apply negb_false_iff in E1. eapply head_true; eauto; discriminate.
    - apply negb_false_iff in E2. eapply head_true; eauto; discriminate. }
  pose proof (later_take st) as L1. pose proof (@take_len st Hne) as S1.
  destruct (take st) as [itTok st1]. cbn [snd] in L1, S1.
  match goal with
  | |- context [if ?c then (?a, ?b) else (?a', ?b')] =>
      set (ip := if c then (a, b) else (a', b'));
      assert (Hk : children (fst ip) = [])
        by (subst ip; destruct c; reflexivity)
  end.
  destruct ip as [item payload]. cbn [fst] in Hk.
  rewrite inlineContent_eq. cbn [bind].
  pose proof (later_skip st1) as L2.
  eapply resAll_bind.
  { apply (@continuations_high n stl).
    - eauto 8 using later_trans.
    - lens. lia.
    - cbn [add setChildren children]. rewrite Hk. cbn [app].
      constructor; [|constructor].
      apply Within_mono with (d := 14%nat); [lia|]. constructor.
      cbn [children setChildren]. apply inlineNodes_within. }
  intros [item' st2] [L3 W]. cbn [fst snd] in *.
  pose proof (later_skip st2) as L4.
  apply IH; [eauto 8 using later_trans|].
  apply Forall_app. split; [lower|]. constructor; [|constructor].
  apply Within_mono with (d := S (len stl - len st2 + 14)); [lens; lia|].
  constructor. exact W.
Qed.

Lemma descItems_high n stl st items :
  later st stl -> Forall (Within (len stl - len st + 15)) items ->
  resAll (grown 15 stl) (descItems rec n st items).
Proof.
  revert st items. induction n as [|n IH]; intros st items L F; [exact I|].
  cbn [descItems].
  pose proof (@grown_now 15 _ _ _ L F) as G.
  destruct (keq (laKind st 0) T_DESC_TERM) eqn:E; cbn [negb];
    [|apply G, later_refl].
  destruct (take_consumes st E) as [L1 S1]; [discriminate|].
  destruct (take st) as [termTok st1]. cbn [snd] in L1, S1.
  set (Item := fun x : Node * State =>
                 later (snd x) st1 /\
                 Forall (Within (len stl - len (snd x) + 14)) (children (fst x))).
  eapply resAll_bind with (Q1 := Item).
  { destruct (_ && _).
    - rewrite inlineContent_eq. cbn [bind resAll]. subst Item. cbn [fst snd].
      split; [apply later_take|].
      cbn [add setChildren children kvInsert setName setPos newNode app].
      constructor; [|constructor].
      apply Within_mono with (d := 14%nat); [lia|]. constructor.
      cbn [children setChildren]. apply inlineNodes_within.
    - cbn [resAll]. subst Item. cbn [fst snd]. split; [apply later_refl|].
      constructor. }
  intros [item st2] [L2 W2]. cbn [fst snd] in *.
  pose proof (later_skip st2) as L3.
  eapply resAll_bind with (Q1 := Item).
  { destruct (keq (laKind (skipBlankAndLineComments st2) 0) T_LIST_CONT) eqn:C.
    - destruct (take_consumes _ C) as [L4 S4]; [discriminate|].
      pose proof (later_skip (snd (take (skipBlankAndLineComments st2)))) as L5.
      eapply resAll_bind with
        (Q1 := high (skipBlankAndLineComments
                       (snd (take (skipBlankAndLineComments st2))))).
      + destruct (isDelim _) eqn:D.
        * apply parseDelimited_high. apply isDelim_head. exact D.
        * apply high_low with (d := 14%nat);
            [lia | apply paragraph_keeps | apply paragraph_within].
      + intros [cont st3] [L6 W]. cbn [fst snd] in *. subst Item.
        cbn [resAll].
        destruct cont as [c|]; cbn [fst snd optAll add setChildren children] in *.
        * split; [eauto 8 using later_trans|].
          apply Forall_app. split; [lower|]. constructor; [lower | constructor].
        * split; [eauto 8 using later_trans | lower].
    - cbn [resAll]. subst Item. cbn [fst snd].
      split; [eauto using later_trans | lower]. }
  intros [item' st3] [L4 W4]. cbn [fst snd] in *.
  pose proof (later_skip st3) as L5.
  apply IH; [eauto 8 using later_trans|].
  apply Forall_app. split; [lower|]. constructor; [|constructor].
  apply Within_mono with (d := S (len stl - len st3 + 14)); [lens; lia|].
  constructor. exact W4.
Qed.

Lemma parseList_high n m st : resAll (high st) (parseList rec n m st).
Proof.
  unfold parseList. cbv zeta.
  eapply resAll_bind with (Q1 := grown 15 st).
  { destruct (qeq _ _);
      [apply descItems_high | apply listItems_high];
      (apply later_refl || constructor). }
  intros [items st1] [L F]. cbn [fst snd resAll] in *.
  split; cbn [fst snd optAll]; [exact L|].
  apply Within_mono with (d := S (len st - len st1 + 15)); [lia|].
  constructor. exact F.
Qed.

Lemma directiveBody_high n st0 st acc :
  later st st0 -> Forall (Within (len st0 - len st + 16)) acc ->
  resAll (grown 16 st0) (directiveBody rec n st acc).
Proof.
  revert st acc. induction n as [|n IH]; intros st acc L F; [exact I|].
  cbn [directiveBody].
  pose proof (@grown_now 16 _ _ _ L F) as G.
  destruct (atEnd st); [apply G, later_refl|].
  pose proof (later_skip st) as L1.
  destruct (_ && _).
  { pose proof (later_take (skipBlankAndLineComments st)) as L2.
    destruct (take _) as [e st2]. cbn [snd resAll] in *.
    split; cbn [fst snd]; [eauto 8 using later_trans|].
    apply Forall_app. split; [lower|]. constructor; [|constructor].
    apply Within_mono with (d := 1%nat); [lia|]. apply Within_leaf. reflexivity. }
  destruct (atEnd _); [apply G, L1|].
  eapply resAll_bind; [apply Hrec|].
  intros [b st2] [L2 W]. cbn [fst snd] in *.
  destruct b as [b|]; [|apply G; eauto using later_trans].
  cbn [optAll] in W.
  destruct (@grown_more 16 _ _ _ _ _ _ L F L1 L2 W) as [L' F']. apply IH; assumption.
Qed.

Lemma parseDirective_high n m st :
  toks st <> [] -> resAll (high st) (parseDirective rec n m st).
Proof.
  intros Hne. unfold parseDirective.
  pose proof (later_take st) as L. pose proof (@take_len st Hne) as Hs.
  destruct (take st) as [t st1]. cbn [snd] in L, Hs. cbv zeta.
  destruct (_ || _).
  - eapply resAll_bind;
      [apply (@directiveBody_high n st1 st1 [] (later_refl _) (Forall_nil _))|].
    intros [body st2] [L2 F]. cbn [fst snd resAll] in *.
    split; cbn [fst snd optAll]; [eauto using later_trans|].
    apply Within_mono with (d := S (len st1 - len st2 + 16)); [lens; lia|].
    constructor. exact F.
  - cbn [resAll]. split; cbn [fst snd optAll]; [exact L|].
    apply Within_mono with (d := 1%nat); [lia|]. apply Within_leaf. reflexivity.
Qed.

Lemma parseBlockBody_high n st : resAll (high st) (parseBlockBody rec n st).
Proof.
  unfold parseBlockBody.
  destruct (meta_later st) as [L _].
  destruct (parseBlockMetaOpt st) as [meta st1]. cbn [fst snd] in *. cbv zeta.
  assert (W : forall r : Res (option Node * State),
             resAll (high st1) r -> resAll (high st) r).
  { intros r H. eapply resAll_weaken; [exact H|]. intros [b st'] [L' W'].
    cbn [fst snd] in *. split; cbn [fst snd]; [eauto using later_trans|].
    destruct b; [|exact I]. cbn [optAll] in *. lower. }
  apply W.
  destruct (keq (laKind st1 0) T_SECTION) eqn:E1.
  { apply parseSection_high. eapply head_true; eauto; discriminate. }
  destruct (keq (laKind st1 0) T_ADMONITION) eqn:E2.
  { apply high_low with (d := 14%nat); [lia| |].
    - unfold parseAdmonitionParagraph. cbn [take]. apply inline_keeps. intros c.
      apply later_take.
    - unfold parseAdmonitionParagraph. cbn [take]. rewrite inlineContent_eq.
      cbn [bind resAll fst optAll]. constructor.
      cbn [children setChildren]. apply inlineNodes_within. }
  destruct (_ || _ || _); [apply parseList_high|].
  destruct (keq (laKind st1 0) T_TABLE_DELIM).
  { apply high_low with (d := 16%nat); [lia| |apply parseTable_within].
    eapply resAll_weaken; [apply returns_resAll, parseTable_consumes|].
    intros x [Hx _]. exact Hx. }
  destruct (isDelim (laKind st1 0)) eqn:E5.
  { apply parseDelimited_high. apply isDelim_head; exact E5. }
  destruct (keq (laKind st1 0) T_BLOCK_MACRO).
  { apply high_low with (d := 1%nat); [lia| |].
    - unfold parseBlockMacro. cbn [take]. apply later_take.
    - unfold parseBlockMacro. cbn [take resAll fst optAll].
      apply Within_leaf. reflexivity. }
  destruct (keq (laKind st1 0) T_DIRECTIVE) eqn:E7.
  { apply parseDirective_high. eapply head_true; eauto; discriminate. }
  destruct (_ || _ || _).
  - apply high_low with (d := 1%nat); [lia| |]; unfold parseBreakOrComment;
      repeat match goal with |- context [if ?c then _ else _] => destruct c end;
      cbn [take resAll fst snd optAll]; unfold stays; cbn [snd];
      first [apply later_take | apply later_refl
            | apply Within_leaf; reflexivity | exact I].
  - apply high_low with (d := 14%nat); [lia | apply paragraph_keeps
                                       | apply paragraph_within].
Qed.

Lemma documentBody_high n st0 st acc :
  later st st0 -> Forall (Within (len st0 + 16)) acc ->
  resAll (Forall (Within (len st0 + 16))) (documentBody rec n st acc).
Proof.
  revert st acc. induction n as [|n IH]; intros st acc L F; [exact I|].
  cbn [documentBody].
  destruct (atEnd st); [exact F|].
  pose proof (later_skip st) as L1.
  destruct (atEnd _); [exact F|].
  eapply resAll_bind; [apply Hrec|].
  intros [b st2] [L2 W]. cbn [fst snd] in *.
  destruct b as [b|]; [|exact F]. cbn [optAll] in W.
  apply IH; [eauto 8 using later_trans|].
  apply Forall_app. split; [exact F|]. constructor; [|constructor].
  eapply Within_mono; [|exact W]. lens. lia.
Qed.

End High.


Lemma parseBlock_high fuel st : resAll (high st) (parseBlock fuel st).
Proof.
  revert st. induction fuel as [|fuel IH]; intros st; [exact I|].
  cbn [parseBlock]. apply parseBlockBody_high. exact IH.
Qed.

Lemma parse_high fuel input doc :
  parse fuel input = Ok doc ->
  Within (length (toks (setInput input)) + 17) doc.
Proof.
  unfold parse, parseDocument. cbv zeta.
  pose proof (later_skip (setInput input)) as L1.
  pose proof (parseDocumentHeader_later
                (kv (setPos (newNode K_Document) (mkPos 1 1)))
                (skipBlankAndLineComments (setInput input))) as L2.
  destruct (parseDocumentHeader _ _) as [kv' st'] eqn:E. cbn [snd] in L2.
  pose proof (@documentBody_high (parseBlock fuel) (parseBlock_high fuel) fuel
                st' st' [] (later_refl _) (Forall_nil _)) as D.
  destruct (documentBody _ _ _ _) as [body| |]; cbn [bind]; try discriminate.
  intros H. injection H as <-. cbn [resAll] in D.
  apply Within_mono with (d := S (len st' + 16)).
  - pose proof (later_len (later_trans L2 L1)) as Hl. unfold len in *. lia.
  - constructor. exact D.
Qed.

End HeightFacts.
Import HeightFacts.

(* ===================================================================== *)
(** * The properties of the specification *)
(* ===================================================================== *)

Local Open Scope string_scope.

(** ** C1: block metadata attaches to the following block

    The anchor line of the specification's example goes to the section
    that follows it: for [== A], [[[anchor]]], [=== B], section B carries
    the anchor and section A carries no metadata.  A [[...]] attribute
    line between the same two blocks is not attached to the block that
    follows it: the lexer hands it to the parser as a text line (no line
    is given the kind BLOCK_ATTRS), the parser makes it a paragraph of
    section A, and section B carries no metadata, although [parseBlock]
    says that such markers "are parsed as normal attributes in meta and
    apply to the following Section block".  A run of a title line and
    an anchor line, in this order, is attached to two blocks: the title
    to an empty paragraph at the line of the anchor, the anchor to the
    block that follows the run. *)
Theorem metadata_attachment (fuel : nat) (H : (4 <= fuel)%nat) :
  parse fuel (lines ["== A"; "[[anchor]]"; "=== B"]) =
    Ok (docOf [sectionOf 1 2 "A" None
                 [sectionOf 3 3 "B" (Some (anchorMeta "anchor")) []]])
  /\
  parse fuel (lines ["== A"; "[role]"; "=== B"]) =
    Ok (docOf [sectionOf 1 2 "A" None
                 [paragraphOf 2 [textOf 2 "[role]"];
                  sectionOf 3 3 "B" None []]])
  /\
  (forall line lineNo, Lexer.kind (classify line lineNo) <> T_BLOCK_ATTRS)
  /\
  parse fuel (lines ["== A"; ".T"; "[[x]]"; "=== B"]) =
    Ok (docOf [sectionOf 1 2 "A" None
                 [emptyParagraph 3 (Some (titleMeta "T"));
                  sectionOf 4 3 "B" (Some (anchorMeta "x")) []]]).
Proof.
  split; [eapply parse_ok_stable; [|exact H]; vm_compute; reflexivity|].
  split; [eapply parse_ok_stable; [|exact H]; vm_compute; reflexivity|].
  split; [intros line lineNo; apply classify_kinds|].
  eapply parse_ok_stable; [|exact H]; vm_compute; reflexivity.
Qed.

Lemma metadata_attachment_witness :
  (4 <= 4)%nat /\
  (parse 4 (lines ["== A"; "[[anchor]]"; "=== B"]) =
     Ok (docOf [sectionOf 1 2 "A" None
                  [sectionOf 3 3 "B" (Some (anchorMeta "anchor")) []]])
   /\
   parse 4 (lines ["== A"; "[role]"; "=== B"]) =
     Ok (docOf [sectionOf 1 2 "A" None
                  [paragraphOf 2 [textOf 2 "[role]"];
                   sectionOf 3 3 "B" None []]])
   /\
   parse 4 (lines ["== A"; ".T"; "[[x]]"; "=== B"]) =
     Ok (docOf [sectionOf 1 2 "A" None
                  [emptyParagraph 3 (Some (titleMeta "T"));
                   sectionOf 4 3 "B" (Some (anchorMeta "x")) []]])).
Proof.
  split; [lia|].
  destruct (@metadata_attachment 4) as [A [B [_ C]]]; [lia|].
  repeat split; assumption.
Defined.

(** ** C2: section nesting

    A section of the same level that is preceded by a [.Title] line is
    parsed as a child of the section before it: for [== A], [.T],
    [== B] the tree has section B, of level 2, among the children of
    section A, of level 2.  The loop of [parseSection] looks one token
    ahead for an anchor or attribute line in front of the section that
    ends the body, and no further: an anchor line in front of the
    section ends the body, an anchor line and a title line in front of
    it do not. *)
Theorem section_nesting_broken_by_title (fuel : nat) (H : (3 <= fuel)%nat) :
  parse fuel (lines ["== A"; ".T"; "== B"]) =
    Ok (docOf [sectionOf 1 2 "A" None
                 [sectionOf 3 2 "B" (Some (titleMeta "T")) []]])
  /\
  nestingOk (docOf [sectionOf 1 2 "A" None
                      [sectionOf 3 2 "B" (Some (titleMeta "T")) []]]) = false
  /\
  parse fuel (lines ["== A"; "[[x]]"; "== B"]) =
    Ok (docOf [sectionOf 1 2 "A" None [];
               sectionOf 3 2 "B" (Some (anchorMeta "x")) []])
  /\
  (exists doc,
     parse fuel (lines ["== A"; "[[x]]"; ".T"; "== B"]) = Ok doc /\
     nestingOk doc = false).
Proof.
  split; [eapply parse_ok_stable; [|exact H]; vm_compute; reflexivity|].
  split; [vm_compute; reflexivity|].
  split; [eapply parse_ok_stable; [|exact H]; vm_compute; reflexivity|].
  eexists. split; [eapply parse_ok_stable; [|exact H]; vm_compute; reflexivity|].
  vm_compute. reflexivity.
Qed.

Lemma section_nesting_broken_by_title_witness :
  (3 <= 3)%nat /\
  (parse 3 (lines ["== A"; ".T"; "== B"]) =
     Ok (docOf [sectionOf 1 2 "A" None
                  [sectionOf 3 2 "B" (Some (titleMeta "T")) []]])
   /\
   nestingOk (docOf [sectionOf 1 2 "A" None
                       [sectionOf 3 2 "B" (Some (titleMeta "T")) []]]) = false).
Proof.
  split; [lia|].
  destruct (@section_nesting_broken_by_title 3) as [A [B _]]; [lia|].
  split; assumption.
Defined.

(** ** C3: table row consistency

    Every Table node that [parseTable] returns has rows of one width,
    the number of cells of its first table line, and every child of a
    row is a TableCell; the cells of the later lines are re-flowed into
    rows of that width in their order, none lost.  When the number of
    those later cells is not a multiple of the width, [parseTable]
    fails with the ParseError "the number of cells is not compatible
    with the table size", whose position is line and column of the
    first cell: the line of the first table line, column 1.  In a tree
    that [Parser::parse] returns, every Table node, at whatever depth,
    has rows that each have as many cells as its first row. *)
Theorem table_rows_consistent (m : option BlockMeta) (st : State) :
  (forall t st', parseTable m st = Ok (Some t, st') ->
     Ast.kind t = K_Table /\
     Forall (isRow (length (hd [] (tableParts (tl (toks st)))))) (children t) /\
     (hd [] (tableParts (tl (toks st))) <> [] ->
      concat (map children (children t)) = concat (tableParts (tl (toks st)))))
  /\
  (forall c0 fr others,
     laKind st 0 = T_TABLE_DELIM ->
     tableParts (tl (toks st)) = (c0 :: fr) :: others ->
     (length (concat others) mod length (c0 :: fr) <> 0)%nat ->
     parseTable m st = Err (widthError c0) /\
     exists t, In t (tl (toks st)) /\ Lexer.kind t = T_TABLE_LINE /\
               Parser.line (widthError c0) = lineNo t /\
               Parser.column (widthError c0) = 1)
  /\
  (forall fuel input doc,
     parse fuel input = Ok doc -> AllNodes tableOk doc).
Proof.
  split; [|split].
  - intros t st' H.
    destruct (keq (laKind st 0) T_TABLE_DELIM) eqn:E.
    + apply keq_eq in E. rewrite (parseTable_eq m st E) in H.
      destruct (tableRows (tableParts (tl (toks st)))) as [rows| |] eqn:R;
        cbn [bind] in H; try discriminate.
      injection H as <- _.
      destruct (tableRows_ok (tableParts_cells _) R) as [R1 R2].
      repeat split; assumption.
    + unfold parseTable, expect, accept in H. rewrite E in H. discriminate.
  - intros c0 fr others Hk Hp Hw. split.
    + rewrite (parseTable_eq m st Hk), Hp, (@tableRows_err c0 fr others Hw). reflexivity.
    + destruct (@tableParts_source (tl (toks st)) (c0 :: fr) c0)
        as [t [H1 [H2 H3]]]; [rewrite Hp; left; reflexivity | left; reflexivity|].
      exists t. unfold widthError. cbn [Parser.line Parser.column].
      rewrite H3. auto.
  - apply parse_tables.
Qed.

Lemma table_rows_consistent_witness :
  (exists t st',
     parseTable None (setInput (lines ["|==="; "|a|b"; "|c"; "|d"; "|==="]))
       = Ok (Some t, st') /\
     Forall (isRow 2) (children t) /\ length (children t) = 2%nat)
  /\
  parseTable None (setInput (lines ["|==="; "|a|b"; "|c"; "|==="]))
    = Err (mkErr 2 1 (qs "the number of cells is not compatible with the table size"))
  /\
  (exists doc,
     parse 3 (lines ["== A"; "|==="; "|a|b"; "|c"; "|d"; "|==="]) = Ok doc /\
     AllNodes tableOk doc).
Proof.
  split; [|split].
  - destruct (parseTable None
                (setInput (lines ["|==="; "|a|b"; "|c"; "|d"; "|==="])))
      as [[[t|] st']| |] eqn:E; try (vm_compute in E; discriminate).
    exists t, st'. split; [reflexivity|].
    destruct (proj1 (table_rows_consistent None _) t st' E) as [_ [R _]].
    split; [exact R|]. vm_compute in E. injection E as <- _. reflexivity.
  - set (st := setInput (lines ["|==="; "|a|b"; "|c"; "|==="])).
    destruct (tableParts (tl (toks st))) as [|[|c0 fr] others] eqn:P;
      try (vm_compute in P; discriminate).
    destruct (proj1 (proj2 (table_rows_consistent None st)) c0 fr others) as [R _].
    + reflexivity.
    + exact P.
    + vm_compute in P. injection P as <- <- <-. vm_compute. discriminate.
    + rewrite R. vm_compute in P. injection P as <- _ _. reflexivity.
  - destruct (parse 3 (lines ["== A"; "|==="; "|a|b"; "|c"; "|d"; "|==="]))
      as [doc| |] eqn:E; try (vm_compute in E; discriminate).
    exists doc. split; [reflexivity|].
    exact (proj2 (proj2 (table_rows_consistent None (setInput [])))
             3%nat _ doc E).
Defined.

(** ** C4: fence-line classification

    [classify] gives a line whose trimmed form is [....] the kind
    BLOCK_TITLE (with rest [...]) and a line whose trimmed form is
    [////] the kind LINE_COMMENT (with rest [//]), not DELIM_LITERAL and
    DELIM_COMMENT: the test for a title line and the test for a line
    comment come before the fence tests and match these two fences.  No
    line at all is given one of these two kinds.  The other five fences
    get their kinds, whatever the white space around them. *)
Theorem fence_literal_and_comment_shadowed (line : QString) (lineNo : Z) :
  (trimmed line = qs "...." ->
   classify line lineNo = mkTok T_BLOCK_TITLE lineNo line 0 [] (qs "..."))
  /\
  (trimmed line = qs "////" ->
   classify line lineNo = mkTok T_LINE_COMMENT lineNo line 0 [] (qs "//"))
  /\
  Lexer.kind (classify line lineNo) <> T_DELIM_LITERAL
  /\
  Lexer.kind (classify line lineNo) <> T_DELIM_COMMENT
  /\
  (forall f k, In (f, k) fences -> f <> qs "...." -> f <> qs "////" ->
     trimmed line = f -> Lexer.kind (classify line lineNo) = k).
Proof.
  split; [apply literal_fence_title|].
  split; [apply comment_fence_line_comment|].
  split; [apply literal_comment_unreachable|].
  split; [apply literal_comment_unreachable|].
  intros f k. apply fence_classified.
Qed.

Lemma fence_literal_and_comment_shadowed_witness :
  classify (qs "....") 1 = mkTok T_BLOCK_TITLE 1 (qs "....") 0 [] (qs "...")
  /\
  classify (qs "////") 2 = mkTok T_LINE_COMMENT 2 (qs "////") 0 [] (qs "//")
  /\
  Lexer.kind (classify (qs " ==== ") 3) = T_DELIM_EXAMPLE.
Proof.
  split; [|split].
  - apply (proj1 (fence_literal_and_comment_shadowed (qs "....") 1)).
    reflexivity.
  - apply (proj1 (proj2 (fence_literal_and_comment_shadowed (qs "////") 2))).
    reflexivity.
  - apply (proj2 (proj2 (proj2 (proj2
             (fence_literal_and_comment_shadowed (qs " ==== ") 3))))
             (qs "====") T_DELIM_EXAMPLE).
    + unfold fences. simpl. tauto.
    + discriminate.
    + discriminate.
    + reflexivity.
Defined.

(** ** C5: escaped-pipe cell splitting

    In [splitUnescapedPipe] a '|' after an even number of backslashes
    separates two parts; a '|' after an odd number of backslashes stays
    in its part as a '|', in place of the last of these backslashes;
    [readCells] makes no cell of the part before the first '|'.  The
    table row [|a\|b |c] is one row of two cells with the texts [a|b]
    and [c]. *)
Theorem escaped_pipe_splitting :
  (forall pre post,
     Z.even (trailingRun pre backslash) = true ->
     splitUnescapedPipe (pre ++ "|"%char :: post) =
     splitUnescapedPipe pre ++ splitUnescapedPipe post)%list
  /\
  (forall pre post,
     Z.odd (trailingRun pre backslash) = true ->
     exists p c h t,
       (splitUnescapedPipe pre = p ++ [c ++ [backslash]] /\
        splitUnescapedPipe post = h :: t /\
        splitUnescapedPipe (pre ++ "|"%char :: post) =
          p ++ (c ++ "|"%char :: h) :: t)%list)
  /\
  (forall rowTok pre post,
     raw rowTok = (pre ++ "|"%char :: post)%list ->
     ~ In "|"%char pre -> Z.even (trailingRun pre backslash) = true ->
     readCells rowTok = cellsOf (splitUnescapedPipe post) (lineNo rowTok))
  /\
  (forall fuel, (2 <= fuel)%nat ->
     parse fuel (lines ["|==="] ++ [newline] ++ qs "|a" ++ [backslash]
                 ++ qs "|b |c" ++ [newline] ++ lines ["|==="])%list =
     Ok (docOf [tableOf 1 [rowOf 2 [cellOf 2 [textOf 2 "a|b"];
                                    cellOf 2 [textOf 2 "c"]]]])).
Proof.
  split; [exact split_separator|].
  split; [exact split_escaped|].
  split.
  - intros rowTok pre post Hr Hp He. unfold readCells.
    rewrite Hr, split_first_dropped by assumption. reflexivity.
  - intros fuel H. eapply parse_ok_stable; [|exact H]. vm_compute. reflexivity.
Qed.

Lemma escaped_pipe_splitting_witness :
  (splitUnescapedPipe ((qs "|a" ++ [backslash; backslash]) ++ "|"%char :: qs "b")
   = splitUnescapedPipe (qs "|a" ++ [backslash; backslash])
     ++ splitUnescapedPipe (qs "b"))%list
  /\
  (exists p c h t,
     splitUnescapedPipe (qs "|a" ++ [backslash]) = p ++ [c ++ [backslash]] /\
     splitUnescapedPipe (qs "b |c") = h :: t /\
     splitUnescapedPipe ((qs "|a" ++ [backslash]) ++ "|"%char :: qs "b |c") =
       p ++ (c ++ "|"%char :: h) :: t)%list
  /\
  readCells (mkTok T_TABLE_LINE 2 (qs " |x|y") 0 [] (qs " |x|y"))
    = cellsOf (splitUnescapedPipe (qs "x|y")) 2
  /\
  parse 2 (lines ["|==="] ++ [newline] ++ qs "|a" ++ [backslash]
           ++ qs "|b |c" ++ [newline] ++ lines ["|==="])%list =
    Ok (docOf [tableOf 1 [rowOf 2 [cellOf 2 [textOf 2 "a|b"];
                                   cellOf 2 [textOf 2 "c"]]]]).
Proof.
  destruct escaped_pipe_splitting as [S [E [D P]]].
  split; [|split; [|split]].
  - apply S. reflexivity.
  - apply E. reflexivity.
  - apply (D (mkTok T_TABLE_LINE 2 (qs " |x|y") 0 [] (qs " |x|y"))
             (qs " ") (qs "x|y")).
    + reflexivity.
    + intros [H | []]. discriminate H.
    + reflexivity.
  - apply P. lia.
Defined.

(** The loops of the parser at a token on which [parseBlock] makes no
    progress. *)
Ltac stuck_loop :=
  match goal with
  | |- context [containerBody (parseBlock ?f) ?k ?n (mkState (?t :: ?r) ?e) ?acc] =>
      rewrite (@containerBody_stuck (parseBlock f) (mkState (t :: r) e) t r
                 (emptyParagraph (lineNo t) None) eq_refl (or_introl eq_refl)
                 (@parseBlock_stuck f (mkState (t :: r) e) t r eq_refl
                    (or_introl eq_refl))
                 k n acc eq_refl)
  | |- context [documentBody (parseBlock ?f) ?n (mkState (?t :: ?r) ?e) ?acc] =>
      rewrite (@documentBody_stuck (parseBlock f) (mkState (t :: r) e) t r
                 (emptyParagraph (lineNo t) None) eq_refl (or_intror eq_refl)
                 (@parseBlock_stuck f (mkState (t :: r) e) t r eq_refl
                    (or_intror eq_refl))
                 n acc)
  end.

(** ** C6: delimited-block closure

    An example block that is opened by [====] and never closed, with a
    list continuation line [+] in its body: [Parser::parse] returns
    neither a tree nor a ParseError, whatever fuel it is given.  The
    body loop of [parseDelimited] calls [parseBlock] on the [+] line for
    ever, each call returning an empty paragraph without taking the
    token.

    The test of the closing fence is as specified where it is reached.
    A block of raw lines with no fence of its kind after the opening one
    is the ParseError "Expected closing delimiter" at the line of the
    end of the input, as for [----], [x]; and a delimited block that
    [parseDelimited] returns has taken, as its last token, a fence of
    the kind of its opening fence. *)
Theorem delimited_block_closure :
  (forall fuel, parse fuel (lines ["===="; "+"]) = OutOfFuel)
  /\
  (forall rec n m open body e,
     rawFence (Lexer.kind open) = true ->
     Forall (fun t => Lexer.kind t <> Lexer.kind open /\ Lexer.kind t <> T_EOF)
            body ->
     parseDelimited rec n m (mkState (open :: body) e)
       = Err (mkErr e 1 (qs "Expected closing delimiter")))
  /\
  (forall fuel, (2 <= fuel)%nat ->
     parse fuel (lines ["----"; "x"])
       = Err (mkErr 3 1 (qs "Expected closing delimiter")))
  /\
  (forall rec n m st r st',
     parseDelimited rec n m st = Ok (r, st') ->
     exists b close,
       r = Some b /\ Ast.kind b = K_DelimitedBlock /\
       laKind close 0 = laKind (fenceState st) 0 /\ st' = snd (take close)).
Proof.
  split; [|split; [|split]].
  - intros fuel.
    assert (B : forall f st,
               st = setInput (lines ["===="; "+"]) -> parseBlock f st = OutOfFuel).
    { intros [|f] st ->; [reflexivity|]. cbn [parseBlock].
      cbv -[containerBody parseBlock]. stuck_loop. reflexivity. }
    unfold parse, parseDocument.
    destruct fuel as [|f]; [reflexivity|].
    cbv -[parseBlock].
    match goal with
    | |- context [parseBlock ?f ?st] => rewrite (B f st eq_refl)
    end.
    reflexivity.
  - intros rec n m open body e. apply raw_unclosed.
  - intros fuel H. eapply parse_err_stable; [|exact H]. vm_compute. reflexivity.
  - intros rec n m st r st'. apply parseDelimited_closed.
Qed.

Lemma delimited_block_closure_witness :
  parse 2 (lines ["===="; "+"]) = OutOfFuel
  /\
  parseDelimited (parseBlock 1) 1 None
      (mkState [classify (qs "----") 1; classify (qs "x") 2] 3)
    = Err (mkErr 3 1 (qs "Expected closing delimiter"))
  /\
  parse 2 (lines ["----"; "x"])
    = Err (mkErr 3 1 (qs "Expected closing delimiter"))
  /\
  (exists b close,
     Some (setText (kvInsert (kvInsert (blockAt K_DelimitedBlock 1 None)
                                       (qs "delim") (qs "14"))
                             (qs "stem") (qs "0")) (qs "x")) = Some b /\
     Ast.kind b = K_DelimitedBlock /\
     laKind close 0 = T_DELIM_LISTING /\ mkState [] 4 = snd (take close)).
Proof.
  destruct delimited_block_closure as [D [R [E C]]].
  split; [apply D|]. split; [|split].
  - apply R.
    + reflexivity.
    + constructor; [split; discriminate | constructor].
  - apply E. lia.
  - apply (C (parseBlock 1) 1%nat None (setInput (lines ["----"; "x"; "----"]))).
    reflexivity.
Defined.

(** ** C7: unexpected table line

    A table line outside a table is the error "unexpected table line",
    with the line of the token and column 1, when the body loop of a
    section meets it.  At document top level it is no error:
    [Parser::parse] returns neither a tree nor a ParseError, whatever
    fuel it is given; [parseDocument] has no test for the token, and
    [parseBlock] returns an empty paragraph for it without taking
    it. *)
Theorem stray_table_line (fuel : nat) :
  parse fuel (qs "|a") = OutOfFuel
  /\
  ((2 <= fuel)%nat ->
   parse fuel (lines ["== A"; "|a"]) =
     Err (mkErr 2 1 (qs "unexpected table line"))).
Proof.
  split.
  - unfold parse, parseDocument. cbv -[documentBody parseBlock].
    stuck_loop. reflexivity.
  - intros H. eapply parse_err_stable; [|exact H]. vm_compute. reflexivity.
Qed.

Lemma stray_table_line_witness :
  parse 2 (qs "|a") = OutOfFuel /\
  parse 2 (lines ["== A"; "|a"]) = Err (mkErr 2 1 (qs "unexpected table line")).
Proof.
  destruct (stray_table_line 2) as [H1 H2]. split; [exact H1 | apply H2; lia].
Defined.

(** ** C8: admonition round trip

    The line [NOTE: be careful] is classified as an ADMONITION token
    with head [NOTE] and rest [be careful]; it parses to a document
    whose one child is an AdmonitionParagraph named [NOTE] with the one
    text child [be careful]; for that node the generator writes the one
    line [#admon("NOTE", [be careful])], whatever its options. *)
Theorem admonition_round_trip (fuel : nat) (opts : Options)
    (H : (2 <= fuel)%nat) :
  classify (qs "NOTE: be careful") 1
    = mkTok T_ADMONITION 1 (qs "NOTE: be careful") 0 (qs "NOTE") (qs "be careful")
  /\
  parse fuel (qs "NOTE: be careful")
    = Ok (docOf [admonitionOf 1 "NOTE" [textOf 1 "be careful"]])
  /\
  emitNode opts (admonitionOf 1 "NOTE" [textOf 1 "be careful"]) 0
    = Out (qs "#admon(" ++ [dquote] ++ qs "NOTE" ++ [dquote]
           ++ qs ", [be careful])" ++ [newline])%list
  /\
  (exists out,
     emitNode opts (admonitionOf 1 "NOTE" [textOf 1 "be careful"]) 0 = Out out /\
     split out newline
       = [(qs "#admon(" ++ [dquote] ++ qs "NOTE" ++ [dquote]
           ++ qs ", [be careful])")%list; []]).
Proof.
  split; [reflexivity|].
  split; [eapply parse_ok_stable; [|exact H]; vm_compute; reflexivity|].
  split; [reflexivity|].
  eexists. split; reflexivity.
Qed.

Lemma admonition_round_trip_witness :
  (2 <= 2)%nat /\
  parse 2 (qs "NOTE: be careful")
    = Ok (docOf [admonitionOf 1 "NOTE" [textOf 1 "be careful"]]) /\
  emitNode defaultOptions (admonitionOf 1 "NOTE" [textOf 1 "be careful"]) 0
    = Out (qs "#admon(" ++ [dquote] ++ qs "NOTE" ++ [dquote]
           ++ qs ", [be careful])" ++ [newline])%list.
Proof.
  split; [lia|].
  destruct (@admonition_round_trip 2 defaultOptions) as [_ [P [G _]]]; [lia|].
  split; assumption.
Defined.

(** ** C9: nesting of the inline scanner

    For every input the recursion of [parseInlineContentRec] stays
    below one fixed bound: an inner text that is scanned again is cut
    out in front of the earliest closing mark, so it holds one closing
    mark less than the text it is cut from, and there are twelve
    closing marks.  With room for twelve nested calls below the
    outermost one the scanner returns, and what it returns is what it
    returns with any larger room and at any value of the depth
    argument: nested markup such as [*_`code`_*] cannot make the
    recursion unbounded. *)
Theorem inline_nesting_bounded (s : QString) (lineNo depth : Z) (fuel : nat)
    (H : (13 <= fuel)%nat) :
  exists nodes,
    parseInlineContentRec 13 s lineNo 0 = Some nodes /\
    parseInlineContentRec fuel s lineNo depth = Some nodes /\
    parseInlineContent s lineNo = Some nodes.
Proof.
  destruct (nesting_bound s lineNo 0) as [r Hr].
  exists r. split; [exact Hr|]. split.
  - rewrite (depth_irrelevant fuel s lineNo depth 0).
    eapply inline_mono; [exact H | exact Hr].
  - destruct (parseInlineContent_total s lineNo) as [r' Hr'].
    rewrite Hr'. f_equal. unfold parseInlineContent in Hr'.
    pose proof (@inline_mono 13 (13 + S (length s)) s lineNo 0 r
                  ltac:(lia) Hr) as E1.
    pose proof (@inline_mono (S (length s)) (13 + S (length s)) s lineNo 0 r'
                  ltac:(lia) Hr') as E2.
    congruence.
Qed.

Lemma inline_nesting_bounded_witness :
  (13 <= 13)%nat /\
  exists nodes,
    parseInlineContentRec 13 (qs "*_`code`_*") 1 0 = Some nodes /\
    parseInlineContentRec 13 (qs "*_`code`_*") 1 0 = Some nodes /\
    parseInlineContent (qs "*_`code`_*") 1 = Some nodes.
Proof.
  split; [lia|]. apply (@inline_nesting_bounded (qs "*_`code`_*") 1 0 13). lia.
Defined.

(** ** C10: unterminated tables

    A table that is not closed is an error when its cells do not fill
    rows of the width of the first line: [parseTable] fails on [|===],
    [|a|b], [|c] with the row-width error. *)
Lemma unterminated_table_width_error :
  parseTable None (setInput (lines ["|==="; "|a|b"; "|c"]))
    = Err (mkErr 2 1
             (qs "the number of cells is not compatible with the table size")).
Proof. reflexivity. Qed.

(** C10, the acceptance that holds.  The missing delimiter itself is no
    error.  On an opening delimiter followed by a body without closing
    delimiter, [parseTable] returns what it returns when the closing
    delimiter follows the body: the table built from the cells of the
    table lines of the body, all other tokens of the body being dropped,
    or the row-width error of that table; it is a Table node whenever
    the later cells fill rows of the width of the first line. *)
Theorem unterminated_table (m : option BlockMeta) (open : LineTok)
    (body : list LineTok) (e : Z)
    (Ho : Lexer.kind open = T_TABLE_DELIM)
    (Hb : Forall (fun t => inBody t = true) body) :
  let table := fun rest =>
    rows <- tableRows (map rowCells (filter isTableLine body)) ;;
    Ok (Some (setChildren (blockAt K_Table (lineNo open) m) rows),
        mkState rest e) in
  parseTable m (mkState (open :: body) e) = table []
  /\
  (forall d rest, Lexer.kind d = T_TABLE_DELIM ->
     parseTable m (mkState (open :: body ++ d :: rest)%list e) = table rest)
  /\
  ((forall c0 fr others,
      map rowCells (filter isTableLine body) = (c0 :: fr) :: others ->
      (length (concat others) mod length (c0 :: fr) = 0)%nat) ->
   exists t, parseTable m (mkState (open :: body) e) = Ok (Some t, mkState [] e)
             /\ Ast.kind t = K_Table).
Proof.
  intros table. subst table. cbv beta.
  assert (E : parseTable m (mkState (open :: body) e) =
              (rows <- tableRows (map rowCells (filter isTableLine body)) ;;
               Ok (Some (setChildren (blockAt K_Table (lineNo open) m) rows),
                   mkState [] e))).
  { rewrite parseTable_eq by exact Ho. cbn [toks tl eofLine la peek nth].
    rewrite (tableParts_body Hb).
    destruct (@tableParts_closed body open [] Hb Ho) as [_ [_ ->]]. reflexivity. }
  split; [exact E|]. split.
  - intros d rest Hd. rewrite parseTable_eq by exact Ho.
    cbn [toks tl eofLine la peek nth].
    destruct (@tableParts_closed body d rest Hb Hd) as [-> [-> _]].
    rewrite (tableParts_body Hb). reflexivity.
  - intros Hfit. rewrite E.
    destruct (map rowCells (filter isTableLine body)) as [|[|c0 fr] others] eqn:P.
    + eexists. split; reflexivity.
    + eexists. split; reflexivity.
    + destruct (@tableRows_fits c0 fr others (Hfit c0 fr others eq_refl))
        as [rows ->].
      eexists. split; reflexivity.
Qed.

Lemma unterminated_table_witness :
  parseTable None (setInput (lines ["|==="; "|a|b"; "junk"; EmptyString; "|c|d"]))
    = Ok (Some (tableOf 1 [rowOf 2 [cellOf 2 [textOf 2 "a"]; cellOf 2 [textOf 2 "b"]];
                           rowOf 5 [cellOf 5 [textOf 5 "c"]; cellOf 5 [textOf 5 "d"]]]),
          mkState [] 6).
Proof.
  pose proof (@unterminated_table None
                (classify (qs "|===") 1)
                (classifyLines [qs "|a|b"; qs "junk"; []; qs "|c|d"] 1) 6
                eq_refl) as T.
  cbv zeta in T. destruct T as [T _].
  - repeat constructor.
  - exact T.
Defined.

(* ===================================================================== *)
(** * Further properties of the code *)
(* ===================================================================== *)

Local Close Scope string_scope.

(** ** X1: the lines of the lexer

    [Lexer::setInput] makes one token for every line of the text, a
    text with [k] newline characters having [k + 1] lines: the raw lines
    of the tokens, joined by newlines again, are the text; the tokens
    are numbered 1, 2, ... in this order; and the end-of-file token that
    follows them carries the number after the last line. *)
Theorem setInput_lines (text : QString) :
  let st := setInput text in
  let n := S (count_occ ascii_dec text newline) in
  join (map raw (toks st)) [newline] = text /\
  map lineNo (toks st) = map Z.of_nat (seq 1 n) /\
  eofLine st = Z.of_nat n + 1.
Proof.
  cbv zeta. unfold setInput, split. cbn [toks eofLine].
  rewrite classifyLines_raw, join_splitAcc, splitAcc_length.
  split; [reflexivity|]. split; [|reflexivity].
  change 0 with (Z.of_nat 0). rewrite classifyLines_lineNo, splitAcc_length.
  reflexivity.
Qed.

(** ** X2: the levels of the markers

    The level [Lexer::classify] gives a section title or an item of an
    unordered or ordered list is between 1 and 6; the level of a
    description term, the number of colons that end it, is at least 2;
    a token of any other kind has level 0. *)
Theorem marker_levels (line : QString) (n : Z) :
  match Lexer.kind (classify line n) with
  | T_SECTION | T_UL_ITEM | T_OL_ITEM => 1 <= level (classify line n) <= 6
  | T_DESC_TERM => 2 <= level (classify line n)
  | _ => level (classify line n) = 0
  end.
Proof. apply classify_level. Qed.

(** ** X3: what a token holds

    The token [Lexer::classify] makes of a line keeps the line as its
    [raw] text and the given line number, and its [head] and [rest] are
    pieces of the line: contiguous parts of it, never text that is not
    in the line. *)
Theorem token_pieces (line : QString) (n : Z) :
  raw (classify line n) = line /\ lineNo (classify line n) = n /\
  Infix (head (classify line n)) line /\ Infix (rest (classify line n)) line.
Proof.
  destruct (classify_raw line n) as [R L].
  destruct (classify_pieces line n) as [H T]. auto.
Qed.

(** ** X4: the end of the input

    After [k] calls of [Lexer::take] on a freshly set input,
    [Lexer::atEnd] holds exactly when [k] is at least the number of
    lines of the text, that is when the text has fewer than [k] newline
    characters. *)
Theorem lexer_at_end (text : QString) (k : nat) :
  atEnd (taken k (setInput text)) = true <->
  (count_occ ascii_dec text newline < k)%nat.
Proof.
  rewrite atEnd_toks.
  - rewrite taken_toks. cbn [toks]. unfold setInput, split. cbn [toks].
    pose proof (classifyLines_length (splitAcc newline text []) 0) as L.
    rewrite splitAcc_length in L.
    split.
    + intros H. apply (f_equal (@length _)) in H. rewrite length_skipn in H.
      cbn [length] in H. lia.
    + intros H. apply skipn_all2. lia.
  - rewrite taken_toks. cbn [toks]. unfold setInput. cbn [toks].
    pose proof (classifyLines_no_eof (split text newline) 0) as F.
    rewrite <- (firstn_skipn k) in F. apply Forall_app in F. tauto.
Qed.

(** ** X5: the two splitters of table lines

    [splitOnUnescapedPipe0], the second splitter of the parser source, which
    tests the backslash run with [bs & 1] and chops without testing for
    an empty cell, returns on every line what [splitUnescapedPipe]
    returns. *)
Theorem pipe_splitters_agree (s : QString) :
  splitOnUnescapedPipe0 s = splitUnescapedPipe s.
Proof. apply splitPipeLoop0_eq. Qed.

(** ** X6: skipping blank lines and line comments

    [Parser::skipBlankAndLineComments] takes a run of tokens from the
    front of the token list, all of them blank lines or line comments,
    and stops in front of a token that is neither (the end-of-file token
    included); a second call right after takes nothing. *)
Theorem skip_blank_and_comments (st : State) :
  exists pre,
    toks st = pre ++ toks (skipBlankAndLineComments st) /\
    forallb blankOrComment pre = true /\
    blankOrComment (la (skipBlankAndLineComments st) 0) = false /\
    skipBlankAndLineComments (skipBlankAndLineComments st)
      = skipBlankAndLineComments st.
Proof.
  destruct (skipToks_spec (toks st)) as [pre [H1 [H2 H3]]].
  exists pre. unfold skipBlankAndLineComments, la, peek. cbn [toks eofLine].
  rewrite skipToks_idem. repeat split; auto.
  destruct (skipToks (toks st)) as [|t r]; [reflexivity | exact H3].
Qed.

(** ** X7: stripping an outer pair

    [Parser::stripOuter] on [s], [a] and [b]: when the trimmed [s] is
    [a], some text [m], [b], the result is [m]; in every other case
    (also when the trimmed text is the single character [a = b]) the
    result is the trimmed [s]. *)
Theorem stripOuter_spec (s : QString) (a b : QChar) :
  (exists m, trimmed s = a :: m ++ [b] /\ stripOuter s a b = m) \/
  ((forall m, trimmed s <> a :: m ++ [b]) /\ stripOuter s a b = trimmed s).
Proof.
  destruct ((size (trimmed s) >=? 2) && ceq (at_ (trimmed s) 0) a
            && ceq (at_ (trimmed s) (size (trimmed s) - 1)) b) eqn:E.
  - left. destruct (outer_shape _ _ _ E) as [m Hm]. exists m.
    split; [exact Hm | apply stripOuter_inner, Hm].
  - right.
    assert (N : forall m, trimmed s <> a :: m ++ [b]).
    { intros m Hm. rewrite Hm in E. rewrite at_last in E.
      unfold at_ at 1 in E. cbn [Z.to_nat nth] in E. rewrite !ceq_refl in E.
      unfold size in E. cbn [length] in E. rewrite length_app in E.
      cbn [length] in E. rewrite !andb_true_r in E. zbool. lia. }
    split; [exact N | apply stripOuter_other, N].
Qed.

(** ** X8: the run of metadata lines

    [Parser::parseBlockMetaOpt] returns no metadata and takes no token
    when the next token is no anchor, attribute or title line; otherwise
    it returns a metadata record and has taken between one and three
    tokens. *)
Theorem block_metadata_run (st : State) :
  if metaKind (laKind st 0)
  then exists m k, parseBlockMetaOpt st = (Some m, taken k st) /\
                   (1 <= k <= 3)%nat /\ (k <= length (toks st))%nat
  else parseBlockMetaOpt st = (None, st).
Proof.
  destruct (metaKind (laKind st 0)) eqn:E.
  - destruct (meta_some st E) as [m [k [H1 H2]]]. exists m, k.
    rewrite taken_toks. auto.
  - apply meta_none, E.
Qed.

(** ** X9: literal paragraphs are verbatim

    On a run of text lines that each start with a white space character,
    followed by a token that is no text line,
    [Parser::parseParagraphOrLiteral] returns a literal paragraph at the
    first line, whose text is the lines without their first character,
    joined by newlines, and it has taken exactly the lines of the
    run. *)
Theorem literal_paragraph (m : option BlockMeta) (t : LineTok)
    (l rest : list LineTok) (e : Z) :
  Forall literalLine (t :: l) -> kindOfFirst rest <> T_TEXT ->
  parseParagraphOrLiteral m (mkState (t :: l ++ rest) e) =
  Ok (Some (setText (blockAt K_LiteralParagraph (lineNo t) m)
                    (join (map (fun x => tl (raw x)) (t :: l)) [newline])),
      mkState rest e).
Proof.
  intros Hl Hr. unfold parseParagraphOrLiteral, laKind, la, peek.
  cbn [toks nth eofLine].
  inversion Hl as [|? ? Ht _]; subst.
  destruct (literalLine_first Ht) as [K [E _]]. rewrite K.
  apply orb_false_iff in E as [E1 E2]. rewrite E1.
  apply negb_false_iff in E2. rewrite E2. cbn [negb andb].
  change (t :: l ++ rest) with ((t :: l) ++ rest).
  rewrite (@paragraphLines_literal (t :: l) rest [] Hl Hr). reflexivity.
Qed.

Lemma literal_paragraph_witness :
  parseParagraphOrLiteral None
    (mkState (classifyLines [qs " a"; qs "  b"; []; qs "c"] 0) 5) =
  Ok (Some (setText (blockAt K_LiteralParagraph 1 None)
                    (qs "a" ++ [newline] ++ qs " b")),
      mkState (classifyLines [[]; qs "c"] 2) 5).
Proof.
  apply (@literal_paragraph None (classify (qs " a") 1)
           [classify (qs "  b") 2] (classifyLines [[]; qs "c"] 2) 5).
  - repeat constructor; eexists; eexists; split; reflexivity.
  - discriminate.
Defined.

(** ** X10: raw delimited blocks are verbatim

    On an opening fence of a listing, literal, passthrough or comment
    block, lines of which none is a fence of this kind, and a closing
    fence of this kind, [Parser::parseDelimited] returns a delimited
    block without children whose text is the lines between the fences as
    they are, joined by newlines, and it has taken the tokens up to and
    including the closing fence. *)
Theorem raw_block_verbatim (rec : State -> Res (option Node * State))
    (n : nat) (m : option BlockMeta) (open close : LineTok)
    (body rest : list LineTok) (e : Z) :
  rawFence (Lexer.kind open) = true ->
  Forall (fun t => Lexer.kind t <> Lexer.kind open /\ Lexer.kind t <> T_EOF)
         body ->
  Lexer.kind close = Lexer.kind open ->
  exists b,
    parseDelimited rec n m (mkState (open :: body ++ close :: rest) e)
      = Ok (Some b, mkState rest e) /\
    Ast.kind b = K_DelimitedBlock /\ meta b = m /\ children b = [] /\
    pos b = mkPos (lineNo open) 1 /\
    text b = join (map raw body) [newline].
Proof.
  intros Hk Hb Hc. unfold parseDelimited.
  assert (Hs : keq (laKind (mkState (open :: body ++ close :: rest) e) 0)
                   T_STEM_ATTR_LINE = false).
  { unfold laKind, la, peek. cbn [toks nth].
    destruct (Lexer.kind open); try reflexivity; discriminate Hk. }
  rewrite Hs. cbv zeta. unfold take, laKind, la, peek. cbn [toks nth eofLine tl].
  unfold rawFence in Hk. rewrite orb_false_r, Hk.
  rewrite (@rawLines_closed (Lexer.kind open) body close rest [] Hb Hc).
  unfold expect, accept, laKind, la, peek, take. cbn [toks nth eofLine tl snd].
  rewrite Hc, keq_refl. cbn [bind].
  eexists. split; [reflexivity|]. repeat split.
Qed.

Lemma raw_block_verbatim_witness :
  exists b,
    parseDelimited (parseBlock 0) 0 None
      (mkState (classifyLines [qs "----"; qs "x *y*"; []; qs "  z"; qs "----";
                               qs "after"] 0) 7)
      = Ok (Some b, mkState (classifyLines [qs "after"] 5) 7) /\
    Ast.kind b = K_DelimitedBlock /\ meta b = None /\ children b = [] /\
    pos b = mkPos 1 1 /\
    text b = qs "x *y*" ++ [newline] ++ [newline] ++ qs "  z".
Proof.
  apply (@raw_block_verbatim (parseBlock 0) 0 None
           (classify (qs "----") 1) (classify (qs "----") 5)
           (classifyLines [qs "x *y*"; []; qs "  z"] 1)
           (classifyLines [qs "after"] 5) 7).
  - reflexivity.
  - repeat constructor; discriminate.
  - reflexivity.
Defined.

(** ** X11: the lists of the parser

    A list that [Parser::parseList] returns has the metadata handed in
    and only list items as children, and its type is one of
    "description", "ordered" and "unordered".  Its items are made, in
    their order, of lines at which [parseList] was called, lines of the
    marker of the list.  An item of an ordered or unordered list is at
    the line of its item line, holds the level of the marker and the
    character of a check box [[*]], [[x]] or [[ ]], if the text starts
    with one, and starts with the paragraph whose children are the
    inline content of the text of the line behind the check box.  An
    item of a description list is at its term line and holds the term
    as its name and the level of the term. *)
Theorem list_items (f n : nat) (m : option BlockMeta) (st st' : State) (l : Node) :
  parseList (parseBlock f) n m st = Ok (Some l, st') ->
  Ast.kind l = K_List /\ meta l = m /\ Forall isItem (children l) /\
  In (value (kv l) (qs "type")) [qs "description"; qs "ordered"; qs "unordered"] /\
  exists ts, Subseq ts (toks st) /\
             Forall2 (listed (value (kv l) (qs "type"))) ts (children l).
Proof.
  intros H.
  destruct (@parseList_shape (parseBlock f) n m st l st' H) as [H1 [H2 [H3 [_ H5]]]].
  repeat split; auto.
  apply (@parseList_listed (parseBlock f) (parseBlock_keeps f) n m st l st' H).
Qed.

Lemma list_items_witness :
  match parseList (parseBlock 2) 3 None
          (setInput (lines ["* [x] a"%string; EmptyString; "* b"%string])) with
  | Ok (Some l, _) =>
      children l
      = [mkNode K_ListItem (mkPos 1 1) None [] [] []
           [(qs "check", qs "x"); (qs "markerLevel", qs "1")]
           [paragraphOf 1 [textOf 1 "a"]];
         mkNode K_ListItem (mkPos 3 1) None [] [] []
           [(qs "markerLevel", qs "1")]
           [paragraphOf 3 [textOf 3 "b"]]] /\
      Ast.kind l = K_List /\ meta l = None /\ Forall isItem (children l) /\
      In (value (kv l) (qs "type"))
         [qs "description"; qs "ordered"; qs "unordered"] /\
      exists ts,
        Subseq ts (toks (setInput (lines ["* [x] a"%string; EmptyString;
                                          "* b"%string]))) /\
        Forall2 (listed (value (kv l) (qs "type"))) ts (children l)
  | _ => False
  end.
Proof.
  destruct (parseList (parseBlock 2) 3 None
              (setInput (lines ["* [x] a"%string; EmptyString; "* b"%string])))
    as [[[l|] st']| |] eqn:E;
    [|vm_compute in E; discriminate E ..].
  split; [vm_compute in E; injection E as <- _; reflexivity|].
  exact (@list_items 2 3 None _ st' l E).
Defined.

(** ** X12: text without markup

    On a text that holds none of the characters that can start an inline
    element ([{ < [ : * _ ` # ^ ~ +]), [Parser::parseInlineContent]
    returns the text as one Text node at the given line, and no node for
    the empty text. *)
Theorem plain_text_inline (s : QString) (lineNo : Z) :
  plainText s -> parseInlineContent s lineNo = Some (pushText [] s lineNo).
Proof. apply plain_inline. Qed.

Lemma plain_text_inline_witness :
  parseInlineContent (qs "be careful, please") 3
  = Some [setText (setPos (newNode K_Text) (mkPos 3 1)) (qs "be careful, please")].
Proof.
  apply (@plain_text_inline (qs "be careful, please") 3).
  intros c Hc Hs. cbn in Hc.
  repeat (destruct Hc as [<- | Hc];
          [cbn in Hs; repeat (destruct Hs as [Hs | Hs]; [discriminate Hs|]);
           exact Hs|]).
  exact Hc.
Defined.

(** ** X13: escaped text determines the text

    [TypstGenerator::escText] is injective: two texts with the same
    escaped form are the same text. *)
Theorem escText_injective (a b : QString) : escText a = escText b -> a = b.
Proof. apply escText_inj. Qed.

Lemma escText_injective_witness : qs "a*b" = qs "a*b".
Proof. apply (@escText_injective (qs "a*b") (qs "a*b")). reflexivity. Defined.

(** ** X14: a string literal stays on its line

    The result of [TypstGenerator::escString] holds neither a newline
    nor a carriage return, whatever the string. *)
Theorem escString_one_line (s : QString) :
  ~ In newline (escString s) /\ ~ In cr (escString s).
Proof. apply escString_no_break. Qed.

(** ** X15: escaped strings determine the string

    On strings without carriage return, which it drops,
    [TypstGenerator::escString] is injective. *)
Theorem escString_injective (a b : QString) :
  ~ In cr a -> ~ In cr b -> escString a = escString b -> a = b.
Proof. apply escString_inj. Qed.

Lemma escString_injective_witness : qs "C:\dir" = qs "C:\dir".
Proof.
  apply (@escString_injective (qs "C:\dir") (qs "C:\dir")).
  - cbn. intros H. repeat (destruct H as [H | H]; [discriminate H|]). exact H.
  - cbn. intros H. repeat (destruct H as [H | H]; [discriminate H|]). exact H.
  - reflexivity.
Defined.

(** ** X16: the output of a document

    When the preamble and every child of a Document node are emitted
    without error, [TypstGenerator::generate] writes the preamble, then
    the title line if the document has a title ([= ] and the escaped
    title, followed by an empty line), then the output of each child in
    order, each followed by one newline. *)
Theorem generate_output (opts : Options) (doc : Node) (p : QString)
    (outs : list QString) :
  Ast.kind doc = K_Document -> emitPreamble opts = Out p ->
  Forall2 (fun c o => emitNode opts c 0 = Out o) (children doc) outs ->
  generate opts doc = Out (p ++ titleLine doc ++ linesOf outs).
Proof. apply generate_ok. Qed.

Lemma generate_output_witness :
  exists p,
    emitPreamble defaultOptions = Out p /\
    generate defaultOptions
      (docOf [admonitionOf 1 "NOTE" [textOf 1 "be careful"]; paragraphOf 3 [textOf 3 "x"]])
    = Out (p ++ qs "#admon(" ++ [dquote] ++ qs "NOTE" ++ [dquote]
             ++ qs ", [be careful])" ++ [newline] ++ [newline]
             ++ qs "x" ++ [newline] ++ [newline]).
Proof.
  eexists. split; [reflexivity|].
  apply (@generate_output defaultOptions
           (docOf [admonitionOf 1 "NOTE" [textOf 1 "be careful"];
                   paragraphOf 3 [textOf 3 "x"]])
           _
           [qs "#admon(" ++ [dquote] ++ qs "NOTE" ++ [dquote]
              ++ qs ", [be careful])" ++ [newline];
            qs "x" ++ [newline]]).
  - reflexivity.
  - reflexivity.
  - repeat constructor.
Defined.

(** ** X17: the first error of a document

    When the preamble is emitted and a child of the Document node fails
    after children that are emitted without error,
    [TypstGenerator::generate] fails with the error of this child: the
    children after it are not looked at. *)
Theorem generate_first_error_wins (opts : Options) (doc : Node) (p : QString)
    (pre post : list Node) (c : Node) (e : TypstGenError) :
  Ast.kind doc = K_Document -> emitPreamble opts = Out p ->
  children doc = pre ++ c :: post ->
  Forall (fun x => exists o, emitNode opts x 0 = Out o) pre ->
  emitNode opts c 0 = Failed e ->
  generate opts doc = Failed e.
Proof. apply generate_first_error. Qed.

Lemma generate_first_error_wins_witness :
  generate defaultOptions
    (docOf [paragraphOf 1 [textOf 1 "x"];
            setTarget (setName (blockAt K_BlockMacro 3 None) (qs "include"))
                      (qs "a.adoc[]");
            setName (blockAt K_Directive 4 None) (qs "ifdef")])
  = Failed (mkGenErr 3
      (qs "include:: requires semantic include expansion before Typst generation")).
Proof.
  eapply (@generate_first_error_wins defaultOptions _ _
            [paragraphOf 1 [textOf 1 "x"]]
            [setName (blockAt K_Directive 4 None) (qs "ifdef")]).
  - reflexivity.
  - reflexivity.
  - reflexivity.
  - repeat constructor. eexists. reflexivity.
  - reflexivity.
Defined.

(** ** X18: the errors of a table

    On a Table node whose children are rows of one width, as the parser
    builds them, [TypstGenerator::emitTable] can fail only with the
    error of the inline content of one of its cells; it does not report
    an inconsistent number of cells. *)
Theorem table_errors (opts : Options) (t : Node) (w : nat)
    (e : TypstGenError) :
  Forall (isRow w) (children t) ->
  emitTable opts t = Failed e ->
  exists row cell, In row (children t) /\ In cell (children row) /\
                   emitInlineSeq opts (children cell) = Failed e.
Proof. apply emitTable_rows. Qed.

Lemma table_errors_witness :
  exists row cell,
    In row [rowOf 2 [cellOf 2 [textOf 2 "a"];
                     cellOf 2 [setName (setPos (newNode K_InlineMacro) (mkPos 2 1))
                                       (qs "chart")]]] /\
    In cell (children row) /\
    emitInlineSeq defaultOptions (children cell)
    = Failed (mkGenErr 2 (qs "Unsupported inline macro in Typst generator: chart")).
Proof.
  apply (@table_errors defaultOptions
           (tableOf 1 [rowOf 2 [cellOf 2 [textOf 2 "a"];
                                cellOf 2 [setName (setPos (newNode K_InlineMacro)
                                                          (mkPos 2 1))
                                                  (qs "chart")]]])
           2%nat).
  - repeat constructor.
  - reflexivity.
Defined.

(** ** X19: a section title from the line to the heading

    For a section line of level 1 to 6, the output of the Section node
    that [Parser::parseSection] returns starts with the heading line:
    as many [=] as the level of the line, a space, the escaped title of
    the line and the label of the anchor, followed by an empty line.
    The level goes through the [kv] entry "level" as a decimal string
    and comes back unchanged. *)
Theorem section_heading_line (opts : Options)
    (rec : State -> Res (option Node * State)) (n : nat)
    (m : option BlockMeta) (t : LineTok) (r : list LineTok) (e : Z)
    (s : Node) (st' : State) (out : QString) :
  1 <= level t <= 6 ->
  parseSection rec n m (mkState (t :: r) e) = Ok (Some s, st') ->
  emitNode opts s 0 = Out out ->
  exists body,
    out = fill (level t) "="%char ++ qs " " ++ escText (rest t)
          ++ labelSuffix m ++ [newline; newline] ++ body.
Proof. apply section_heading. Qed.

Lemma section_heading_line_witness :
  match parseSection (parseBlock 3) 3 (Some (anchorMeta "intro"))
          (mkState (classifyLines [qs "=== A *new* start"; qs "text"] 0) 3) with
  | Ok (Some s, _) =>
      match emitNode defaultOptions s 0 with
      | Out out =>
          exists body,
            out = qs "=== A \*new\* start <intro>" ++ [newline; newline] ++ body
      | Failed _ => False
      end
  | _ => False
  end.
Proof.
  destruct (parseSection (parseBlock 3) 3 (Some (anchorMeta "intro"))
              (mkState (classifyLines [qs "=== A *new* start"; qs "text"] 0) 3))
    as [[[s|] st']| |] eqn:E; [|vm_compute in E; discriminate E ..].
  destruct (emitNode defaultOptions s 0) as [out|e] eqn:G.
  - apply (@section_heading_line defaultOptions (parseBlock 3) 3
             (Some (anchorMeta "intro")) (classify (qs "=== A *new* start") 1)
             [classify (qs "text") 2] 3 s st' out);
      [vm_compute; split; discriminate | exact E | exact G].
  - vm_compute in E. injection E as <- _. vm_compute in G. discriminate G.
Defined.

(** ** X20: the shape of the parsed tree

    Every tree [Parser::parse] returns is a Document node, and every
    node in it holds what the generator expects of its kind: the
    children of a document, section, container block, directive or list
    item are block nodes; those of a paragraph, admonition, table cell
    or inline container are inline nodes; a list holds list items, a
    table rows of one width, a row cells; an emphasis has one of the
    names bold, italic, mono and highlight; the leaves have no children;
    and no node has a kind the generator has no case for in that
    position. *)
Theorem parsed_tree_shape (fuel : nat) (input : QString) (doc : Node) :
  parse fuel input = Ok doc ->
  Ast.kind doc = K_Document /\ AllNodes shape doc.
Proof.
  intros H. pose proof (parse_good fuel input) as G. rewrite H in G. exact G.
Qed.

Lemma parsed_tree_shape_witness :
  match parse 4 (lines ["== A"%string; "* a *b*"%string; "|==="%string;
                        "|x|y"%string; "|==="%string]) with
  | Ok doc => Ast.kind doc = K_Document /\ AllNodes shape doc
  | _ => False
  end.
Proof.
  destruct (parse 4 (lines ["== A"%string; "* a *b*"%string; "|==="%string;
                            "|x|y"%string; "|==="%string]))
    as [doc| |] eqn:E;
    [exact (parsed_tree_shape _ _ E) | vm_compute in E; discriminate E ..].
Defined.

(** ** X21: when the generator gives up on a parsed document

    If [TypstGenerator::generate] fails on a tree that [Parser::parse]
    returned, the message is one of eight: an unknown template name, a
    directive or an include that was not resolved, an unsupported block
    or inline macro, an inline or block stem or an inline passthrough
    with raw passthrough disabled.  On such a tree the generator never
    reports an unsupported block or inline node kind, an unknown
    emphasis kind, an inconsistent table row or a root that is no
    document. *)
Theorem generator_reasons (fuel : nat) (input : QString) (opts : Options)
    (doc : Node) (e : TypstGenError) :
  parse fuel input = Ok doc ->
  generate opts doc = Failed e ->
  Reason (message e) /\
  message e <> qs "Unsupported block node kind in generator" /\
  message e <> qs "Unsupported inline node kind in generator" /\
  message e <> qs "Table row has inconsistent number of cells" /\
  message e <> qs "Root node is not a Document" /\
  forall nm, message e <> qs "Unknown inline emphasis kind: " ++ nm.
Proof.
  intros P G. pose proof (parse_good fuel input) as S. rewrite P in S.
  destruct S as [K A].
  assert (R : Reason (message e)) by (eapply generate_reason; eauto).
  split; [exact R | apply internal_no_reason, R].
Qed.

Lemma generator_reasons_witness :
  match parse 3 (lines ["text"%string; EmptyString; "ifdef::x[]"%string]) with
  | Ok doc =>
      match generate defaultOptions doc with
      | Failed e => Reason (message e)
      | Out _ => False
      end
  | _ => False
  end.
Proof.
  destruct (parse 3 (lines ["text"%string; EmptyString; "ifdef::x[]"%string]))
    as [doc| |] eqn:E; [|vm_compute in E; discriminate E ..].
  destruct (generate defaultOptions doc) as [out|e] eqn:G.
  - vm_compute in E. injection E as <-. vm_compute in G. discriminate G.
  - exact (proj1 (generator_reasons _ _ _ E G)).
Defined.

(** ** X22: the lines a block takes

    Wherever in the lines of an input [Parser::parseBlock] is called:
    at the end of the input, at a blank line, at a list continuation
    [+] and at a table line it returns an empty paragraph and takes
    nothing; called at any other line, where it returns a node it has
    put back no line and has taken at least one.  These four are the
    only places at which a call that returns leaves the lexer where it
    was. *)
Theorem block_takes_a_line (input : QString) (fuel : nat) (st : State) :
  later st (setInput input) ->
  if standstill (laKind st 0)
  then parseBlock (S fuel) st
       = Ok (Some (emptyParagraph (lineNo (la st 0)) None), st)
  else forall b st', parseBlock fuel st = Ok (b, st') ->
                     later st' st /\ (len st' < len st)%nat.
Proof.
  intros L. destruct (standstill (laKind st 0)) eqn:S.
  - apply parseBlock_stands. exact S.
  - intros b st' E.
    pose proof (@parseBlock_takes fuel st (later_lexed L)) as T.
    rewrite E in T. cbn [resAll snd] in T. destruct T as [T1 T2].
    split; [exact T1 | apply T2; exact S].
Qed.

Lemma block_takes_a_line_witness :
  match parseBlock 4 (setInput (lines ["== A"%string; "text"%string; EmptyString;
                                       "== B"%string])) with
  | Ok (b, st') =>
      later st' (setInput (lines ["== A"%string; "text"%string; EmptyString;
                                  "== B"%string])) /\
      (len st' < 4)%nat
  | _ => False
  end /\
  parseBlock 1 (setInput (qs "+"))
  = Ok (Some (emptyParagraph 1 None), setInput (qs "+")).
Proof.
  split.
  - destruct (parseBlock 4 (setInput (lines ["== A"%string; "text"%string;
                                             EmptyString; "== B"%string])))
      as [[b st']| |] eqn:E; [|vm_compute in E; discriminate E ..].
    exact (@block_takes_a_line
             (lines ["== A"%string; "text"%string; EmptyString; "== B"%string])
             4 _ (later_refl _) b st' E).
  - exact (@block_takes_a_line (qs "+") 0 (setInput (qs "+")) (later_refl _)).
Defined.

(** ** X23: the height of the tree

    Every tree [Parser::parse] returns is at most as many nodes high as
    the input has lines, and seventeen more.  A section, a container
    block, a directive and a continuation of a list item take a line of
    their own for the level they add to the tree; the rest is bounded:
    the document node, a list with its items, a table with its rows and
    cells, a paragraph, and inline content, which is at most thirteen
    nodes high. *)
Theorem tree_height (fuel : nat) (input : QString) (doc : Node) :
  parse fuel input = Ok doc ->
  Within (length (toks (setInput input)) + 17) doc.
Proof. apply parse_high. Qed.

Lemma tree_height_witness :
  match parse 6 (lines ["===="%string; "* a"%string; "+"%string; "b"%string;
                        "===="%string]) with
  | Ok doc => Within 22 doc
  | _ => False
  end.
Proof.
  destruct (parse 6 (lines ["===="%string; "* a"%string; "+"%string; "b"%string;
                            "===="%string])) as [doc| |] eqn:E;
    [|vm_compute in E; discriminate E ..].
  exact (@tree_height 6 _ doc E).
Defined.

(** ** X24: the title of the document

    When the first line of the header is a section line of level 1,
    [Parser::parseDocumentHeader] leaves the title text of the line
    under the key "title" and the number of the line under "titleLine";
    the author line, the revision line and the attribute entries that
    may follow do not change these two entries. *)
Theorem document_title (kv : QMap) (st : State) :
  laKind st 0 = T_SECTION -> level (la st 0) = 1 ->
  value (fst (parseDocumentHeader kv st)) (qs "title") = rest (la st 0) /\
  value (fst (parseDocumentHeader kv st)) (qs "titleLine")
    = number (lineNo (la st 0)).
Proof.
  intros H1 H2. unfold parseDocumentHeader. rewrite H1, H2.
  cbn [keq kindCode Z.eqb Pos.eqb andb]. unfold take.
  repeat first [ progress cbv iota beta zeta
               | match goal with
                 | |- context [if ?c then _ else _] => destruct c
                 end ];
    split; header_tail;
    repeat (rewrite value_insert_other by reflexivity);
    rewrite ?value_insert_same; reflexivity.
Qed.

Lemma document_title_witness :
  value (fst (parseDocumentHeader [] (setInput (lines ["= My *Doc*"%string;
            "A <a@b.c>"%string; "v1.0"%string; ":toc: left"%string]))))
        (qs "title") = qs "My *Doc*".
Proof.
  apply (@document_title [] (setInput (lines ["= My *Doc*"%string;
            "A <a@b.c>"%string; "v1.0"%string; ":toc: left"%string])));
    reflexivity.
Defined.

(** ** X25: the revision line

    A text line that starts with the letter v, at the place of the
    revision line: behind the title line and the author line, of which
    the header may have each or not, each with the blank lines and line
    comments that follow it.  [Parser::parseDocumentHeader] takes the
    line as the revision line, whatever follows the v and also when the
    document has no title line: its trimmed text goes to the key
    "revisionLine" and its number to "revisionLineNo", the attribute
    entries behind it leave both, and the line is not part of the body
    of the document.  Without an author line in front, the line must
    not hold both [<] and [>]: it would be the author line. *)
Theorem revision_line (kv : QMap) (title : option LineTok) (b1 : list LineTok)
    (author : option LineTok) (b2 : list LineTok) (v : LineTok)
    (r : list LineTok) (e : Z) :
  optAll titleTok title -> optAll authorTok author ->
  forallb blankOrComment b1 = true -> forallb blankOrComment b2 = true ->
  Lexer.kind v = T_TEXT -> startsWith (trimmed (raw v)) (qs "v") = true ->
  (author = None -> angled v = false) ->
  let st := mkState (lead title b1 ++ lead author b2 ++ v :: r) e in
  value (fst (parseDocumentHeader kv st)) (qs "revisionLine") = trimmed (raw v) /\
  value (fst (parseDocumentHeader kv st)) (qs "revisionLineNo")
    = number (lineNo v) /\
  later (snd (parseDocumentHeader kv st)) (mkState r e).
Proof.
  intros Ht Ha B1 B2 K V A st. subst st.
  destruct (@revision_front kv title b1 author b2 v r e Ht Ha B1 B2 K V A)
    as [kv0 ->].
  split; [|split].
  - header_tail. rewrite value_insert_other by reflexivity. apply value_insert_same.
  - header_tail. apply value_insert_same.
  - eapply later_trans;
      [apply (@header_tail _ (mkState (skipToks r) e))
      | apply (later_skip (mkState r e))].
Qed.

Lemma revision_line_witness :
  value (fst (parseDocumentHeader []
                (setInput (lines ["= Doc"%string; EmptyString;
                                  "Ann <a@b.c>"%string; "v1.0"%string;
                                  ":toc: left"%string]))))
        (qs "revisionLine") = qs "v1.0" /\
  parse 2 (qs "very short text")
  = Ok (mkNode K_Document (mkPos 1 1) None [] [] []
          [(qs "revisionLine", qs "very short text"); (qs "revisionLineNo", qs "1")]
          []).
Proof.
  split; [|vm_compute; reflexivity].
  refine (proj1 (@revision_line [] (Some (classify (qs "= Doc") 1))
                   [classify [] 2] (Some (classify (qs "Ann <a@b.c>") 3)) []
                   (classify (qs "v1.0") 4) (classifyLines [qs ":toc: left"] 4) 6
                   _ _ _ _ _ _ _));
    [split; reflexivity | split; reflexivity | reflexivity | reflexivity
    | reflexivity | reflexivity | discriminate].
Defined.

(** ** X26: marked text from the scanner to the output

    For a non-empty text [x] without markup characters between two
    equal marks [m], one of [* _ # ` ^ ~], the inline scanner returns
    one node (an emphasis bold, italic or highlight with [x] as its
    Text child; a mono emphasis, a superscript or a subscript with [x]
    as its text), and the generator writes for it the escaped [x]
    between the Typst markup of the mark: [*x*], [_x_],
    [#highlight([x])], [`x`], [#super[x]], [#sub[x]]. *)
Theorem marked_text (m : QChar) (x : QString) (lineNo : Z) (opts : Options)
    (n : Node) (o c : QString) :
  marked m lineNo x = Some (n, o, c) -> plainText x -> x <> [] ->
  parseInlineContent (m :: x ++ [m]) lineNo = Some [n] /\
  emitInlineSeq opts [n] = Out (o ++ escText x ++ c).
Proof.
  intros M P N. split.
  - destruct (firstHit_marked _ _ M P N) as [h [H1 [H2 H3]]].
    unfold parseInlineContent.
    assert (Sz : size (m :: x ++ [m]) = size x + 2).
    { unfold size. cbn [length]. rewrite length_app. cbn [length]. lia. }
    pose proof (size_nonneg x) as Px.
    rewrite rec_scan, scan_step. cbv beta. cbn [length].
    replace (0 <? size (m :: x ++ [m])) with true by (symmetry; zdecide).
    rewrite H1.
    assert (K : match hitInner h with
                | Some inner =>
                    parseInlineContentRec (S (length (x ++ [m]))) inner lineNo (0 + 1)
                | None => Some []
                end = Some (match hitInner h with
                            | Some _ => pushText [] x lineNo
                            | None => []
                            end)).
    { destruct H3 as [[-> _] | [-> _]]; [|reflexivity]. apply plain_rec, P. }
    rewrite K, H2. rewrite length_app. cbn [length]. rewrite Nat.add_1_r.
    rewrite scan_step.
    replace (size x + 2 <? size (m :: x ++ [m])) with false
      by (symmetry; zdecide).
    unfold pushText at 1 2. cbn [isEmpty app]. do 2 f_equal.
    destruct H3 as [[-> ->] | [-> ->]]; reflexivity.
  - unfold marked in M. cbv zeta in M.
    destruct x as [|x0 x']; [congruence|].
    repeat match type of M with
           | (if ceq m ?ch then _ else _) = _ =>
               destruct (ceq m ch);
               [injection M as <- <- <-; cbn -[escText]; rewrite ?app_nil_r;
                rewrite <- ?app_assoc; reflexivity|]
           end.
    discriminate M.
Qed.

Lemma marked_text_witness :
  parseInlineContent (qs "*2 > 1]*") 7
  = Some [emphOf 7 "bold" [textOf 7 "2 > 1]"]] /\
  emitInlineSeq defaultOptions [emphOf 7 "bold" [textOf 7 "2 > 1]"]]
  = Out (qs "*2 \> 1\]*").
Proof.
  apply (@marked_text "*"%char (qs "2 > 1]") 7 defaultOptions
           (emphOf 7 "bold" [textOf 7 "2 > 1]"]) (qs "*") (qs "*")).
  - reflexivity.
  - intros ch Hc Hs. cbn in Hc.
    repeat (destruct Hc as [<- | Hc];
            [cbn in Hs; repeat (destruct Hs as [Hs | Hs]; [discriminate Hs|]);
             exact Hs|]).
    exact Hc.
  - discriminate.
Defined.

(** ** X27: an attribute entry of the header

    An attribute entry [:name: value], the name not empty and without a
    colon, in the run of entries of the header: behind the title line,
    the author line and the revision line, of which the header may have
    each or not, each with the blank lines and line comments that
    follow it, and behind any number of other entries.
    [Parser::parseDocumentHeader] leaves the trimmed value under the key
    "attr:" followed by the trimmed name, when no entry behind it in
    the run has the same name, and it takes the whole run, up to a
    token that is no text line.  In a header without author line and
    revision line the first entry must not hold both [<] and [>]: it
    would be the author line. *)
Theorem header_attribute_entry (kv : QMap) (title : option LineTok)
    (b1 : list LineTok) (author : option LineTok) (b2 : list LineTok)
    (rev : option LineTok) (b3 : list LineTok)
    (before : list LineTok) (t : LineTok) (after rest : list LineTok) (e : Z)
    (name val : QString) :
  optAll titleTok title -> optAll authorTok author -> optAll revisionTok rev ->
  forallb blankOrComment b1 = true -> forallb blankOrComment b2 = true ->
  forallb blankOrComment b3 = true ->
  Forall (fun x => exists n v, entryTok x n v) before ->
  entryTok t name val ->
  Forall (fun x => exists n v, entryTok x n v /\ trimmed n <> trimmed name) after ->
  kindOfFirst rest <> T_TEXT ->
  (author = None -> rev = None -> angled (hd t before) = false) ->
  let st := mkState (lead title b1 ++ lead author b2 ++ lead rev b3
                     ++ before ++ t :: after ++ rest) e in
  value (fst (parseDocumentHeader kv st)) (qs "attr:" ++ trimmed name)
    = trimmed val /\
  snd (parseDocumentHeader kv st) = mkState rest e.
Proof.
  intros Ht Ha Hr B1 B2 B3 Hb E Hf R A st. subst st.
  assert (X : exists x r, before ++ t :: after ++ rest = x :: r /\ hd t before = x /\
                          exists n v, entryTok x n v).
  { destruct Hb as [|x b [n [v Ex]] Hb]; cbn [app hd].
    - exists t, (after ++ rest). repeat split. exists name, val. exact E.
    - exists x, (b ++ t :: after ++ rest). repeat split. exists n, v. exact Ex. }
  destruct X as [x [r [Q [Hx [n [v Ex]]]]]]. rewrite Hx in A.
  pose proof Ex as [Kx _].
  destruct (@entries_front kv title b1 author b2 rev b3 x r e Ht Ha Hr B1 B2 B3 Kx
              (entry_front Ex) A) as [kv1 H1].
  rewrite Q, H1, <- Q. clear H1.
  destruct (@headerAttrs_before before (t :: after ++ rest) kv1 Hb) as [kv2 ->].
  rewrite (@headerAttrs_entry t (after ++ rest) kv2 name val E).
  destruct (@headerAttrs_after after rest
              (insert kv2 (qs "attr:" ++ trimmed name) (trimmed val)) name Hf R)
    as [kv3 [-> H3]].
  cbn [fst snd]. split; [|reflexivity].
  rewrite H3. apply value_insert_same.
Qed.

Lemma header_attribute_entry_witness :
  value (fst (parseDocumentHeader []
                (setInput (lines ["= Doc"%string; "v1.0"%string;
                                  ":toc:  left"%string; ":icons: font"%string]))))
        (qs "attr:toc") = qs "left" /\
  snd (parseDocumentHeader []
         (setInput (lines ["= Doc"%string; "v1.0"%string;
                           ":toc:  left"%string; ":icons: font"%string])))
  = mkState [] 5.
Proof.
  refine (@header_attribute_entry [] (Some (classify (qs "= Doc") 1)) []
            None [] (Some (classify (qs "v1.0") 2)) []
            [] (classify (qs ":toc:  left") 3) [classify (qs ":icons: font") 4] [] 5
            (qs "toc") (qs "  left") _ _ _ _ _ _ _ _ _ _ _).
  - split; reflexivity.
  - exact I.
  - split; reflexivity.
  - reflexivity.
  - reflexivity.
  - reflexivity.
  - constructor.
  - repeat split; try reflexivity; try discriminate.
    cbn. intros H. repeat (destruct H as [H | H]; [discriminate H|]). exact H.
  - constructor; [|constructor]. exists (qs "icons"), (qs " font").
    repeat split; try reflexivity; try discriminate.
    cbn. intros H. repeat (destruct H as [H | H]; [discriminate H|]). exact H.
  - discriminate.
  - discriminate.
Defined.

(** ** X28: the lines of a paragraph

    On a run of text lines of which the first does not start with a
    white space character, followed by a token that is no text line,
    [Parser::parseParagraphOrLiteral] returns a paragraph at the first
    line whose children are the inline content of the trimmed lines
    joined by single spaces, all of it placed at the first line; it has
    taken exactly the lines of the run.  Lines after the first may be
    indented: they are trimmed like the others. *)
Theorem paragraph_lines (m : option BlockMeta) (t : LineTok)
    (l rest : list LineTok) (e : Z) :
  Forall textLine (t :: l) ->
  isEmpty (raw t) || negb (isSpace (at_ (raw t) 0)) = true ->
  kindOfFirst rest <> T_TEXT ->
  parseParagraphOrLiteral m (mkState (t :: l ++ rest) e) =
  Ok (Some (setChildren (blockAt K_Paragraph (lineNo t) m)
              (inlineNodes (join (map (fun x => trimmed (raw x)) (t :: l))
                                 (qs " "))
                           (lineNo t))),
      mkState rest e).
Proof. apply paragraph_run. Qed.

Lemma paragraph_lines_witness :
  parseParagraphOrLiteral None
    (mkState (classifyLines [qs "one "; qs "  two"; []; qs "three"] 0) 5) =
  Ok (Some (paragraphOf 1 [textOf 1 "one two"]),
      mkState (classifyLines [[]; qs "three"] 2) 5).
Proof.
  apply (@paragraph_lines None (classify (qs "one ") 1)
           [classify (qs "  two") 2] (classifyLines [[]; qs "three"] 2) 5).
  - repeat constructor; discriminate.
  - reflexivity.
  - discriminate.
Defined.

(** ** X29: a container block without content

    A quote, example, sidebar or open block whose closing fence follows
    the opening fence directly is parsed to a delimited block without
    children, and the generator, which tells container blocks from raw
    blocks by their children, writes it as a raw block with empty text
    (the call of [#raw] with the empty string literal and
    [block: true]), and not as an empty [#block]. *)
Theorem empty_container (rec : State -> Res (option Node * State)) (n : nat)
    (m : option BlockMeta) (open close : LineTok) (rest : list LineTok)
    (e : Z) (opts : Options) (shift : Z) :
  containerFence (Lexer.kind open) = true ->
  Lexer.kind close = Lexer.kind open ->
  exists b,
    parseDelimited rec (S n) m (mkState (open :: close :: rest) e)
      = Ok (Some b, mkState rest e) /\
    children b = [] /\
    emitNode opts b shift
      = Out (qs "#raw(" ++ [dquote] ++ [dquote] ++ qs ", block: true)"
             ++ [newline]).
Proof.
  intros Hk Hc. unfold parseDelimited.
  set (st := mkState (open :: close :: rest) e).
  assert (K0 : laKind st 0 = Lexer.kind open) by reflexivity.
  assert (K1 : laKind (snd (take st)) 0 = Lexer.kind open) by exact Hc.
  assert (T1 : snd (take (snd (take st))) = mkState rest e) by reflexivity.
  rewrite K0. unfold containerFence in Hk.
  destruct (Lexer.kind open) eqn:K; try discriminate Hk;
    cbn [keq kindCode Z.eqb Pos.eqb orb]; cbv iota beta zeta;
    rewrite K0; unfold take at 1; cbv iota beta zeta;
    cbn [keq kindCode Z.eqb Pos.eqb orb containerBody];
    change (mkState (tl (toks st)) (eofLine st)) with (snd (take st));
    rewrite K1; cbn [keq kindCode Z.eqb Pos.eqb negb]; rewrite andb_false_r;
    cbn [bind]; unfold expect, accept; rewrite K1;
    cbn [keq kindCode Z.eqb Pos.eqb bind]; rewrite T1;
    (eexists; split; [reflexivity|]; split; [reflexivity|]);
    rewrite emitNode_eq; reflexivity.
Qed.

Lemma empty_container_witness :
  exists b,
    parseDelimited (parseBlock 0) 1 None
      (mkState (classifyLines [qs "===="; qs "===="; qs "after"] 0) 4)
      = Ok (Some b, mkState (classifyLines [qs "after"] 2) 4) /\
    children b = [] /\
    emitNode defaultOptions b 0
      = Out (qs "#raw(" ++ [dquote] ++ [dquote] ++ qs ", block: true)"
             ++ [newline]).
Proof.
  apply (@empty_container (parseBlock 0) 0 None (classify (qs "====") 1)
           (classify (qs "====") 2) (classifyLines [qs "after"] 2) 4
           defaultOptions 0); reflexivity.
Defined.

(** ** X30: a text of plain paragraphs, from the text to the output

    A text of paragraphs of plain text lines, an empty line between two
    paragraphs: every line is a text line for the lexer and holds none
    of the characters that can start an inline element, the first line
    of a paragraph is not indented, and the first line of the text does
    not start with [v] (the header would take it for the revision
    line).  [Parser::parse] returns a Document with one Paragraph for
    each paragraph of the text, placed at its first line, whose only
    child is a Text node with the trimmed lines joined by single
    spaces; and [TypstGenerator::generate] writes for this tree the
    preamble and then, for each paragraph, its escaped text followed by
    an empty line. *)
Theorem plain_document (opts : Options) (ps : list (list QString))
    (pre : QString) (fuel : nat) :
  ps <> [] -> Forall plainLines ps ->
  startsWith (trimmed (hd [] (hd [] ps))) (qs "v") = false ->
  emitPreamble opts = Out pre ->
  (length ps < fuel)%nat ->
  parse fuel (join (paragraphText ps) [newline]) = Ok (docOf (paragraphsAt 0 ps)) /\
  generate opts (docOf (paragraphsAt 0 ps))
  = Out (pre ++ concat (map (fun p => escText (flowed p) ++ [newline; newline]) ps)).
Proof.
  intros Hne H V P Hf. split.
  - apply parse_paragraphs; assumption.
  - apply generate_paragraphs; exact P.
Qed.

Lemma plain_document_witness :
  match emitPreamble defaultOptions with
  | Out pre =>
      parse 3 (lines ["Hello world,"%string; "  1 > 0 holds."%string; EmptyString;
                      "Second one"%string])
      = Ok (docOf [plainParagraph 1 (qs "Hello world, 1 > 0 holds.");
                   plainParagraph 4 (qs "Second one")]) /\
      generate defaultOptions
        (docOf [plainParagraph 1 (qs "Hello world, 1 > 0 holds.");
                plainParagraph 4 (qs "Second one")])
      = Out (pre ++ qs "Hello world, 1 \> 0 holds." ++ [newline; newline]
                 ++ qs "Second one" ++ [newline; newline])
  | Failed _ => False
  end.
Proof.
  destruct (emitPreamble defaultOptions) as [pre|err] eqn:E;
    [|vm_compute in E; discriminate E].
  apply (@plain_document defaultOptions
           [[qs "Hello world,"; qs "  1 > 0 holds."]; [qs "Second one"]] pre 3).
  - discriminate.
  - repeat constructor; try reflexivity; try discriminate;
      try (intros c Hc Hs; cbn in Hc;
           repeat (destruct Hc as [<- | Hc];
                   [cbn in Hs; repeat (destruct Hs as [Hs | Hs]; [discriminate Hs|]);
                    exact Hs|]);
           exact Hc);
      (cbn; intros Hs; repeat (destruct Hs as [Hs | Hs]; [discriminate Hs|]);
       exact Hs).
  - reflexivity.
  - exact E.
  - cbn. lia.
Defined.
